(** * Sample mixer: a shallow embedding of [synthesizer/sample.py]

    The development follows the Python module top-down:

    - raw frame buffers are [list byte]; sample values are little-endian
      two's-complement integers of [samplewidth] bytes (the module byte-swaps
      on big-endian hosts, so the little-endian layout is the canonical one);
    - the [audioop] kernel the module calls is written out from its
      documented behaviour (parameter checks, clipping, rounding);
    - a Python float is a rational, so float values live in [Q]; every float
      operation is the exact operation followed by the rounding [rnd] of a
      [Rounding] instance.  The theorems hold for every rounding function of
      the standard model (monotone, idempotent, exact on integers below
      [2^53], relative error at most [2^-53]); [binary64], the rounding of
      the doubles to nearest with ties to even, is one of them, and [exact]
      is the instance with no rounding.  Infinities and NaN are outside the
      model, and the conversion of an integer to a float is taken as exact;
    - [int(x)] is truncation toward zero;
    - a method of [Sample] is a state transformer on the receiver that may
      raise: the receiver's state at the moment of the exception is kept, as
      Python keeps the partially updated object. *)

From Stdlib Require Import ZArith QArith Qround Qabs Qpower List Bool Lia Lqa.
From Stdlib.Strings Require Import Byte.
From Stdlib Require String.
Import ListNotations.
Local Open Scope Z_scope.

(** ** Bytes and integers *)

Module Bytes.

Definition byte_to_Z (b : byte) : Z := Z.of_N (Byte.to_N b).

Definition byte_of_Z (z : Z) : byte :=
  match Byte.of_N (Z.to_N (z mod 256)) with
  | Some b => b
  | None => x00
  end.

(** [len] is Python's [len] on a sequence. *)
Definition len {A} (l : list A) : Z := Z.of_nat (length l).

(** [b"\0" * k]: a negative count gives the empty buffer. *)
Definition zeros (k : Z) : list byte := repeat x00 (Z.to_nat k).

(** Unsigned little-endian value of a run of bytes. *)
Fixpoint le_unsigned (bs : list byte) : Z :=
  match bs with
  | [] => 0
  | b :: t => byte_to_Z b + 256 * le_unsigned t
  end.

(** Reinterpretation of an unsigned [8*w]-bit value as two's complement. *)
Definition to_signed (w : Z) (u : Z) : Z :=
  if u <? 2 ^ (8 * w - 1) then u else u - 2 ^ (8 * w).

(** The [n] low bytes of [v], least significant first. *)
Fixpoint le_bytes (n : nat) (v : Z) : list byte :=
  match n with
  | O => []
  | S n' => byte_of_Z v :: le_bytes n' (v / 256)
  end.

(** Python slice indices: a negative index counts from the end, and both ends
    are clamped to the sequence. *)
Definition norm_idx (n i : Z) : Z :=
  if i <? 0 then Z.max 0 (n + i) else Z.min i n.

(** [l[a:b]] *)
Definition slice {A} (l : list A) (a b : Z) : list A :=
  let a' := norm_idx (len l) a in
  let b' := norm_idx (len l) b in
  firstn (Z.to_nat (b' - a')) (skipn (Z.to_nat a') l).

(** [l[:b]] *)
Definition slice_to {A} (l : list A) (b : Z) : list A :=
  firstn (Z.to_nat (norm_idx (len l) b)) l.

(** [l[a:]] *)
Definition slice_from {A} (l : list A) (a : Z) : list A :=
  skipn (Z.to_nat (norm_idx (len l) a)) l.

(** [a == b] on two byte strings. *)
Fixpoint bytes_eqb (a b : list byte) : bool :=
  match a, b with
  | [], [] => true
  | x :: a', y :: b' => Byte.eqb x y && bytes_eqb a' b'
  | _, _ => false
  end.

End Bytes.
Import Bytes.

(** ** Exceptions and results *)

(** The module signals misuse with [assert]; the assertion on the lock flag is
    kept apart from the others so that statements about locking can name it. *)
Inductive exn : Set :=
| LockedAssertion      (* assert not self.__locked *)
| AssertionError       (* any other assert *)
| AudioopError         (* audioop.error *)
| KeyError             (* samplewidths_to_arraycode[...] *)
| OverflowError        (* array.append of a value outside the item type *)
| ZeroDivisionError
| ValueError.

Inductive result (A : Type) : Type :=
| Ok (a : A)
| Raise (e : exn).
Arguments Ok {A} a.
Arguments Raise {A} e.

Definition rbind {A B} (r : result A) (k : A -> result B) : result B :=
  match r with
  | Ok a => k a
  | Raise e => Raise e
  end.

Declare Scope result_scope.
Delimit Scope result_scope with result.
Notation "x <-r c ;; k" := (rbind c (fun x => k))
  (at level 61, c at next level, right associativity) : result_scope.

(** ** Rational helpers standing for float operations *)

Module Float.

Definition Qltb (x y : Q) : bool := negb (Qle_bool y x).

(** [int(x)]: truncation toward zero. *)
Definition Qtrunc (x : Q) : Z := Z.quot (Qnum x) (Zpos (Qden x)).

(** Python's [min(a, b)] returns [b] only when [b < a]. *)
Definition pymin (a b : Q) : Q := if Qltb b a then b else a.

(** Python's [max(a, b)] returns [b] only when [b > a]. *)
Definition pymax (a b : Q) : Q := if Qltb a b then b else a.

(** Rounding to the nearest float. *)
Class Rounding : Type := { rnd : Q -> Q }.

(** Arithmetic without rounding, for evaluations on concrete inputs whose
    values binary64 represents exactly. *)
Definition exact : Rounding := {| rnd := fun x => x |}.

(** Binary64 on the numbers within its range: rounding to the nearest number
    of 53 significant bits, a tie going to the even one.  [Qlog2 x] is the
    exponent [e] of [x], with [2^e <= |x| < 2^(e+1)]; below [2^-1022] the
    spacing is that of the subnormal numbers.  No number is too large here:
    the infinities are not among the values. *)
Definition Qpow2 (e : Z) : Q :=
  if 0 <=? e then inject_Z (2 ^ e) else 1 / inject_Z (2 ^ (- e)).

Definition Qlog2 (x : Q) : Z :=
  let k := Z.log2 (Z.abs (Qnum x)) - Z.log2 (Zpos (Qden x)) in
  if Qle_bool (Qpow2 k) (Qabs x) then k else k - 1.

Definition round_even (x : Q) : Z :=
  let f := Qfloor x in
  let r := (x - inject_Z f)%Q in
  if Qltb r (1 # 2) then f
  else if Qltb (1 # 2) r then f + 1
  else if Z.even f then f else f + 1.

(** The spacing of binary64 around a number. *)
Definition ulp (x : Q) : Q := Qpow2 (Z.max (Qlog2 x) (-1022) - 52).

Definition rnd64 (x : Q) : Q :=
  if Qeq_bool x 0 then 0%Q
  else (inject_Z (round_even (x / ulp x)) * ulp x)%Q.

Definition binary64 : Rounding := {| rnd := rnd64 |}.

(** The square root of the C library on binary64: the root, rounded to the
    nearest number of 53 significant bits.  ([audioop.rms] takes the root of
    numbers that are not negative only.) *)
Definition sqrt64 (x : Q) : Q :=
  if Qle_bool x 0 then 0%Q
  else let ulp := Qpow2 (Qlog2 x / 2 - 52) in
       let y := (x / (ulp * ulp))%Q in
       let m := Z.sqrt (Qfloor y) in
       let half := (inject_Z m + (1 # 2))%Q in
       let up := if Qltb y (half * half) then false
                 else if Qltb (half * half) y then true
                 else Z.odd m in
       (inject_Z (if up then m + 1 else m) * ulp)%Q.

Section Arithmetic.
Context {FR : Rounding}.

Definition fadd (x y : Q) : Q := rnd (x + y).
Definition fsub (x y : Q) : Q := rnd (x - y).
Definition fmul (x y : Q) : Q := rnd (x * y).
Definition fdiv (x y : Q) : Q := rnd (x / y).

End Arithmetic.

(** The standard model of rounding to nearest.  The error bound is asked only
    where binary64 has its full precision. *)
Definition eps : Q := 1 / inject_Z (2 ^ 53).
Definition tiny : Q := 1 / inject_Z (2 ^ 1022).
Definition huge : Q := inject_Z (2 ^ 1023).

Class StandardModel (FR : Rounding) : Prop := {
  rnd_proper : forall x y, (x == y)%Q -> (rnd x == rnd y)%Q;
  rnd_mono : forall x y, (x <= y)%Q -> (rnd x <= rnd y)%Q;
  rnd_idem : forall x, (rnd (rnd x) == rnd x)%Q;
  rnd_int : forall z, Z.abs z <= 2 ^ 53 -> (rnd (inject_Z z) == inject_Z z)%Q;
  rnd_err : forall x, (tiny <= Qabs x)%Q -> (Qabs x <= huge)%Q ->
                      (Qabs (rnd x - x) <= Qabs x * eps)%Q
}.

End Float.
Import Float.

(** ** The audioop kernel *)

Module audioop.

Section Kernel.
Context {FR : Rounding}.

Definition maxval (w : Z) : Z := 2 ^ (8 * w - 1) - 1.
Definition minval (w : Z) : Z := - 2 ^ (8 * w - 1).

(** [audioop_check_size] and [audioop_check_parameters]. *)
Definition check_size (size : Z) : result unit :=
  if (1 <=? size) && (size <=? 4) then Ok tt else Raise AudioopError.

Definition check_parameters (length size : Z) : result unit :=
  (_ <-r check_size size ;;
   if length mod size =? 0 then Ok tt else Raise AudioopError)%result.

(** [GETRAWSAMPLE(size, buf, i)] for the sample with index [i]. *)
Definition rawsample (w : Z) (frag : list byte) (i : nat) : Z :=
  to_signed w (le_unsigned (firstn (Z.to_nat w) (skipn (i * Z.to_nat w) frag))).

(** All sample values of a fragment, in order. *)
Definition samples (w : Z) (frag : list byte) : list Z :=
  map (rawsample w frag) (seq 0 (Z.to_nat (len frag / w))).

(** [SETRAWSAMPLE] over a whole output buffer. *)
Definition frombuf (w : Z) (vals : list Z) : list byte :=
  flat_map (le_bytes (Z.to_nat w)) vals.

(** [fbound]: clip to the sample range, then round toward minus infinity. *)
Definition fbound (val : Q) (lo hi : Z) : Z :=
  if Qltb (inject_Z hi) val then hi
  else if Qltb val (inject_Z lo + 1) then lo
  else Qfloor val.

Definition getsample (frag : list byte) (w : Z) (index : Z) : result Z :=
  (_ <-r check_parameters (len frag) w ;;
   if (index <? 0) || (len frag / w <=? index) then Raise AudioopError
   else Ok (rawsample w frag (Z.to_nat index)))%result.

(** [audioop.max]: the largest absolute sample value, 0 for an empty fragment. *)
Definition max (frag : list byte) (w : Z) : result Z :=
  (_ <-r check_parameters (len frag) w ;;
   Ok (fold_left Z.max (map Z.abs (samples w frag)) 0))%result.

(** [audioop.rms]: the squares are summed in a C double, in the order of the
    samples; the mean and its root are taken in doubles, and the root is cast
    to an unsigned int.  [sqrt] is the square root of the C library. *)
Definition sum_squares (vals : list Z) : Q :=
  fold_left (fun acc v => fadd acc (fmul (inject_Z v) (inject_Z v))) vals 0%Q.

Definition rms (sqrt : Q -> Q) (frag : list byte) (w : Z) : result Z :=
  (_ <-r check_parameters (len frag) w ;;
   if len frag =? 0 then Ok 0
   else Ok (Qtrunc (sqrt (fdiv (sum_squares (samples w frag))
                               (inject_Z (len frag / w))))))%result.

Definition mul (frag : list byte) (w : Z) (factor : Q) : result (list byte) :=
  (_ <-r check_parameters (len frag) w ;;
   Ok (frombuf w
         (map (fun v => fbound (fmul (inject_Z v) factor) (minval w) (maxval w))
              (samples w frag))))%result.

(** Saturating addition of two sample values. *)
Definition clip_add (w : Z) (a b : Z) : Z :=
  Z.max (minval w) (Z.min (maxval w) (a + b)).

Definition add (frag1 frag2 : list byte) (w : Z) : result (list byte) :=
  (_ <-r check_parameters (len frag1) w ;;
   if len frag1 =? len frag2
   then Ok (frombuf w (map (fun p => clip_add w (fst p) (snd p))
                           (combine (samples w frag1) (samples w frag2))))
   else Raise AudioopError)%result.

(** Pairs of consecutive values: the left and right channel of each frame. *)
Fixpoint frames_lr (vals : list Z) : list (Z * Z) :=
  match vals with
  | l :: r :: t => (l, r) :: frames_lr t
  | _ => []
  end.

Definition tomono (frag : list byte) (w : Z) (lfactor rfactor : Q)
  : result (list byte) :=
  (_ <-r check_parameters (len frag) w ;;
   if (len frag / w) mod 2 =? 0
   then Ok (frombuf w
              (map (fun p => fbound (fadd (fmul (inject_Z (fst p)) lfactor)
                                          (fmul (inject_Z (snd p)) rfactor))
                                    (minval w) (maxval w))
                   (frames_lr (samples w frag))))
   else Raise AudioopError)%result.

Definition tostereo (frag : list byte) (w : Z) (lfactor rfactor : Q)
  : result (list byte) :=
  (_ <-r check_parameters (len frag) w ;;
   Ok (frombuf w
         (flat_map (fun v => [fbound (fmul (inject_Z v) lfactor) (minval w) (maxval w);
                              fbound (fmul (inject_Z v) rfactor) (minval w) (maxval w)])
                   (samples w frag))))%result.

(** [lin2lin]: the value is aligned to 32 bits and its top [w2] bytes kept. *)
Definition lin2lin (frag : list byte) (w w2 : Z) : result (list byte) :=
  (_ <-r check_parameters (len frag) w ;;
   _ <-r check_size w2 ;;
   Ok (frombuf w2
         (map (fun v => Z.shiftr (Z.shiftl v (32 - 8 * w)) (32 - 8 * w2))
              (samples w frag))))%result.

Definition reverse (frag : list byte) (w : Z) : result (list byte) :=
  (_ <-r check_parameters (len frag) w ;;
   Ok (frombuf w (rev (samples w frag))))%result.

(** [audioop.bias]: the bias is read as a C [int], before the fragment is
    checked; the sum wraps around in the width of the sample. *)
Definition bias (frag : list byte) (w : Z) (b : Z) : result (list byte) :=
  if (b <? - 2 ^ 31) || (2 ^ 31 <=? b) then Raise OverflowError
  else
    (_ <-r check_parameters (len frag) w ;;
     Ok (frombuf w (map (fun v => to_signed w ((v + b) mod 2 ^ (8 * w)))
                        (samples w frag))))%result.

End Kernel.

End audioop.

(** ** The [array] module, as far as [Sample] uses it *)

Module array.

(** [samplewidths_to_arraycode] composed with the item size of the type code:
    ['b'], ['h'] and, for width 4, ['i'] (the module selects ['i'] when the C
    [int] has four bytes).  There is no entry for width 3. *)
Definition itemsize_of_width (w : Z) : result Z :=
  if w =? 1 then Ok 1
  else if w =? 2 then Ok 2
  else if w =? 4 then Ok 4
  else Raise KeyError.

(** [array.append]: the value has to fit the signed item type. *)
Definition checked_item (itemsize : Z) (v : Z) : result Z :=
  if (audioop.minval itemsize <=? v) && (v <=? audioop.maxval itemsize)
  then Ok v else Raise OverflowError.

(** [array.tobytes] on a little-endian host. *)
Definition tobytes (itemsize : Z) (vals : list Z) : list byte :=
  audioop.frombuf itemsize vals.

(** [array.array(code, b)] on a bytes object, on a little-endian host: the
    length has to be a multiple of the item size. *)
Definition frombytes (itemsize : Z) (bs : list byte) : result (list Z) :=
  if len bs mod itemsize =? 0 then Ok (audioop.samples itemsize bs)
  else Raise ValueError.

End array.

(** Sequential evaluation of a loop body over a list, stopping at the first
    exception. *)
Fixpoint mapM {A B} (f : A -> result B) (l : list A) : result (list B) :=
  match l with
  | [] => Ok []
  | a :: t =>
      (b <-r f a ;;
       bs <-r mapM f t ;;
       Ok (b :: bs))%result
  end.

(** [range(n)] *)
Definition range (n : Z) : list Z := map Z.of_nat (seq 0 (Z.to_nat n)).

(** ** The [Sample] class *)

Module Sample.

Record t : Type := mkSample {
  frames : list byte;
  samplewidth : Z;
  samplerate : Z;
  nchannels : Z;
  locked : bool;
  filename : option String.string
}.

Definition with_frames (f : list byte) (s : t) : t :=
  mkSample f (samplewidth s) (samplerate s) (nchannels s) (locked s) (filename s).
Definition with_samplewidth (w : Z) (s : t) : t :=
  mkSample (frames s) w (samplerate s) (nchannels s) (locked s) (filename s).
Definition with_samplerate (r : Z) (s : t) : t :=
  mkSample (frames s) (samplewidth s) r (nchannels s) (locked s) (filename s).
Definition with_nchannels (n : Z) (s : t) : t :=
  mkSample (frames s) (samplewidth s) (samplerate s) n (locked s) (filename s).
Definition with_locked (b : bool) (s : t) : t :=
  mkSample (frames s) (samplewidth s) (samplerate s) (nchannels s) b (filename s).

(** A method: it runs on the receiver, may update it, and returns a value or
    raises.  The receiver after the call is the first component in both
    cases. *)
Definition M (A : Type) : Type := t -> t * result A.

Definition ret {A} (a : A) : M A := fun s => (s, Ok a).
Definition raise {A} (e : exn) : M A := fun s => (s, Raise e).
Definition bind {A B} (m : M A) (k : A -> M B) : M B :=
  fun s =>
    match m s with
    | (s', Ok a) => k a s'
    | (s', Raise e) => (s', Raise e)
    end.
Definition get : M t := fun s => (s, Ok s).
Definition modify (f : t -> t) : M unit := fun s => (f s, Ok tt).
Definition lift {A} (r : result A) : M A := fun s => (s, r).
Definition assert (b : bool) : M unit :=
  if b then ret tt else raise AssertionError.

(** A method call [o.m(...)] on an object other than the receiver: the value
    is the object after the call together with what the call returned. *)
Definition on {A} (o : t) (m : M A) : M (t * A) :=
  fun s =>
    match m o with
    | (o', Ok a) => (s, Ok (o', a))
    | (_, Raise e) => (s, Raise e)
    end.

Declare Scope method_scope.
Delimit Scope method_scope with method.
Notation "x <- c ;; k" := (bind c (fun x => k))
  (at level 61, c at next level, right associativity) : method_scope.
Notation "c ;; k" := (bind c (fun _ => k))
  (at level 61, right associativity) : method_scope.
Local Open Scope method_scope.

Section Methods.
Context {FR : Rounding}.

Definition norm_samplerate : Z := 44100.
Definition norm_nchannels : Z := 2.
Definition norm_samplewidth : Z := 2.

(** [Sample()] without a wave file. *)
Definition new : t :=
  mkSample [] norm_samplewidth norm_samplerate norm_nchannels false None.

(** [assert not self.__locked] *)
Definition assert_unlocked : M unit :=
  fun s => if locked s then (s, Raise LockedAssertion) else (s, Ok tt).

Definition from_raw_frames (frs : list byte) (width rate numchannels : Z)
  : result t :=
  if negb ((1 <=? numchannels) && (numchannels <=? 2)) then Raise AssertionError
  else if negb ((2 <=? width) && (width <=? 4)) then Raise AssertionError
  else if negb (1 <? rate) then Raise AssertionError
  else Ok (mkSample frs width rate numchannels false None).

(** [from_array] on a Python list: the values go into an array of 16-bit
    items, or of 32-bit items when one of them does not fit. *)
Definition from_array_list (vals : list Z) (rate numchannels : Z)
  : result t :=
  if negb ((1 <=? numchannels) && (numchannels <=? 2)) then Raise AssertionError
  else if negb (1 <? rate) then Raise AssertionError
  else
    match mapM (array.checked_item 2) vals with
    | Ok vs => from_raw_frames (array.tobytes 2 vs) 2 rate numchannels
    | Raise _ =>
        (vs <-r mapM (array.checked_item 4) vals ;;
         from_raw_frames (array.tobytes 4 vs) 4 rate numchannels)%result
    end.

(** The [samplerate] setter. *)
Definition set_samplerate (rate : Q) : M unit :=
  assert (Qltb 0 rate) ;;
  modify (with_samplerate (Qtrunc rate)).

(** The [duration] property: [len(frames) / samplerate / samplewidth / nchannels]
    in true division. *)
Definition duration (s : t) : result Q :=
  if (samplerate s =? 0) || (samplewidth s =? 0) || (nchannels s =? 0)
  then Raise ZeroDivisionError
  else Ok (fdiv (fdiv (fdiv (inject_Z (len (frames s))) (inject_Z (samplerate s)))
                      (inject_Z (samplewidth s)))
                (inject_Z (nchannels s))).

(** [__len__]: the number of frames, in floor division. *)
Definition length (s : t) : result Z :=
  if (samplewidth s =? 0) || (nchannels s =? 0) then Raise ZeroDivisionError
  else Ok (len (frames s) / samplewidth s / nchannels s).

Definition maximum (s : t) : result Z :=
  audioop.max (frames s) (samplewidth s).

Definition copy_from (other : t) : M unit :=
  assert_unlocked ;;
  modify (fun s => mkSample (frames other) (samplewidth other) (samplerate other)
                            (nchannels other) (locked s) (filename other)).

Definition copy (s : t) : result t :=
  match copy_from s new with
  | (cpy, Ok _) => Ok cpy
  | (_, Raise e) => Raise e
  end.

Definition lock : M unit := modify (with_locked true).

(** [frame_idx]: the value of
    [self.nchannels*self.samplewidth*int(self.samplerate*seconds)] when the
    float product is finite.  Where the product is beyond the doubles it is
    infinite in Python and [int()] raises OverflowError; infinities are not
    among the values of this model, and the statements that a method which
    takes a time returns are made for the times of [indexable] below. *)
Definition frame_idx (s : t) (seconds : Q) : Z :=
  nchannels s * samplewidth s * Qtrunc (fmul (inject_Z (samplerate s)) seconds).

(** [if other_seconds:] on an optional number. *)
Definition truthy_seconds (o : option Q) : bool :=
  match o with
  | None => false
  | Some q => negb (Qeq_bool q 0)
  end.

(** The frames of [other], cut at [other_seconds] when that is given. *)
Definition limited_frames (other : t) (other_seconds : option Q) : list byte :=
  match other_seconds with
  | Some q =>
      if truthy_seconds (Some q)
      then slice_to (frames other) (frame_idx other q)
      else frames other
  | None => frames other
  end.

Definition amplify_max : M unit :=
  assert_unlocked ;;
  s <- get ;;
  max_amp <- lift (audioop.max (frames s) (samplewidth s)) ;;
  let max_target := 2 ^ (8 * samplewidth s - 1) - 2 in
  if 0 <? max_amp then
    let factor := fdiv (inject_Z max_target) (inject_Z max_amp) in
    f <- lift (audioop.mul (frames s) (samplewidth s) factor) ;;
    modify (with_frames f)
  else ret tt.

Definition amplify (factor : Q) : M unit :=
  assert_unlocked ;;
  s <- get ;;
  f <- lift (audioop.mul (frames s) (samplewidth s) factor) ;;
  modify (with_frames f).

(** [at_volume] returns the amplified copy; the receiver is not written. *)
Definition at_volume (volume : Q) : M t :=
  s <- get ;;
  cpy <- lift (copy s) ;;
  r <- on cpy (amplify volume) ;;
  ret (fst r).

Definition clip (start_seconds end_seconds : Q) : M unit :=
  assert_unlocked ;;
  assert (Qltb start_seconds end_seconds) ;;
  s <- get ;;
  let start := frame_idx s start_seconds in
  let end_ := frame_idx s end_seconds in
  modify (with_frames (slice (frames s) start end_)).

(** [split] keeps the first part in the receiver and returns the rest. *)
Definition split (seconds : Q) : M t :=
  assert_unlocked ;;
  s <- get ;;
  let end_ := frame_idx s seconds in
  if negb (end_ =? len (frames s)) then
    chopped <- lift (copy s) ;;
    modify (with_frames (slice_to (frames s) end_)) ;;
    ret (with_frames (slice_from (frames s) end_) chopped)
  else
    lift (from_raw_frames [] (samplewidth s) (samplerate s) (nchannels s)).

Definition add_silence (seconds : Q) (at_start : bool) : M unit :=
  assert_unlocked ;;
  s <- get ;;
  let required_extra := frame_idx s seconds in
  if at_start
  then modify (with_frames (zeros required_extra ++ frames s))
  else modify (with_frames (frames s ++ zeros required_extra)).

Definition join (other : t) : M unit :=
  assert_unlocked ;;
  s <- get ;;
  assert (samplewidth s =? samplewidth other) ;;
  assert (samplerate s =? samplerate other) ;;
  assert (nchannels s =? nchannels other) ;;
  modify (with_frames (frames s ++ frames other)).

(** The loop shared by the two fades: every sample value of [chunk] is
    scaled by the amplitude of its index, truncated, and appended to an array
    of the sample's item type. *)
Definition fade_chunk (chunk : list byte) (w itemsize : Z) (numsamples : Q)
           (amplitude : Z -> Q) : result (list byte) :=
  (vals <-r mapM (fun i =>
                    s <-r audioop.getsample chunk w i ;;
                    array.checked_item itemsize
                      (Qtrunc (fmul (inject_Z s) (amplitude i))))
                 (range (Qtrunc numsamples)) ;;
   Ok (array.tobytes itemsize vals))%result.

Definition fadeout (seconds target_volume : Q) : M unit :=
  assert_unlocked ;;
  s <- get ;;
  itemsize <- lift (array.itemsize_of_width (samplewidth s)) ;;
  dur <- lift (duration s) ;;
  let seconds := pymin seconds dur in
  let i := frame_idx s (fsub dur seconds) in
  let begin_ := slice_to (frames s) i in
  let end_ := slice_from (frames s) i in
  let numsamples := fdiv (inject_Z (len end_)) (inject_Z (samplewidth s)) in
  let decrease := fsub 1 target_volume in
  faded <- lift (fade_chunk end_ (samplewidth s) itemsize numsamples
                   (fun i => fsub 1 (fmul (fdiv (inject_Z i) numsamples)
                                          decrease))) ;;
  modify (with_frames (begin_ ++ faded)).

Definition fadein (seconds start_volume : Q) : M unit :=
  assert_unlocked ;;
  s <- get ;;
  itemsize <- lift (array.itemsize_of_width (samplewidth s)) ;;
  dur <- lift (duration s) ;;
  let seconds := pymin seconds dur in
  let i := frame_idx s seconds in
  let begin_ := slice_to (frames s) i in
  let end_ := slice_from (frames s) i in
  let numsamples := fdiv (inject_Z (len begin_)) (inject_Z (samplewidth s)) in
  let increase := fsub 1 start_volume in
  faded <- lift (fade_chunk begin_ (samplewidth s) itemsize numsamples
                   (fun i => fadd (fdiv (fmul (inject_Z i) increase) numsamples)
                                  start_volume)) ;;
  modify (with_frames (faded ++ end_)).

Definition reverse : M unit :=
  assert_unlocked ;;
  s <- get ;;
  f <- lift (audioop.reverse (frames s) (samplewidth s)) ;;
  modify (with_frames f).

Definition invert : M unit :=
  assert_unlocked ;;
  amplify (-1).

Definition delay (seconds : Q) (keep_length : bool) : M unit :=
  assert_unlocked ;;
  s <- get ;;
  if Qltb 0 seconds then
    if keep_length then
      let num_frames := len (frames s) in
      add_silence seconds true ;;
      modify (fun s => with_frames (slice_to (frames s) num_frames) s)
    else add_silence seconds true
  else if Qltb seconds 0 then
    let seconds := (- seconds)%Q in
    if keep_length then
      let num_frames := len (frames s) in
      add_silence seconds false ;;
      modify (fun s => with_frames
                         (slice_from (frames s) (len (frames s) - num_frames)) s)
    else modify (with_frames (slice_from (frames s) (frame_idx s seconds)))
  else ret tt.

Definition mix (other : t) (other_seconds : option Q) (pad_shortest : bool)
  : M unit :=
  assert_unlocked ;;
  s <- get ;;
  assert (samplewidth s =? samplewidth other) ;;
  assert (samplerate s =? samplerate other) ;;
  assert (nchannels s =? nchannels other) ;;
  let frames1 := frames s in
  let frames2 := limited_frames other other_seconds in
  let padded :=
    if pad_shortest then
      if len frames1 <? len frames2
      then (frames1 ++ zeros (len frames2 - len frames1), frames2)
      else if len frames2 <? len frames1
      then (frames1, frames2 ++ zeros (len frames1 - len frames2))
      else (frames1, frames2)
    else (frames1, frames2) in
  f <- lift (audioop.add (fst padded) (snd padded) (samplewidth s)) ;;
  modify (with_frames f).

Definition _mix_grow_if_needed (start_frame_idx other_length : Z) : M unit :=
  s <- get ;;
  let required_length := start_frame_idx + other_length in
  if len (frames s) <? required_length
  then modify (with_frames (frames s ++ zeros (required_length - len (frames s))))
  else ret tt.

Definition _mix_split_frames (other_frames_length start_frame_idx : Z)
  : M (list byte * list byte * list byte) :=
  _mix_grow_if_needed start_frame_idx other_frames_length ;;
  s <- get ;;
  let pre := slice_to (frames s) start_frame_idx in
  let to_mix := slice (frames s) start_frame_idx
                      (start_frame_idx + other_frames_length) in
  let post := slice_from (frames s) (start_frame_idx + other_frames_length) in
  ret (pre, to_mix, post).

Definition _mix_join_frames (pre mid post : list byte) : list byte :=
  pre ++ mid ++ post.

(** [mix_at].  Between the split and the join the Python object holds no
    buffer ([None]); the record keeps the grown buffer there, which differs
    only in the state left behind when [audioop.add] raises. *)
Definition mix_at (seconds : Q) (other : t) (other_seconds : option Q)
  : M unit :=
  if Qeq_bool seconds 0 then mix other other_seconds true
  else
    assert_unlocked ;;
    s <- get ;;
    assert (samplewidth s =? samplewidth other) ;;
    assert (samplerate s =? samplerate other) ;;
    assert (nchannels s =? nchannels other) ;;
    let start_frame_idx := frame_idx s seconds in
    let other_frames := limited_frames other other_seconds in
    parts <- _mix_split_frames (len other_frames) start_frame_idx ;;
    let '(pre, to_mix, post) := parts in
    mixed <- lift (audioop.add to_mix other_frames (samplewidth s)) ;;
    modify (with_frames (_mix_join_frames pre mixed post)).

(** [echo]: the loop runs at most [amount] times and stops as soon as the
    echo is below one quantisation step. *)
Fixpoint echo_loop (amount : nat) (length echo_amp delay decay : Q) (echo : t)
  : M unit :=
  match amount with
  | O => ret tt
  | S amount' =>
      s <- get ;;
      if Qltb echo_amp (fdiv 1 (inject_Z (2 ^ (8 * samplewidth s - 1))))
      then ret tt
      else
        let length := fadd length delay in
        cpy <- lift (copy echo) ;;
        r <- on cpy (amplify echo_amp) ;;
        let echo := fst r in
        mix_at length echo None ;;
        echo_loop amount' length (fmul echo_amp decay) delay decay echo
  end.

Definition echo (length : Q) (amount : Z) (delay decay : Q) : M unit :=
  assert_unlocked ;;
  if 0 <? amount then
    s <- get ;;
    dur <- lift (duration s) ;;
    let length := pymax 0 (fsub dur length) in
    cpy <- lift (copy s) ;;
    let echo := with_frames (slice_from (frames s) (frame_idx s length)) cpy in
    echo_loop (Z.to_nat amount) length decay delay decay echo
  else ret tt.

(** [envelope]: the receiver becomes A; D, S and R are separate objects until
    the final joins. *)
Definition envelope (attack decay sustainlevel release : Q) : M unit :=
  assert_unlocked ;;
  assert (Qle_bool 0 attack && Qle_bool 0 decay && Qle_bool 0 release) ;;
  assert (Qle_bool 0 sustainlevel && Qle_bool sustainlevel 1) ;;
  segD <- split attack ;;
  r <- on segD (split decay) ;;
  let '(segD, segS) := r in
  r <- (if Qltb sustainlevel 1
        then on segS (amplify sustainlevel)
        else ret (segS, tt)) ;;
  let segS := fst r in
  Sdur <- lift (duration segS) ;;
  r <- on segS (split (fsub Sdur release)) ;;
  let '(segS, segR) := r in
  (if Qltb 0 attack then fadein attack 0 else ret tt) ;;
  r <- (if Qltb 0 decay
        then on segD (fadeout decay sustainlevel)
        else ret (segD, tt)) ;;
  let segD := fst r in
  r <- (if Qltb 0 release
        then on segR (fadeout release 0)
        else ret (segR, tt)) ;;
  let segR := fst r in
  join segD ;;
  join segS ;;
  join segR.

(** *** Channel conversions *)

Definition mono (left_factor right_factor : Q) : M unit :=
  assert_unlocked ;;
  s <- get ;;
  if nchannels s =? 1 then ret tt
  else if nchannels s =? 2 then
    f <- lift (audioop.tomono (frames s) (samplewidth s)
                              left_factor right_factor) ;;
    modify (fun s => with_nchannels 1 (with_frames f s))
  else raise ValueError.

Definition left : M unit :=
  assert_unlocked ;;
  s <- get ;;
  assert (nchannels s =? 2) ;;
  mono 1 0.

Definition right : M unit :=
  assert_unlocked ;;
  s <- get ;;
  assert (nchannels s =? 2) ;;
  mono 0 1.

(** [stereo] on a receiver that is not stereo: the second and third branch of
    the method.  [stereo_mix] calls [stereo] only on one-channel samples, so
    this is the whole of [stereo] there. *)
Definition stereo_from_mono (left_factor right_factor : Q) : M unit :=
  assert_unlocked ;;
  s <- get ;;
  if nchannels s =? 1 then
    f <- lift (audioop.tostereo (frames s) (samplewidth s)
                                left_factor right_factor) ;;
    modify (fun s => with_nchannels 2 (with_frames f s))
  else raise ValueError.

Inductive channel : Set := L | R.

Definition stereo_mix (other : t) (other_channel : channel)
           (other_mix_factor mix_at_seconds : Q) (other_seconds : option Q)
  : M unit :=
  assert_unlocked ;;
  s <- get ;;
  assert (nchannels other =? 1) ;;
  assert (samplerate other =? samplerate s) ;;
  assert (samplewidth other =? samplewidth s) ;;
  (if nchannels s =? 1 then
     match other_channel with
     | L => stereo_from_mono 0 1
     | R => stereo_from_mono 1 0
     end
   else ret tt) ;;
  other <- lift (copy other) ;;
  r <- on other
          match other_channel with
          | L => stereo_from_mono other_mix_factor 0
          | R => stereo_from_mono 0 other_mix_factor
          end ;;
  mix_at mix_at_seconds (fst r) other_seconds.

Definition stereo (left_factor right_factor : Q) : M unit :=
  assert_unlocked ;;
  s <- get ;;
  if nchannels s =? 2 then
    cpy <- lift (copy s) ;;
    r <- on cpy right ;;
    left ;;
    amplify left_factor ;;
    stereo_mix (fst r) R right_factor 0 None
  else stereo_from_mono left_factor right_factor.

(** [pan] without an LFO. *)
Definition pan (panning : Q) : M unit :=
  assert_unlocked ;;
  stereo (fdiv (fsub 1 panning) 2) (fdiv (fadd 1 panning) 2).

(** *** Width conversions *)

Definition get_32bit_frames (scale_amplitude : bool) (s : t)
  : result (list byte) :=
  if samplewidth s =? 4 then Ok (frames s)
  else
    (f <-r audioop.lin2lin (frames s) (samplewidth s) 4 ;;
     if negb scale_amplitude then
       let factor := fdiv 1 (inject_Z (2 ^ (8 * Z.abs (samplewidth s - 4)))) in
       audioop.mul f 4 factor
     else Ok f)%result.

Definition make_32bit (scale_amplitude : bool) : M unit :=
  assert_unlocked ;;
  s <- get ;;
  f <- lift (get_32bit_frames scale_amplitude s) ;;
  modify (fun s => with_samplewidth 4 (with_frames f s)).

Definition make_16bit (maximize_amplitude : bool) : M unit :=
  assert_unlocked ;;
  s <- get ;;
  assert (2 <=? samplewidth s) ;;
  (if maximize_amplitude then amplify_max else ret tt) ;;
  s <- get ;;
  if 2 <? samplewidth s then
    f <- lift (audioop.lin2lin (frames s) (samplewidth s) 2) ;;
    modify (fun s => with_samplewidth 2 (with_frames f s))
  else ret tt.

(** *** Comparison, arrays of values, bias and amplitude modulation *)

(** [__eq__] against another sample: width, rate, channels and frames; the
    lock flag and the file name are not compared. *)
Definition eqb (s other : t) : bool :=
  (samplewidth s =? samplewidth other) &&
  (samplerate s =? samplerate other) &&
  (nchannels s =? nchannels other) &&
  bytes_eqb (frames s) (frames other).

(** The [rms] property. *)
Definition rms (sqrt : Q -> Q) (s : t) : result Z :=
  audioop.rms sqrt (frames s) (samplewidth s).

(** [get_array(samplewidth, initializer)] on a bytes initializer: the item
    size of the array and its items.  The type code is looked up first. *)
Definition get_array (width : Z) (initializer : list byte)
  : result (Z * list Z) :=
  (itemsize <-r array.itemsize_of_width width ;;
   vals <-r array.frombytes itemsize initializer ;;
   Ok (itemsize, vals))%result.

Definition get_frame_array (s : t) : result (Z * list Z) :=
  get_array (samplewidth s) (frames s).

Definition bias (b : Z) : M unit :=
  assert_unlocked ;;
  s <- get ;;
  f <- lift (audioop.bias (frames s) (samplewidth s) b) ;;
  modify (with_frames f).

(** The modulator of [modulate_amp] when it is a waveform: a sample, or a
    list (of integers here).  The oscillator case is left out. *)
Inductive modulator : Type :=
| ModSample (m : t)
| ModList (l : list Z).

(** [max(seq)] and [min(seq)]: an empty sequence is a [ValueError]. *)
Definition seq_max (l : list Z) : result Z :=
  match l with
  | [] => Raise ValueError
  | x :: rest => Ok (fold_left Z.max rest x)
  end.

Definition seq_min (l : list Z) : result Z :=
  match l with
  | [] => Raise ValueError
  | x :: rest => Ok (fold_left Z.min rest x)
  end.

(** [modulate_amp] with a waveform: the waveform is cycled, and each of its
    values is divided by [biggest] at the moment the loop asks for it.  The
    receiver gets its new frames only after the loop. *)
Definition modulate_amp (modulator : modulator) : M unit :=
  assert_unlocked ;;
  s <- get ;;
  arr <- lift (get_frame_array s) ;;
  let '(itemsize, vals) := arr in
  wave <- lift (match modulator with
                | ModSample m => (a <-r get_frame_array m ;; Ok (snd a))%result
                | ModList l => Ok l
                end) ;;
  hi <- lift (seq_max wave) ;;
  lo <- lift (seq_min wave) ;;
  let biggest := Z.max hi (Z.abs lo) in
  out <- lift (mapM (fun i =>
                       let v := nth (Z.to_nat i) vals 0 in
                       let m := nth (Z.to_nat (i mod len wave)) wave 0 in
                       if biggest =? 0 then Raise ZeroDivisionError
                       else array.checked_item itemsize
                              (Qtrunc (fmul (inject_Z v)
                                            (fdiv (inject_Z m) (inject_Z biggest)))))
                    (range (len vals))) ;;
  modify (with_frames (array.tobytes itemsize out)).

(** *** Rate conversion

    [audioop.ratecv] is a parameter: the methods below only pass buffers
    through it. *)
Section Resampling.

Variable ratecv : list byte -> Z -> Z -> Z -> Z -> result (list byte).

Definition resample (rate : Z) : M unit :=
  assert_unlocked ;;
  s <- get ;;
  if rate =? samplerate s then ret tt
  else
    f <- lift (ratecv (frames s) (samplewidth s) (nchannels s)
                      (samplerate s) rate) ;;
    modify (fun s => with_samplerate rate (with_frames f s)).

Definition speed (speed : Q) : M unit :=
  assert_unlocked ;;
  assert (Qltb 0 speed) ;;
  s <- get ;;
  if Qeq_bool speed 1 then ret tt
  else
    let rate := samplerate s in
    f <- lift (ratecv (frames s) (samplewidth s) (nchannels s)
                      (Qtrunc (fmul (inject_Z (samplerate s)) speed)) rate) ;;
    modify (fun s => with_samplerate rate (with_frames f s)).

Definition normalize : M unit :=
  assert_unlocked ;;
  resample norm_samplerate ;;
  s <- get ;;
  (if negb (samplewidth s =? norm_samplewidth) then
     f <- lift (audioop.lin2lin (frames s) (samplewidth s) norm_samplewidth) ;;
     modify (fun s => with_samplewidth norm_samplewidth (with_frames f s))
   else ret tt) ;;
  s <- get ;;
  if nchannels s =? 1 then
    f <- lift (audioop.tostereo (frames s) (samplewidth s) 1 1) ;;
    modify (fun s => with_nchannels 2 (with_frames f s))
  else ret tt.

End Resampling.

End Methods.

End Sample.

(** ** The playback worker of [Output] *)

Module Output.

(** What the queue holds: a sample, or the [None] that [close] puts. *)
Definition item : Type := option Sample.t.

(** [SoundOutputter]: the device stream is the list of buffers written to it
    so far, the queue is in arrival order.  The capacity of the queue only
    makes [put] wait and is left out. *)
Record SoundOutputter : Type := mkOutputter {
  stream : list (list byte);
  queue : list item
}.

Definition add_to_queue (it : item) (o : SoundOutputter) : SoundOutputter :=
  mkOutputter (stream o) (queue o ++ [it]).

(** [write_frames] *)
Definition write_frames (s : Sample.t) (o : SoundOutputter) : SoundOutputter :=
  mkOutputter (stream o ++ [Sample.frames s]) (queue o).

Record t : Type := mkOutput {
  samplerate : Z;
  samplewidth : Z;
  nchannels : Z;
  outputter : option SoundOutputter;
  supports_streaming : bool
}.

Definition close (out : t) : t :=
  match outputter out with
  | Some o => mkOutput (samplerate out) (samplewidth out) (nchannels out)
                       (Some (add_to_queue None o)) (supports_streaming out)
  | None => out
  end.

(** [play_sample(sample, async=True)] on an output with a device. *)
Definition play_sample_async (sample : Sample.t) (out : t) : result t :=
  if negb (Sample.samplewidth sample =? samplewidth out) then Raise AssertionError
  else if negb (Sample.samplerate sample =? samplerate out) then Raise AssertionError
  else if negb (Sample.nchannels sample =? nchannels out) then Raise AssertionError
  else
    match outputter out with
    | Some o => Ok (mkOutput (samplerate out) (samplewidth out) (nchannels out)
                             (Some (add_to_queue (Some sample) o))
                             (supports_streaming out))
    | None => Raise ValueError
    end.

(** [not sample]: [None] is false, and so is an object whose [__len__] is 0;
    [Sample] defines [__len__] and no [__bool__]. *)
Definition not_ (it : item) : result bool :=
  match it with
  | None => Ok true
  | Some s => (n <-r Sample.length s ;; Ok (n =? 0))%result
  end.

Inductive status : Set :=
| Waiting            (* blocked in queue.get() on an empty queue *)
| Exited             (* left the loop through break *)
| Died (e : exn).    (* an exception ended the thread *)

(** [SoundOutputter.run] on the items that are in the queue: the result is the
    outputter after the last item the worker takes, and where the worker is. *)
Fixpoint run_items (items : list item) (written : list (list byte))
  : SoundOutputter * status :=
  match items with
  | [] => (mkOutputter written [], Waiting)
  | it :: rest =>
      match not_ it with
      | Raise e => (mkOutputter written rest, Died e)
      | Ok true => (mkOutputter written rest, Exited)
      | Ok false =>
          match it with
          | Some s => run_items rest (written ++ [Sample.frames s])
          | None => (mkOutputter written rest, Exited)
          end
      end
  end.

Definition run (o : SoundOutputter) : SoundOutputter * status :=
  run_items (queue o) (stream o).

(** *** Streaming *)

Section Streaming.
Context {FR : Rounding}.
Import Sample.
Local Open Scope method_scope.

(** One turn of the loop of [normalized_samples]: the sample is converted in
    place, and is yielded when the three assertions hold. *)
Definition normalized_sample (global_amplification : Q) : Sample.M unit :=
  s <- Sample.get ;;
  (if negb (Sample.samplewidth s =? 2)
   then Sample.amplify global_amplification ;; Sample.make_16bit false
   else Sample.ret tt) ;;
  s <- Sample.get ;;
  (if Sample.nchannels s =? 1 then Sample.stereo 1 1 else Sample.ret tt) ;;
  s <- Sample.get ;;
  Sample.assert (Sample.nchannels s =? 2) ;;
  Sample.assert (Sample.samplerate s =? 44100) ;;
  Sample.assert (Sample.samplewidth s =? 2).

(** [normalized_samples] consumed to its end over distinct sample objects:
    the samples it yields, in order, and how it ends. *)
Fixpoint normalized_samples (samples : list Sample.t) (global_amplification : Q)
  : list Sample.t * result unit :=
  match samples with
  | [] => ([], Ok tt)
  | s :: rest =>
      match normalized_sample global_amplification s with
      | (s', Ok _) =>
          let '(ys, r) := normalized_samples rest global_amplification in
          (s' :: ys, r)
      | (_, Raise e) => ([], Raise e)
      end
  end.

(** [play_samples(samples, async=True)] on an output with a device: every
    sample the generator yields goes to the queue. *)
Definition play_samples_async (samples : list Sample.t) (o : SoundOutputter)
  : SoundOutputter * result unit :=
  let '(ys, r) := normalized_samples samples 26000 in
  (fold_left (fun o s => add_to_queue (Some s) o) ys o, r).

End Streaming.

End Output.

(** ** [LevelMeter] *)

Module LevelMeter.

Record t : Type := mkMeter {
  _rms : bool;
  _lowest : Q;
  peak_left : Q;
  peak_right : Q;
  _peak_left_hold : Q;
  _peak_right_hold : Q;
  level_left : Q;
  level_right : Q;
  _time : Q
}.

Definition reset (m : t) : t :=
  mkMeter (_rms m) (_lowest m) (_lowest m) (_lowest m) 0 0 0 0 0.

(** [LevelMeter(rms_mode, lowest)] *)
Definition new (rms_mode : bool) (lowest : Q) : result t :=
  if Qle_bool (-60) lowest && Qltb lowest 0
  then Ok (reset (mkMeter rms_mode lowest 0 0 0 0 0 0 0))
  else Raise AssertionError.

Section Levels.
Context {FR : Rounding}.

(** [math.log(x, 10)] *)
Variable log10 : Q -> Q.

(** The square root of the C library, which [audioop.rms] calls. *)
Variable sqrt : Q -> Q.

(** [Sample.__db_level] *)
Definition db_level (rms_mode : bool) (s : Sample.t) : result (Q * Q) :=
  let w := Sample.samplewidth s in
  let maxvalue := inject_Z (2 ^ (8 * w - 1)) in
  let measure frag :=
    if rms_mode then audioop.rms sqrt frag w else audioop.max frag w in
  let cut peak := pymax (fmul 20 (log10 peak)) (-60) in
  (if Sample.nchannels s =? 1 then
     v <-r measure (Sample.frames s) ;;
     let peak := fdiv (inject_Z (v + 1)) maxvalue in
     Ok (cut peak, cut peak)
   else
     left_frames <-r audioop.tomono (Sample.frames s) w 1 0 ;;
     right_frames <-r audioop.tomono (Sample.frames s) w 0 1 ;;
     vl <-r measure left_frames ;;
     vr <-r measure right_frames ;;
     Ok (cut (fdiv (inject_Z (vl + 1)) maxvalue),
         cut (fdiv (inject_Z (vr + 1)) maxvalue)))%result.

(** The update of one channel's held peak: the new peak and hold time. *)
Definition update_peak (level peak hold time dur : Q) : Q * Q :=
  let peak := if Qltb (rnd (4 # 10)) (fsub time hold)
              then fsub peak (fmul dur 30) else peak in
  if Qle_bool peak level then (level, time) else (peak, hold).

(** [process]: the meter after the call and the returned tuple
    [(left, peak_left, right, peak_right)]. *)
Definition process (sample : Sample.t) (m : t) : t * result (Q * Q * Q * Q) :=
  match db_level (_rms m) sample, Sample.duration sample with
  | Raise e, _ => (m, Raise e)
  | Ok _, Raise e => (m, Raise e)
  | Ok levels, Ok dur =>
      let left := pymax (fst levels) (_lowest m) in
      let right := pymax (snd levels) (_lowest m) in
      let time := fadd (_time m) dur in
      let '(pl, hl) := update_peak left (peak_left m) (_peak_left_hold m) time dur in
      let '(pr, hr) := update_peak right (peak_right m) (_peak_right_hold m) time dur in
      (mkMeter (_rms m) (_lowest m) pl pr hl hr left right time,
       Ok (left, pl, right, pr))
  end.

(** [process] over fragments in playback order; the returned tuples in the
    same order.  It stops at the first exception. *)
Fixpoint process_all (samples : list Sample.t) (m : t)
  : t * result (list (Q * Q * Q * Q)) :=
  match samples with
  | [] => (m, Ok [])
  | s :: rest =>
      match process s m with
      | (m', Ok r) =>
          match process_all rest m' with
          | (m'', Ok rs) => (m'', Ok (r :: rs))
          | (m'', Raise e) => (m'', Raise e)
          end
      | (m', Raise e) => (m', Raise e)
      end
  end.

End Levels.

End LevelMeter.

(** ** The command line of [trackmixer.py] *)

Module trackmixer.
Import String.

(** How the script ends: in [usage()], which prints and raises
    [SystemExit(1)], or in a call of [main]. *)
Inductive outcome : Type :=
| Usage
| Main (track_file : String.string) (outputfile : option String.string)
       (interactive : bool).

Section Script.

(** [os.path.splitext] *)
Variable splitext : String.string -> String.string * String.string.

(** The body under [if __name__ == "__main__"], on [sys.argv]. *)
Definition script (argv : list String.string) : outcome :=
  if negb ((len argv =? 2) || (len argv =? 3)) then Usage
  else if len argv =? 2 then
    if String.eqb (nth 1 argv String.EmptyString) "-i" then Usage
    else
      let track_file := nth 1 argv String.EmptyString in
      Main track_file
           (Some (String.append (fst (splitext track_file)) ".wav"%string)) false
  else
    if negb (String.eqb (nth 1 argv String.EmptyString) "-i"%string) then Usage
    else Main (nth 2 argv String.EmptyString) None true.

End Script.

End trackmixer.

(** ** Predicates and devices used in the statements *)

(** A value that fits a sample of [w] bytes. *)
Definition in_range (w v : Z) : Prop := audioop.minval w <= v <= audioop.maxval w.

(** The buffer-length invariant of the data model. *)
Definition aligned (s : Sample.t) : Prop :=
  len (Sample.frames s) mod (Sample.samplewidth s * Sample.nchannels s) = 0.

(** What the constructors assert about the format of a sample. *)
Definition format_ok (s : Sample.t) : Prop :=
  2 <= Sample.samplewidth s <= 4 /\ 1 <= Sample.nchannels s <= 2 /\
  1 < Sample.samplerate s.

Definition wf (s : Sample.t) : Prop := format_ok s /\ aligned s.

(** Two samples of the same format. *)
Definition same_format (s s' : Sample.t) : Prop :=
  Sample.samplewidth s' = Sample.samplewidth s /\
  Sample.samplerate s' = Sample.samplerate s /\
  Sample.nchannels s' = Sample.nchannels s.

(** A sample made of values, for concrete inputs. *)
Definition sample_of (w rate nch : Z) (vals : list Z) : Sample.t :=
  Sample.mkSample (audioop.frombuf w vals) w rate nch false None.

(** The sample values of a sample's buffer. *)
Definition values (s : Sample.t) : list Z :=
  audioop.samples (Sample.samplewidth s) (Sample.frames s).

(** A sample value of [w] bytes amplified by a factor: the float product,
    clipped to the range of the width and rounded down. *)
Definition amplified {FR : Rounding} (w : Z) (factor : Q) (v : Z) : Z :=
  audioop.fbound (fmul (inject_Z v) factor) (audioop.minval w) (audioop.maxval w).

(** The peak magnitude of a list of values, as [audioop.max] computes it. *)
Definition peak (vals : list Z) : Z := fold_left Z.max (map Z.abs vals) 0.

(** A list of values extended with zeros to [n] entries. *)
Definition pad_values (n : nat) (vals : list Z) : list Z :=
  vals ++ repeat 0 (n - length vals).

(** Pairwise saturating sums of two lists of values. *)
Definition add_values (w : Z) (l1 l2 : list Z) : list Z :=
  map (fun p => audioop.clip_add w (fst p) (snd p)) (combine l1 l2).

(** The mutating methods of [Sample], as one type, so that a statement can
    range over all of them.  A method that returns another sample ([split])
    gives [Some] of it. *)
Inductive operation : Type :=
| OpCopyFrom (other : Sample.t)
| OpAmplifyMax
| OpAmplify (factor : Q)
| OpClip (start_seconds end_seconds : Q)
| OpSplit (seconds : Q)
| OpAddSilence (seconds : Q) (at_start : bool)
| OpJoin (other : Sample.t)
| OpFadeout (seconds target_volume : Q)
| OpFadein (seconds start_volume : Q)
| OpReverse
| OpInvert
| OpDelay (seconds : Q) (keep_length : bool)
| OpMono (left_factor right_factor : Q)
| OpLeft
| OpRight
| OpStereo (left_factor right_factor : Q)
| OpStereoMix (other : Sample.t) (other_channel : Sample.channel)
              (other_mix_factor mix_at : Q) (other_seconds : option Q)
| OpPan (panning : Q)
| OpEcho (length : Q) (amount : Z) (delay decay : Q)
| OpEnvelope (attack decay sustainlevel release : Q)
| OpMix (other : Sample.t) (other_seconds : option Q) (pad_shortest : bool)
| OpMixAt (seconds : Q) (other : Sample.t) (other_seconds : option Q)
| OpMake32bit (scale_amplitude : bool)
| OpMake16bit (maximize_amplitude : bool).

Section Operations.
Context {FR : Rounding}.
Import Sample.
Local Open Scope method_scope.

Definition discard {A} (m : M A) : M (option Sample.t) := _ <- m ;; ret None.

Definition run (op : operation) : M (option Sample.t) :=
  match op with
  | OpCopyFrom other => discard (copy_from other)
  | OpAmplifyMax => discard amplify_max
  | OpAmplify factor => discard (amplify factor)
  | OpClip a b => discard (clip a b)
  | OpSplit seconds => chopped <- split seconds ;; ret (Some chopped)
  | OpAddSilence seconds at_start => discard (add_silence seconds at_start)
  | OpJoin other => discard (join other)
  | OpFadeout seconds v => discard (fadeout seconds v)
  | OpFadein seconds v => discard (fadein seconds v)
  | OpReverse => discard reverse
  | OpInvert => discard invert
  | OpDelay seconds keep => discard (delay seconds keep)
  | OpMono lf rf => discard (mono lf rf)
  | OpLeft => discard left
  | OpRight => discard right
  | OpStereo lf rf => discard (stereo lf rf)
  | OpStereoMix other ch f at_ lim => discard (stereo_mix other ch f at_ lim)
  | OpPan p => discard (pan p)
  | OpEcho l n d dec => discard (echo l n d dec)
  | OpEnvelope a d s r => discard (envelope a d s r)
  | OpMix other lim pad => discard (mix other lim pad)
  | OpMixAt seconds other lim => discard (mix_at seconds other lim)
  | OpMake32bit scale => discard (make_32bit scale)
  | OpMake16bit maximize => discard (make_16bit maximize)
  end.

(** What a fade makes of a list of values: the value at index [j] scaled by
    the amplitude of [j] and truncated. *)
Definition faded_values (vals : list Z) (amplitude : Z -> Q) : list Z :=
  map (fun j => Qtrunc (fmul (inject_Z (nth j vals 0)) (amplitude (Z.of_nat j))))
      (seq 0 (List.length vals)).

(** The ramps of the two fades, as the methods compute them from the float
    [numsamples]. *)
Definition ramp_in (numsamples start_volume : Q) (i : Z) : Q :=
  fadd (fdiv (fmul (inject_Z i) (fsub 1 start_volume)) numsamples) start_volume.

Definition ramp_out (numsamples target_volume : Q) (i : Z) : Q :=
  fsub 1 (fmul (fdiv (inject_Z i) numsamples) (fsub 1 target_volume)).

(** The samples an operation reads besides the receiver. *)
Definition operand (op : operation) : option Sample.t :=
  match op with
  | OpCopyFrom other | OpJoin other | OpMix other _ _ | OpMixAt _ other _
  | OpStereoMix other _ _ _ _ => Some other
  | _ => None
  end.

End Operations.

(** What a channel conversion leaves: a well-formed sample of [n] channels. *)
Definition channels_are (n : Z) (s : Sample.t) : unit -> Sample.t -> Prop :=
  fun _ s' => wf s' /\ Sample.samplewidth s' = Sample.samplewidth s /\
              Sample.samplerate s' = Sample.samplerate s /\ Sample.nchannels s' = n.

(** What a method leaves when it keeps the format and the buffer length. *)
Definition keeps_length (s : Sample.t) : unit -> Sample.t -> Prop :=
  fun _ s' => wf s' /\ same_format s s' /\ len (Sample.frames s') = len (Sample.frames s).


(** *** The level meter on silence *)

(** A sample all of whose values are 0. *)
Definition silent (s : Sample.t) : Prop := Forall (fun v => v = 0) (values s).

(** A meter as [LevelMeter(...)] builds it and [process] keeps it: the floor
    is at least -60 and no held peak is below the floor. *)
Definition meter_ok (m : LevelMeter.t) : Prop :=
  (-60 <= LevelMeter._lowest m)%Q /\
  (LevelMeter._lowest m <= LevelMeter.peak_left m)%Q /\
  (LevelMeter._lowest m <= LevelMeter.peak_right m)%Q.

Section Silence.
Context {FR : Rounding}.
Variable log10 : Q -> Q.
Variable sqrt : Q -> Q.

(** More than 0.4 seconds have passed since the peak was last set. *)
Definition elapsed (time hold : Q) : bool :=
  Qltb (rnd (4 # 10)) (fsub time hold).

(** The held peak after a silent fragment of [dur] seconds that ends at
    [time]: once the hold time is over it comes down by 30 dB per second of
    the fragment, and stops at the floor. *)
Definition held_peak (lowest peak hold time dur : Q) : Q :=
  if elapsed time hold then
    let decayed := fsub peak (fmul dur 30) in
    if Qle_bool decayed lowest then lowest else decayed
  else peak.

(** The time at which that peak was last set: the end of the fragment when
    the peak, after its decay if the hold time is over, is not above the
    floor, which then becomes the peak; the time it had before otherwise. *)
Definition held_since (lowest peak hold time dur : Q) : Q :=
  let decayed := if elapsed time hold then fsub peak (fmul dur 30) else peak in
  if Qle_bool decayed lowest then time else hold.

(** What one call of [process] on a silent fragment returns and leaves. *)
Definition silent_step (m : LevelMeter.t) (s : Sample.t)
           (r : Q * Q * Q * Q) : Prop :=
  let m' := fst (LevelMeter.process log10 sqrt s m) in
  let lowest := LevelMeter._lowest m in
  exists dur,
    Sample.duration s = Ok dur /\
    r = (LevelMeter.level_left m', LevelMeter.peak_left m',
         LevelMeter.level_right m', LevelMeter.peak_right m') /\
    (LevelMeter.level_left m' == lowest)%Q /\
    (LevelMeter.level_right m' == lowest)%Q /\
    LevelMeter._time m' = fadd (LevelMeter._time m) dur /\
    (LevelMeter.peak_left m'
     == held_peak lowest (LevelMeter.peak_left m)
                  (LevelMeter._peak_left_hold m) (LevelMeter._time m') dur)%Q /\
    (LevelMeter.peak_right m'
     == held_peak lowest (LevelMeter.peak_right m)
                  (LevelMeter._peak_right_hold m) (LevelMeter._time m') dur)%Q /\
    LevelMeter._peak_left_hold m'
    = held_since lowest (LevelMeter.peak_left m)
                 (LevelMeter._peak_left_hold m) (LevelMeter._time m') dur /\
    LevelMeter._peak_right_hold m'
    = held_since lowest (LevelMeter.peak_right m)
                 (LevelMeter._peak_right_hold m) (LevelMeter._time m') dur /\
    LevelMeter._lowest m' = lowest /\
    LevelMeter._rms m' = LevelMeter._rms m.

(** The same along a sequence of fragments, each call starting from the
    meter the one before left. *)
Fixpoint silent_run (m : LevelMeter.t) (samples : list Sample.t)
         (results : list (Q * Q * Q * Q)) : Prop :=
  match samples, results with
  | [], [] => True
  | s :: samples', r :: results' =>
      silent_step m s r /\
      silent_run (fst (LevelMeter.process log10 sqrt s m)) samples' results'
  | _, _ => False
  end.

End Silence.

(** [triple P m Q]: when the method [m] runs on a receiver that satisfies [P]
    and returns, the value and the receiver after the call satisfy [Q]. *)
Definition triple {A} (P : Sample.t -> Prop) (m : Sample.M A)
           (Q : A -> Sample.t -> Prop) : Prop :=
  forall s, P s ->
    match m s with
    | (s', Ok a) => Q a s'
    | (_, Raise _) => True
    end.

(** [returns m s Q]: the method [m] run on the receiver [s] returns, with a
    value and a receiver that satisfy [Q]. *)
Definition returns {A} (m : Sample.M A) (s : Sample.t)
           (Q : A -> Sample.t -> Prop) : Prop :=
  exists s' a, m s = (s', Ok a) /\ Q a s'.

(** *** Values after the simple conversions *)

(** What [invert] makes of a value: its negation, which for the lowest value
    of the width does not fit and is clipped to the highest. *)
Definition negated (w v : Z) : Z :=
  if v =? audioop.minval w then audioop.maxval w else - v.

(** What [bias] makes of a value: the sum, wrapped around in the width. *)
Definition biased (w b v : Z) : Z := to_signed w ((v + b) mod 2 ^ (8 * w)).

(** The format every streamed sample has: 16 bit, stereo, 44100 Hz. *)
Definition pcm16 (s : Sample.t) : Prop :=
  Sample.samplewidth s = 2 /\ Sample.nchannels s = 2 /\
  Sample.samplerate s = 44100.

(** A sample that is true in a condition: it has at least one frame. *)
Definition nonempty (s : Sample.t) : Prop :=
  exists n, Sample.length s = Ok n /\ n <> 0.

(** What every tuple that [LevelMeter.process] returns satisfies, for the
    floor [lowest]: neither level is below the floor, and neither held peak is
    below its level. *)
Definition ordered (lowest : Q) (r : Q * Q * Q * Q) : Prop :=
  let '(l, pl, r, pr) := r in
  (lowest <= l)%Q /\ (l <= pl)%Q /\ (lowest <= r)%Q /\ (r <= pr)%Q.

(** A time that [frame_idx] takes without an OverflowError: the sample rate
    is an integer that converts to a float as it is, and the product of rate
    and time is within 2^53 in magnitude, so that it is a finite float whose
    integer part, multiplied by a frame size of at most 8 bytes, is also a
    size that a buffer of bytes can have.  Memory is taken to suffice for
    such a buffer. *)
Definition indexable (s : Sample.t) (seconds : Q) : Prop :=
  Z.abs (Sample.samplerate s) <= 2 ^ 53 /\
  (Qabs (inject_Z (Sample.samplerate s) * seconds) <= inject_Z (2 ^ 53))%Q.

(** Arguments of [echo] with which every time that it computes is one that
    [frame_idx] takes: the length taken from the end and the delay are not
    negative, the decay is a factor between 0 and 1, so that its powers stay
    finite, and the last echo starts within 2^52 frames. *)
Definition echo_fits (s : Sample.t) (length : Q) (amount : Z)
           (delay decay : Q) : Prop :=
  Sample.samplerate s <= 2 ^ 53 /\
  (0 <= length)%Q /\ (0 <= delay)%Q /\ (0 <= decay)%Q /\ (decay <= 1)%Q /\
  (inject_Z (len (Sample.frames s))
   + inject_Z (Sample.samplerate s) * inject_Z (Z.max 0 amount) * delay
   <= inject_Z (2 ^ 52))%Q.

(** * Properties *)

(** ** Bytes, integers and slices *)

Module BytesFacts.

Lemma byte_to_Z_range (b : byte) : 0 <= byte_to_Z b < 256.
Proof.
  unfold byte_to_Z. pose proof (Byte.to_N_bounded b) as H. lia.
Qed.

Lemma byte_to_of_Z (z : Z) : byte_to_Z (byte_of_Z z) = z mod 256.
Proof.
  unfold byte_to_Z, byte_of_Z.
  pose proof (Z.mod_pos_bound z 256 eq_refl) as Hb.
  destruct (Byte.of_N (Z.to_N (z mod 256))) as [b|] eqn:E.
  - apply Byte.to_of_N in E. rewrite E. lia.
  - apply Byte.of_N_None_iff in E. lia.
Qed.

Lemma byte_of_to_Z (b : byte) : byte_of_Z (byte_to_Z b) = b.
Proof.
  unfold byte_to_Z, byte_of_Z.
  pose proof (Byte.to_N_bounded b) as H.
  rewrite Z.mod_small by lia. rewrite N2Z.id, Byte.of_to_N. reflexivity.
Qed.

Lemma len_nil {A} : len (@nil A) = 0.
Proof. reflexivity. Qed.

Lemma len_app {A} (a b : list A) : len (a ++ b) = len a + len b.
Proof. unfold len. rewrite length_app. lia. Qed.

Lemma len_nonneg {A} (l : list A) : 0 <= len l.
Proof. unfold len. lia. Qed.

Lemma len_zeros (k : Z) : len (zeros k) = Z.max 0 k.
Proof. unfold len, zeros. rewrite repeat_length. lia. Qed.

Lemma length_le_bytes (n : nat) (v : Z) : length (le_bytes n v) = n.
Proof. revert v. induction n; intros; simpl; auto. Qed.

Lemma le_unsigned_range (bs : list byte) :
  0 <= le_unsigned bs < 256 ^ len bs.
Proof.
  induction bs as [|b t IH].
  - simpl. unfold len. simpl. lia.
  - cbn [le_unsigned]. unfold len in *. cbn [length].
    rewrite Nat2Z.inj_succ, Z.pow_succ_r by lia.
    pose proof (byte_to_Z_range b). lia.
Qed.

Lemma le_unsigned_le_bytes (n : nat) (v : Z) :
  le_unsigned (le_bytes n v) = v mod 256 ^ Z.of_nat n.
Proof.
  revert v. induction n as [|n IH]; intros v.
  - simpl. now rewrite Z.mod_1_r.
  - cbn [le_bytes le_unsigned]. rewrite byte_to_of_Z, IH.
    rewrite Nat2Z.inj_succ, Z.pow_succ_r by lia.
    assert (0 < 256 ^ Z.of_nat n) by (apply Z.pow_pos_nonneg; lia).
    rewrite Z.rem_mul_r by lia. reflexivity.
Qed.

Lemma le_bytes_zero (n : nat) : le_bytes n 0 = repeat x00 n.
Proof.
  induction n; simpl; auto. rewrite Z.div_0_l by lia. now rewrite IHn.
Qed.

Lemma le_unsigned_zeros (n : nat) : le_unsigned (repeat x00 n) = 0.
Proof. induction n; simpl; auto. rewrite IHn. reflexivity. Qed.

Lemma pow256 (w : Z) : 0 <= w -> 256 ^ w = 2 ^ (8 * w).
Proof. intros. change 256 with (2 ^ 8). rewrite <- Z.pow_mul_r by lia. reflexivity. Qed.

Lemma to_signed_mod (w v : Z) :
  1 <= w -> - 2 ^ (8 * w - 1) <= v < 2 ^ (8 * w - 1) ->
  to_signed w (v mod 2 ^ (8 * w)) = v.
Proof.
  intros Hw Hv. unfold to_signed.
  assert (E : 2 ^ (8 * w) = 2 * 2 ^ (8 * w - 1)).
  { rewrite <- Z.pow_succ_r by lia. f_equal. lia. }
  assert (0 < 2 ^ (8 * w - 1)) by (apply Z.pow_pos_nonneg; lia).
  destruct (Z.ltb_spec (v mod 2 ^ (8 * w)) (2 ^ (8 * w - 1))) as [Hlt|Hge].
  - destruct (Z_lt_le_dec v 0).
    + rewrite <- (Z.mod_add v 1) in Hlt by lia.
      rewrite Z.mod_small in Hlt by lia. lia.
    + apply Z.mod_small. lia.
  - destruct (Z_lt_le_dec v 0).
    + rewrite <- (Z.mod_add v 1) by lia. rewrite Z.mod_small by lia. lia.
    + rewrite Z.mod_small in Hge by lia. lia.
Qed.

Lemma to_signed_range (w u : Z) :
  1 <= w -> 0 <= u < 2 ^ (8 * w) ->
  - 2 ^ (8 * w - 1) <= to_signed w u < 2 ^ (8 * w - 1).
Proof.
  intros Hw Hu. unfold to_signed.
  assert (E : 2 ^ (8 * w) = 2 * 2 ^ (8 * w - 1)).
  { rewrite <- Z.pow_succ_r by lia. f_equal. lia. }
  destruct (Z.ltb_spec u (2 ^ (8 * w - 1))); lia.
Qed.

(** *** Slices *)

Lemma norm_idx_range (n i : Z) : 0 <= n -> 0 <= norm_idx n i <= n.
Proof. intros. unfold norm_idx. destruct (Z.ltb_spec i 0); lia. Qed.

Lemma slice_to_from {A} (l : list A) (e : Z) :
  slice_to l e ++ slice_from l e = l.
Proof. unfold slice_to, slice_from. apply firstn_skipn. Qed.

Lemma len_slice_to {A} (l : list A) (e : Z) :
  len (slice_to l e) = norm_idx (len l) e.
Proof.
  unfold slice_to. pose proof (norm_idx_range (len l) e (len_nonneg l)).
  unfold len in *. rewrite length_firstn. lia.
Qed.

Lemma len_slice_from {A} (l : list A) (e : Z) :
  len (slice_from l e) = len l - norm_idx (len l) e.
Proof.
  unfold slice_from. pose proof (norm_idx_range (len l) e (len_nonneg l)).
  unfold len in *. rewrite length_skipn. lia.
Qed.

Lemma len_slice {A} (l : list A) (a b : Z) :
  len (slice l a b) = Z.max 0 (norm_idx (len l) b - norm_idx (len l) a).
Proof.
  unfold slice.
  pose proof (norm_idx_range (len l) a (len_nonneg l)).
  pose proof (norm_idx_range (len l) b (len_nonneg l)).
  unfold len in *. rewrite length_firstn, length_skipn. lia.
Qed.

Lemma norm_idx_multiple (n i k : Z) :
  0 < k -> n mod k = 0 -> i mod k = 0 -> norm_idx n i mod k = 0.
Proof.
  intros Hk Hn Hi. unfold norm_idx.
  apply Z.mod_divide in Hn; [|lia]. apply Z.mod_divide in Hi; [|lia].
  destruct (Z.ltb_spec i 0).
  - destruct (Z.max_spec 0 (n + i)) as [[_ ->]|[_ ->]].
    + apply Z.mod_divide; [lia|]. now apply Z.divide_add_r.
    + apply Z.mod_0_l. lia.
  - destruct (Z.min_spec i n) as [[_ ->]|[_ ->]]; apply Z.mod_divide; auto; lia.
Qed.

End BytesFacts.

(** ** The audioop kernel *)

Module AudioopFacts.
Import BytesFacts.

Lemma range_bounds (w : Z) : 1 <= w ->
  audioop.minval w < 0 /\ 0 < audioop.maxval w + 1 /\
  audioop.maxval w = - audioop.minval w - 1 /\
  2 ^ (8 * w) = 2 * (audioop.maxval w + 1).
Proof.
  intros Hw. unfold audioop.minval, audioop.maxval.
  assert (0 < 2 ^ (8 * w - 1)) by (apply Z.pow_pos_nonneg; lia).
  assert (2 ^ (8 * w) = 2 * 2 ^ (8 * w - 1)).
  { rewrite <- Z.pow_succ_r by lia. f_equal. lia. }
  lia.
Qed.

Lemma len_frombuf (w : Z) (vals : list Z) :
  0 <= w -> len (audioop.frombuf w vals) = w * len vals.
Proof.
  intros Hw. unfold audioop.frombuf, len.
  induction vals as [|v t IH]; cbn [flat_map length].
  - lia.
  - rewrite length_app, length_le_bytes. lia.
Qed.

Lemma skipn_frombuf (n i : nat) (vals : list Z) :
  skipn (i * n) (flat_map (le_bytes n) vals)
  = flat_map (le_bytes n) (skipn i vals).
Proof.
  revert vals. induction i as [|i IH]; intros vals.
  - reflexivity.
  - destruct vals as [|v t].
    + cbn [flat_map]. now rewrite skipn_nil.
    + cbn [flat_map skipn Nat.mul].
      rewrite skipn_app, length_le_bytes.
      rewrite skipn_all2 by (rewrite length_le_bytes; lia).
      replace (n + i * n - n)%nat with (i * n)%nat by lia.
      cbn [app]. apply IH.
Qed.

Lemma rawsample_frombuf (w : Z) (vals : list Z) (i : nat) :
  1 <= w -> (i < length vals)%nat -> in_range w (nth i vals 0) ->
  audioop.rawsample w (audioop.frombuf w vals) i = nth i vals 0.
Proof.
  intros Hw Hi Hr. unfold audioop.rawsample, audioop.frombuf.
  rewrite skipn_frombuf.
  destruct (skipn i vals) as [|v t] eqn:E.
  - apply (f_equal (@length Z)) in E. rewrite length_skipn in E. simpl in E. lia.
  - assert (Hv : nth i vals 0 = v).
    { rewrite <- (firstn_skipn i vals) at 1. rewrite E.
      rewrite app_nth2 by (rewrite length_firstn; lia).
      rewrite length_firstn. replace (i - Nat.min i (length vals))%nat with 0%nat by lia.
      reflexivity. }
    cbn [flat_map]. rewrite firstn_app, length_le_bytes, Nat.sub_diag.
    cbn [firstn]. rewrite app_nil_r.
    rewrite firstn_all2 by (rewrite length_le_bytes; lia).
    rewrite le_unsigned_le_bytes, Z2Nat.id, pow256 by lia.
    rewrite Hv in *. unfold in_range, audioop.minval, audioop.maxval in Hr.
    apply to_signed_mod; lia.
Qed.

Lemma map_nth_seq {A} (l : list A) (d : A) :
  map (fun i => nth i l d) (seq 0 (length l)) = l.
Proof.
  induction l as [|a t IH]; cbn [length seq map nth].
  - reflexivity.
  - f_equal. rewrite <- seq_shift, map_map. exact IH.
Qed.

Lemma seq_offset (k n : nat) : seq k n = map (Nat.add k) (seq 0 n).
Proof.
  induction k as [|k IH].
  - cbn [Nat.add]. symmetry. etransitivity; [|apply map_id]. now apply map_ext.
  - rewrite <- seq_shift, IH, map_map. now apply map_ext.
Qed.

Lemma samples_count (w : Z) (frag : list byte) :
  length (audioop.samples w frag) = Z.to_nat (len frag / w).
Proof. unfold audioop.samples. now rewrite length_map, length_seq. Qed.

Lemma len_samples (w : Z) (frag : list byte) :
  0 < w -> len (audioop.samples w frag) = len frag / w.
Proof.
  intros. unfold len at 1. rewrite samples_count.
  rewrite Z2Nat.id; auto. apply Z.div_pos; [apply len_nonneg | lia].
Qed.

Lemma samples_frombuf (w : Z) (vals : list Z) :
  1 <= w -> Forall (in_range w) vals ->
  audioop.samples w (audioop.frombuf w vals) = vals.
Proof.
  intros Hw Hr. unfold audioop.samples.
  rewrite len_frombuf by lia.
  replace (w * len vals / w) with (len vals)
    by (rewrite Z.mul_comm, Z.div_mul; lia).
  unfold len. rewrite Nat2Z.id.
  etransitivity; [|apply (map_nth_seq vals 0)].
  apply map_ext_in. intros i Hi. apply in_seq in Hi.
  apply rawsample_frombuf; try lia.
  rewrite Forall_forall in Hr. apply Hr, nth_In. lia.
Qed.

Lemma rawsample_in_range (w : Z) (frag : list byte) (i : nat) :
  1 <= w -> (i < Z.to_nat (len frag / w))%nat ->
  in_range w (audioop.rawsample w frag i).
Proof.
  intros Hw Hi. unfold audioop.rawsample, in_range.
  set (chunk := firstn (Z.to_nat w) (skipn (i * Z.to_nat w) frag)).
  pose proof (le_unsigned_range chunk) as Hu.
  assert (Hl : len chunk <= w).
  { unfold chunk, len. rewrite length_firstn. lia. }
  assert (256 ^ len chunk <= 256 ^ w) by (apply Z.pow_le_mono_r; lia).
  rewrite (pow256 w) in H by lia.
  pose proof (to_signed_range w (le_unsigned chunk) Hw ltac:(lia)).
  unfold audioop.minval, audioop.maxval. lia.
Qed.

Lemma samples_in_range (w : Z) (frag : list byte) :
  1 <= w -> Forall (in_range w) (audioop.samples w frag).
Proof.
  intros Hw. unfold audioop.samples. apply Forall_forall.
  intros v Hv. apply in_map_iff in Hv as (i & <- & Hi).
  apply in_seq in Hi. apply rawsample_in_range; lia.
Qed.

Lemma rawsample_app_l (w : Z) (a b : list byte) (i : nat) :
  (i * Z.to_nat w + Z.to_nat w <= length a)%nat ->
  audioop.rawsample w (a ++ b) i = audioop.rawsample w a i.
Proof.
  intros Hi. unfold audioop.rawsample. do 2 f_equal.
  rewrite skipn_app, firstn_app, length_skipn.
  replace (Z.to_nat w - (length a - i * Z.to_nat w))%nat with 0%nat by lia.
  cbn [firstn]. now rewrite app_nil_r.
Qed.

Lemma rawsample_app_r (w : Z) (a b : list byte) (k i : nat) :
  length a = (k * Z.to_nat w)%nat ->
  audioop.rawsample w (a ++ b) (k + i) = audioop.rawsample w b i.
Proof.
  intros Ha. unfold audioop.rawsample. do 3 f_equal.
  rewrite skipn_app.
  rewrite skipn_all2 by lia. cbn [app]. f_equal. lia.
Qed.

Lemma samples_app (w : Z) (a b : list byte) :
  0 < w -> len a mod w = 0 ->
  audioop.samples w (a ++ b) = audioop.samples w a ++ audioop.samples w b.
Proof.
  intros Hw Ha. unfold audioop.samples.
  apply Z.mod_divide in Ha; [|lia]. destruct Ha as [k Hk].
  assert (0 <= k) by (pose proof (len_nonneg a); nia).
  rewrite len_app, Hk, Z.div_add_l, Z.div_mul by lia.
  rewrite Z2Nat.inj_add by (try apply Z.div_pos; try apply len_nonneg; lia).
  rewrite seq_app, map_app. cbn [Nat.add].
  assert (Hla : length a = (Z.to_nat k * Z.to_nat w)%nat).
  { unfold len in Hk. rewrite <- Z2Nat.inj_mul by lia. lia. }
  f_equal.
  - apply map_ext_in. intros i Hi. apply in_seq in Hi.
    apply rawsample_app_l. nia.
  - rewrite seq_offset, map_map.
    apply map_ext. intros i. now apply rawsample_app_r.
Qed.

End AudioopFacts.
(** ** Locking *)

Module LockFacts.
Import Sample.
Local Open Scope method_scope.

Section Locking.
Context {FR : Rounding}.

Lemma assert_unlocked_locked (s : Sample.t) :
  locked s = true -> assert_unlocked s = (s, Raise LockedAssertion).
Proof. intros H. unfold assert_unlocked. now rewrite H. Qed.

Lemma assert_unlocked_unlocked (s : Sample.t) :
  locked s = false -> assert_unlocked s = (s, Ok tt).
Proof. intros H. unfold assert_unlocked. now rewrite H. Qed.

Lemma bind_raise {A B} (m : M A) (k : A -> M B) (s s' : Sample.t) (e : exn) :
  m s = (s', Raise e) -> bind m k s = (s', Raise e).
Proof. intros H. unfold bind. now rewrite H. Qed.

Lemma guarded {B} (k : unit -> M B) (s : Sample.t) :
  locked s = true -> bind assert_unlocked k s = (s, Raise LockedAssertion).
Proof. intros H. apply bind_raise. now apply assert_unlocked_locked. Qed.

(** Every method that carries the lock assertion refuses a locked receiver
    and leaves it as it was. *)
Lemma locked_refuses (op : operation) (s : Sample.t) :
  locked s = true -> run op s = (s, Raise LockedAssertion).
Proof.
  intros H.
  destruct op; cbn [run]; unfold discard; apply bind_raise;
    try (apply guarded; exact H).
  unfold mix_at. destruct (Qeq_bool seconds 0); apply guarded; exact H.
Qed.

Lemma locked_refuses_resample ratecv (rate : Z) (s : Sample.t) :
  locked s = true -> resample ratecv rate s = (s, Raise LockedAssertion).
Proof. apply guarded. Qed.

Lemma locked_refuses_speed ratecv (v : Q) (s : Sample.t) :
  locked s = true -> speed ratecv v s = (s, Raise LockedAssertion).
Proof. apply guarded. Qed.

Lemma locked_refuses_normalize ratecv (s : Sample.t) :
  locked s = true -> normalize ratecv s = (s, Raise LockedAssertion).
Proof. apply guarded. Qed.

(** The setter of [samplerate] has no such assertion: it goes through on any
    receiver, locked or not. *)
Lemma set_samplerate_any (rate : Q) (s : Sample.t) :
  (0 < rate)%Q ->
  set_samplerate rate s = (with_samplerate (Qtrunc rate) s, Ok tt).
Proof.
  intros H. unfold set_samplerate, bind, assert, Qltb.
  destruct (Qle_bool rate 0) eqn:E.
  - apply Qle_bool_iff in E. apply Qlt_not_le in H. contradiction.
  - reflexivity.
Qed.

End Locking.

(** C1 (every mutating operation on a locked sample fails with the lock
    error and leaves the sample unchanged, the samplerate setter included):
    on the locked sample [Sample().lock()], assigning 22050 to [samplerate]
    raises nothing and changes the rate from 44100 to 22050. *)
Theorem samplerate_setter_ignores_lock :
  let s := fst (lock Sample.new) in
  locked s = true /\
  set_samplerate 22050 s = (with_samplerate 22050 s, Ok tt) /\
  samplerate s = 44100 /\
  samplerate (fst (set_samplerate 22050 s)) = 22050.
Proof. cbv zeta. repeat split. Qed.

End LockFacts.

(** ** The playback worker *)

Module WorkerFacts.
Import Output.

(** The worker leaves its loop at the [None] that [close] puts. *)
Lemma run_items_None (rest : list item) (written : list (list byte)) :
  run_items (None :: rest) written = (mkOutputter written rest, Exited).
Proof. reflexivity. Qed.

(** A sample of at least one frame is written and the loop goes on. *)
Lemma run_items_sample (s : Sample.t) (rest : list item)
      (written : list (list byte)) (n : Z) :
  Sample.length s = Ok n -> n <> 0 ->
  run_items (Some s :: rest) written
  = run_items rest (written ++ [Sample.frames s]).
Proof.
  intros Hl Hn. cbn [run_items not_]. rewrite Hl. cbn [rbind].
  destruct (Z.eqb_spec n 0); [contradiction|reflexivity].
Qed.

(** A sample without frames takes the same exit as [None]. *)
Lemma run_items_empty_sample (s : Sample.t) (rest : list item)
      (written : list (list byte)) :
  Sample.length s = Ok 0 ->
  run_items (Some s :: rest) written = (mkOutputter written rest, Exited).
Proof. intros Hl. cbn [run_items not_]. rewrite Hl. reflexivity. Qed.

(** [close] puts [None] at the end of the queue. *)
Lemma close_enqueues_None (out : Output.t) (o : SoundOutputter) :
  outputter out = Some o ->
  outputter (close out) = Some (mkOutputter (stream o) (queue o ++ [None])).
Proof. intros H. unfold close. rewrite H. reflexivity. Qed.

(** C4 (the worker exits only at the shutdown token; no sample, a zero-length
    one included, makes it exit): with the queue holding the empty sample
    [Sample()] and then a one-frame sample, and [close] never called, the
    worker exits at the empty sample; nothing is written and the one-frame
    sample stays in the queue. *)
Theorem worker_exits_on_empty_sample :
  let audible := sample_of 2 44100 2 [1000; 1000] in
  let o := mkOutputter [] [Some Sample.new; Some audible] in
  Sample.length Sample.new = Ok 0 /\
  ~ In None (queue o) /\
  run o = (mkOutputter [] [Some audible], Exited).
Proof.
  cbv zeta. split; [reflexivity|]. split; [|reflexivity].
  cbn [queue In]. intros [H|[H|[]]]; discriminate H.
Qed.

End WorkerFacts.

(** ** Copies, volume and mixing at time 0 *)

Module CopyFacts.
Import Sample BytesFacts AudioopFacts.
Local Open Scope method_scope.

Lemma check_size_ok (w : Z) : 1 <= w <= 4 -> audioop.check_size w = Ok tt.
Proof.
  intros H. unfold audioop.check_size.
  destruct (Z.leb_spec 1 w), (Z.leb_spec w 4); try lia. reflexivity.
Qed.

Lemma check_parameters_ok (n w : Z) :
  1 <= w <= 4 -> n mod w = 0 -> audioop.check_parameters n w = Ok tt.
Proof.
  intros Hw Hn. unfold audioop.check_parameters.
  rewrite check_size_ok by assumption. cbn [rbind].
  now rewrite Hn.
Qed.

Lemma copy_ok (s : Sample.t) :
  copy s = Ok (mkSample (frames s) (samplewidth s) (samplerate s)
                        (nchannels s) false (filename s)).
Proof. reflexivity. Qed.

Section Volume.
Context {FR : Rounding}.

Lemma amplify_unlocked (factor : Q) (s : Sample.t) (f : list byte) :
  locked s = false ->
  audioop.mul (frames s) (samplewidth s) factor = Ok f ->
  amplify factor s = (with_frames f s, Ok tt).
Proof.
  intros Hl Hf. unfold amplify, bind, get, lift, modify, assert_unlocked.
  rewrite Hl, Hf. reflexivity.
Qed.

Lemma mul_ok (frag : list byte) (w : Z) (factor : Q) :
  1 <= w <= 4 -> len frag mod w = 0 ->
  exists f, audioop.mul frag w factor = Ok f /\ len f = len frag.
Proof.
  intros Hw Hn. unfold audioop.mul.
  rewrite check_parameters_ok by assumption. cbn [rbind].
  eexists. split; [reflexivity|].
  rewrite len_frombuf by lia. unfold len at 1.
  rewrite length_map. fold (len (audioop.samples w frag)).
  rewrite len_samples by lia.
  apply Z.mod_divide in Hn; [|lia]. destruct Hn as [k ->].
  rewrite Z.div_mul by lia. lia.
Qed.

Lemma fbound_in_range (x : Q) (w : Z) :
  1 <= w -> in_range w (audioop.fbound x (audioop.minval w) (audioop.maxval w)).
Proof.
  intros Hw. pose proof (range_bounds w Hw) as (Hmin & Hmax & _).
  unfold in_range, audioop.fbound, Qltb.
  destruct (Qle_bool x (inject_Z (audioop.maxval w))) eqn:E1; cbn [negb]; [|lia].
  destruct (Qle_bool (inject_Z (audioop.minval w) + 1) x) eqn:E2; cbn [negb];
    [|lia].
  apply Qle_bool_iff in E1. apply Qle_bool_iff in E2.
  apply Qfloor_resp_le in E1. rewrite Qfloor_Z in E1.
  change 1%Q with (inject_Z 1) in E2. rewrite <- inject_Z_plus in E2.
  apply Qfloor_resp_le in E2. rewrite Qfloor_Z in E2. lia.
Qed.

(** C10, as the code has it ([at_volume] on a sample, locked or not, whose
    width is one that [audioop] takes).  When the buffer is a whole number of
    sample values the call returns a new unlocked sample in the same format
    whose every value is the value at that place multiplied by the volume,
    clipped to the range of the width and rounded down.  When it is not,
    [audioop.mul] refuses the buffer and the call ends in [audioop.error]
    without a sample.  Either way the receiver after the call is the receiver
    before it, lock flag included. *)
Theorem at_volume_copies_and_amplifies (s : Sample.t) (volume : Q) :
  1 <= samplewidth s <= 4 ->
  (len (frames s) mod samplewidth s = 0 ->
   exists cpy,
     at_volume volume s = (s, Ok cpy) /\
     locked cpy = false /\
     values cpy = map (amplified (samplewidth s) volume) (values s) /\
     frames cpy
     = audioop.frombuf (samplewidth s)
                       (map (amplified (samplewidth s) volume) (values s)) /\
     len (frames cpy) = len (frames s) /\
     samplewidth cpy = samplewidth s /\
     samplerate cpy = samplerate s /\
     nchannels cpy = nchannels s) /\
  (len (frames s) mod samplewidth s <> 0 ->
   at_volume volume s = (s, Raise AudioopError)).
Proof.
  intros Hw. split; intros Hn.
  - destruct (mul_ok (frames s) (samplewidth s) volume Hw Hn) as (f & Hf & Hlen).
    exists (mkSample f (samplewidth s) (samplerate s) (nchannels s) false
                     (filename s)).
    assert (Ef : f = audioop.frombuf (samplewidth s)
                       (map (amplified (samplewidth s) volume) (values s))).
    { unfold audioop.mul in Hf. rewrite check_parameters_ok in Hf by assumption.
      cbn [rbind] in Hf. injection Hf as <-. reflexivity. }
    split; [|split; [reflexivity|split; [|repeat split; assumption]]].
    + unfold at_volume, bind, get, lift, on, ret. rewrite copy_ok.
      erewrite amplify_unlocked; [reflexivity|reflexivity|exact Hf].
    + unfold values at 1. cbn [samplewidth frames]. rewrite Ef.
      apply samples_frombuf; [lia|].
      apply Forall_map, Forall_forall. intros v _.
      apply fbound_in_range. lia.
  - unfold at_volume, bind, get, lift, on, ret. rewrite copy_ok.
    unfold amplify, bind, get, lift, modify, assert_unlocked.
    cbn [locked frames samplewidth].
    unfold audioop.mul, audioop.check_parameters.
    rewrite check_size_ok by exact Hw. cbn [rbind].
    apply Z.eqb_neq in Hn. rewrite Hn. reflexivity.
Qed.

(** C8 ([mix_at] at offset 0 gives the same sample state as [mix] with the
    same other sample and limit): for any offset equal to 0 the two calls
    have the same outcome, receiver and result alike. *)
Theorem mix_at_zero_is_mix (seconds : Q) (other : Sample.t)
        (other_seconds : option Q) (s : Sample.t) :
  (seconds == 0)%Q ->
  mix_at seconds other other_seconds s = mix other other_seconds true s.
Proof.
  intros H. unfold mix_at.
  apply Qeq_bool_iff in H. now rewrite H.
Qed.

End Volume.

Lemma at_volume_copies_and_amplifies_witness :
  let s := with_locked true (sample_of 2 44100 1 [100; -7; 3; 30000]) in
  let partial := mkSample [x61; x62; x63] 2 44100 1 true None in
  (exists cpy,
     at_volume (FR := exact) (3 # 2) s = (s, Ok cpy) /\
     locked cpy = false /\
     values cpy = map (amplified (FR := exact) (samplewidth s) (3 # 2)) (values s) /\
     frames cpy
     = audioop.frombuf (samplewidth s)
         (map (amplified (FR := exact) (samplewidth s) (3 # 2)) (values s)) /\
     len (frames cpy) = len (frames s) /\
     samplewidth cpy = samplewidth s /\
     samplerate cpy = samplerate s /\
     nchannels cpy = nchannels s) /\
  at_volume (FR := exact) (3 # 2) partial = (partial, Raise AudioopError).
Proof.
  cbv zeta. split.
  - apply (at_volume_copies_and_amplifies (FR := exact)
             (with_locked true (sample_of 2 44100 1 [100; -7; 3; 30000]))).
    + vm_compute. split; discriminate.
    + reflexivity.
  - apply (at_volume_copies_and_amplifies (FR := exact)
             (mkSample [x61; x62; x63] 2 44100 1 true None)).
    + vm_compute. split; discriminate.
    + vm_compute. discriminate.
Defined.

(** C10 as stated (for every sample the call succeeds) does not hold: a
    buffer of three bytes in a 16-bit format, which [from_raw_frames] takes
    as it is, is not a whole number of sample values; [audioop.mul] raises
    [audioop.error] on it, and [at_volume] returns no sample, at any
    volume. *)
Lemma at_volume_fails_on_partial_value :
  exists s,
    from_raw_frames [x61; x62; x63] 2 44100 1 = Ok s /\
    locked s = false /\
    forall volume : Q,
      at_volume (FR := exact) volume s = (s, Raise AudioopError) /\
      ~ (exists cpy, at_volume (FR := exact) volume s = (s, Ok cpy)).
Proof.
  eexists. split; [reflexivity|]. split; [reflexivity|].
  intros volume.
  assert (E : at_volume (FR := exact) volume
                (mkSample [x61; x62; x63] 2 44100 1 false None)
              = (mkSample [x61; x62; x63] 2 44100 1 false None,
                 Raise AudioopError)) by reflexivity.
  split; [exact E|]. intros (cpy & H). rewrite E in H. discriminate H.
Qed.

Lemma mix_at_zero_is_mix_witness :
  let s := sample_of 2 44100 1 [100; -7; 3] in
  let other := sample_of 2 44100 1 [1; 2] in
  (0 # 5 == 0)%Q /\
  mix_at (FR := exact) (0 # 5) other None s = mix (FR := exact) other None true s.
Proof.
  cbv zeta. split.
  - reflexivity.
  - apply (mix_at_zero_is_mix (FR := exact)). reflexivity.
Defined.

End CopyFacts.

(** ** Mixing *)

Module MixFacts.
Import Sample BytesFacts AudioopFacts CopyFacts.
Local Open Scope method_scope.
Local Abbreviation length := List.length.

Lemma to_signed_zero (w : Z) : 1 <= w -> to_signed w 0 = 0.
Proof.
  intros Hw. unfold to_signed.
  assert (0 < 2 ^ (8 * w - 1)) by (apply Z.pow_pos_nonneg; lia).
  destruct (Z.ltb_spec 0 (2 ^ (8 * w - 1))); lia.
Qed.

Lemma skipn_repeat {A} (x : A) (k n : nat) :
  skipn k (repeat x n) = repeat x (n - k).
Proof.
  revert n. induction k as [|k IH]; intros n.
  - now rewrite Nat.sub_0_r.
  - destruct n as [|n]; cbn [repeat skipn Nat.sub]; auto.
Qed.

Lemma firstn_repeat {A} (x : A) (k n : nat) :
  firstn k (repeat x n) = repeat x (Nat.min k n).
Proof.
  revert n. induction k as [|k IH]; intros n.
  - reflexivity.
  - destruct n as [|n]; cbn [repeat firstn Nat.min]; auto. now rewrite IH.
Qed.

Lemma rawsample_zeros (w k : Z) (i : nat) :
  1 <= w -> audioop.rawsample w (zeros k) i = 0.
Proof.
  intros Hw. unfold audioop.rawsample, zeros.
  rewrite skipn_repeat, firstn_repeat, le_unsigned_zeros.
  now apply to_signed_zero.
Qed.

Lemma samples_zeros (w k : Z) :
  1 <= w -> audioop.samples w (zeros k) = repeat 0 (Z.to_nat (Z.max 0 k / w)).
Proof.
  intros Hw. unfold audioop.samples. rewrite len_zeros.
  generalize (Z.to_nat (Z.max 0 k / w)). intros n.
  assert (G : forall l : list nat,
             map (audioop.rawsample w (zeros k)) l = repeat 0 (length l)).
  { induction l as [|i t IH]; cbn [map length repeat].
    - reflexivity.
    - rewrite rawsample_zeros by assumption. now rewrite IH. }
  rewrite G, length_seq. reflexivity.
Qed.

Lemma clip_add_in_range (w a b : Z) :
  1 <= w -> in_range w (audioop.clip_add w a b).
Proof.
  intros Hw. unfold in_range, audioop.clip_add.
  pose proof (range_bounds w Hw). lia.
Qed.

Lemma add_values_in_range (w : Z) (l1 l2 : list Z) :
  1 <= w -> Forall (in_range w) (add_values w l1 l2).
Proof.
  intros Hw. unfold add_values. apply Forall_forall.
  intros v Hv. apply in_map_iff in Hv as (p & <- & _).
  now apply clip_add_in_range.
Qed.

Lemma add_ok (f1 f2 : list byte) (w : Z) :
  1 <= w <= 4 -> len f1 mod w = 0 -> len f1 = len f2 ->
  exists f, audioop.add f1 f2 w = Ok f /\
            audioop.samples w f
            = add_values w (audioop.samples w f1) (audioop.samples w f2) /\
            len f = len f1.
Proof.
  intros Hw Hn Hl. unfold audioop.add.
  rewrite check_parameters_ok by assumption. cbn [rbind].
  rewrite Hl, Z.eqb_refl. eexists. split; [reflexivity|].
  fold (add_values w (audioop.samples w f1) (audioop.samples w f2)).
  split.
  - apply samples_frombuf; [lia|]. apply add_values_in_range. lia.
  - rewrite len_frombuf by lia. unfold add_values, len at 1.
    rewrite length_map, length_combine, !samples_count.
    rewrite <- Hl, Nat.min_id.
    rewrite Z2Nat.id by (apply Z.div_pos; [apply len_nonneg|lia]).
    apply Z.mod_divide in Hn; [|lia]. destruct Hn as [k ->].
    rewrite Z.div_mul by lia. lia.
Qed.

Lemma add_length_mismatch (f1 f2 : list byte) (w : Z) :
  1 <= w <= 4 -> len f1 mod w = 0 -> len f1 <> len f2 ->
  audioop.add f1 f2 w = Raise AudioopError.
Proof.
  intros Hw Hn Hl. unfold audioop.add.
  rewrite check_parameters_ok by assumption. cbn [rbind].
  destruct (Z.eqb_spec (len f1) (len f2)); [contradiction|reflexivity].
Qed.

Lemma samples_padded (w : Z) (f : list byte) (k : Z) :
  1 <= w -> len f mod w = 0 -> 0 <= k -> k mod w = 0 ->
  audioop.samples w (f ++ zeros k)
  = pad_values (Z.to_nat ((len f + k) / w)) (audioop.samples w f).
Proof.
  intros Hw Hf Hk Hkw. rewrite samples_app by (assumption || lia).
  rewrite samples_zeros by assumption. unfold pad_values. f_equal. f_equal.
  rewrite samples_count, Z.max_r by lia.
  apply Z.mod_divide in Hf; [|lia]. destruct Hf as [a Ha].
  apply Z.mod_divide in Hkw; [|lia]. destruct Hkw as [b ->].
  rewrite Ha, <- Z.mul_add_distr_r, !Z.div_mul by lia.
  pose proof (len_nonneg f). assert (0 <= a) by nia. assert (0 <= b) by nia. lia.
Qed.

Lemma pad_values_full (n : nat) (vals : list Z) :
  (n <= length vals)%nat -> pad_values n vals = vals.
Proof.
  intros H. unfold pad_values.
  replace (n - length vals)%nat with 0%nat by lia. apply app_nil_r.
Qed.

Section Mix.
Context {FR : Rounding}.

(** The state and outcome of [mix] without a limit, in terms of what
    [audioop.add] is called on. *)
Lemma mix_unfold (other s : Sample.t) (pad_shortest : bool) :
  locked s = false ->
  samplewidth s = samplewidth other ->
  samplerate s = samplerate other ->
  nchannels s = nchannels other ->
  mix other None pad_shortest s
  = let f1 := frames s in
    let f2 := frames other in
    let padded :=
      if pad_shortest then
        if len f1 <? len f2 then (f1 ++ zeros (len f2 - len f1), f2)
        else if len f2 <? len f1 then (f1, f2 ++ zeros (len f1 - len f2))
        else (f1, f2)
      else (f1, f2) in
    match audioop.add (fst padded) (snd padded) (samplewidth s) with
    | Ok f => (with_frames f s, Ok tt)
    | Raise e => (s, Raise e)
    end.
Proof.
  intros Hl Hw Hr Hc.
  unfold mix, bind, get, lift, modify, assert, assert_unlocked, ret.
  rewrite Hl. rewrite <- Hw, <- Hr, <- Hc, !Z.eqb_refl.
  cbn [limited_frames]. cbv zeta.
  destruct (audioop.add _ _ _); reflexivity.
Qed.

(** C2, as the code has it: two unlocked samples of the same format whose
    buffers differ in length.  With [pad_shortest] true the shorter buffer is
    extended with zeros to the longer one and the values are added pairwise
    (saturating at the sample range); with [pad_shortest] false no length is
    adjusted, [audioop.add] refuses the unequal buffers, and the receiver is
    left as it was. *)
Theorem mix_pads_or_fails (s other : Sample.t) :
  locked s = false ->
  samplewidth s = samplewidth other ->
  samplerate s = samplerate other ->
  nchannels s = nchannels other ->
  1 <= samplewidth s <= 4 ->
  len (frames s) mod samplewidth s = 0 ->
  len (frames other) mod samplewidth s = 0 ->
  len (frames s) <> len (frames other) ->
  let n := Nat.max (length (values s)) (length (values other)) in
  (exists s',
      mix other None true s = (s', Ok tt) /\
      values s' = add_values (samplewidth s) (pad_values n (values s))
                             (pad_values n (values other)) /\
      length (values s') = n /\
      samplewidth s' = samplewidth s /\
      samplerate s' = samplerate s /\
      nchannels s' = nchannels s) /\
  mix other None false s = (s, Raise AudioopError).
Proof.
  intros Hl Hw Hr Hc Hws Hs Ho Hne n.
  pose proof (len_nonneg (frames s)) as H1.
  pose proof (len_nonneg (frames other)) as H2.
  set (w := samplewidth s) in *.
  assert (Hcs : length (values s) = Z.to_nat (len (frames s) / w)).
  { unfold values. apply samples_count. }
  assert (Hco : length (values other) = Z.to_nat (len (frames other) / w)).
  { unfold values. rewrite <- Hw. apply samples_count. }
  assert (Hmono : forall a b, 0 <= a -> a <= b ->
                    (Z.to_nat (a / w) <= Z.to_nat (b / w))%nat).
  { intros a b Ha Hab. apply Z2Nat.inj_le.
    - apply Z.div_pos; lia.
    - apply Z.div_pos; lia.
    - apply Z.div_le_mono; lia. }
  assert (Hvs : forall f, values (with_frames f s) = audioop.samples w f).
  { reflexivity. }
  assert (Hvo : values other = audioop.samples w (frames other)).
  { unfold values. now rewrite <- Hw. }
  split.
  - rewrite mix_unfold by assumption. cbv zeta.
    destruct (Z.ltb_spec (len (frames s)) (len (frames other))) as [Hlt|Hge].
    + cbn [fst snd].
      assert (Hn : n = Z.to_nat (len (frames other) / w)).
      { unfold n. rewrite Hcs, Hco. apply Nat.max_r. apply Hmono; lia. }
      assert (Hsum : len (frames s) + (len (frames other) - len (frames s))
                     = len (frames other)) by lia.
      destruct (add_ok (frames s ++ zeros (len (frames other) - len (frames s)))
                       (frames other) w Hws) as (f & Hf & Hv & Hlen).
      { rewrite len_app, len_zeros, Z.max_r, Hsum by lia. assumption. }
      { rewrite len_app, len_zeros. lia. }
      fold w. rewrite Hf. eexists. split; [reflexivity|].
      rewrite Hvs. split; [|split; [|repeat split]].
      * rewrite Hv. rewrite samples_padded; try (assumption || lia).
        2:{ rewrite Zminus_mod, Hs, Ho. reflexivity. }
        rewrite Hsum, <- Hn, Hvo. f_equal.
        symmetry. apply pad_values_full.
        rewrite Hn, samples_count. lia.
      * rewrite samples_count, Hlen, len_app, len_zeros, Z.max_r, Hsum by lia.
        now rewrite Hn.
    + destruct (Z.ltb_spec (len (frames other)) (len (frames s))) as [Hlt|Hge'];
        [|lia].
      cbn [fst snd].
      assert (Hn : n = Z.to_nat (len (frames s) / w)).
      { unfold n. rewrite Hcs, Hco. apply Nat.max_l. apply Hmono; lia. }
      assert (Hsum : len (frames other) + (len (frames s) - len (frames other))
                     = len (frames s)) by lia.
      destruct (add_ok (frames s)
                       (frames other ++ zeros (len (frames s) - len (frames other)))
                       w Hws) as (f & Hf & Hv & Hlen).
      { assumption. }
      { rewrite len_app, len_zeros. lia. }
      fold w. rewrite Hf. eexists. split; [reflexivity|].
      rewrite Hvs. split; [|split; [|repeat split]].
      * rewrite Hv. rewrite samples_padded; try (assumption || lia).
        2:{ rewrite Zminus_mod, Hs, Ho. reflexivity. }
        rewrite Hsum, <- Hn, Hvo. f_equal.
        symmetry. apply pad_values_full.
        rewrite Hn. unfold values. fold w. rewrite samples_count. lia.
      * rewrite samples_count, Hlen. now rewrite Hn.
  - rewrite mix_unfold by assumption. cbv zeta. cbn [fst snd]. fold w.
    rewrite add_length_mismatch by assumption. reflexivity.
Qed.

End Mix.

(** C2 as stated (with [pad_shortest] false both buffers are treated at the
    shorter length instead of the operation failing) does not hold: mixing a
    one-value sample into a two-value sample of the same format without
    padding raises [audioop.error], and no sample state results. *)
Lemma mix_without_padding_raises :
  let s := sample_of 2 44100 1 [100; 100] in
  let other := sample_of 2 44100 1 [1] in
  locked s = false /\
  len (frames s) <> len (frames other) /\
  mix (FR := exact) other None false s = (s, Raise AudioopError) /\
  ~ (exists s', mix (FR := exact) other None false s = (s', Ok tt) /\
                values s' = add_values 2 [100] [1]).
Proof.
  cbv zeta. split; [reflexivity|]. split; [discriminate|].
  split; [reflexivity|].
  intros (s' & H & _). vm_compute in H. discriminate H.
Qed.

Lemma mix_pads_or_fails_witness :
  let s := sample_of 2 44100 1 [100; 32767] in
  let other := sample_of 2 44100 1 [1; 2; 3] in
  (exists s',
      mix (FR := exact) other None true s = (s', Ok tt) /\
      values s' = add_values 2 (pad_values 3 (values s))
                             (pad_values 3 (values other)) /\
      length (values s') = 3%nat /\
      samplewidth s' = 2 /\ samplerate s' = 44100 /\ nchannels s' = 1) /\
  mix (FR := exact) other None false s = (s, Raise AudioopError).
Proof.
  cbv zeta.
  apply (mix_pads_or_fails (FR := exact)
           (sample_of 2 44100 1 [100; 32767]) (sample_of 2 44100 1 [1; 2; 3]));
    try reflexivity.
  - vm_compute. split; discriminate.
  - discriminate.
Defined.

End MixFacts.

(** ** A logic for methods *)

Module Hoare.
Import Sample.
Local Open Scope method_scope.

Lemma triple_weaken {A} (P P' : Sample.t -> Prop) (m : M A)
      (Q Q' : A -> Sample.t -> Prop) :
  triple P' m Q' ->
  (forall s, P s -> P' s) ->
  (forall a s, Q' a s -> Q a s) ->
  triple P m Q.
Proof.
  intros H HP HQ s Hs. specialize (H s (HP s Hs)).
  destruct (m s) as [s' [a|e]]; auto.
Qed.

Lemma triple_ret {A} (P : Sample.t -> Prop) (a : A) :
  triple P (ret a) (fun a' s => a' = a /\ P s).
Proof. intros s Hs. cbn. auto. Qed.

Lemma triple_raise {A} (P : Sample.t -> Prop) (e : exn)
      (Q : A -> Sample.t -> Prop) :
  triple P (raise e) Q.
Proof. intros s Hs. exact I. Qed.

Lemma triple_bind {A B} (P : Sample.t -> Prop) (m : M A) (k : A -> M B)
      (Q1 : A -> Sample.t -> Prop) (Q : B -> Sample.t -> Prop) :
  triple P m Q1 ->
  (forall a, triple (Q1 a) (k a) Q) ->
  triple P (bind m k) Q.
Proof.
  intros Hm Hk s Hs. unfold bind. specialize (Hm s Hs).
  destruct (m s) as [s1 [a|e]]; [|exact I].
  exact (Hk a s1 Hm).
Qed.

Lemma triple_get (P : Sample.t -> Prop) :
  triple P get (fun a s => a = s /\ P s).
Proof. intros s Hs. cbn. auto. Qed.

Lemma triple_modify (P : Sample.t -> Prop) (f : Sample.t -> Sample.t) :
  triple P (modify f) (fun _ s' => exists s, s' = f s /\ P s).
Proof. intros s Hs. cbn. eauto. Qed.

Lemma triple_lift {A} (P : Sample.t -> Prop) (r : result A) :
  triple P (lift r) (fun a s => r = Ok a /\ P s).
Proof. intros s Hs. unfold lift. destruct r; cbn; auto. Qed.

Lemma triple_assert (P : Sample.t -> Prop) (b : bool) :
  triple P (assert b) (fun _ s => b = true /\ P s).
Proof. intros s Hs. unfold assert. destruct b; cbn; auto. Qed.

Lemma triple_assert_unlocked (P : Sample.t -> Prop) :
  triple P assert_unlocked (fun _ s => locked s = false /\ P s).
Proof.
  intros s Hs. unfold assert_unlocked. destruct (locked s) eqn:E; cbn; auto.
Qed.

Lemma triple_on {A} (P Po : Sample.t -> Prop) (o : Sample.t) (m : M A)
      (Qo : A -> Sample.t -> Prop) :
  triple Po m Qo -> Po o ->
  triple P (on o m) (fun r s => Qo (snd r) (fst r) /\ P s).
Proof.
  intros Hm Ho s Hs. unfold on. specialize (Hm o Ho).
  destruct (m o) as [o' [a|e]]; cbn; auto.
Qed.

Lemma triple_if {A} (b : bool) (P : Sample.t -> Prop) (m1 m2 : M A)
      (Q : A -> Sample.t -> Prop) :
  (b = true -> triple P m1 Q) ->
  (b = false -> triple P m2 Q) ->
  triple P (if b then m1 else m2) Q.
Proof. destruct b; auto. Qed.

(** The reading of a triple on one run. *)
Lemma triple_run {A} (P : Sample.t -> Prop) (m : M A)
      (Q : A -> Sample.t -> Prop) (s s' : Sample.t) (a : A) :
  triple P m Q -> P s -> m s = (s', Ok a) -> Q a s'.
Proof. intros H Hs E. specialize (H s Hs). now rewrite E in H. Qed.

Lemma triple_pure {A} (P : Sample.t -> Prop) (m : M A)
      (Q : A -> Sample.t -> Prop) :
  (forall s s' a, P s -> m s = (s', Ok a) -> Q a s') -> triple P m Q.
Proof.
  intros H s Hs. destruct (m s) as [s' [a|e]] eqn:E; [|exact I]. eauto.
Qed.

End Hoare.

(** ** Buffer lengths through the kernel *)

Module LengthFacts.
Import BytesFacts AudioopFacts.

Lemma check_size_inv (w : Z) (u : unit) :
  audioop.check_size w = Ok u -> 1 <= w <= 4.
Proof.
  unfold audioop.check_size.
  destruct (Z.leb_spec 1 w), (Z.leb_spec w 4); cbn; intros E;
    try discriminate E; lia.
Qed.

Lemma check_parameters_inv (n w : Z) (u : unit) :
  audioop.check_parameters n w = Ok u -> 1 <= w <= 4 /\ n mod w = 0.
Proof.
  unfold audioop.check_parameters.
  destruct (audioop.check_size w) as [[]|e] eqn:E; cbn [rbind]; [|discriminate].
  apply check_size_inv in E.
  destruct (Z.eqb_spec (n mod w) 0); [auto | discriminate].
Qed.

Lemma len_samples_mul (w : Z) (frag : list byte) :
  1 <= w -> len frag mod w = 0 -> w * len (audioop.samples w frag) = len frag.
Proof.
  intros Hw Hn. rewrite len_samples by lia.
  apply Z.mod_divide in Hn; [|lia]. destruct Hn as [k ->].
  rewrite Z.div_mul by lia. lia.
Qed.

Lemma len_map {A B} (f : A -> B) (l : list A) : len (map f l) = len l.
Proof. unfold len. now rewrite length_map. Qed.

Lemma len_rev {A} (l : list A) : len (rev l) = len l.
Proof. unfold len. now rewrite length_rev. Qed.

Section Kernel.
Context {FR : Rounding}.

Lemma mul_len (frag f : list byte) (w : Z) (factor : Q) :
  audioop.mul frag w factor = Ok f ->
  len f = len frag /\ 1 <= w <= 4 /\ len frag mod w = 0.
Proof.
  unfold audioop.mul.
  destruct (audioop.check_parameters (len frag) w) as [[]|e] eqn:E; cbn [rbind];
    [|discriminate].
  apply check_parameters_inv in E as [Hw Hn].
  intros H. injection H as <-. split; [|auto].
  rewrite len_frombuf, len_map by lia. apply len_samples_mul; lia.
Qed.

Lemma tostereo_len (frag f : list byte) (w : Z) (lf rf : Q) :
  audioop.tostereo frag w lf rf = Ok f ->
  len f = 2 * len frag /\ 1 <= w <= 4 /\ len frag mod w = 0.
Proof.
  unfold audioop.tostereo.
  destruct (audioop.check_parameters (len frag) w) as [[]|e] eqn:E; cbn [rbind];
    [|discriminate].
  apply check_parameters_inv in E as [Hw Hn].
  intros H. injection H as <-. split; [|auto].
  rewrite len_frombuf by lia.
  assert (G : forall (l : list Z) (g : Z -> list Z),
             (forall v, List.length (g v) = 2%nat) ->
             len (flat_map g l) = 2 * len l).
  { intros l g Hg. unfold len. induction l as [|v t IH]; cbn [flat_map List.length].
    - reflexivity.
    - rewrite length_app, Hg. lia. }
  rewrite G by reflexivity.
  pose proof (len_samples_mul w frag ltac:(lia) Hn). lia.
Qed.

Lemma length_frames_lr (vals : list Z) :
  List.length (audioop.frames_lr vals) = Nat.div2 (List.length vals).
Proof.
  enough (G : List.length (audioop.frames_lr vals) = Nat.div2 (List.length vals)
              /\ forall a, List.length (audioop.frames_lr (a :: vals))
                           = Nat.div2 (S (List.length vals))) by apply G.
  induction vals as [|b t [IH1 IH2]].
  - split; reflexivity.
  - split; [apply IH2|].
    intros a. cbn [audioop.frames_lr List.length Nat.div2]. now rewrite IH1.
Qed.

Lemma tomono_len (frag f : list byte) (w : Z) (lf rf : Q) :
  audioop.tomono frag w lf rf = Ok f ->
  2 * len f = len frag /\ 1 <= w <= 4 /\ len frag mod (2 * w) = 0.
Proof.
  unfold audioop.tomono.
  destruct (audioop.check_parameters (len frag) w) as [[]|e] eqn:E; cbn [rbind];
    [|discriminate].
  apply check_parameters_inv in E as [Hw Hn].
  destruct (Z.eqb_spec ((len frag / w) mod 2) 0) as [Hev|]; [|discriminate].
  intros H. injection H as <-.
  apply Z.mod_divide in Hn; [|lia]. destruct Hn as [k Hk].
  rewrite Hk, Z.div_mul in Hev by lia.
  apply Z.mod_divide in Hev; [|lia]. destruct Hev as [j ->].
  assert (0 <= j) by (pose proof (len_nonneg frag); nia).
  split; [|split; [assumption|]].
  - rewrite len_frombuf, len_map by lia. unfold len at 1.
    rewrite length_frames_lr, samples_count, Hk, Z.div_mul by lia.
    replace (Z.to_nat (j * 2)) with (2 * Z.to_nat j)%nat by lia.
    rewrite Nat.div2_double. lia.
  - rewrite Hk. apply Z.mod_divide; [lia|]. exists j. lia.
Qed.

End Kernel.

Lemma add_len (f1 f2 f : list byte) (w : Z) :
  audioop.add f1 f2 w = Ok f ->
  len f = len f1 /\ len f1 = len f2 /\ 1 <= w <= 4 /\ len f1 mod w = 0.
Proof.
  unfold audioop.add.
  destruct (audioop.check_parameters (len f1) w) as [[]|e] eqn:E; cbn [rbind];
    [|discriminate].
  apply check_parameters_inv in E as [Hw Hn].
  destruct (Z.eqb_spec (len f1) (len f2)) as [Hl|]; [|discriminate].
  intros H. injection H as <-. split; [|auto].
  rewrite len_frombuf, len_map by lia. unfold len at 1.
  rewrite length_combine, !samples_count, <- Hl, Nat.min_id.
  rewrite Z2Nat.id by (apply Z.div_pos; [apply len_nonneg|lia]).
  apply Z.mod_divide in Hn; [|lia]. destruct Hn as [k ->].
  rewrite Z.div_mul by lia. lia.
Qed.

Lemma lin2lin_len (frag f : list byte) (w w2 : Z) :
  audioop.lin2lin frag w w2 = Ok f ->
  len f = len frag / w * w2 /\ 1 <= w <= 4 /\ 1 <= w2 <= 4 /\
  len frag mod w = 0.
Proof.
  unfold audioop.lin2lin.
  destruct (audioop.check_parameters (len frag) w) as [[]|e] eqn:E; cbn [rbind];
    [|discriminate].
  apply check_parameters_inv in E as [Hw Hn].
  destruct (audioop.check_size w2) as [[]|e] eqn:E2; cbn [rbind]; [|discriminate].
  apply check_size_inv in E2.
  intros H. injection H as <-. split; [|auto].
  rewrite len_frombuf, len_map, len_samples by lia. lia.
Qed.

Lemma reverse_len (frag f : list byte) (w : Z) :
  audioop.reverse frag w = Ok f -> len f = len frag.
Proof.
  unfold audioop.reverse.
  destruct (audioop.check_parameters (len frag) w) as [[]|e] eqn:E; cbn [rbind];
    [|discriminate].
  apply check_parameters_inv in E as [Hw Hn].
  intros H. injection H as <-.
  rewrite len_frombuf, len_rev by lia. apply len_samples_mul; lia.
Qed.

Lemma length_mapM {A B} (f : A -> result B) (l : list A) (bs : list B) :
  mapM f l = Ok bs -> List.length bs = List.length l.
Proof.
  revert bs. induction l as [|a t IH]; intros bs; cbn [mapM].
  - intros H. injection H as <-. reflexivity.
  - destruct (f a) as [b|e]; cbn; [|discriminate].
    destruct (mapM f t) as [bs'|e]; cbn; [|discriminate].
    intros H. injection H as <-. cbn. f_equal. now apply IH.
Qed.

Lemma len_range (n : Z) : len (range n) = Z.max 0 n.
Proof. unfold len, range. rewrite length_map, length_seq. lia. Qed.

End LengthFacts.

(** ** Rounding *)

Module RoundingFacts.

Lemma Qtrunc_nonneg (x : Q) : (0 <= Qnum x) -> Qtrunc x = Qfloor x.
Proof.
  intros H. unfold Qtrunc. destruct x as [n d]. cbn [Qnum Qden Qfloor] in *.
  apply Z.quot_div_nonneg; lia.
Qed.

Lemma Qtrunc_neg (x : Q) : (Qnum x <= 0) -> Qtrunc x = - Qfloor (- x).
Proof.
  intros H. unfold Qtrunc. destruct x as [n d].
  cbn [Qnum Qden Qfloor Qopp] in *.
  rewrite <- (Z.opp_involutive n) at 1. rewrite Z.quot_opp_l by lia.
  f_equal. apply Z.quot_div_nonneg; lia.
Qed.

Lemma Qnum_sign (x : Q) : (0 <= x)%Q <-> 0 <= Qnum x.
Proof. destruct x as [n d]. unfold Qle. cbn. lia. Qed.

Lemma Qnum_sign_neg (x : Q) : (x <= 0)%Q <-> Qnum x <= 0.
Proof. destruct x as [n d]. unfold Qle. cbn. lia. Qed.

Lemma Qtrunc_comp (x y : Q) : (x == y)%Q -> Qtrunc x = Qtrunc y.
Proof.
  intros E. destruct (Qlt_le_dec x 0) as [Hx|Hx].
  - assert (Hy : (y <= 0)%Q) by (rewrite <- E; auto with qarith).
    rewrite !Qtrunc_neg by (apply Qnum_sign_neg; auto with qarith).
    f_equal. apply Qfloor_comp. now rewrite E.
  - assert (Hy : (0 <= y)%Q) by (now rewrite <- E).
    rewrite !Qtrunc_nonneg by (now apply Qnum_sign).
    now apply Qfloor_comp.
Qed.

Lemma Qtrunc_inject_Z (z : Z) : Qtrunc (inject_Z z) = z.
Proof. unfold Qtrunc, inject_Z. cbn. apply Z.quot_1_r. Qed.

Lemma Qtrunc_zero (x : Q) : (x == 0)%Q -> Qtrunc x = 0.
Proof. intros E. now rewrite (Qtrunc_comp _ _ E). Qed.

(** Truncation keeps a value between the integers that bound it. *)
Lemma Qtrunc_bounds (x : Q) (lo hi : Z) :
  lo <= 0 <= hi -> (inject_Z lo <= x)%Q -> (x <= inject_Z hi)%Q ->
  lo <= Qtrunc x <= hi.
Proof.
  intros Hz Hlo Hhi. destruct (Qlt_le_dec x 0) as [Hx|Hx].
  - rewrite Qtrunc_neg by (apply Qnum_sign_neg; auto with qarith).
    assert (H1 : (- x <= inject_Z (- lo))%Q).
    { rewrite inject_Z_opp. now apply Qopp_le_compat. }
    apply Qfloor_resp_le in H1. rewrite Qfloor_Z in H1.
    assert (H2 : (inject_Z 0 <= - x)%Q).
    { change (inject_Z 0) with (- 0)%Q. apply Qopp_le_compat. auto with qarith. }
    apply Qfloor_resp_le in H2. rewrite Qfloor_Z in H2. lia.
  - rewrite Qtrunc_nonneg by (now apply Qnum_sign).
    apply Qfloor_resp_le in Hhi. rewrite Qfloor_Z in Hhi.
    assert (H2 : (inject_Z 0 <= x)%Q) by exact Hx.
    apply Qfloor_resp_le in H2. rewrite Qfloor_Z in H2. lia.
Qed.

(** Arithmetic without rounding is a rounding of the standard model. *)
Lemma exact_standard : StandardModel exact.
Proof.
  constructor; cbn [rnd exact]; intros.
  - assumption.
  - assumption.
  - reflexivity.
  - reflexivity.
  - setoid_replace (x - x)%Q with 0%Q by ring.
    cbn [Qabs Z.abs]. apply Qmult_le_0_compat; [apply Qabs_nonneg|].
    unfold eps. vm_compute. discriminate.
Qed.

Section Standard.
Context {FR : Rounding} {SM : StandardModel FR}.

Lemma rnd_zero : (rnd 0 == 0)%Q.
Proof. apply (rnd_int 0). vm_compute. discriminate. Qed.

Lemma rnd_one : (rnd 1 == 1)%Q.
Proof. apply (rnd_int 1). vm_compute. discriminate. Qed.

Lemma rnd_nonneg (x : Q) : (0 <= x)%Q -> (0 <= rnd x)%Q.
Proof. intros H. rewrite <- rnd_zero. now apply rnd_mono. Qed.

Lemma rnd_le_int (x : Q) (z : Z) :
  Z.abs z <= 2 ^ 53 -> (x <= inject_Z z)%Q -> (rnd x <= inject_Z z)%Q.
Proof. intros Hz H. rewrite <- (rnd_int z Hz). now apply rnd_mono. Qed.

Lemma rnd_ge_int (x : Q) (z : Z) :
  Z.abs z <= 2 ^ 53 -> (inject_Z z <= x)%Q -> (inject_Z z <= rnd x)%Q.
Proof. intros Hz H. rewrite <- (rnd_int z Hz). now apply rnd_mono. Qed.

(** The float quotient of an integer by one of its divisors is the integer
    quotient. *)
Lemma fdiv_exact (a b k : Z) :
  b <> 0 -> a = b * k -> Z.abs k <= 2 ^ 53 ->
  (fdiv (inject_Z a) (inject_Z b) == inject_Z k)%Q.
Proof.
  intros Hb -> Hk. unfold fdiv.
  rewrite <- (rnd_int k Hk). apply rnd_proper.
  rewrite inject_Z_mult. field.
  intros H. apply Hb. unfold Qeq in H. cbn in H. lia.
Qed.

End Standard.

End RoundingFacts.

(** ** Binary64 is a rounding of the standard model *)

Module Binary64Facts.

(** *** Powers of two and the exponent *)

Lemma Qpow2_power (e : Z) : (Qpow2 e == 2 ^ e)%Q.
Proof.
  unfold Qpow2. destruct (Z.leb_spec 0 e) as [H|H].
  - now rewrite Zpower_Qpower.
  - replace e with (- - e) at 2 by lia. rewrite Qpower_opp.
    rewrite (Zpower_Qpower 2 (- e)) by lia. unfold Qdiv. now rewrite Qmult_1_l.
Qed.

Lemma Qpow2_pos (e : Z) : (0 < Qpow2 e)%Q.
Proof. rewrite Qpow2_power. now apply Qpower_0_lt. Qed.

Lemma Qpow2_add (a b : Z) : (Qpow2 (a + b) == Qpow2 a * Qpow2 b)%Q.
Proof. rewrite !Qpow2_power. now apply Qpower_plus. Qed.

Lemma Qpow2_le (a b : Z) : a <= b -> (Qpow2 a <= Qpow2 b)%Q.
Proof.
  intros H. rewrite !Qpow2_power. apply Qpower_le_compat_l; [exact H|].
  discriminate.
Qed.

Lemma Qpow2_lt_inv (a b : Z) : (Qpow2 a < Qpow2 b)%Q -> a < b.
Proof.
  rewrite !Qpow2_power. intros H.
  apply (Qpower_lt_compat_l_inv 2); [exact H|reflexivity].
Qed.

Lemma Qpow2_Z (e : Z) : 0 <= e -> Qpow2 e = inject_Z (2 ^ e).
Proof.
  intros H. unfold Qpow2. now replace (0 <=? e) with true by (symmetry; now apply Z.leb_le).
Qed.

Lemma Qpow2_succ (e : Z) : (Qpow2 (e + 1) == 2 * Qpow2 e)%Q.
Proof. rewrite Qpow2_add. rewrite (Qpow2_Z 1) by lia. change (inject_Z (2 ^ 1)) with 2%Q. ring. Qed.

(** The exponent of a number other than 0. *)
Lemma Qlog2_spec (x : Q) :
  ~ (x == 0)%Q ->
  (Qpow2 (Qlog2 x) <= Qabs x)%Q /\ (Qabs x < Qpow2 (Qlog2 x + 1))%Q.
Proof.
  intros Hx. destruct x as [n d].
  assert (Hn : 0 < Z.abs n).
  { assert (n <> 0); [|lia]. intros ->. apply Hx. reflexivity. }
  unfold Qlog2. cbn [Qnum Qden].
  set (a := Z.log2 (Z.abs n)). set (b := Z.log2 (Z.pos d)).
  destruct (Z.log2_spec (Z.abs n) Hn) as [A1 A2]. fold a in A1, A2.
  destruct (Z.log2_spec (Z.pos d) ltac:(lia)) as [B1 B2]. fold b in B1, B2.
  assert (Ha : 0 <= a) by apply Z.log2_nonneg.
  assert (Hb : 0 <= b) by apply Z.log2_nonneg.
  assert (Habs : (Qabs (n # d) == inject_Z (Z.abs n) / inject_Z (Z.pos d))%Q).
  { unfold Qabs. now rewrite (Qmake_Qdiv (Z.abs n) d). }
  assert (Dpos : (0 < inject_Z (Z.pos d))%Q) by reflexivity.
  assert (QA1 : (Qpow2 a <= inject_Z (Z.abs n))%Q).
  { rewrite Qpow2_Z by lia. now rewrite <- Zle_Qle. }
  assert (QA2 : (inject_Z (Z.abs n) < Qpow2 (a + 1))%Q).
  { rewrite Qpow2_Z by lia. rewrite <- Zlt_Qlt. now rewrite <- Z.add_1_r in A2. }
  assert (QB1 : (Qpow2 b <= inject_Z (Z.pos d))%Q).
  { rewrite Qpow2_Z by lia. now rewrite <- Zle_Qle. }
  assert (QB2 : (inject_Z (Z.pos d) < Qpow2 (b + 1))%Q).
  { rewrite Qpow2_Z by lia. rewrite <- Zlt_Qlt. now rewrite <- Z.add_1_r in B2. }
  assert (Lo : (Qpow2 (a - b - 1) <= Qabs (n # d))%Q).
  { rewrite Habs. apply Qle_shift_div_l; [exact Dpos|].
    pose proof (Qpow2_add (a - b - 1) (b + 1)) as E.
    replace (a - b - 1 + (b + 1)) with a in E by lia.
    pose proof (Qpow2_pos (a - b - 1)). nra. }
  assert (Hi : (Qabs (n # d) < Qpow2 (a - b + 1))%Q).
  { rewrite Habs. apply Qlt_shift_div_r; [exact Dpos|].
    pose proof (Qpow2_add (a - b + 1) b) as E.
    replace (a - b + 1 + b) with (a + 1) in E by lia.
    pose proof (Qpow2_pos (a - b + 1)). nra. }
  destruct (Qle_bool (Qpow2 (a - b)) (Qabs (n # d))) eqn:E.
  - apply Qle_bool_iff in E. split; assumption.
  - split.
    + exact Lo.
    + replace (a - b - 1 + 1) with (a - b) by lia.
      destruct (Qlt_le_dec (Qabs (n # d)) (Qpow2 (a - b))) as [H|H]; [exact H|].
      apply Qle_bool_iff in H. congruence.
Qed.

Lemma Qlog2_unique (x : Q) (k : Z) :
  (Qpow2 k <= Qabs x)%Q -> (Qabs x < Qpow2 (k + 1))%Q -> Qlog2 x = k.
Proof.
  intros H1 H2.
  assert (Hx : ~ (x == 0)%Q).
  { intros E. rewrite E in H1. pose proof (Qpow2_pos k).
    change (Qabs 0) with 0%Q in H1. lra. }
  destruct (Qlog2_spec x Hx) as [L1 L2].
  assert (Qpow2 (Qlog2 x) < Qpow2 (k + 1))%Q by lra.
  assert (Qpow2 k < Qpow2 (Qlog2 x + 1))%Q by lra.
  apply Qpow2_lt_inv in H, H0. lia.
Qed.

Lemma Qlog2_comp (x y : Q) : ~ (x == 0)%Q -> (x == y)%Q -> Qlog2 x = Qlog2 y.
Proof.
  intros Hx E. symmetry. destruct (Qlog2_spec x Hx) as [L1 L2].
  apply Qlog2_unique; now rewrite <- E.
Qed.

Lemma Qlog2_opp (x : Q) : Qlog2 (- x) = Qlog2 x.
Proof.
  unfold Qlog2. destruct x as [n d]. cbn [Qnum Qden Qopp].
  rewrite Z.abs_opp.
  assert (E : (Qabs (- n # d) == Qabs (n # d))%Q) by (apply (Qabs_opp (n # d))).
  now rewrite (Qleb_comp _ _ (Qeq_refl _) _ _ E).
Qed.

(** *** Rounding to the nearest integer, ties to even *)

Lemma Qltb_lt (x y : Q) : Qltb x y = true <-> (x < y)%Q.
Proof.
  unfold Qltb. split; intros H.
  - destruct (Qlt_le_dec x y) as [L|L]; [exact L|].
    apply Qle_bool_iff in L. rewrite L in H. discriminate.
  - destruct (Qle_bool y x) eqn:E; [|reflexivity].
    apply Qle_bool_iff in E. lra.
Qed.

Lemma Qltb_ge (x y : Q) : Qltb x y = false <-> (y <= x)%Q.
Proof.
  unfold Qltb. split; intros H.
  - destruct (Qle_bool y x) eqn:E; [now apply Qle_bool_iff|discriminate].
  - apply Qle_bool_iff in H. now rewrite H.
Qed.

Lemma Qfloor_unique (x : Q) (z : Z) :
  (inject_Z z <= x)%Q -> (x < inject_Z (z + 1))%Q -> Qfloor x = z.
Proof.
  intros H1 H2. pose proof (Qfloor_le x) as F1. pose proof (Qlt_floor x) as F2.
  assert (A : (inject_Z (Qfloor x) < inject_Z (z + 1))%Q) by lra.
  assert (B : (inject_Z z < inject_Z (Qfloor x + 1))%Q) by lra.
  rewrite <- Zlt_Qlt in A, B. lia.
Qed.

Lemma fraction_bounds (q : Q) :
  (0 <= q - inject_Z (Qfloor q))%Q /\ (q - inject_Z (Qfloor q) < 1)%Q.
Proof.
  pose proof (Qfloor_le q) as F1. pose proof (Qlt_floor q) as F2.
  rewrite inject_Z_plus in F2. change (inject_Z 1) with 1%Q in F2. split; lra.
Qed.

(** What [round_even] returns, by the place of the fraction. *)
Lemma round_even_spec (q : Q) :
  let f := Qfloor q in
  let r := (q - inject_Z f)%Q in
  ((r < 1 # 2)%Q /\ round_even q = f) \/
  ((1 # 2 < r)%Q /\ round_even q = f + 1) \/
  ((r == 1 # 2)%Q /\ round_even q = if Z.even f then f else f + 1).
Proof.
  cbv zeta. unfold round_even.
  set (f := Qfloor q). set (r := (q - inject_Z f)%Q).
  destruct (Qltb r (1 # 2)) eqn:E1.
  - left. apply Qltb_lt in E1. now split.
  - apply Qltb_ge in E1. destruct (Qltb (1 # 2) r) eqn:E2.
    + right. left. apply Qltb_lt in E2. now split.
    + right. right. apply Qltb_ge in E2. split; [lra|reflexivity].
Qed.

Lemma round_even_near (q : Q) :
  Qfloor q <= round_even q <= Qfloor q + 1.
Proof.
  destruct (round_even_spec q) as [[_ E]|[[_ E]|[_ E]]]; rewrite E;
    try destruct (Z.even (Qfloor q)); lia.
Qed.

Lemma round_even_Z (z : Z) : round_even (inject_Z z) = z.
Proof.
  destruct (round_even_spec (inject_Z z)) as [[_ E]|[[H E]|[H E]]];
    rewrite Qfloor_Z in *; [exact E| |]; exfalso; lra.
Qed.

Lemma round_even_comp (q q' : Q) : (q == q')%Q -> round_even q = round_even q'.
Proof.
  intros E. unfold round_even. rewrite (Qfloor_comp _ _ E).
  set (f := Qfloor q').
  assert (Er : (q - inject_Z f == q' - inject_Z f)%Q) by (now rewrite E).
  unfold Qltb.
  rewrite (Qleb_comp _ _ (Qeq_refl (1 # 2)) _ _ Er).
  rewrite (Qleb_comp _ _ Er _ _ (Qeq_refl (1 # 2))). reflexivity.
Qed.

Lemma round_even_mono (q q' : Q) : (q <= q')%Q -> round_even q <= round_even q'.
Proof.
  intros H. pose proof (Qfloor_resp_le _ _ H) as Hf.
  pose proof (round_even_near q) as N. pose proof (round_even_near q') as N'.
  destruct (Z.eq_dec (Qfloor q) (Qfloor q')) as [E|E]; [|lia].
  destruct (round_even_spec q) as [[R1 E1]|[[R1 E1]|[R1 E1]]];
    destruct (round_even_spec q') as [[R2 E2]|[[R2 E2]|[R2 E2]]];
    rewrite E1, E2; rewrite <- ?E in *;
    try destruct (Z.even (Qfloor q)); try lia; exfalso; lra.
Qed.

Lemma round_even_err (q : Q) :
  (Qabs (inject_Z (round_even q) - q) <= 1 # 2)%Q.
Proof.
  pose proof (fraction_bounds q) as [F1 F2].
  apply Qabs_Qle_condition.
  destruct (round_even_spec q) as [[R1 E1]|[[R1 E1]|[R1 E1]]]; rewrite E1;
    try destruct (Z.even (Qfloor q));
    rewrite ?inject_Z_plus; change (inject_Z 1) with 1%Q; split; lra.
Qed.

Lemma round_even_opp (q : Q) : round_even (- q) = - round_even q.
Proof.
  pose proof (fraction_bounds q) as [F1 F2].
  set (f := Qfloor q) in *.
  destruct (Qeq_dec (q - inject_Z f) 0) as [Z0|NZ].
  - assert (E : (q == inject_Z f)%Q) by lra.
    rewrite (round_even_comp q _ E), round_even_Z.
    assert (E' : (- q == inject_Z (- f))%Q) by (rewrite inject_Z_opp; lra).
    now rewrite (round_even_comp _ _ E'), round_even_Z.
  - assert (Ef : Qfloor (- q) = - f - 1).
    { apply Qfloor_unique.
      - unfold Z.sub. rewrite !inject_Z_plus, inject_Z_opp.
        change (inject_Z (- (1))) with (-1)%Q. lra.
      - replace (- f - 1 + 1) with (- f) by lia. rewrite inject_Z_opp. lra. }
    assert (Er : (- q - inject_Z (- f - 1) == 1 - (q - inject_Z f))%Q).
    { unfold Z.sub. rewrite !inject_Z_plus, inject_Z_opp.
      change (inject_Z (- (1))) with (-1)%Q. ring. }
    assert (Hev : Z.even (- f - 1) = negb (Z.even f)).
    { replace (- f - 1) with (- (f + 1)) by lia.
      rewrite Z.even_opp, Z.add_1_r, Z.even_succ. now rewrite <- Z.negb_even. }
    destruct (round_even_spec q) as [[R1 E1]|[[R1 E1]|[R1 E1]]];
      destruct (round_even_spec (- q)) as [[R2 E2]|[[R2 E2]|[R2 E2]]];
      fold f in R1, E1; rewrite Ef in R2, E2; rewrite E1, E2;
      rewrite ?Hev; try destruct (Z.even f); cbn [negb]; try lia;
      exfalso; lra.
Qed.

(** *** The rounding *)


Lemma ulp_pos (x : Q) : (0 < ulp x)%Q.
Proof. apply Qpow2_pos. Qed.

Lemma rnd64_nz (x : Q) :
  ~ (x == 0)%Q -> rnd64 x = (inject_Z (round_even (x / ulp x)) * ulp x)%Q.
Proof.
  intros H. unfold rnd64. destruct (Qeq_bool x 0) eqn:E; [|reflexivity].
  apply Qeq_bool_iff in E. contradiction.
Qed.

Lemma rnd64_zero (x : Q) : (x == 0)%Q -> rnd64 x = 0%Q.
Proof.
  intros H. unfold rnd64. apply Qeq_bool_iff in H. now rewrite H.
Qed.

Lemma ulp_comp (x y : Q) : ~ (x == 0)%Q -> (x == y)%Q -> ulp x = ulp y.
Proof. intros H E. unfold ulp. now rewrite (Qlog2_comp x y H E). Qed.

Lemma rnd64_comp (x y : Q) : (x == y)%Q -> (rnd64 x == rnd64 y)%Q.
Proof.
  intros E. destruct (Qeq_dec x 0) as [Z0|NZ].
  - rewrite (rnd64_zero x Z0), (rnd64_zero y); [reflexivity|]. lra.
  - assert (NZ' : ~ (y == 0)%Q) by (intros H; apply NZ; lra).
    rewrite (rnd64_nz x NZ), (rnd64_nz y NZ'), <- (ulp_comp x y NZ E).
    assert (Eq : (x / ulp x == y / ulp x)%Q).
    { unfold Qdiv. apply Qmult_comp; [exact E|reflexivity]. }
    now rewrite (round_even_comp _ _ Eq).
Qed.

Lemma rnd64_opp (x : Q) : (rnd64 (- x) == - rnd64 x)%Q.
Proof.
  destruct (Qeq_dec x 0) as [Z0|NZ].
  - rewrite (rnd64_zero x Z0), (rnd64_zero (- x)); [reflexivity|]. lra.
  - assert (NZ' : ~ (- x == 0)%Q) by (intros H; apply NZ; lra).
    rewrite (rnd64_nz x NZ), (rnd64_nz (- x) NZ').
    assert (Eu : ulp (- x) = ulp x) by (unfold ulp; now rewrite Qlog2_opp).
    rewrite Eu.
    assert (Eq : (- x / ulp x == - (x / ulp x))%Q).
    { unfold Qdiv. ring. }
    rewrite (round_even_comp _ _ Eq), round_even_opp, inject_Z_opp. ring.
Qed.

Lemma Qabs_pos_eq (x : Q) : (0 < x)%Q -> (Qabs x == x)%Q.
Proof. intros H. apply Qabs_pos. lra. Qed.

Section Positive.
Variable x : Q.
Hypothesis Hx : (0 < x)%Q.
Local Abbreviation e := (Z.max (Qlog2 x) (-1022)).

Lemma pos_nz : ~ (x == 0)%Q.
Proof. intros E. rewrite E in Hx. discriminate. Qed.

Lemma pos_below : (x < Qpow2 (e + 1))%Q.
Proof.
  destruct (Qlog2_spec x pos_nz) as [_ H]. rewrite (Qabs_pos_eq x Hx) in H.
  apply Qlt_le_trans with (1 := H). apply Qpow2_le. lia.
Qed.

Lemma pos_above : -1022 <= Qlog2 x -> (Qpow2 e <= x)%Q.
Proof.
  intros H. destruct (Qlog2_spec x pos_nz) as [L _].
  rewrite (Qabs_pos_eq x Hx) in L. now rewrite Z.max_l by lia.
Qed.

Lemma ulp_52 : (Qpow2 52 * ulp x == Qpow2 e)%Q.
Proof. unfold ulp. rewrite <- Qpow2_add. now replace (52 + (e - 52)) with e by lia. Qed.

Lemma ulp_53 : (Qpow2 53 * ulp x == Qpow2 (e + 1))%Q.
Proof.
  unfold ulp. rewrite <- Qpow2_add.
  now replace (53 + (e - 52)) with (e + 1) by lia.
Qed.

Lemma pos_digits : 0 <= round_even (x / ulp x) <= 2 ^ 53.
Proof.
  pose proof (ulp_pos x) as U. split.
  - rewrite <- (round_even_Z 0). apply round_even_mono.
    change (inject_Z 0) with 0%Q. apply Qle_shift_div_l; [exact U|]. lra.
  - rewrite <- (round_even_Z (2 ^ 53)). apply round_even_mono.
    apply Qle_shift_div_r; [exact U|].
    pose proof pos_below. pose proof ulp_53 as E.
    rewrite (Qpow2_Z 53) in E by lia. lra.
Qed.

Lemma pos_digits_normal :
  -1022 <= Qlog2 x -> 2 ^ 52 <= round_even (x / ulp x).
Proof.
  intros H. pose proof (ulp_pos x) as U.
  rewrite <- (round_even_Z (2 ^ 52)). apply round_even_mono.
  apply Qle_shift_div_l; [exact U|].
  pose proof (pos_above H). pose proof ulp_52 as E.
  rewrite (Qpow2_Z 52) in E by lia. lra.
Qed.

Lemma rnd64_pos_le : (rnd64 x <= Qpow2 (e + 1))%Q.
Proof.
  rewrite (rnd64_nz x pos_nz). rewrite <- ulp_53.
  apply Qmult_le_compat_r; [|apply Qlt_le_weak, ulp_pos].
  rewrite (Qpow2_Z 53) by lia. rewrite <- Zle_Qle. apply pos_digits.
Qed.

Lemma rnd64_pos_ge : -1022 <= Qlog2 x -> (Qpow2 e <= rnd64 x)%Q.
Proof.
  intros H. rewrite (rnd64_nz x pos_nz). rewrite <- ulp_52.
  apply Qmult_le_compat_r; [|apply Qlt_le_weak, ulp_pos].
  rewrite (Qpow2_Z 52) by lia. rewrite <- Zle_Qle. now apply pos_digits_normal.
Qed.

Lemma rnd64_pos_nonneg : (0 <= rnd64 x)%Q.
Proof.
  rewrite (rnd64_nz x pos_nz).
  apply Qmult_le_0_compat; [|apply Qlt_le_weak, ulp_pos].
  change 0%Q with (inject_Z 0). rewrite <- Zle_Qle. apply pos_digits.
Qed.

End Positive.

Lemma Qlog2_mono (x y : Q) : (0 < x)%Q -> (x <= y)%Q -> Qlog2 x <= Qlog2 y.
Proof.
  intros Hx Hxy. assert (Hy : (0 < y)%Q) by lra.
  destruct (Qlog2_spec x (pos_nz x Hx)) as [L1 _].
  destruct (Qlog2_spec y (pos_nz y Hy)) as [_ L2].
  rewrite (Qabs_pos_eq _ Hx) in L1. rewrite (Qabs_pos_eq _ Hy) in L2.
  assert (H : (Qpow2 (Qlog2 x) < Qpow2 (Qlog2 y + 1))%Q) by lra.
  apply Qpow2_lt_inv in H. lia.
Qed.

Lemma rnd64_mono_pos (x y : Q) :
  (0 < x)%Q -> (x <= y)%Q -> (rnd64 x <= rnd64 y)%Q.
Proof.
  intros Hx Hxy. assert (Hy : (0 < y)%Q) by lra.
  pose proof (Qlog2_mono x y Hx Hxy) as HL.
  destruct (Z.eq_dec (Z.max (Qlog2 x) (-1022)) (Z.max (Qlog2 y) (-1022)))
    as [E|E].
  - rewrite (rnd64_nz x (pos_nz x Hx)), (rnd64_nz y (pos_nz y Hy)).
    assert (Eu : ulp y = ulp x) by (unfold ulp; now rewrite E).
    rewrite Eu. pose proof (ulp_pos x) as U.
    apply Qmult_le_compat_r; [|lra].
    rewrite <- Zle_Qle. apply round_even_mono.
    apply Qle_shift_div_l; [exact U|].
    unfold Qdiv. rewrite <- Qmult_assoc, (Qmult_comm (/ ulp x)).
    rewrite Qmult_inv_r by lra. lra.
  - assert (Hy' : -1022 <= Qlog2 y) by lia.
    pose proof (rnd64_pos_le x Hx) as A.
    pose proof (rnd64_pos_ge y Hy Hy') as B.
    assert (C : (Qpow2 (Z.max (Qlog2 x) (-1022) + 1)
                 <= Qpow2 (Z.max (Qlog2 y) (-1022)))%Q)
      by (apply Qpow2_le; lia).
    lra.
Qed.

Lemma rnd64_nonneg (x : Q) : (0 <= x)%Q -> (0 <= rnd64 x)%Q.
Proof.
  intros H. destruct (Qeq_dec x 0) as [Z0|NZ].
  - rewrite (rnd64_zero x Z0). lra.
  - apply rnd64_pos_nonneg. destruct (Qlt_le_dec 0 x); [assumption|].
    exfalso. apply NZ. lra.
Qed.

Lemma rnd64_mono (x y : Q) : (x <= y)%Q -> (rnd64 x <= rnd64 y)%Q.
Proof.
  intros H. destruct (Qlt_le_dec 0 x) as [Px|Nx].
  - now apply rnd64_mono_pos.
  - destruct (Qlt_le_dec y 0) as [Ny|Py].
    + assert (A : (rnd64 (- y) <= rnd64 (- x))%Q)
        by (apply rnd64_mono_pos; lra).
      rewrite !rnd64_opp in A. lra.
    + assert (A : (0 <= rnd64 (- x))%Q) by (apply rnd64_nonneg; lra).
      rewrite rnd64_opp in A.
      pose proof (rnd64_nonneg y Py). lra.
Qed.

Lemma ulp_nz (x : Q) : ~ (ulp x == 0)%Q.
Proof. pose proof (ulp_pos x). lra. Qed.

(** A multiple of its own spacing is a float. *)
Lemma rnd64_fixed (k : Z) (x : Q) :
  (x == inject_Z k * ulp x)%Q -> (rnd64 x == x)%Q.
Proof.
  intros E. destruct (Qeq_dec x 0) as [Z0|NZ].
  - rewrite (rnd64_zero x Z0). lra.
  - rewrite (rnd64_nz x NZ).
    assert (Eq : (x / ulp x == inject_Z k)%Q).
    { rewrite E at 1. field. apply ulp_nz. }
    rewrite (round_even_comp _ _ Eq), round_even_Z. lra.
Qed.

Lemma Qabs_inject_Z (z : Z) : Qabs (inject_Z z) = inject_Z (Z.abs z).
Proof. reflexivity. Qed.

Lemma rnd64_int (z : Z) :
  Z.abs z <= 2 ^ 53 -> (rnd64 (inject_Z z) == inject_Z z)%Q.
Proof.
  intros Hz. destruct (Z.eq_dec z 0) as [->|NZ]; [reflexivity|].
  assert (Hx : ~ (inject_Z z == 0)%Q).
  { intros E. apply NZ. unfold Qeq in E. cbn in E. lia. }
  destruct (Qlog2_spec _ Hx) as [L1 L2]. rewrite Qabs_inject_Z in L1, L2.
  set (L := Qlog2 (inject_Z z)) in *.
  assert (H0 : 0 <= L).
  { assert (H : (Qpow2 0 < Qpow2 (L + 1))%Q).
    { apply Qle_lt_trans with (2 := L2). rewrite Qpow2_Z by lia.
      rewrite <- Zle_Qle. change (2 ^ 0) with 1. lia. }
    apply Qpow2_lt_inv in H. lia. }
  assert (H53 : L <= 53).
  { assert (H : (Qpow2 L < Qpow2 54)%Q).
    { apply Qle_lt_trans with (1 := L1). rewrite (Qpow2_Z 54) by lia.
      rewrite <- Zlt_Qlt. lia. }
    apply Qpow2_lt_inv in H. lia. }
  assert (Eu : ulp (inject_Z z) = Qpow2 (L - 52)).
  { unfold ulp. fold L. now rewrite Z.max_l by lia. }
  destruct (Z.eq_dec L 53) as [E53|N53].
  - rewrite E53 in L1. rewrite (Qpow2_Z 53) in L1 by lia.
    rewrite <- Zle_Qle in L1.
    apply (rnd64_fixed (z / 2)). rewrite Eu, E53. change (53 - 52) with 1.
    rewrite (Qpow2_Z 1) by lia.
    rewrite <- inject_Z_mult. apply inject_Z_injective.
    assert (Ez : z = 2 ^ 53 \/ z = - 2 ^ 53) by lia.
    destruct Ez as [-> | ->]; reflexivity.
  - apply (rnd64_fixed (z * 2 ^ (52 - L))). rewrite Eu.
    rewrite inject_Z_mult, <- (Qpow2_Z (52 - L)) by lia.
    rewrite <- Qmult_assoc, <- Qpow2_add.
    replace (52 - L + (L - 52)) with 0 by lia.
    rewrite (Qpow2_Z 0) by lia. change (inject_Z (2 ^ 0)) with 1%Q. ring.
Qed.

Lemma rnd64_idem_pos (x : Q) : (0 < x)%Q -> (rnd64 (rnd64 x) == rnd64 x)%Q.
Proof.
  intros Hx. pose proof (pos_digits x Hx) as [M0 M53].
  pose proof (ulp_pos x) as U.
  set (e := Z.max (Qlog2 x) (-1022)).
  assert (He : -1022 <= e) by (unfold e; lia).
  assert (Eu : ulp x = Qpow2 (e - 52)) by reflexivity.
  rewrite (rnd64_nz x (pos_nz x Hx)).
  set (m := round_even (x / ulp x)) in *.
  set (x' := (inject_Z m * ulp x)%Q).
  destruct (Z.eq_dec m 0) as [E0|N0].
  - assert (Z0 : (x' == 0)%Q) by (unfold x'; rewrite E0; ring).
    rewrite (rnd64_zero x' Z0). lra.
  - assert (Hx' : (0 < x')%Q).
    { unfold x'. apply Qmult_lt_0_compat; [|exact U].
      change 0%Q with (inject_Z 0). rewrite <- Zlt_Qlt. lia. }
    destruct (Z.eq_dec m (2 ^ 53)) as [E53|N53].
    + assert (Ex : (x' == Qpow2 (e + 1))%Q).
      { unfold x'. rewrite E53, <- (Qpow2_Z 53) by lia. apply (ulp_53 x). }
      assert (EL : Qlog2 x' = e + 1).
      { apply Qlog2_unique; rewrite (Qabs_pos_eq _ Hx'), Ex; [lra|].
        replace (e + 1 + 1) with (e + 1 + 1) by lia.
        rewrite (Qpow2_succ (e + 1)). pose proof (Qpow2_pos (e + 1)). lra. }
      apply (rnd64_fixed (2 ^ 52)). unfold ulp at 1. rewrite EL.
      rewrite Z.max_l by lia. rewrite <- (Qpow2_Z 52) by lia.
      rewrite <- Qpow2_add. replace (52 + (e + 1 - 52)) with (e + 1) by lia.
      exact Ex.
    + assert (Hlt : (x' < Qpow2 (e + 1))%Q).
      { unfold x'. pose proof (ulp_53 x) as E53. fold e in E53.
        rewrite <- E53. rewrite (Qpow2_Z 53) by lia.
        apply Qmult_lt_compat_r; [exact U|]. rewrite <- Zlt_Qlt. lia. }
      destruct (Qlog2_spec x' (pos_nz x' Hx')) as [L1 _].
      rewrite (Qabs_pos_eq _ Hx') in L1.
      assert (HL : Qlog2 x' < e + 1).
      { apply Qpow2_lt_inv. lra. }
      set (e' := Z.max (Qlog2 x') (-1022)).
      assert (He' : e' <= e) by (unfold e'; lia).
      apply (rnd64_fixed (m * 2 ^ (e - e'))). unfold ulp at 1. fold e'.
      rewrite inject_Z_mult, <- (Qpow2_Z (e - e')) by lia.
      rewrite <- Qmult_assoc, <- Qpow2_add.
      replace (e - e' + (e' - 52)) with (e - 52) by lia.
      unfold x'. now rewrite Eu.
Qed.

Lemma rnd64_idem (x : Q) : (rnd64 (rnd64 x) == rnd64 x)%Q.
Proof.
  destruct (Qlt_le_dec 0 x) as [P|N].
  - now apply rnd64_idem_pos.
  - destruct (Qeq_dec x 0) as [Z0|NZ].
    + rewrite (rnd64_zero x Z0). reflexivity.
    + assert (P : (0 < - x)%Q).
      { destruct (Qlt_le_dec x 0); [lra|]. exfalso. apply NZ. lra. }
      pose proof (rnd64_idem_pos _ P) as H.
      pose proof (rnd64_opp x) as O.
      rewrite (rnd64_comp _ _ O), rnd64_opp in H. lra.
Qed.

Lemma rnd64_err (x : Q) :
  (tiny <= Qabs x)%Q -> (Qabs x <= huge)%Q ->
  (Qabs (rnd64 x - x) <= Qabs x * eps)%Q.
Proof.
  intros Ht _.
  assert (Tpos : (0 < tiny)%Q) by reflexivity.
  assert (NZ : ~ (x == 0)%Q).
  { intros E. rewrite E in Ht. change (Qabs 0) with 0%Q in Ht. lra. }
  destruct (Qlog2_spec x NZ) as [L1 L2]. set (L := Qlog2 x) in *.
  assert (HL : -1022 <= L).
  { assert (H : (Qpow2 (-1022) < Qpow2 (L + 1))%Q).
    { apply Qle_lt_trans with (2 := L2). exact Ht. }
    apply Qpow2_lt_inv in H. lia. }
  assert (Eu : ulp x = Qpow2 (L - 52)).
  { unfold ulp. fold L. now rewrite Z.max_l by lia. }
  pose proof (ulp_pos x) as U.
  rewrite (rnd64_nz x NZ).
  set (q := (x / ulp x)%Q).
  assert (Ex : (inject_Z (round_even q) * ulp x - x
                == (inject_Z (round_even q) - q) * ulp x)%Q).
  { unfold q. field. lra. }
  rewrite Ex, Qabs_Qmult, (Qabs_pos_eq _ U).
  pose proof (round_even_err q) as R.
  assert (E2 : (Qpow2 L * eps == (1 # 2) * ulp x)%Q).
  { rewrite Eu. replace (L - 52) with (L + -53 + 1) by lia.
    rewrite Qpow2_succ, Qpow2_add. change (Qpow2 (-53)) with eps. ring. }
  assert (Epos : (0 <= eps)%Q) by (vm_compute; discriminate).
  apply Qle_trans with ((1 # 2) * ulp x)%Q.
  - apply Qmult_le_compat_r; [exact R|lra].
  - rewrite <- E2. apply Qmult_le_compat_r; [exact L1|exact Epos].
Qed.

(** Binary64 is a rounding of the standard model. *)
Lemma binary64_standard : StandardModel binary64.
Proof.
  constructor; cbn [rnd binary64].
  - exact rnd64_comp.
  - exact rnd64_mono.
  - exact rnd64_idem.
  - exact rnd64_int.
  - exact rnd64_err.
Qed.

(** *** The square root *)

Lemma sqrt64_zero (x : Q) : (x == 0)%Q -> (sqrt64 x == 0)%Q.
Proof.
  intros E. unfold sqrt64.
  replace (Qle_bool x 0) with true; [reflexivity|].
  symmetry. apply Qle_bool_iff. lra.
Qed.

Lemma sqrt64_nonneg (x : Q) : (0 <= sqrt64 x)%Q.
Proof.
  unfold sqrt64. destruct (Qle_bool x 0); [lra|]. cbv zeta.
  apply Qmult_le_0_compat; [|apply Qlt_le_weak, Qpow2_pos].
  change 0%Q with (inject_Z 0). rewrite <- Zle_Qle.
  match goal with |- context [Z.sqrt ?a] => pose proof (Z.sqrt_nonneg a) end.
  destruct (if Qltb _ _ then _ else _); lia.
Qed.

Lemma sqrt64_below (x : Q) (p : Z) :
  0 <= p <= 2 ^ 53 -> (0 <= x)%Q -> (x <= inject_Z (p * p))%Q ->
  (sqrt64 x <= inject_Z p)%Q.
Proof.
  intros [Hp0 Hp53] Hx0 Hxp.
  assert (P0 : (0 <= inject_Z p)%Q).
  { change 0%Q with (inject_Z 0). now rewrite <- Zle_Qle. }
  unfold sqrt64. destruct (Qle_bool x 0) eqn:E0; [exact P0|].
  assert (Hx : (0 < x)%Q).
  { destruct (Qlt_le_dec 0 x) as [H|H]; [exact H|].
    apply Qle_bool_iff in H. congruence. }
  cbv zeta.
  destruct (Qlog2_spec x (pos_nz x Hx)) as [L1 _].
  rewrite (Qabs_pos_eq _ Hx) in L1.
  set (h := Qlog2 x / 2) in *.
  set (us := Qpow2 (h - 52)).
  assert (Us : (0 < us)%Q) by apply Qpow2_pos.
  rewrite inject_Z_mult in Hxp.
  assert (S1 : (Qpow2 h <= inject_Z p)%Q).
  { assert (A : (Qpow2 (h + h) <= Qpow2 (Qlog2 x))%Q).
    { apply Qpow2_le. unfold h. pose proof (Z.mul_div_le (Qlog2 x) 2). lia. }
    rewrite Qpow2_add in A. pose proof (Qpow2_pos h).
    destruct (Qlt_le_dec (inject_Z p) (Qpow2 h)); [|assumption].
    exfalso. nra. }
  assert (S2 : h <= 53).
  { assert (H : (Qpow2 h < Qpow2 54)%Q).
    { apply Qle_lt_trans with (1 := S1). rewrite (Qpow2_Z 54) by lia.
      rewrite <- Zlt_Qlt. lia. }
    apply Qpow2_lt_inv in H. lia. }
  assert (S3 : exists K, 0 <= K /\ (inject_Z p == inject_Z K * us)%Q).
  { destruct (Z.eq_dec h 53) as [E53|N53].
    - exists (2 ^ 52). split; [lia|]. unfold us. rewrite E53 in *.
      rewrite (Qpow2_Z 53) in S1 by lia. rewrite <- Zle_Qle in S1.
      assert (p = 2 ^ 53) by lia. subst p. reflexivity.
    - exists (p * 2 ^ (52 - h)). split; [apply Z.mul_nonneg_nonneg; lia|].
      unfold us. rewrite inject_Z_mult, <- (Qpow2_Z (52 - h)) by lia.
      rewrite <- Qmult_assoc, <- Qpow2_add.
      replace (52 - h + (h - 52)) with 0 by lia.
      rewrite (Qpow2_Z 0) by lia. change (inject_Z (2 ^ 0)) with 1%Q. ring. }
  destruct S3 as (K & K0 & EK).
  set (y := (x / (us * us))%Q).
  assert (S4 : (y <= inject_Z (K * K))%Q).
  { unfold y. apply Qle_shift_div_r; [nra|].
    rewrite inject_Z_mult. rewrite EK in Hxp. nra. }
  assert (Y0 : (0 <= y)%Q).
  { unfold y. apply Qle_shift_div_l; [nra|]. lra. }
  set (m := Z.sqrt (Qfloor y)).
  assert (M0 : 0 <= m) by apply Z.sqrt_nonneg.
  assert (S5 : m <= K).
  { unfold m. rewrite <- (Z.sqrt_square K) by exact K0.
    apply Z.sqrt_le_mono. pose proof (Qfloor_resp_le _ _ S4) as H.
    now rewrite Qfloor_Z in H. }
  set (half := (inject_Z m + (1 # 2))%Q).
  assert (S6 : (half * half <= y)%Q -> m + 1 <= K).
  { intros H. destruct (Z.eq_dec m K) as [E|E]; [|lia]. exfalso.
    rewrite inject_Z_mult, <- E in S4. unfold half in H.
    assert (0 <= inject_Z m)%Q
      by (change 0%Q with (inject_Z 0); now rewrite <- Zle_Qle).
    nra. }
  rewrite EK. apply Qmult_le_compat_r; [|lra].
  rewrite <- Zle_Qle.
  destruct (Qltb y (half * half)) eqn:B1; [exact S5|].
  apply Qltb_ge in B1. specialize (S6 B1).
  destruct (Qltb (half * half) y); [exact S6|].
  destruct (Z.odd m); [exact S6|exact S5].
Qed.

End Binary64Facts.

(** ** The buffer-length invariant *)

Module InvariantFacts.
Import Sample BytesFacts AudioopFacts CopyFacts LengthFacts RoundingFacts Hoare.
Local Open Scope method_scope.
Local Abbreviation length := List.length.

(** Inversion of a run that returned: every test on the way is decided. *)
Ltac invert_run E :=
  repeat (cbv beta iota zeta in E;
          match type of E with
          | context [match ?x with _ => _ end] =>
              lazymatch x with
              | context [match _ with _ => _ end] => fail
              | _ => destruct x eqn:?; try discriminate E
              end
          end);
  cbv beta iota zeta in E;
  first [injection E as <- <- | injection E as <- E | idtac].

Ltac unfold_method E :=
  cbv beta delta [bind get lift modify ret raise assert assert_unlocked on] in E.

Lemma wf_pos (s : Sample.t) : wf s -> 0 < samplewidth s * nchannels s.
Proof. intros [(Hw & Hc & _) _]. nia. Qed.

Lemma same_format_refl (s : Sample.t) : same_format s s.
Proof. repeat split. Qed.

Lemma same_format_trans (a b c : Sample.t) :
  same_format a b -> same_format b c -> same_format a c.
Proof. unfold same_format. intuition congruence. Qed.

Lemma wf_same_format (s s' : Sample.t) :
  wf s -> same_format s s' ->
  len (frames s') mod (samplewidth s * nchannels s) = 0 -> wf s'.
Proof.
  intros [F A] (Hw & Hr & Hc) H. unfold wf, format_ok, aligned.
  rewrite Hw, Hr, Hc. auto.
Qed.

Lemma wf_with_frames (s : Sample.t) (f : list byte) :
  wf s -> len f mod (samplewidth s * nchannels s) = 0 -> wf (with_frames f s).
Proof. intros H Hf. apply (wf_same_format s); auto. repeat split. Qed.

Lemma mod_add_0 (a b k : Z) : 0 < k -> a mod k = 0 -> b mod k = 0 -> (a + b) mod k = 0.
Proof. intros. rewrite Z.add_mod, H0, H1 by lia. reflexivity. Qed.

Lemma mod_sub_0 (a b k : Z) : 0 < k -> a mod k = 0 -> b mod k = 0 -> (a - b) mod k = 0.
Proof. intros. rewrite Zminus_mod, H0, H1. reflexivity. Qed.

Lemma mod_max_0 (a k : Z) : 0 < k -> a mod k = 0 -> Z.max 0 a mod k = 0.
Proof.
  intros. destruct (Z.max_spec 0 a) as [[_ ->]|[_ ->]]; auto.
Qed.

Lemma aligned_slice_to (f : list byte) (e k : Z) :
  0 < k -> len f mod k = 0 -> e mod k = 0 -> len (slice_to f e) mod k = 0.
Proof. intros. rewrite len_slice_to. now apply norm_idx_multiple. Qed.

Lemma aligned_slice_from (f : list byte) (e k : Z) :
  0 < k -> len f mod k = 0 -> e mod k = 0 -> len (slice_from f e) mod k = 0.
Proof.
  intros. rewrite len_slice_from. apply mod_sub_0; auto.
  now apply norm_idx_multiple.
Qed.

Lemma aligned_slice (f : list byte) (a b k : Z) :
  0 < k -> len f mod k = 0 -> a mod k = 0 -> b mod k = 0 ->
  len (slice f a b) mod k = 0.
Proof.
  intros. rewrite len_slice. apply mod_max_0; auto.
  apply mod_sub_0; auto; now apply norm_idx_multiple.
Qed.

Lemma aligned_zeros (e k : Z) :
  0 < k -> e mod k = 0 -> len (zeros e) mod k = 0.
Proof. intros. rewrite len_zeros. now apply mod_max_0. Qed.

Ltac kernel_len :=
  repeat match goal with
         | H : audioop.mul _ _ _ = Ok _ |- _ =>
             apply mul_len in H as (? & ? & ?)
         | H : audioop.add _ _ _ = Ok _ |- _ =>
             apply add_len in H as (? & ? & ? & ?)
         | H : audioop.tomono _ _ _ _ = Ok _ |- _ =>
             apply tomono_len in H as (? & ? & ?)
         | H : audioop.tostereo _ _ _ _ = Ok _ |- _ =>
             apply tostereo_len in H as (? & ? & ?)
         | H : audioop.lin2lin _ _ _ = Ok _ |- _ =>
             apply lin2lin_len in H as (? & ? & ? & ?)
         | H : audioop.reverse _ _ = Ok _ |- _ =>
             apply reverse_len in H
         end.

(** Rules for running a method from a known receiver. *)

Lemma sx_seq {A B} (s : Sample.t) (m : M A) (k : A -> M B)
      (Q1 : A -> Sample.t -> Prop) (Q : B -> Sample.t -> Prop) :
  triple (eq s) m Q1 ->
  (forall a s1, Q1 a s1 -> triple (eq s1) (k a) Q) ->
  triple (eq s) (bind m k) Q.
Proof.
  intros Hm Hk. eapply triple_bind; [exact Hm|].
  intros a s1 H1. exact (Hk a s1 H1 s1 eq_refl).
Qed.

Lemma sx_on {A B} (s o : Sample.t) (m : M A) (k : Sample.t * A -> M B)
      (Qo : A -> Sample.t -> Prop) (Q : B -> Sample.t -> Prop) :
  triple (eq o) m Qo ->
  (forall a o', Qo a o' -> triple (eq s) (k (o', a)) Q) ->
  triple (eq s) (bind (on o m) k) Q.
Proof.
  intros Hm Hk. eapply triple_bind; [apply (triple_on (eq s) _ _ _ _ Hm eq_refl)|].
  intros [o' a] s1 [H1 <-]. exact (Hk a o' H1 s eq_refl).
Qed.

Lemma sx_get {B} (s : Sample.t) (k : Sample.t -> M B)
      (Q : B -> Sample.t -> Prop) :
  triple (eq s) (k s) Q -> triple (eq s) (bind get k) Q.
Proof. intros H s0 <-. exact (H s eq_refl). Qed.

Lemma sx_assert_unlocked {B} (s : Sample.t) (k : unit -> M B)
      (Q : B -> Sample.t -> Prop) :
  (locked s = false -> triple (eq s) (k tt) Q) ->
  triple (eq s) (bind assert_unlocked k) Q.
Proof.
  intros H s0 <-. unfold bind, assert_unlocked.
  destruct (locked s) eqn:E; [exact I|]. exact (H eq_refl s eq_refl).
Qed.

Lemma sx_assert {B} (s : Sample.t) (b : bool) (k : unit -> M B)
      (Q : B -> Sample.t -> Prop) :
  (b = true -> triple (eq s) (k tt) Q) ->
  triple (eq s) (bind (assert b) k) Q.
Proof.
  intros H s0 <-. unfold bind, assert.
  destruct b; [exact (H eq_refl s eq_refl)|exact I].
Qed.

Lemma sx_lift {A B} (s : Sample.t) (r : result A) (k : A -> M B)
      (Q : B -> Sample.t -> Prop) :
  (forall a, r = Ok a -> triple (eq s) (k a) Q) ->
  triple (eq s) (bind (lift r) k) Q.
Proof.
  intros H s0 <-. unfold bind, lift.
  destruct r as [a|e]; [exact (H a eq_refl s eq_refl)|exact I].
Qed.

Lemma sx_modify {B} (s : Sample.t) (f : Sample.t -> Sample.t)
      (k : unit -> M B) (Q : B -> Sample.t -> Prop) :
  triple (eq (f s)) (k tt) Q -> triple (eq s) (bind (modify f) k) Q.
Proof. intros H s0 <-. exact (H (f s) eq_refl). Qed.

Lemma sx_ret {A} (s : Sample.t) (a : A) (Q : A -> Sample.t -> Prop) :
  Q a s -> triple (eq s) (ret a) Q.
Proof. intros H s0 <-. exact H. Qed.

Lemma sx_ret_bind {A B} (s : Sample.t) (a : A) (k : A -> M B)
      (Q : B -> Sample.t -> Prop) :
  triple (eq s) (k a) Q -> triple (eq s) (bind (ret a) k) Q.
Proof. intros H s0 <-. exact (H s eq_refl). Qed.

Lemma sx_modify_end (s : Sample.t) (f : Sample.t -> Sample.t)
      (Q : unit -> Sample.t -> Prop) :
  Q tt (f s) -> triple (eq s) (modify f) Q.
Proof. intros H s0 <-. exact H. Qed.

Lemma sx_post {A} (s : Sample.t) (m : M A) (Q Q' : A -> Sample.t -> Prop) :
  triple (eq s) m Q' -> (forall a s', Q' a s' -> Q a s') ->
  triple (eq s) m Q.
Proof. intros H HQ. eapply triple_weaken; [exact H|auto|exact HQ]. Qed.

Ltac step :=
  lazymatch goal with
  | |- triple (eq _) (bind assert_unlocked _) _ =>
      apply sx_assert_unlocked; intros ?
  | |- triple (eq _) (bind get _) _ => apply sx_get
  | |- triple (eq _) (bind (assert _) _) _ => apply sx_assert; intros ?
  | |- triple (eq _) (bind (lift _) _) _ => apply sx_lift; intros ? ?
  | |- triple (eq _) (bind (modify _) _) _ => apply sx_modify
  | |- triple (eq _) (bind (ret _) _) _ => apply sx_ret_bind
  | |- triple (eq _) (ret _) _ => apply sx_ret
  | |- triple (eq _) (modify _) _ => apply sx_modify_end
  | |- triple (eq _) (raise _) _ => apply triple_raise
  | |- triple (eq _) (if ?b then _ else _) _ => destruct b eqn:?
  | |- triple (eq _) (bind (if ?b then _ else _) _) _ => destruct b eqn:?
  end.

Lemma copy_wf (s cpy : Sample.t) :
  wf s -> copy s = Ok cpy -> wf cpy /\ same_format s cpy /\
                             frames cpy = frames s.
Proof.
  intros Hs E. rewrite copy_ok in E. injection E as <-.
  split; [|split; [repeat split|reflexivity]]. exact Hs.
Qed.

Ltac use_copy :=
  match goal with
  | H : copy _ = Ok _ |- _ => apply copy_wf in H as (? & ? & ?); [|assumption]
  end.

Section Invariant.
Context {FR : Rounding}.

Lemma frame_idx_multiple (s : Sample.t) (seconds : Q) :
  frame_idx s seconds mod (samplewidth s * nchannels s) = 0.
Proof.
  unfold frame_idx.
  replace (nchannels s * samplewidth s * Qtrunc (fmul (inject_Z (samplerate s)) seconds))
    with (Qtrunc (fmul (inject_Z (samplerate s)) seconds)
          * (samplewidth s * nchannels s)) by ring.
  apply Z_mod_mult.
Qed.

Lemma frame_idx_same_format (s s' : Sample.t) (seconds : Q) :
  same_format s s' -> frame_idx s' seconds = frame_idx s seconds.
Proof. intros (Hw & Hr & Hc). unfold frame_idx. now rewrite Hw, Hr, Hc. Qed.

Lemma copy_from_wf (other s : Sample.t) :
  wf other -> triple (eq s) (copy_from other)
                     (fun _ s' => wf s' /\ same_format other s').
Proof.
  intros Ho. apply triple_pure. intros s0 s1 u <- E.
  unfold copy_from in E. unfold_method E. invert_run E.
  split; [|repeat split]. exact Ho.
Qed.

Lemma amplify_wf (factor : Q) (s : Sample.t) :
  wf s -> triple (eq s) (amplify factor)
                 (fun _ s' => wf s' /\ same_format s s' /\
                              len (frames s') = len (frames s)).
Proof.
  intros Hs. apply triple_pure. intros s0 s1 u <- E.
  unfold amplify in E. unfold_method E. invert_run E.
  match goal with
  | H : audioop.mul _ _ _ = Ok _ |- _ => apply mul_len in H as (Hl & _)
  end.
  split; [|split; [repeat split|exact Hl]].
  apply wf_with_frames; auto. rewrite Hl. apply Hs.
Qed.

Lemma amplify_max_wf (s : Sample.t) :
  wf s -> triple (eq s) amplify_max
                 (fun _ s' => wf s' /\ same_format s s' /\
                              len (frames s') = len (frames s)).
Proof.
  intros Hs. apply triple_pure. intros s0 s1 u <- E.
  unfold amplify_max in E. unfold_method E. invert_run E; kernel_len.
  - split; [|split; [repeat split|assumption]].
    apply wf_with_frames; auto.
    match goal with H : len _ = len _ |- _ => rewrite H end. apply Hs.
  - split; [assumption|split; [repeat split|reflexivity]].
Qed.

Lemma clip_wf (a b : Q) (s : Sample.t) :
  wf s -> triple (eq s) (clip a b) (fun _ s' => wf s' /\ same_format s s').
Proof.
  intros Hs. apply triple_pure. intros s0 s1 u <- E.
  unfold clip in E. unfold_method E. invert_run E.
  split; [|repeat split].
  apply wf_with_frames; auto.
  apply aligned_slice; try apply frame_idx_multiple;
    [now apply wf_pos | apply Hs].
Qed.

Lemma from_raw_frames_inv (f : list byte) (w r c : Z) (s : Sample.t) :
  from_raw_frames f w r c = Ok s ->
  s = mkSample f w r c false None /\ 2 <= w <= 4 /\ 1 <= c <= 2 /\ 1 < r.
Proof.
  unfold from_raw_frames. intros E.
  destruct (Z.leb_spec 1 c), (Z.leb_spec c 2), (Z.leb_spec 2 w),
    (Z.leb_spec w 4), (Z.ltb_spec 1 r); cbn in E; try discriminate E.
  injection E as <-. split; [reflexivity|]. lia.
Qed.

Lemma split_wf (seconds : Q) (s : Sample.t) :
  wf s ->
  triple (eq s) (split seconds)
         (fun c s' => wf s' /\ same_format s s' /\ wf c /\ same_format s c /\
                      len (frames s') + len (frames c) = len (frames s)).
Proof.
  intros Hs. apply triple_pure. intros s0 s1 c <- E.
  pose proof (wf_pos s Hs) as Hp. destruct Hs as [F A].
  unfold split in E. unfold_method E. invert_run E.
  - match goal with H : copy _ = Ok _ |- _ =>
      rewrite copy_ok in H; injection H as <- end.
    split.
    { apply wf_with_frames; [split; assumption|].
      apply aligned_slice_to; auto. apply frame_idx_multiple. }
    split; [repeat split|]. split.
    { split; [exact F|]. unfold aligned. cbn [with_frames frames samplewidth nchannels].
      apply aligned_slice_from; auto. apply frame_idx_multiple. }
    split; [repeat split|].
    cbn [with_frames frames]. rewrite <- len_app, slice_to_from. reflexivity.
  - apply from_raw_frames_inv in E as (-> & _).
    split; [split; assumption|]. split; [repeat split|]. split.
    { split; [exact F|]. unfold aligned. cbn [frames]. reflexivity. }
    split; [repeat split|]. cbn [frames]. rewrite len_nil. lia.
Qed.

Lemma add_silence_wf (seconds : Q) (at_start : bool) (s : Sample.t) :
  wf s -> triple (eq s) (add_silence seconds at_start)
                 (fun _ s' => wf s' /\ same_format s s').
Proof.
  intros Hs. apply triple_pure. intros s0 s1 u <- E.
  pose proof (wf_pos s Hs) as Hp.
  unfold add_silence in E. unfold_method E. invert_run E;
    (split; [|repeat split]); apply wf_with_frames; auto;
    rewrite len_app; apply mod_add_0; auto; try apply Hs;
    apply aligned_zeros; auto; apply frame_idx_multiple.
Qed.

Lemma join_wf (other s : Sample.t) :
  wf s -> wf other ->
  triple (eq s) (join other)
         (fun _ s' => wf s' /\ same_format s s' /\
                      len (frames s') = len (frames s) + len (frames other)).
Proof.
  intros Hs Ho. apply triple_pure. intros s0 s1 u <- E.
  pose proof (wf_pos s Hs) as Hp.
  unfold join in E. unfold_method E. invert_run E.
  repeat match goal with H : (_ =? _) = true |- _ => apply Z.eqb_eq in H end.
  split; [|split; [repeat split|]].
  - apply wf_with_frames; auto. rewrite len_app. apply mod_add_0; auto.
    + apply Hs.
    + destruct Ho as [_ Ao]. unfold aligned in Ao. congruence.
  - cbn [with_frames frames]. apply len_app.
Qed.

Lemma reverse_wf (s : Sample.t) :
  wf s -> triple (eq s) reverse (fun _ s' => wf s' /\ same_format s s').
Proof.
  intros Hs. apply triple_pure. intros s0 s1 u <- E.
  unfold reverse in E. unfold_method E. invert_run E; kernel_len.
  split; [|repeat split]. apply wf_with_frames; auto.
  match goal with H : len _ = len _ |- _ => rewrite H end. apply Hs.
Qed.

Lemma invert_wf (s : Sample.t) :
  wf s -> triple (eq s) invert (fun _ s' => wf s' /\ same_format s s').
Proof.
  intros Hs. unfold invert.
  eapply triple_bind; [apply triple_assert_unlocked|].
  intros u. eapply triple_weaken; [apply (amplify_wf _ s Hs)| |].
  - intros s0 [_ H]. exact H.
  - intros u' s' (H1 & H2 & _). auto.
Qed.

Lemma delay_wf (seconds : Q) (keep_length : bool) (s : Sample.t) :
  wf s -> triple (eq s) (delay seconds keep_length)
                 (fun _ s' => wf s' /\ same_format s s').
Proof.
  intros Hs. apply triple_pure. intros s0 s1 u <- E.
  pose proof (wf_pos s Hs) as Hp.
  unfold delay, add_silence in E. unfold_method E. invert_run E;
    (split; [|repeat split]); try assumption;
    cbn [with_frames frames samplewidth samplerate nchannels locked filename];
    apply (wf_with_frames s); auto.
  - apply aligned_slice_to; auto; [|apply Hs].
    rewrite len_app. apply mod_add_0; auto; [|apply Hs].
    apply aligned_zeros; auto. apply frame_idx_multiple.
  - rewrite len_app. apply mod_add_0; auto; [|apply Hs].
    apply aligned_zeros; auto. apply frame_idx_multiple.
  - assert (Hl : len (frames s ++ zeros (frame_idx s (- seconds)))
                 mod (samplewidth s * nchannels s) = 0).
    { rewrite len_app. apply mod_add_0; auto; [apply Hs|].
      apply aligned_zeros; auto. apply frame_idx_multiple. }
    apply aligned_slice_from; auto.
    apply mod_sub_0; auto. apply Hs.
  - apply aligned_slice_from; auto; [apply Hs|apply frame_idx_multiple].
Qed.

Lemma limited_frames_aligned (other : Sample.t) (lim : option Q) :
  wf other ->
  len (limited_frames other lim) mod (samplewidth other * nchannels other) = 0.
Proof.
  intros Ho. pose proof (wf_pos other Ho).
  unfold limited_frames. destruct lim as [q|]; [|apply Ho].
  destruct (truthy_seconds (Some q)); [|apply Ho].
  apply aligned_slice_to; auto; [apply Ho|apply frame_idx_multiple].
Qed.

Lemma mix_wf (other : Sample.t) (lim : option Q) (pad : bool) (s : Sample.t) :
  wf s -> wf other ->
  triple (eq s) (mix other lim pad) (fun _ s' => wf s' /\ same_format s s').
Proof.
  intros Hs Ho. apply triple_pure. intros s0 s1 u <- E.
  pose proof (wf_pos s Hs) as Hp.
  pose proof (limited_frames_aligned other lim Ho) as Hlim.
  unfold mix in E. unfold_method E. invert_run E; kernel_len;
    repeat match goal with H : (_ =? _) = true |- _ => apply Z.eqb_eq in H end;
    (split; [|repeat split]); apply wf_with_frames; auto;
    cbn [fst snd] in *;
    match goal with H : len ?f = len _ |- len ?f mod _ = 0 => rewrite H end.
  - match goal with H : len _ = len (limited_frames _ _) |- _ => rewrite H end.
    congruence.
  - apply Hs.
  - apply Hs.
  - apply Hs.
Qed.

Lemma mix_at_wf (seconds : Q) (other : Sample.t) (lim : option Q) (s : Sample.t) :
  wf s -> wf other ->
  triple (eq s) (mix_at seconds other lim)
         (fun _ s' => wf s' /\ same_format s s').
Proof.
  intros Hs Ho. unfold mix_at.
  destruct (Qeq_bool seconds 0); [now apply mix_wf|].
  apply triple_pure. intros s0 s1 u <- E.
  pose proof (wf_pos s Hs) as Hp.
  pose proof (limited_frames_aligned other lim Ho) as Hlim.
  pose proof (frame_idx_multiple s seconds) as Hidx.
  unfold _mix_split_frames, _mix_grow_if_needed, _mix_join_frames in E.
  unfold_method E. invert_run E; kernel_len;
    repeat match goal with H : (_ =? _) = true |- _ => apply Z.eqb_eq in H end;
    repeat match goal with H : (_, _) = (_, _) |- _ => injection H as <- <- <- end;
    (split; [|repeat split]);
    cbn [with_frames frames samplewidth samplerate nchannels locked filename];
    apply (wf_with_frames s); auto;
    rewrite !len_app;
    match goal with H : len ?f = len (slice _ _ _) |- _ => rewrite H end.
  - set (g := frames s ++ zeros _).
    assert (Hg : len g mod (samplewidth s * nchannels s) = 0).
    { unfold g. rewrite len_app. apply mod_add_0; auto; [apply Hs|].
      apply aligned_zeros; auto. apply mod_sub_0; auto; [|apply Hs].
      apply mod_add_0; auto. congruence. }
    assert (Hm : (frame_idx s seconds + len (limited_frames other lim))
                 mod (samplewidth s * nchannels s) = 0).
    { apply mod_add_0; auto. congruence. }
    apply mod_add_0; auto; [|apply mod_add_0; auto].
    + now apply aligned_slice_to.
    + now apply aligned_slice.
    + now apply aligned_slice_from.
  - assert (Hg : len (frames s) mod (samplewidth s * nchannels s) = 0) by apply Hs.
    assert (Hm : (frame_idx s seconds + len (limited_frames other lim))
                 mod (samplewidth s * nchannels s) = 0).
    { apply mod_add_0; auto. congruence. }
    apply mod_add_0; auto; [|apply mod_add_0; auto].
    + now apply aligned_slice_to.
    + now apply aligned_slice.
    + now apply aligned_slice_from.
Qed.

Lemma mono_wf (lf rf : Q) (s : Sample.t) :
  wf s -> triple (eq s) (mono lf rf) (channels_are 1 s).
Proof.
  intros Hs. unfold mono, channels_are. repeat step.
  - apply Z.eqb_eq in Heqb. auto.
  - kernel_len. destruct Hs as [(Fw & Fc & Fr) A].
    split; [|repeat split].
    split; [repeat split; cbn; lia|].
    unfold aligned. cbn [with_nchannels with_frames frames samplewidth nchannels].
    match goal with H : len _ mod (2 * _) = 0 |- _ =>
      apply Z.mod_divide in H; [|lia]; destruct H as [k Hk] end.
    apply Z.mod_divide; [lia|]. exists k. lia.
Qed.

Lemma left_wf (s : Sample.t) :
  wf s -> triple (eq s) left (channels_are 1 s).
Proof. intros Hs. unfold left. repeat step. now apply mono_wf. Qed.

Lemma right_wf (s : Sample.t) :
  wf s -> triple (eq s) right (channels_are 1 s).
Proof. intros Hs. unfold right. repeat step. now apply mono_wf. Qed.

Lemma stereo_from_mono_wf (lf rf : Q) (s : Sample.t) :
  wf s -> triple (eq s) (stereo_from_mono lf rf) (channels_are 2 s).
Proof.
  intros Hs. unfold stereo_from_mono, channels_are. repeat step.
  kernel_len. destruct Hs as [(Fw & Fc & Fr) A].
  apply Z.eqb_eq in Heqb.
  split; [|repeat split].
  split; [repeat split; cbn; lia|].
  unfold aligned. cbn [with_nchannels with_frames frames samplewidth nchannels].
  match goal with H : len _ = 2 * _ |- _ => rewrite H end.
  match goal with H : len _ mod _ = 0 |- _ =>
    apply Z.mod_divide in H; [|lia]; destruct H as [k Hk] end.
  apply Z.mod_divide; [lia|]. exists k. lia.
Qed.

Lemma stereo_mix_wf (other : Sample.t) (ch : channel) (f at_ : Q)
      (lim : option Q) (s : Sample.t) :
  wf s -> wf other ->
  triple (eq s) (stereo_mix other ch f at_ lim) (fun _ s' => wf s').
Proof.
  intros Hs Ho. unfold stereo_mix. do 5 step.
  assert (Hself : forall (m : M unit) (k : unit -> M unit),
             triple (eq s) m (channels_are 2 s) ->
             (forall s1, wf s1 -> triple (eq s1) (k tt) (fun _ s' => wf s')) ->
             triple (eq s) (bind (if nchannels s =? 1 then m else ret tt) k)
                    (fun _ s' => wf s')).
  { intros m k Hm Hk. destruct (nchannels s =? 1).
    - eapply sx_seq; [exact Hm|]. intros [] s1 (W & _). now apply Hk.
    - step. now apply Hk. }
  apply Hself.
  - destruct ch; now apply stereo_from_mono_wf.
  - intros s1 W1. step. use_copy.
    eapply sx_on.
    + destruct ch; apply stereo_from_mono_wf; assumption.
    + intros [] o' (Wo & _). cbn [fst].
      eapply sx_post; [apply mix_at_wf; assumption|].
      intros [] s' [W _]. exact W.
Qed.

Lemma stereo_wf (lf rf : Q) (s : Sample.t) :
  wf s -> triple (eq s) (stereo lf rf) (fun _ s' => wf s').
Proof.
  intros Hs. unfold stereo. do 3 step.
  - step. use_copy.
    eapply sx_on; [apply right_wf; assumption|].
    intros [] r (Wr & _). cbn [fst].
    eapply sx_seq; [apply left_wf; exact Hs|].
    intros [] s1 (W1 & _).
    eapply sx_seq; [apply amplify_wf; exact W1|].
    intros [] s2 (W2 & _).
    now apply stereo_mix_wf.
  - eapply sx_post; [apply stereo_from_mono_wf; exact Hs|].
    intros [] s' (W & _). exact W.
Qed.

Lemma pan_wf (p : Q) (s : Sample.t) :
  wf s -> triple (eq s) (pan p) (fun _ s' => wf s').
Proof. intros Hs. unfold pan. step. now apply stereo_wf. Qed.

Lemma lin2lin_aligned (s : Sample.t) (f : list byte) (w2 : Z) :
  wf s -> 2 <= w2 <= 4 ->
  audioop.lin2lin (frames s) (samplewidth s) w2 = Ok f ->
  wf (with_samplewidth w2 (with_frames f s)).
Proof.
  intros [(Fw & Fc & Fr) A] Hw2 E. kernel_len.
  split; [repeat split; cbn; lia|].
  unfold aligned in *.
  cbn [with_samplewidth with_frames frames samplewidth nchannels].
  apply Z.mod_divide in A; [|nia]. destruct A as [k Hk].
  match goal with H : len f = _ |- _ => rewrite H end.
  rewrite Hk.
  replace (k * (samplewidth s * nchannels s))
    with (k * nchannels s * samplewidth s) by ring.
  rewrite Z.div_mul by lia.
  apply Z.mod_divide; [nia|]. exists k. ring.
Qed.

Lemma make_32bit_wf (scale : bool) (s : Sample.t) :
  wf s -> triple (eq s) (make_32bit scale) (fun _ s' => wf s').
Proof.
  intros Hs. unfold make_32bit. repeat step.
  match goal with H : get_32bit_frames _ _ = Ok _ |- _ => rename H into H0 end.
  unfold get_32bit_frames in H0.
  destruct (Z.eqb_spec (samplewidth s) 4) as [E4|N4].
  - injection H0 as <-.
    destruct Hs as [(Fw & Fc & Fr) A].
    split; [repeat split; cbn; lia|].
    unfold aligned in *.
    cbn [with_samplewidth with_frames frames samplewidth nchannels].
    now rewrite <- E4.
  - destruct (audioop.lin2lin (frames s) (samplewidth s) 4) as [g|e] eqn:El;
      cbn [rbind] in H0; [|discriminate H0].
    pose proof (lin2lin_aligned s g 4 Hs ltac:(lia) El) as Wg.
    destruct scale; cbn [negb] in H0.
    + injection H0 as <-. exact Wg.
    + kernel_len. destruct Wg as [F A]. split; [exact F|].
      unfold aligned in *.
      cbn [with_samplewidth with_frames frames samplewidth nchannels] in *.
      congruence.
Qed.

Lemma make_16bit_wf (maximize : bool) (s : Sample.t) :
  wf s -> triple (eq s) (make_16bit maximize) (fun _ s' => wf s').
Proof.
  intros Hs. unfold make_16bit. do 3 step.
  assert (Hrest : forall s1, wf s1 ->
            triple (eq s1)
              (s0 <- get ;;
               if 2 <? samplewidth s0
               then f <- lift (audioop.lin2lin (frames s0) (samplewidth s0) 2) ;;
                    modify (fun s2 => with_samplewidth 2 (with_frames f s2))
               else ret tt)
              (fun _ s' => wf s')).
  { intros s1 W1. repeat step.
    - apply lin2lin_aligned; auto. lia.
    - exact W1. }
  destruct maximize.
  - eapply sx_seq; [apply amplify_max_wf; exact Hs|].
    intros [] s1 (W1 & _). now apply Hrest.
  - step. now apply Hrest.
Qed.

Lemma echo_loop_wf (amount : nat) :
  forall (length echo_amp delay decay : Q) (echo s : Sample.t),
    wf s -> wf echo ->
    triple (eq s) (echo_loop amount length echo_amp delay decay echo)
           (fun _ s' => wf s' /\ same_format s s').
Proof.
  induction amount as [|n IH]; intros length echo_amp delay decay echo s Hs He;
    cbn [echo_loop].
  - step. split; [exact Hs|repeat split].
  - do 2 step.
    + step. split; [exact Hs|repeat split].
    + step. use_copy.
      eapply sx_on; [apply amplify_wf; assumption|].
      intros [] e' (We & _). cbn [fst].
      eapply sx_seq; [apply mix_at_wf; assumption|].
      intros [] s1 (W1 & F1).
      eapply sx_post; [apply IH; assumption|].
      intros [] s' (W & F). split; [exact W|].
      eapply same_format_trans; eassumption.
Qed.

Lemma echo_wf (length : Q) (amount : Z) (delay decay : Q) (s : Sample.t) :
  wf s -> triple (eq s) (echo length amount delay decay)
                 (fun _ s' => wf s' /\ same_format s s').
Proof.
  intros Hs. unfold echo. do 2 step.
  - do 3 step. use_copy.
    apply echo_loop_wf; [exact Hs|].
    pose proof (wf_pos s Hs).
    apply (wf_same_format s); auto.
    cbn [with_frames frames].
    apply aligned_slice_from; auto; [apply Hs|apply frame_idx_multiple].
  - step. split; [exact Hs|repeat split].
Qed.

End Invariant.





Section Fades.
Context {FR : Rounding} {SM : StandardModel FR}.

Lemma itemsize_of_width_inv (w i : Z) :
  array.itemsize_of_width w = Ok i -> i = w /\ (w = 1 \/ w = 2 \/ w = 4).
Proof.
  unfold array.itemsize_of_width.
  destruct (Z.eqb_spec w 1); [intros E; injection E as <-; lia|].
  destruct (Z.eqb_spec w 2); [intros E; injection E as <-; lia|].
  destruct (Z.eqb_spec w 4); [intros E; injection E as <-; lia|].
  discriminate.
Qed.

(** The number of sample values of a chunk, computed as a float, is exact. *)
Lemma numsamples_exact (chunk : list byte) (w : Z) :
  1 <= w -> len chunk mod w = 0 -> len chunk <= 2 ^ 53 ->
  Qtrunc (fdiv (inject_Z (len chunk)) (inject_Z w)) = len chunk / w.
Proof.
  intros Hw Hn Hb. pose proof (len_nonneg chunk) as Hl.
  apply Z.mod_divide in Hn; [|lia]. destruct Hn as [k Hk].
  rewrite Hk, Z.div_mul by lia.
  assert (0 <= k) by nia. assert (k <= 2 ^ 53) by nia.
  rewrite (Qtrunc_comp _ (inject_Z k)); [apply Qtrunc_inject_Z|].
  apply fdiv_exact; lia.
Qed.

Lemma fade_chunk_len (chunk f : list byte) (w : Z) (amp : Z -> Q) :
  1 <= w -> len chunk mod w = 0 -> len chunk <= 2 ^ 53 ->
  fade_chunk chunk w w (fdiv (inject_Z (len chunk)) (inject_Z w)) amp = Ok f ->
  len f = len chunk.
Proof.
  intros Hw Hn Hb. unfold fade_chunk.
  destruct (mapM _ _) as [vals|e] eqn:E; cbn [rbind]; [|discriminate].
  intros H. injection H as <-.
  apply length_mapM in E.
  unfold array.tobytes. rewrite len_frombuf by lia.
  unfold len at 1. rewrite E. fold (len (range (Qtrunc
    (fdiv (inject_Z (len chunk)) (inject_Z w))))).
  rewrite len_range, numsamples_exact by assumption.
  pose proof (len_nonneg chunk) as Hl.
  apply Z.mod_divide in Hn; [|lia]. destruct Hn as [k Hk].
  rewrite Hk, Z.div_mul by lia. nia.
Qed.

Lemma multiple_of_width (s : Sample.t) (n : Z) :
  wf s -> n mod (samplewidth s * nchannels s) = 0 -> n mod samplewidth s = 0.
Proof.
  intros Hs H. pose proof (wf_pos s Hs). destruct Hs as [(Fw & _) _].
  apply Z.mod_divide in H; [|lia]. destruct H as [k ->].
  apply Z.mod_divide; [lia|]. exists (k * nchannels s). ring.
Qed.

Lemma fadeout_wf (seconds target : Q) (s : Sample.t) :
  wf s -> len (frames s) <= 2 ^ 53 ->
  triple (eq s) (fadeout seconds target) (keeps_length s).
Proof.
  intros Hs Hb. pose proof (wf_pos s Hs) as Hp.
  unfold fadeout, keeps_length. do 2 step.
  apply sx_lift. intros itemsize Hi. apply itemsize_of_width_inv in Hi as [-> Hw].
  apply sx_lift. intros dur Hd. cbv zeta.
  set (i := frame_idx s (fsub dur (pymin seconds dur))).
  assert (Hi : i mod (samplewidth s * nchannels s) = 0)
    by apply frame_idx_multiple.
  apply sx_lift. intros faded Hf.
  apply fade_chunk_len in Hf.
  - step. split; [|split; [repeat split|]].
    + apply wf_with_frames; auto.
      rewrite len_app, Hf, <- len_app, slice_to_from. apply Hs.
    + cbn [with_frames frames].
      rewrite len_app, Hf, <- len_app, slice_to_from. reflexivity.
  - lia.
  - apply multiple_of_width; auto. apply aligned_slice_from; auto. apply Hs.
  - rewrite len_slice_from.
    pose proof (norm_idx_range (len (frames s)) i (len_nonneg _)). lia.
Qed.

Lemma fadein_wf (seconds start : Q) (s : Sample.t) :
  wf s -> len (frames s) <= 2 ^ 53 ->
  triple (eq s) (fadein seconds start) (keeps_length s).
Proof.
  intros Hs Hb. pose proof (wf_pos s Hs) as Hp.
  unfold fadein, keeps_length. do 2 step.
  apply sx_lift. intros itemsize Hi. apply itemsize_of_width_inv in Hi as [-> Hw].
  apply sx_lift. intros dur Hd. cbv zeta.
  set (i := frame_idx s (pymin seconds dur)).
  assert (Hi : i mod (samplewidth s * nchannels s) = 0)
    by apply frame_idx_multiple.
  apply sx_lift. intros faded Hf.
  apply fade_chunk_len in Hf.
  - step. split; [|split; [repeat split|]].
    + apply wf_with_frames; auto.
      rewrite len_app, Hf, <- len_app, slice_to_from. apply Hs.
    + cbn [with_frames frames].
      rewrite len_app, Hf, <- len_app, slice_to_from. reflexivity.
  - lia.
  - apply multiple_of_width; auto. apply aligned_slice_to; auto. apply Hs.
  - rewrite len_slice_to.
    pose proof (norm_idx_range (len (frames s)) i (len_nonneg _)). lia.
Qed.

Lemma envelope_wf (attack decay sustainlevel release : Q) (s : Sample.t) :
  wf s -> len (frames s) <= 2 ^ 53 ->
  triple (eq s) (envelope attack decay sustainlevel release) (keeps_length s).
Proof.
  intros Hs Hb. unfold envelope, keeps_length. do 3 step.
  eapply sx_seq; [apply split_wf; exact Hs|].
  intros segD a (Wa & Fa & WD & FD & La).
  eapply sx_on; [apply split_wf; exact WD|].
  intros segS d (Wd & Fd & WS & FS & Ld). cbv beta iota.
  pose proof (len_nonneg (frames a)). pose proof (len_nonneg (frames d)).
  pose proof (len_nonneg (frames segS)).
  assert (Hrest : forall S1, wf S1 -> same_format segS S1 ->
                    len (frames S1) = len (frames segS) ->
    triple (eq a)
      (Sdur <- lift (duration S1) ;;
       r <- on S1 (split (fsub Sdur release)) ;;
       (let '(segS0, segR) := r in
        (if Qltb 0 attack then fadein attack 0 else ret tt) ;;
        r0 <- (if Qltb 0 decay then on d (fadeout decay sustainlevel)
               else ret (d, tt)) ;;
        (let segD0 := fst r0 in
         r1 <- (if Qltb 0 release then on segR (fadeout release 0)
                else ret (segR, tt)) ;;
         (let segR0 := fst r1 in join segD0 ;; join segS0 ;; join segR0))))
      (fun _ s' => wf s' /\ same_format s s' /\
                   len (frames s') = len (frames s))).
  { intros S1 W1 F1 L1. apply sx_lift. intros Sdur _.
    eapply sx_on; [apply split_wf; exact W1|].
    intros segR S2 (W2 & F2 & WR & FR' & L2). cbv beta iota.
    pose proof (len_nonneg (frames S2)). pose proof (len_nonneg (frames segR)).
    assert (Hjoin : forall a1 d1 r1,
              keeps_length a tt a1 -> keeps_length d tt d1 ->
              keeps_length segR tt r1 ->
              triple (eq a1) (join d1 ;; join S2 ;; join r1)
                     (fun _ s' => wf s' /\ same_format s s' /\
                                  len (frames s') = len (frames s))).
    { intros a1 d1 r1 (Wa1 & Fa1 & La1) (Wd1 & Fd1 & Ld1) (Wr1 & Fr1 & Lr1).
      eapply sx_seq; [apply join_wf; assumption|].
      intros [] j1 (Wj1 & Fj1 & Lj1).
      eapply sx_seq; [apply join_wf; assumption|].
      intros [] j2 (Wj2 & Fj2 & Lj2).
      eapply sx_post; [apply join_wf; assumption|].
      intros [] j3 (Wj3 & Fj3 & Lj3).
      split; [exact Wj3|]. split.
      - apply (same_format_trans s a _ Fa).
        apply (same_format_trans a a1 _ Fa1).
        apply (same_format_trans a1 j1 _ Fj1).
        apply (same_format_trans j1 j2 _ Fj2). exact Fj3.
      - lia. }
    assert (Hfd : forall a1, keeps_length a tt a1 ->
              triple (eq a1)
                (r0 <- (if Qltb 0 decay then on d (fadeout decay sustainlevel)
                        else ret (d, tt)) ;;
                 (let segD0 := fst r0 in
                  r1 <- (if Qltb 0 release then on segR (fadeout release 0)
                         else ret (segR, tt)) ;;
                  (let segR0 := fst r1 in join segD0 ;; join S2 ;; join segR0)))
                (fun _ s' => wf s' /\ same_format s s' /\
                             len (frames s') = len (frames s))).
    { intros a1 Ka.
      assert (Hfr : forall d1, keeps_length d tt d1 ->
                triple (eq a1)
                  (r1 <- (if Qltb 0 release then on segR (fadeout release 0)
                          else ret (segR, tt)) ;;
                   (let segR0 := fst r1 in join d1 ;; join S2 ;; join segR0))
                  (fun _ s' => wf s' /\ same_format s s' /\
                               len (frames s') = len (frames s))).
      { intros d1 Kd. destruct (Qltb 0 release).
        - eapply sx_on; [apply fadeout_wf; [exact WR|lia]|].
          intros [] r1 Kr. cbv zeta. cbn [fst]. now apply Hjoin.
        - step. cbv zeta. cbn [fst]. apply Hjoin; auto.
          split; [exact WR|split; [apply same_format_refl|reflexivity]]. }
      destruct (Qltb 0 decay).
      - eapply sx_on; [apply fadeout_wf; [exact Wd|lia]|].
        intros [] d1 Kd. cbv zeta. cbn [fst]. now apply Hfr.
      - step. cbv zeta. cbn [fst]. apply Hfr.
        split; [exact Wd|split; [apply same_format_refl|reflexivity]]. }
    destruct (Qltb 0 attack).
    - eapply sx_seq; [apply fadein_wf; [exact Wa|lia]|].
      intros [] a1 Ka. now apply Hfd.
    - step. apply Hfd.
      split; [exact Wa|split; [apply same_format_refl|reflexivity]]. }
  destruct (Qltb sustainlevel 1).
  - eapply sx_on; [apply amplify_wf; exact WS|].
    intros [] S1 (W1 & F1 & L1). cbv zeta. cbn [fst]. now apply Hrest.
  - step. cbv zeta. cbn [fst]. apply Hrest; auto. apply same_format_refl.
Qed.

Lemma run_discard {A} (m : M A) (s s' : Sample.t) (r : option Sample.t)
      (Q : A -> Sample.t -> Prop) :
  triple (eq s) m Q -> (forall a s1, Q a s1 -> wf s1) ->
  discard m s = (s', Ok r) ->
  wf s' /\ (forall c, r = Some c -> wf c).
Proof.
  intros Hm HQ E. unfold discard, bind, ret in E.
  specialize (Hm s eq_refl).
  destruct (m s) as [s1 [a|e]]; [|discriminate E].
  injection E as <- <-. split; [eauto|discriminate].
Qed.

(** C9, as the code has it: no constructor checks the buffer length (see
    [from_raw_frames_accepts_partial_frame]), but every transformation keeps
    the invariant.  For a receiver and operand of a supported format whose
    buffers are whole frames, every operation that completes leaves the
    receiver, and the sample it returns if any, with a buffer that is a whole
    number of frames. *)
Theorem operations_keep_whole_frames (op : operation) (s s' : Sample.t)
        (r : option Sample.t) :
  wf s -> len (frames s) <= 2 ^ 53 ->
  (forall o, operand op = Some o -> wf o) ->
  run op s = (s', Ok r) ->
  wf s' /\ (forall c, r = Some c -> wf c).
Proof.
  intros Hs Hb Ho E.
  assert (fin : forall A (m : M A) (Q : A -> Sample.t -> Prop),
             triple (eq s) m Q -> (forall a s1, Q a s1 -> wf s1) ->
             discard m s = (s', Ok r) ->
             wf s' /\ (forall c, r = Some c -> wf c)).
  { intros A m Q. apply run_discard. }
  destruct op; cbn [run operand] in *; try specialize (Ho _ eq_refl).
  - refine (fin _ _ _ _ _ E); [apply copy_from_wf; assumption|intros a s1 H; apply H].
  - refine (fin _ _ _ _ _ E); [apply amplify_max_wf; assumption|intros a s1 H; apply H].
  - refine (fin _ _ _ _ _ E); [apply amplify_wf; assumption|intros a s1 H; apply H].
  - refine (fin _ _ _ _ _ E); [apply clip_wf; assumption|intros a s1 H; apply H].
  - unfold bind, ret in E.
    pose proof (split_wf seconds s Hs s eq_refl) as H.
    destruct (split seconds s) as [s1 [c|e]]; [|discriminate E].
    injection E as <- <-. destruct H as (W1 & _ & Wc & _).
    split; [exact W1|]. intros c' Hc. now injection Hc as <-.
  - refine (fin _ _ _ _ _ E); [apply add_silence_wf; assumption|intros a s1 H; apply H].
  - refine (fin _ _ _ _ _ E); [apply join_wf; assumption|intros a s1 H; apply H].
  - refine (fin _ _ _ _ _ E); [apply fadeout_wf; assumption|intros a s1 H; apply H].
  - refine (fin _ _ _ _ _ E); [apply fadein_wf; assumption|intros a s1 H; apply H].
  - refine (fin _ _ _ _ _ E); [apply reverse_wf; assumption|intros a s1 H; apply H].
  - refine (fin _ _ _ _ _ E); [apply invert_wf; assumption|intros a s1 H; apply H].
  - refine (fin _ _ _ _ _ E); [apply delay_wf; assumption|intros a s1 H; apply H].
  - refine (fin _ _ _ _ _ E); [apply mono_wf; assumption|intros a s1 H; apply H].
  - refine (fin _ _ _ _ _ E); [apply left_wf; assumption|intros a s1 H; apply H].
  - refine (fin _ _ _ _ _ E); [apply right_wf; assumption|intros a s1 H; apply H].
  - refine (fin _ _ _ _ _ E); [apply stereo_wf; assumption|intros a s1 H; apply H].
  - refine (fin _ _ _ _ _ E); [apply stereo_mix_wf; assumption|intros a s1 H; apply H].
  - refine (fin _ _ _ _ _ E); [apply pan_wf; assumption|intros a s1 H; apply H].
  - refine (fin _ _ _ _ _ E); [apply echo_wf; assumption|intros a s1 H; apply H].
  - refine (fin _ _ _ _ _ E); [apply envelope_wf; assumption|intros a s1 H; apply H].
  - refine (fin _ _ _ _ _ E); [apply mix_wf; assumption|intros a s1 H; apply H].
  - refine (fin _ _ _ _ _ E); [apply mix_at_wf; assumption|intros a s1 H; apply H].
  - refine (fin _ _ _ _ _ E); [apply make_32bit_wf; assumption|intros a s1 H; apply H].
  - refine (fin _ _ _ _ _ E); [apply make_16bit_wf; assumption|intros a s1 H; apply H].
Qed.

End Fades.

(** C9 as stated (the invariant holds after every completed operation,
    construction included) does not hold: [from_raw_frames] accepts three
    bytes as the buffer of a 16-bit mono sample. *)
Lemma from_raw_frames_accepts_partial_frame :
  exists s,
    from_raw_frames ["a"%byte; "b"%byte; "c"%byte] 2 44100 1 = Ok s /\
    len (frames s) = 3 /\ samplewidth s * nchannels s = 2 /\
    ~ aligned s.
Proof.
  eexists. split; [reflexivity|]. split; [reflexivity|]. split; [reflexivity|].
  unfold aligned. cbn. discriminate.
Qed.

Lemma operations_keep_whole_frames_witness :
  let s := sample_of 2 44100 2 [100; -100; 200; -200] in
  let other := sample_of 2 44100 2 [1; 2] in
  let op := OpMixAt (1 # 44100) other None in
  wf s /\ wf other /\
  wf (fst (run (FR := exact) op s)) /\
  snd (run (FR := exact) op s) = Ok None.
Proof.
  cbv zeta.
  assert (W1 : wf (sample_of 2 44100 2 [100; -100; 200; -200])).
  { split; [repeat split; cbn; lia|reflexivity]. }
  assert (W2 : wf (sample_of 2 44100 2 [1; 2])).
  { split; [repeat split; cbn; lia|reflexivity]. }
  split; [exact W1|]. split; [exact W2|].
  split; [|reflexivity].
  refine (proj1 (operations_keep_whole_frames
                   (FR := exact) (SM := exact_standard)
                   (OpMixAt (1 # 44100) (sample_of 2 44100 2 [1; 2]) None)
                   (sample_of 2 44100 2 [100; -100; 200; -200])
                   _ None W1 _ _ _)).
  - vm_compute. discriminate.
  - intros o Ho. injection Ho as <-. exact W2.
  - reflexivity.
Defined.

End InvariantFacts.



(** Float operations respect equality of rationals. *)
Module RoundingProper.
Import RoundingFacts.

Section Proper.
Context {FR : Rounding} {SM : StandardModel FR}.

#[export] Instance rnd_Proper : Proper (Qeq ==> Qeq) rnd.
Proof. intros x y E. now apply rnd_proper. Qed.

#[export] Instance fadd_Proper : Proper (Qeq ==> Qeq ==> Qeq) fadd.
Proof. intros x y E x' y' E'. unfold fadd. now rewrite E, E'. Qed.

#[export] Instance fsub_Proper : Proper (Qeq ==> Qeq ==> Qeq) fsub.
Proof. intros x y E x' y' E'. unfold fsub. now rewrite E, E'. Qed.

#[export] Instance fmul_Proper : Proper (Qeq ==> Qeq ==> Qeq) fmul.
Proof. intros x y E x' y' E'. unfold fmul. now rewrite E, E'. Qed.

#[export] Instance fdiv_Proper : Proper (Qeq ==> Qeq ==> Qeq) fdiv.
Proof. intros x y E x' y' E'. unfold fdiv. now rewrite E, E'. Qed.

Lemma rnd_unit (x : Q) : (0 <= x)%Q -> (x <= 1)%Q ->
  (0 <= rnd x)%Q /\ (rnd x <= 1)%Q.
Proof.
  intros H0 H1. split.
  - now apply rnd_nonneg.
  - apply (rnd_le_int x 1); [vm_compute; discriminate|exact H1].
Qed.

End Proper.

End RoundingProper.

(** ** Fades *)

Module FadeFacts.
Import Sample BytesFacts AudioopFacts CopyFacts LengthFacts RoundingFacts Hoare
       InvariantFacts RoundingProper.
Local Open Scope method_scope.
Local Abbreviation length := List.length.

Lemma mapM_ok {A B} (f : A -> result B) (g : A -> B) (l : list A) :
  (forall a, In a l -> f a = Ok (g a)) -> mapM f l = Ok (map g l).
Proof.
  induction l as [|a t IH]; intros H; cbn [mapM map].
  - reflexivity.
  - rewrite (H a) by (now left). cbn [rbind].
    rewrite IH by (intros b Hb; apply H; now right). reflexivity.
Qed.

Lemma nth_samples (w : Z) (frag : list byte) (j : nat) :
  (j < length (audioop.samples w frag))%nat ->
  nth j (audioop.samples w frag) 0 = audioop.rawsample w frag j.
Proof.
  intros Hj. rewrite samples_count in Hj. unfold audioop.samples.
  rewrite (nth_indep _ 0 (audioop.rawsample w frag 0%nat))
    by (rewrite length_map, length_seq; exact Hj).
  rewrite map_nth, seq_nth by exact Hj. reflexivity.
Qed.

Section Fade.
Context {FR : Rounding} {SM : StandardModel FR}.

Lemma in_range_53 (w v : Z) : 1 <= w <= 4 -> in_range w v -> Z.abs v <= 2 ^ 53.
Proof.
  intros Hw Hv. unfold in_range, audioop.minval, audioop.maxval in Hv.
  assert (2 ^ (8 * w - 1) <= 2 ^ 31) by (apply Z.pow_le_mono_r; lia).
  assert (2 ^ 31 <= 2 ^ 53) by (apply Z.pow_le_mono_r; lia).
  lia.
Qed.

(** A sample value scaled by an amplitude between 0 and 1 is a sample
    value. *)
Lemma scaled_in_range (w v : Z) (a : Q) :
  1 <= w <= 4 -> in_range w v -> (0 <= a)%Q -> (a <= 1)%Q ->
  in_range w (Qtrunc (fmul (inject_Z v) a)).
Proof.
  intros Hw Hv Ha0 Ha1. pose proof (in_range_53 w v Hw Hv) as H53.
  unfold in_range in *. pose proof (range_bounds w ltac:(lia)) as Hb.
  unfold fmul. destruct (Z_le_gt_dec 0 v) as [Hpos|Hneg].
  - assert (H0 : (0 <= inject_Z v)%Q).
    { change 0%Q with (inject_Z 0). rewrite <- Zle_Qle. lia. }
    enough (0 <= Qtrunc (rnd (inject_Z v * a)) <= v) by lia.
    apply Qtrunc_bounds; [lia| |].
    + apply (rnd_ge_int _ 0); [vm_compute; discriminate|].
      change (inject_Z 0) with 0%Q. nra.
    + apply rnd_le_int; [exact H53|]. nra.
  - assert (H0 : (inject_Z v <= 0)%Q).
    { change 0%Q with (inject_Z 0). rewrite <- Zle_Qle. lia. }
    enough (v <= Qtrunc (rnd (inject_Z v * a)) <= 0) by lia.
    apply Qtrunc_bounds; [lia| |].
    + apply rnd_ge_int; [exact H53|]. nra.
    + apply (rnd_le_int _ 0); [vm_compute; discriminate|].
      change (inject_Z 0) with 0%Q. nra.
Qed.

Lemma getsample_ok (chunk : list byte) (w : Z) (j : nat) :
  1 <= w <= 4 -> len chunk mod w = 0 ->
  (j < Z.to_nat (len chunk / w))%nat ->
  audioop.getsample chunk w (Z.of_nat j) = Ok (audioop.rawsample w chunk j).
Proof.
  intros Hw Hn Hj. unfold audioop.getsample.
  rewrite check_parameters_ok by assumption. cbn [rbind].
  destruct (Z.ltb_spec (Z.of_nat j) 0); [lia|].
  destruct (Z.leb_spec (len chunk / w) (Z.of_nat j)); [lia|].
  cbn [orb]. now rewrite Nat2Z.id.
Qed.

Lemma faded_values_in_range (w : Z) (vals : list Z) (amp : Z -> Q) :
  1 <= w <= 4 -> Forall (in_range w) vals ->
  (forall j, 0 <= j < len vals -> (0 <= amp j)%Q /\ (amp j <= 1)%Q) ->
  Forall (in_range w) (faded_values vals amp).
Proof.
  intros Hw Hv Ha. unfold faded_values. apply Forall_forall.
  intros v Hin. apply in_map_iff in Hin as (j & <- & Hj).
  apply in_seq in Hj. destruct (Ha (Z.of_nat j)) as [A0 A1]; [unfold len; lia|].
  apply scaled_in_range; auto.
  rewrite Forall_forall in Hv. apply Hv, nth_In. lia.
Qed.

(** A fade whose amplitudes lie between 0 and 1 goes through, and writes the
    scaled values. *)
Lemma fade_chunk_ok (chunk : list byte) (w : Z) (amp : Z -> Q) :
  1 <= w <= 4 -> len chunk mod w = 0 -> len chunk <= 2 ^ 53 ->
  (forall j, 0 <= j < len chunk / w -> (0 <= amp j)%Q /\ (amp j <= 1)%Q) ->
  fade_chunk chunk w w (fdiv (inject_Z (len chunk)) (inject_Z w)) amp
  = Ok (audioop.frombuf w (faded_values (audioop.samples w chunk) amp)).
Proof.
  intros Hw Hn Hb Ha. unfold fade_chunk.
  rewrite numsamples_exact by (assumption || lia).
  set (g := fun i : Z =>
              Qtrunc (fmul (inject_Z (audioop.rawsample w chunk (Z.to_nat i)))
                           (amp i))).
  rewrite (mapM_ok _ g).
  - cbn [rbind]. unfold array.tobytes. do 2 f_equal.
    unfold range, faded_values. rewrite map_map, samples_count.
    apply map_ext_in. intros j Hj. apply in_seq in Hj.
    unfold g. rewrite Nat2Z.id.
    rewrite nth_samples by (rewrite samples_count; lia). reflexivity.
  - intros i Hi. unfold range in Hi. apply in_map_iff in Hi as (j & <- & Hj).
    apply in_seq in Hj.
    rewrite getsample_ok by (assumption || lia). cbn [rbind].
    unfold array.checked_item, g. rewrite Nat2Z.id.
    assert (R : in_range w (Qtrunc (fmul (inject_Z (audioop.rawsample w chunk j))
                                         (amp (Z.of_nat j))))).
    { destruct (Ha (Z.of_nat j)) as [A0 A1].
      { lia. }
      apply scaled_in_range; auto.
      apply rawsample_in_range; lia. }
    destruct R as [R1 R2].
    destruct (Z.leb_spec (audioop.minval w) (Qtrunc (fmul (inject_Z
                (audioop.rawsample w chunk j)) (amp (Z.of_nat j))))); [|lia].
    destruct (Z.leb_spec (Qtrunc (fmul (inject_Z
                (audioop.rawsample w chunk j)) (amp (Z.of_nat j))))
                (audioop.maxval w)); [|lia].
    reflexivity.
Qed.

Lemma inject_Z_nonneg (z : Z) : 0 <= z -> (0 <= inject_Z z)%Q.
Proof. intros H. change 0%Q with (inject_Z 0). now rewrite <- Zle_Qle. Qed.

Lemma inject_Z_pos (z : Z) : 0 < z -> (0 < inject_Z z)%Q.
Proof. intros H. change 0%Q with (inject_Z 0). now rewrite <- Zlt_Qlt. Qed.

Lemma ratio_unit (j m : Z) :
  0 <= j < m -> (0 <= inject_Z j / inject_Z m)%Q /\ (inject_Z j / inject_Z m <= 1)%Q.
Proof.
  intros H. pose proof (inject_Z_pos m ltac:(lia)) as Hm.
  pose proof (inject_Z_nonneg j ltac:(lia)) as Hj.
  assert (Hjm : (inject_Z j <= inject_Z m)%Q) by (rewrite <- Zle_Qle; lia).
  split.
  - apply Qle_shift_div_l; [exact Hm|]. now rewrite Qmult_0_l.
  - apply Qle_shift_div_r; [exact Hm|]. now rewrite Qmult_1_l.
Qed.

Lemma ramp_in_unit (n : Q) (m j : Z) :
  (n == inject_Z m)%Q -> 0 <= j < m -> m <= 2 ^ 53 ->
  (0 <= ramp_in n 0 j)%Q /\ (ramp_in n 0 j <= 1)%Q.
Proof.
  intros Hn Hj Hm. unfold ramp_in.
  assert (E1 : (fsub 1 0 == 1)%Q).
  { unfold fsub. setoid_replace (1 - 0)%Q with 1%Q by ring. apply rnd_one. }
  assert (E2 : (fmul (inject_Z j) (fsub 1 0) == inject_Z j)%Q).
  { rewrite E1. unfold fmul. rewrite Qmult_1_r. apply rnd_int. lia. }
  rewrite E2, Hn. unfold fadd, fdiv. rewrite Qplus_0_r, rnd_idem.
  apply rnd_unit; now apply ratio_unit.
Qed.

Lemma ramp_in_zero (n : Q) : (ramp_in n 0 0 == 0)%Q.
Proof.
  unfold ramp_in, fadd, fdiv, fmul.
  change (inject_Z 0) with 0%Q. rewrite Qmult_0_l.
  rewrite rnd_zero. unfold Qdiv. rewrite Qmult_0_l, rnd_zero, Qplus_0_r.
  apply rnd_zero.
Qed.

Lemma ramp_out_unit (n target : Q) (m j : Z) :
  (n == inject_Z m)%Q -> 0 <= j < m ->
  (0 <= target)%Q -> (target <= 1)%Q ->
  (0 <= ramp_out n target j)%Q /\ (ramp_out n target j <= 1)%Q.
Proof.
  intros Hn Hj Ht0 Ht1. unfold ramp_out. rewrite Hn.
  destruct (rnd_unit (1 - target)) as [D0 D1]; [lra|lra|].
  destruct (rnd_unit (inject_Z j / inject_Z m)) as [R0 R1];
    [now apply ratio_unit|now apply ratio_unit|].
  fold (fsub 1 target) in D0, D1. fold (fdiv (inject_Z j) (inject_Z m)) in R0, R1.
  destruct (rnd_unit (fdiv (inject_Z j) (inject_Z m) * fsub 1 target))
    as [P0 P1]; [nra|nra|].
  fold (fmul (fdiv (inject_Z j) (inject_Z m)) (fsub 1 target)) in P0, P1.
  unfold fsub at 1 3. apply rnd_unit; lra.
Qed.

(** The float product of the value 0 and anything is 0. *)
Lemma fmul_zero_l (a : Q) : (fmul (inject_Z 0) a == 0)%Q.
Proof. unfold fmul. change (inject_Z 0) with 0%Q. rewrite Qmult_0_l. apply rnd_zero. Qed.

Lemma fmul_zero_r (v : Z) (a : Q) : (a == 0)%Q -> (fmul (inject_Z v) a == 0)%Q.
Proof. intros E. unfold fmul. rewrite E, Qmult_0_r. apply rnd_zero. Qed.

Lemma itemsize_ok (w : Z) :
  w = 2 \/ w = 4 -> array.itemsize_of_width w = Ok w.
Proof. intros [-> | ->]; reflexivity. Qed.

Lemma numsamples_value (chunk : list byte) (w : Z) :
  1 <= w -> len chunk mod w = 0 -> len chunk <= 2 ^ 53 ->
  (fdiv (inject_Z (len chunk)) (inject_Z w) == inject_Z (len chunk / w))%Q.
Proof.
  intros Hw Hn Hb. pose proof (len_nonneg chunk) as Hl.
  apply Z.mod_divide in Hn; [|lia]. destruct Hn as [k Hk].
  rewrite Hk, Z.div_mul by lia.
  assert (0 <= k) by nia. assert (k <= 2 ^ 53) by nia.
  apply fdiv_exact; lia.
Qed.

Lemma fadeout_ok (seconds target dur : Q) (s : Sample.t) :
  wf s -> locked s = false -> samplewidth s = 2 \/ samplewidth s = 4 ->
  len (frames s) <= 2 ^ 53 -> duration s = Ok dur ->
  (0 <= target)%Q -> (target <= 1)%Q ->
  let i := frame_idx s (fsub dur (pymin seconds dur)) in
  let begin_ := slice_to (frames s) i in
  let end_ := slice_from (frames s) i in
  let n := fdiv (inject_Z (len end_)) (inject_Z (samplewidth s)) in
  let faded := faded_values (audioop.samples (samplewidth s) end_)
                            (ramp_out n target) in
  fadeout seconds target s
  = (with_frames (begin_ ++ audioop.frombuf (samplewidth s) faded) s, Ok tt) /\
  values (with_frames (begin_ ++ audioop.frombuf (samplewidth s) faded) s)
  = audioop.samples (samplewidth s) begin_ ++ faded.
Proof.
  intros Hs Hl Hw Hb Hd Ht0 Ht1 i begin_ end_ n faded.
  pose proof (wf_pos s Hs) as Hp.
  assert (Hw' : 1 <= samplewidth s <= 4) by lia.
  assert (Hi : i mod (samplewidth s * nchannels s) = 0)
    by apply frame_idx_multiple.
  assert (Hend : len end_ mod samplewidth s = 0).
  { apply multiple_of_width; auto. apply aligned_slice_from; auto. apply Hs. }
  assert (Hbeg : len begin_ mod samplewidth s = 0).
  { apply multiple_of_width; auto. apply aligned_slice_to; auto. apply Hs. }
  assert (Hlen : len end_ <= 2 ^ 53).
  { unfold end_. rewrite len_slice_from.
    pose proof (norm_idx_range (len (frames s)) i (len_nonneg _)). lia. }
  assert (Hamp : forall j, 0 <= j < len end_ / samplewidth s ->
                   (0 <= ramp_out n target j)%Q /\ (ramp_out n target j <= 1)%Q).
  { intros j Hj. apply (ramp_out_unit n target (len end_ / samplewidth s)); auto.
    apply numsamples_value; auto; lia. }
  split.
  - unfold fadeout, bind, get, lift, modify, assert_unlocked.
    rewrite Hl, (itemsize_ok _ Hw), Hd. cbv zeta.
    fold i. fold begin_. fold end_. fold n.
    change (fun i0 : Z => fsub 1 (fmul (fdiv (inject_Z i0) n) (fsub 1 target)))
      with (ramp_out n target).
    unfold n. rewrite fade_chunk_ok by assumption. reflexivity.
  - unfold values. cbn [with_frames frames samplewidth].
    rewrite samples_app by (assumption || lia). f_equal.
    apply samples_frombuf; [lia|].
    apply faded_values_in_range; auto.
    + apply samples_in_range. lia.
    + intros j Hj. apply Hamp. rewrite len_samples in Hj by lia. exact Hj.
Qed.

Lemma fadein_ok (seconds dur : Q) (s : Sample.t) :
  wf s -> locked s = false -> samplewidth s = 2 \/ samplewidth s = 4 ->
  len (frames s) <= 2 ^ 53 -> duration s = Ok dur ->
  let i := frame_idx s (pymin seconds dur) in
  let begin_ := slice_to (frames s) i in
  let end_ := slice_from (frames s) i in
  let n := fdiv (inject_Z (len begin_)) (inject_Z (samplewidth s)) in
  let faded := faded_values (audioop.samples (samplewidth s) begin_)
                            (ramp_in n 0) in
  fadein seconds 0 s
  = (with_frames (audioop.frombuf (samplewidth s) faded ++ end_) s, Ok tt) /\
  values (with_frames (audioop.frombuf (samplewidth s) faded ++ end_) s)
  = faded ++ audioop.samples (samplewidth s) end_.
Proof.
  intros Hs Hl Hw Hb Hd i begin_ end_ n faded.
  pose proof (wf_pos s Hs) as Hp.
  assert (Hw' : 1 <= samplewidth s <= 4) by lia.
  assert (Hi : i mod (samplewidth s * nchannels s) = 0)
    by apply frame_idx_multiple.
  assert (Hbeg : len begin_ mod samplewidth s = 0).
  { apply multiple_of_width; auto. apply aligned_slice_to; auto. apply Hs. }
  assert (Hlen : len begin_ <= 2 ^ 53).
  { unfold begin_. rewrite len_slice_to.
    pose proof (norm_idx_range (len (frames s)) i (len_nonneg _)). lia. }
  assert (Hamp : forall j, 0 <= j < len begin_ / samplewidth s ->
                   (0 <= ramp_in n 0 j)%Q /\ (ramp_in n 0 j <= 1)%Q).
  { intros j Hj. apply (ramp_in_unit n (len begin_ / samplewidth s)); auto.
    - apply numsamples_value; auto; lia.
    - assert (len begin_ / samplewidth s <= len begin_); [|lia].
      apply Z.div_le_upper_bound; [lia|]. pose proof (len_nonneg begin_). nia. }
  assert (Hr : Forall (in_range (samplewidth s)) faded).
  { apply faded_values_in_range; auto.
    + apply samples_in_range. lia.
    + intros j Hj. apply Hamp. rewrite len_samples in Hj by lia. exact Hj. }
  split.
  - unfold fadein, bind, get, lift, modify, assert_unlocked.
    rewrite Hl, (itemsize_ok _ Hw), Hd. cbv zeta.
    fold i. fold begin_. fold end_. fold n.
    change (fun i0 : Z => fadd (fdiv (fmul (inject_Z i0) (fsub 1 0)) n) 0)
      with (ramp_in n 0).
    unfold n. rewrite fade_chunk_ok by assumption. reflexivity.
  - unfold values. cbn [with_frames frames samplewidth].
    rewrite samples_app.
    + f_equal. now apply samples_frombuf; [lia|].
    + lia.
    + rewrite len_frombuf by lia. rewrite Z.mul_comm. apply Z_mod_mult.
Qed.

Lemma ramp_out_comp (n n' target : Q) (j : Z) :
  (n == n')%Q -> (ramp_out n target j == ramp_out n' target j)%Q.
Proof. intros E. unfold ramp_out. now rewrite E. Qed.

Lemma length_faded_values (vals : list Z) (amp : Z -> Q) :
  length (faded_values vals amp) = length vals.
Proof. unfold faded_values. now rewrite length_map, length_seq. Qed.

Lemma hd_faded_values (v : Z) (t : list Z) (amp : Z -> Q) :
  hd_error (faded_values (v :: t) amp)
  = Some (Qtrunc (fmul (inject_Z v) (amp 0))).
Proof. reflexivity. Qed.

Lemma nth_length_last {A} (l : list A) (d : A) :
  nth (length l - 1) l d = last l d.
Proof.
  induction l as [|a t IH]; [reflexivity|].
  destruct t as [|b t']; [reflexivity|].
  cbn [length Nat.sub] in *. rewrite Nat.sub_0_r in *.
  change (last (a :: b :: t') d) with (last (b :: t') d).
  rewrite <- IH. reflexivity.
Qed.

Lemma last_faded_values (vals : list Z) (amp : Z -> Q) :
  vals <> [] ->
  last (faded_values vals amp) 0
  = Qtrunc (fmul (inject_Z (last vals 0)) (amp (len vals - 1))).
Proof.
  intros Hv. unfold faded_values, len.
  destruct (length vals) as [|n] eqn:E.
  - destruct vals; [contradiction|discriminate].
  - rewrite seq_S, map_app. cbn [map]. rewrite last_last. cbn [Nat.add].
    rewrite <- (nth_length_last vals 0), E.
    replace (S n - 1)%nat with n by lia.
    replace (Z.of_nat (S n) - 1) with (Z.of_nat n) by lia.
    reflexivity.
Qed.

Lemma hd_error_app {A} (l1 l2 : list A) :
  l1 <> [] -> hd_error (l1 ++ l2) = hd_error l1.
Proof. destruct l1; [contradiction|reflexivity]. Qed.

Lemma last_app {A} (l1 l2 : list A) (d : A) :
  l2 <> [] -> last (l1 ++ l2) d = last l2 d.
Proof.
  intros H. rewrite (app_removelast_last d H), app_assoc, !last_last.
  reflexivity.
Qed.

Lemma duration_same (s s' : Sample.t) :
  same_format s s' -> len (frames s') = len (frames s) ->
  duration s' = duration s.
Proof.
  intros (Hw & Hr & Hc) Hl. unfold duration. now rewrite Hw, Hr, Hc, Hl.
Qed.

Lemma duration_empty (s : Sample.t) (dur : Q) :
  wf s -> len (frames s) = 0 -> duration s = Ok dur -> (dur == 0)%Q.
Proof.
  intros Hs Hl Hd. unfold duration in Hd. rewrite Hl in Hd.
  destruct (_ || _); [discriminate Hd|]. injection Hd as <-.
  assert (E : forall x, (fdiv 0 x == 0)%Q).
  { intros x. unfold fdiv, Qdiv. rewrite Qmult_0_l. apply rnd_zero. }
  change (inject_Z 0) with 0%Q. now rewrite !E.
Qed.

Lemma samples_nonempty (w : Z) (frag : list byte) :
  1 <= w -> w <= len frag -> audioop.samples w frag <> [].
Proof.
  intros Hw Hl E. apply (f_equal (@List.length Z)) in E.
  rewrite samples_count in E. cbn in E.
  assert (1 <= len frag / w) by (apply Z.div_le_lower_bound; lia). lia.
Qed.

Lemma Qtrunc_ge (x : Q) (z : Z) :
  0 <= z -> (inject_Z z <= x)%Q -> z <= Qtrunc x.
Proof.
  intros Hz Hx.
  assert (H0 : (0 <= x)%Q).
  { apply Qle_trans with (inject_Z z); [now apply inject_Z_nonneg|exact Hx]. }
  rewrite Qtrunc_nonneg by (now apply Qnum_sign).
  apply Qfloor_resp_le in Hx. now rewrite Qfloor_Z in Hx.
Qed.

Lemma pymin_le (a b : Q) : (a <= b)%Q -> pymin a b = a.
Proof.
  intros H. unfold pymin, Qltb.
  apply Qle_bool_iff in H. now rewrite H.
Qed.

(** C3, as the code has it.  Fading in and then out over [T] seconds, with
    [T] at least one sample period and at most the duration, goes through on
    an unlocked 16- or 32-bit sample (whatever its content, constant or not)
    and leaves 0 as the first sample value.  The last value is not brought
    to 0: when the fade-out covers [m >= 1] sample values its last step
    scales by [1 - (m-1)/m], so the last value is the one the fade-in left,
    times that factor, truncated toward zero. *)
Theorem fadein_fadeout_ends (s : Sample.t) (T dur : Q) :
  wf s -> locked s = false -> samplewidth s = 2 \/ samplewidth s = 4 ->
  len (frames s) <= 2 ^ 53 -> duration s = Ok dur ->
  (T <= dur)%Q -> (1 <= inject_Z (samplerate s) * T)%Q ->
  exists s1 s2,
    fadein T 0 s = (s1, Ok tt) /\
    fadeout T 0 s1 = (s2, Ok tt) /\
    hd_error (values s2) = Some 0 /\
    (let tail := slice_from (frames s1) (frame_idx s1 (fsub dur T)) in
     let m := len tail / samplewidth s in
     1 <= m ->
     last (values s2) 0
     = Qtrunc (fmul (inject_Z (last (values s1) 0))
                    (ramp_out (inject_Z m) 0 (m - 1)))).
Proof.
  intros Hs Hl Hw Hb Hd HT Hrate.
  pose proof (wf_pos s Hs) as Hp.
  assert (Hw' : 1 <= samplewidth s <= 4) by lia.
  destruct (fadein_ok T dur s Hs Hl Hw Hb Hd) as [E1 V1].
  rewrite (pymin_le T dur HT) in E1, V1.
  set (i := frame_idx s T) in *.
  set (begin_ := slice_to (frames s) i) in *.
  set (end_ := slice_from (frames s) i) in *.
  set (n := fdiv (inject_Z (len begin_)) (inject_Z (samplewidth s))) in *.
  set (faded := faded_values (audioop.samples (samplewidth s) begin_)
                             (ramp_in n 0)) in *.
  set (s1 := with_frames (audioop.frombuf (samplewidth s) faded ++ end_) s) in *.
  pose proof (triple_run _ _ _ s s1 tt (fadein_wf T 0 s Hs Hb) eq_refl E1)
    as (W1 & F1 & L1).
  assert (Hd1 : duration s1 = Ok dur) by (now rewrite (duration_same s s1)).
  assert (Hb1 : len (frames s1) <= 2 ^ 53) by lia.
  assert (Hw1 : samplewidth s1 = 2 \/ samplewidth s1 = 4) by exact Hw.
  destruct (fadeout_ok T 0 dur s1 W1 Hl Hw1 Hb1 Hd1) as [E2 V2];
    [lra|lra|].
  rewrite (pymin_le T dur HT) in E2, V2.
  change (samplewidth s1) with (samplewidth s) in E2, V2.
  set (i2 := frame_idx s1 (fsub dur T)) in *.
  set (begin2 := slice_to (frames s1) i2) in *.
  set (end2 := slice_from (frames s1) i2) in *.
  set (n2 := fdiv (inject_Z (len end2)) (inject_Z (samplewidth s))) in *.
  set (faded2 := faded_values (audioop.samples (samplewidth s) end2)
                              (ramp_out n2 0)) in *.
  set (s2 := with_frames (begin2 ++ audioop.frombuf (samplewidth s) faded2) s1)
    in *.
  exists s1, s2. split; [exact E1|]. split; [exact E2|].
  (* the buffer holds at least one frame *)
  assert (Hlen : 0 < len (frames s)).
  { pose proof (len_nonneg (frames s)) as H0.
    destruct (Z.eq_dec (len (frames s)) 0) as [Z0|]; [|lia].
    pose proof (duration_empty s dur Hs Z0 Hd) as D0.
    destruct Hs as [(_ & _ & Hr) _].
    pose proof (inject_Z_pos (samplerate s) ltac:(lia)).
    exfalso. rewrite D0 in HT. nra. }
  assert (Hfull : samplewidth s * nchannels s <= len (frames s)).
  { destruct Hs as [_ A]. unfold aligned in A.
    apply Z.mod_divide in A; [|lia]. destruct A as [k Hk].
    assert (0 < k) by (destruct (Z_lt_le_dec 0 k); [assumption|exfalso; nia]).
    nia. }
  (* the fade-in covers at least one value, so the buffer starts with 0 *)
  assert (Hk : 1 <= Qtrunc (fmul (inject_Z (samplerate s)) T)).
  { apply Qtrunc_ge; [lia|]. unfold fmul.
    apply rnd_ge_int; [vm_compute; discriminate|exact Hrate]. }
  assert (Hbegin : samplewidth s <= len begin_).
  { unfold begin_. rewrite len_slice_to. unfold norm_idx, i, frame_idx.
    destruct Hs as [(_ & Hc & _) _].
    destruct (Z.ltb_spec (nchannels s * samplewidth s
                          * Qtrunc (fmul (inject_Z (samplerate s)) T)) 0); nia. }
  assert (H1 : hd_error (values s1) = Some 0).
  { rewrite V1. unfold faded.
    destruct (audioop.samples (samplewidth s) begin_) as [|v t] eqn:Ev.
    - exfalso. revert Ev. apply samples_nonempty; lia.
    - cbn [app]. rewrite hd_error_app by discriminate.
      rewrite hd_faded_values. f_equal.
      apply Qtrunc_zero, fmul_zero_r, ramp_in_zero. }
  (* the buffer before the fade-out, cut where the fade-out starts *)
  assert (Hcut : values s1 = audioop.samples (samplewidth s) begin2
                             ++ audioop.samples (samplewidth s) end2).
  { unfold values. change (samplewidth s1) with (samplewidth s).
    rewrite <- samples_app.
    - unfold begin2, end2. now rewrite slice_to_from.
    - lia.
    - apply (multiple_of_width s1); auto.
      apply aligned_slice_to; auto; [apply W1|apply frame_idx_multiple]. }
  split.
  - rewrite V2.
    destruct (audioop.samples (samplewidth s) begin2) as [|v t] eqn:Ev.
    + cbn [app] in *. rewrite Hcut in H1. unfold faded2.
      destruct (audioop.samples (samplewidth s) end2) as [|v2 t2];
        [discriminate H1|].
      injection H1 as ->. rewrite hd_faded_values. f_equal.
      apply Qtrunc_zero, fmul_zero_l.
    + rewrite Hcut in H1. exact H1.
  - cbv zeta. fold i2. fold end2. intros Hm.
    assert (Hend2 : len end2 mod samplewidth s = 0).
    { apply (multiple_of_width s1); auto.
      apply aligned_slice_from; auto; [apply W1|apply frame_idx_multiple]. }
    assert (Hne : audioop.samples (samplewidth s) end2 <> []).
    { apply samples_nonempty; [lia|].
      apply Z.mod_divide in Hend2; [|lia]. destruct Hend2 as [k Hk2].
      rewrite Hk2, Z.div_mul in Hm by lia. nia. }
    rewrite V2, Hcut, !last_app; auto.
    + unfold faded2. rewrite last_faded_values by exact Hne.
      rewrite len_samples by lia.
      apply Qtrunc_comp. apply fmul_Proper; [reflexivity|].
      apply ramp_out_comp. unfold n2. apply numsamples_value; auto; [lia|].
      unfold end2. rewrite len_slice_from.
      pose proof (norm_idx_range (len (frames s1)) i2 (len_nonneg _)). lia.
    + intros E. apply (f_equal (@List.length Z)) in E.
      unfold faded2 in E. rewrite length_faded_values in E.
      destruct (audioop.samples (samplewidth s) end2); [contradiction|discriminate].
Qed.

End Fade.

(** C3 as stated (first and last sample value both exactly 0) does not hold:
    on four 16-bit mono values of 100 at 2 Hz, fading in and out over one
    second leaves 0, 50, 100, 50.  Every intermediate value is a small
    multiple of 1/2, so binary64 computes the same. *)
Lemma fadeout_leaves_nonzero_end :
  let s := sample_of 2 2 1 [100; 100; 100; 100] in
  locked s = false /\
  values s = repeat 100 4 /\
  duration (FR := exact) s = Ok (inject_Z 8 / inject_Z 2 / inject_Z 2 / inject_Z 1)%Q /\
  (1 <= inject_Z 8 / inject_Z 2 / inject_Z 2 / inject_Z 1)%Q /\
  exists s2,
    (fadein (FR := exact) 1 0 ;; fadeout (FR := exact) 1 0) s = (s2, Ok tt) /\
    values s2 = [0; 50; 100; 50] /\
    last (values s2) 0 <> 0.
Proof.
  cbv zeta. split; [reflexivity|]. split; [reflexivity|].
  split; [reflexivity|]. split; [vm_compute; discriminate|].
  eexists. split; [vm_compute; reflexivity|].
  split; [reflexivity|]. vm_compute. discriminate.
Qed.

Lemma fadein_fadeout_ends_witness :
  let s := sample_of 2 2 1 [100; 100; 100; 100] in
  exists s1 s2,
    fadein (FR := exact) 1 0 s = (s1, Ok tt) /\
    fadeout (FR := exact) 1 0 s1 = (s2, Ok tt) /\
    hd_error (values s2) = Some 0 /\
    (let tail := slice_from (frames s1)
                   (frame_idx (FR := exact) s1
                      (fsub (FR := exact)
                         (inject_Z 8 / inject_Z 2 / inject_Z 2 / inject_Z 1) 1)) in
     let m := len tail / samplewidth s in
     1 <= m ->
     last (values s2) 0
     = Qtrunc (fmul (FR := exact) (inject_Z (last (values s1) 0))
                    (ramp_out (FR := exact) (inject_Z m) 0 (m - 1)))).
Proof.
  cbv zeta.
  apply (fadein_fadeout_ends (FR := exact) (SM := exact_standard)
           (sample_of 2 2 1 [100; 100; 100; 100]) 1
           (inject_Z 8 / inject_Z 2 / inject_Z 2 / inject_Z 1)%Q).
  - split; [repeat split; cbn; lia|reflexivity].
  - reflexivity.
  - left. reflexivity.
  - vm_compute. discriminate.
  - reflexivity.
  - vm_compute. discriminate.
  - vm_compute. discriminate.
Defined.

End FadeFacts.

(** ** The envelope *)

Module EnvelopeFacts.
Import Sample BytesFacts AudioopFacts CopyFacts LengthFacts RoundingFacts Hoare
       InvariantFacts RoundingProper FadeFacts.
Local Open Scope method_scope.

(** Rules for [returns]. *)

Lemma r_bind {A B} (m : M A) (k : A -> M B) (s : Sample.t)
      (Q1 : A -> Sample.t -> Prop) (Q : B -> Sample.t -> Prop) :
  returns m s Q1 ->
  (forall a s1, Q1 a s1 -> returns (k a) s1 Q) ->
  returns (bind m k) s Q.
Proof.
  intros (s1 & a & E & H1) Hk. destruct (Hk a s1 H1) as (s2 & b & E2 & H2).
  exists s2, b. split; [|exact H2]. unfold bind. now rewrite E.
Qed.

Lemma r_ret {A} (a : A) (s : Sample.t) (Q : A -> Sample.t -> Prop) :
  Q a s -> returns (ret a) s Q.
Proof. intros H. exists s, a. split; [reflexivity|exact H]. Qed.

Lemma r_ret_bind {A B} (a : A) (k : A -> M B) (s : Sample.t)
      (Q : B -> Sample.t -> Prop) :
  returns (k a) s Q -> returns (bind (ret a) k) s Q.
Proof. intros H. exact H. Qed.

Lemma r_get {B} (k : Sample.t -> M B) (s : Sample.t)
      (Q : B -> Sample.t -> Prop) :
  returns (k s) s Q -> returns (bind get k) s Q.
Proof. intros H. exact H. Qed.

Lemma r_assert_unlocked {B} (k : unit -> M B) (s : Sample.t)
      (Q : B -> Sample.t -> Prop) :
  locked s = false -> returns (k tt) s Q ->
  returns (bind assert_unlocked k) s Q.
Proof.
  intros Hl (s' & b & E & H). exists s', b. split; [|exact H].
  unfold bind, assert_unlocked. now rewrite Hl.
Qed.

Lemma r_assert {B} (c : bool) (k : unit -> M B) (s : Sample.t)
      (Q : B -> Sample.t -> Prop) :
  c = true -> returns (k tt) s Q -> returns (bind (assert c) k) s Q.
Proof. intros -> H. exact H. Qed.

Lemma r_lift {A B} (r : result A) (a : A) (k : A -> M B) (s : Sample.t)
      (Q : B -> Sample.t -> Prop) :
  r = Ok a -> returns (k a) s Q -> returns (bind (lift r) k) s Q.
Proof. intros -> H. exact H. Qed.

Lemma r_modify {B} (f : Sample.t -> Sample.t) (k : unit -> M B)
      (s : Sample.t) (Q : B -> Sample.t -> Prop) :
  returns (k tt) (f s) Q -> returns (bind (modify f) k) s Q.
Proof. intros H. exact H. Qed.

Lemma r_on {A B} (o s : Sample.t) (m : M A) (k : Sample.t * A -> M B)
      (Qo : A -> Sample.t -> Prop) (Q : B -> Sample.t -> Prop) :
  returns m o Qo ->
  (forall a o', Qo a o' -> returns (k (o', a)) s Q) ->
  returns (bind (on o m) k) s Q.
Proof.
  intros (o' & a & E & Ho) Hk. destruct (Hk a o' Ho) as (s2 & b & E2 & H2).
  exists s2, b. split; [|exact H2]. unfold bind, on. now rewrite E.
Qed.

(** A run that returns satisfies what is known of every run that returns. *)
Lemma r_with {A} (m : M A) (s : Sample.t) (Q Q' : A -> Sample.t -> Prop) :
  returns m s Q -> triple (eq s) m Q' ->
  returns m s (fun a s' => Q a s' /\ Q' a s').
Proof.
  intros (s' & a & E & H) T. exists s', a. split; [exact E|].
  split; [exact H|]. exact (triple_run _ _ _ _ _ _ T eq_refl E).
Qed.

Lemma r_post {A} (m : M A) (s : Sample.t) (Q Q' : A -> Sample.t -> Prop) :
  returns m s Q' -> (forall a s', Q' a s' -> Q a s') -> returns m s Q.
Proof. intros (s' & a & E & H) HQ. exists s', a. auto. Qed.

Section Envelope.
Context {FR : Rounding} {SM : StandardModel FR}.

(** When [envelope] completes, the sample has as many frames as before. *)
Lemma envelope_keeps_frame_count (attack decay sustainlevel release : Q)
      (s s' : Sample.t) :
  wf s -> len (frames s) <= 2 ^ 53 ->
  envelope attack decay sustainlevel release s = (s', Ok tt) ->
  Sample.length s' = Sample.length s.
Proof.
  intros Hs Hb E.
  pose proof (triple_run _ _ _ s s' tt
                (envelope_wf attack decay sustainlevel release s Hs Hb)
                eq_refl E) as (_ & (Hw & _ & Hc) & Hl).
  unfold Sample.length. now rewrite Hw, Hc, Hl.
Qed.

Lemma from_raw_frames_ok (f : list byte) (w r c : Z) :
  2 <= w <= 4 -> 1 <= c <= 2 -> 1 < r ->
  from_raw_frames f w r c = Ok (mkSample f w r c false None).
Proof.
  intros Hw Hc Hr. unfold from_raw_frames.
  destruct (Z.leb_spec 1 c), (Z.leb_spec c 2), (Z.leb_spec 2 w),
    (Z.leb_spec w 4), (Z.ltb_spec 1 r); try lia. reflexivity.
Qed.

Lemma duration_ok (s : Sample.t) : wf s -> exists dur, duration s = Ok dur.
Proof.
  intros [(Hw & Hc & Hr) _]. unfold duration.
  destruct (Z.eqb_spec (samplerate s) 0); [lia|].
  destruct (Z.eqb_spec (samplewidth s) 0); [lia|].
  destruct (Z.eqb_spec (nchannels s) 0); [lia|].
  cbn [orb]. eauto.
Qed.

Lemma split_returns (seconds : Q) (s : Sample.t) :
  wf s -> locked s = false ->
  returns (split seconds) s
          (fun c s' => locked s' = false /\ locked c = false).
Proof.
  intros [(Hw & Hc & Hr) _] Hl. unfold split.
  apply r_assert_unlocked; [exact Hl|]. apply r_get.
  destruct (negb (frame_idx s seconds =? len (frames s))).
  - eapply r_lift; [apply copy_ok|]. apply r_modify. apply r_ret.
    split; [exact Hl|reflexivity].
  - exists s. eexists. split.
    + unfold lift. rewrite from_raw_frames_ok by assumption. reflexivity.
    + split; [exact Hl|reflexivity].
Qed.

Lemma amplify_returns (factor : Q) (s : Sample.t) :
  wf s -> locked s = false ->
  returns (amplify factor) s (fun _ s' => locked s' = false).
Proof.
  intros Hs Hl. pose proof (wf_pos s Hs).
  destruct (mul_ok (frames s) (samplewidth s) factor) as (f & Hf & _).
  - destruct Hs as [(Hw & _) _]. lia.
  - apply multiple_of_width; [exact Hs|apply Hs].
  - exists (with_frames f s), tt. split; [|exact Hl].
    now apply amplify_unlocked.
Qed.

Lemma join_returns (other s : Sample.t) :
  locked s = false -> same_format s other ->
  returns (join other) s (fun _ s' => locked s' = false).
Proof.
  intros Hl (Hw & Hr & Hc). unfold join.
  apply r_assert_unlocked; [exact Hl|]. apply r_get.
  apply r_assert; [rewrite Hw; apply Z.eqb_refl|].
  apply r_assert; [rewrite Hr; apply Z.eqb_refl|].
  apply r_assert; [rewrite Hc; apply Z.eqb_refl|].
  exists (with_frames (frames s ++ frames other) s), tt.
  split; [reflexivity|exact Hl].
Qed.

Lemma fadein_returns (seconds : Q) (s : Sample.t) :
  wf s -> locked s = false -> samplewidth s = 2 \/ samplewidth s = 4 ->
  len (frames s) <= 2 ^ 53 ->
  returns (fadein seconds 0) s (fun _ s' => locked s' = false).
Proof.
  intros Hs Hl Hw Hb. destruct (duration_ok s Hs) as [dur Hd].
  destruct (fadein_ok seconds dur s Hs Hl Hw Hb Hd) as [E _].
  eexists. exists tt. split; [exact E|exact Hl].
Qed.

Lemma fadeout_returns (seconds target : Q) (s : Sample.t) :
  wf s -> locked s = false -> samplewidth s = 2 \/ samplewidth s = 4 ->
  len (frames s) <= 2 ^ 53 -> (0 <= target)%Q -> (target <= 1)%Q ->
  returns (fadeout seconds target) s (fun _ s' => locked s' = false).
Proof.
  intros Hs Hl Hw Hb Ht0 Ht1. destruct (duration_ok s Hs) as [dur Hd].
  destruct (fadeout_ok seconds target dur s Hs Hl Hw Hb Hd Ht0 Ht1) as [E _].
  eexists. exists tt. split; [exact E|exact Hl].
Qed.

(** On 16- and 32-bit samples [envelope] goes through, whatever the four
    parameters within their asserted ranges, and keeps the frame count. *)
Lemma envelope_returns (attack decay sustainlevel release : Q) (s : Sample.t) :
  wf s -> locked s = false -> samplewidth s = 2 \/ samplewidth s = 4 ->
  len (frames s) <= 2 ^ 53 ->
  (0 <= attack)%Q -> (0 <= decay)%Q -> (0 <= release)%Q ->
  (0 <= sustainlevel)%Q -> (sustainlevel <= 1)%Q ->
  returns (envelope attack decay sustainlevel release) s
          (fun _ s' => Sample.length s' = Sample.length s).
Proof.
  intros Hs Hl Hw Hb Ha Hd Hr Hs0 Hs1.
  assert (Hwid : forall x, same_format s x ->
                   samplewidth x = 2 \/ samplewidth x = 4).
  { intros x (E & _). now rewrite E. }
  eapply r_post.
  2:{ intros a s' H. exact H. }
  assert (Hfin : forall s', envelope attack decay sustainlevel release s
                            = (s', Ok tt) ->
                   Sample.length s' = Sample.length s).
  { intros s'. now apply envelope_keeps_frame_count. }
  enough (R : returns (envelope attack decay sustainlevel release) s
                      (fun _ _ => True)).
  { destruct R as (s' & [] & E & _). exists s', tt. split; [exact E|].
    now apply Hfin. }
  clear Hfin. unfold envelope.
  apply r_assert_unlocked; [exact Hl|].
  apply r_assert.
  { apply Qle_bool_iff in Ha, Hd, Hr. now rewrite Ha, Hd, Hr. }
  apply r_assert.
  { apply Qle_bool_iff in Hs0, Hs1. now rewrite Hs0, Hs1. }
  eapply r_bind;
    [apply (r_with _ _ _ _ (split_returns attack s Hs Hl) (split_wf attack s Hs))|].
  intros segD a ((La & LD) & Wa & Fa & WD & FD & Lena).
  eapply r_on;
    [apply (r_with _ _ _ _ (split_returns decay segD WD LD) (split_wf decay segD WD))|].
  intros segS d ((Ld & LS) & Wd & Fd & WS & FS & Lend). cbv beta iota.
  pose proof (len_nonneg (frames a)). pose proof (len_nonneg (frames d)).
  pose proof (len_nonneg (frames segS)). pose proof (len_nonneg (frames segD)).
  assert (FsD : same_format s d) by apply (same_format_trans s segD d FD Fd).
  assert (FsS : same_format s segS) by apply (same_format_trans s segD segS FD FS).
  assert (Hsym : forall x y, same_format s x -> same_format s y ->
                   same_format x y).
  { unfold same_format. intuition congruence. }
  assert (Hrest : forall S1, wf S1 -> locked S1 = false ->
                    same_format s S1 -> len (frames S1) = len (frames segS) ->
    returns
      (Sdur <- lift (duration S1) ;;
       r <- on S1 (split (fsub Sdur release)) ;;
       (let '(segS0, segR) := r in
        (if Qltb 0 attack then fadein attack 0 else ret tt) ;;
        r0 <- (if Qltb 0 decay then on d (fadeout decay sustainlevel)
               else ret (d, tt)) ;;
        (let segD0 := fst r0 in
         r1 <- (if Qltb 0 release then on segR (fadeout release 0)
                else ret (segR, tt)) ;;
         (let segR0 := fst r1 in join segD0 ;; join segS0 ;; join segR0))))
      a (fun _ _ => True)).
  { intros S1 W1 L1 F1 Len1. destruct (duration_ok S1 W1) as [Sdur HSd].
    eapply r_lift; [exact HSd|].
    eapply r_on;
      [apply (r_with _ _ _ _ (split_returns _ S1 W1 L1) (split_wf _ S1 W1))|].
    intros segR S2 ((L2 & LR) & W2 & F2 & WR & FR' & Len2). cbv beta iota.
    pose proof (len_nonneg (frames S2)). pose proof (len_nonneg (frames segR)).
    assert (FsS2 : same_format s S2) by apply (same_format_trans s S1 S2 F1 F2).
    assert (FsR : same_format s segR) by apply (same_format_trans s S1 segR F1 FR').
    (* the three joins *)
    assert (Hjoin : forall a1 d1 r1,
              locked a1 = false -> wf a1 -> wf d1 -> wf r1 ->
              same_format s a1 -> same_format s d1 -> same_format s r1 ->
              returns (join d1 ;; join S2 ;; join r1) a1 (fun _ _ => True)).
    { intros a1 d1 r1 La1 Wa1 Wd1 Wr1 Fa1 Fd1 Fr1.
      eapply r_bind;
        [apply (r_with _ _ _ _ (join_returns d1 a1 La1 (Hsym _ _ Fa1 Fd1))
                       (join_wf d1 a1 Wa1 Wd1))|].
      intros [] j1 (Lj1 & Wj1 & Fj1 & _).
      assert (Fsj1 : same_format s j1) by apply (same_format_trans s a1 j1 Fa1 Fj1).
      eapply r_bind;
        [apply (r_with _ _ _ _ (join_returns S2 j1 Lj1 (Hsym _ _ Fsj1 FsS2))
                       (join_wf S2 j1 Wj1 W2))|].
      intros [] j2 (Lj2 & Wj2 & Fj2 & _).
      assert (Fsj2 : same_format s j2) by apply (same_format_trans s j1 j2 Fsj1 Fj2).
      eapply r_post;
        [apply (join_returns r1 j2 Lj2 (Hsym _ _ Fsj2 Fr1))|auto]. }
    (* the fade of the release segment *)
    assert (Hfr : forall a1 d1,
              locked a1 = false -> wf a1 -> wf d1 ->
              same_format s a1 -> same_format s d1 ->
              returns
                (r1 <- (if Qltb 0 release then on segR (fadeout release 0)
                        else ret (segR, tt)) ;;
                 (let segR0 := fst r1 in join d1 ;; join S2 ;; join segR0))
                a1 (fun _ _ => True)).
    { intros a1 d1 La1 Wa1 Wd1 Fa1 Fd1. destruct (Qltb 0 release).
      - eapply r_on.
        + apply (r_with _ _ _ _
                   (fadeout_returns release 0 segR WR LR (Hwid _ FsR)
                      ltac:(lia) ltac:(lra) ltac:(lra))
                   (fadeout_wf release 0 segR WR ltac:(lia))).
        + intros [] r1 (Lr1 & Wr1 & Fr1 & _). cbv zeta. cbn [fst].
          apply Hjoin; auto. apply (same_format_trans s segR r1 FsR Fr1).
      - apply r_ret_bind. cbv zeta. cbn [fst]. apply Hjoin; auto. }
    (* the fade of the decay segment *)
    assert (Hfd : forall a1, locked a1 = false -> wf a1 -> same_format s a1 ->
              returns
                (r0 <- (if Qltb 0 decay then on d (fadeout decay sustainlevel)
                        else ret (d, tt)) ;;
                 (let segD0 := fst r0 in
                  r1 <- (if Qltb 0 release then on segR (fadeout release 0)
                         else ret (segR, tt)) ;;
                  (let segR0 := fst r1 in join segD0 ;; join S2 ;; join segR0)))
                a1 (fun _ _ => True)).
    { intros a1 La1 Wa1 Fa1. destruct (Qltb 0 decay).
      - eapply r_on.
        + apply (r_with _ _ _ _
                   (fadeout_returns decay sustainlevel d Wd Ld (Hwid _ FsD)
                      ltac:(lia) Hs0 Hs1)
                   (fadeout_wf decay sustainlevel d Wd ltac:(lia))).
        + intros [] d1 (Ld1 & Wd1 & Fd1 & _). cbv zeta. cbn [fst].
          apply Hfr; auto. apply (same_format_trans s d d1 FsD Fd1).
      - apply r_ret_bind. cbv zeta. cbn [fst]. apply Hfr; auto. }
    destruct (Qltb 0 attack).
    - eapply r_bind.
      + apply (r_with _ _ _ _
                 (fadein_returns attack a Wa La (Hwid _ Fa) ltac:(lia))
                 (fadein_wf attack 0 a Wa ltac:(lia))).
      + intros [] a1 (La1 & Wa1 & Fa1 & _).
        apply Hfd; auto. apply (same_format_trans s a a1 Fa Fa1).
    - apply r_ret_bind. apply Hfd; auto. }
  destruct (Qltb sustainlevel 1).
  - eapply r_on;
      [apply (r_with _ _ _ _ (amplify_returns sustainlevel segS WS LS)
                     (amplify_wf sustainlevel segS WS))|].
    intros [] S1 (L1 & W1 & F1 & Len1). cbv zeta. cbn [fst].
    apply Hrest; auto. apply (same_format_trans s segS S1 FsS F1).
  - apply r_ret_bind. cbv zeta. cbn [fst]. apply Hrest; auto.
Qed.

End Envelope.


(** C7 (for every unlocked sample, [envelope] with [a + d + r] within the
    duration leaves the frame count as it was): on a 24-bit mono sample of
    two frames at 2 Hz, [envelope(0.5, 0, 1, 0)] raises [KeyError] in the
    fade of the attack segment, since the table of array type codes has no
    entry for width 3, and the sample is left cut to its attack segment of
    one frame. *)
Theorem envelope_breaks_on_24bit :
  let s := sample_of 3 2 1 [100; 100] in
  wf s /\ locked s = false /\
  Sample.length s = Ok 2 /\
  exists s',
    envelope (FR := exact) (1 # 2) 0 1 0 s = (s', Raise KeyError) /\
    Sample.length s' = Ok 1.
Proof.
  cbv zeta. split; [split; [repeat split; cbn; lia|reflexivity]|].
  split; [reflexivity|]. split; [reflexivity|].
  eexists. split; [vm_compute; reflexivity|reflexivity].
Qed.

End EnvelopeFacts.

(** ** Maximal amplification *)

Module PeakFacts.
Import Sample BytesFacts AudioopFacts CopyFacts LengthFacts RoundingFacts
       RoundingProper FadeFacts.
Local Open Scope method_scope.
Local Abbreviation length := List.length.

Lemma fold_max_ge_init (l : list Z) (a : Z) : a <= fold_left Z.max l a.
Proof.
  revert a. induction l as [|x t IH]; intros a; cbn [fold_left]; [lia|].
  specialize (IH (Z.max a x)). lia.
Qed.

Lemma fold_max_ge (l : list Z) (a x : Z) : In x l -> x <= fold_left Z.max l a.
Proof.
  revert a. induction l as [|y t IH]; intros a H; [destruct H|].
  cbn [fold_left]. destruct H as [E|H].
  - subst y. pose proof (fold_max_ge_init t (Z.max a x)). lia.
  - now apply IH.
Qed.

Lemma fold_max_in (l : list Z) (a : Z) :
  fold_left Z.max l a = a \/ In (fold_left Z.max l a) l.
Proof.
  revert a. induction l as [|y t IH]; intros a; cbn [fold_left]; [now left|].
  destruct (IH (Z.max a y)) as [E|H].
  - rewrite E. destruct (Z.max_spec a y) as [[_ ->]|[_ ->]];
      [right; now left|now left].
  - right. now right.
Qed.

Lemma peak_ge (vals : list Z) (v : Z) : In v vals -> Z.abs v <= peak vals.
Proof. intros H. unfold peak. apply fold_max_ge. now apply in_map. Qed.

Lemma peak_nonneg (vals : list Z) : 0 <= peak vals.
Proof. apply fold_max_ge_init. Qed.

Lemma peak_in (vals : list Z) :
  0 < peak vals -> exists v, In v vals /\ Z.abs v = peak vals.
Proof.
  intros H. unfold peak in *.
  destruct (fold_max_in (map Z.abs vals) 0) as [E|Hin]; [lia|].
  apply in_map_iff in Hin as (v & Ev & Hv). eauto.
Qed.

Lemma peak_le (vals : list Z) (b : Z) :
  0 <= b -> (forall v, In v vals -> Z.abs v <= b) -> peak vals <= b.
Proof.
  intros Hb H. unfold peak.
  destruct (fold_max_in (map Z.abs vals) 0) as [E|Hin]; [lia|].
  apply in_map_iff in Hin as (v & <- & Hv). now apply H.
Qed.

Lemma max_ok (frag : list byte) (w : Z) :
  1 <= w <= 4 -> len frag mod w = 0 ->
  audioop.max frag w = Ok (peak (audioop.samples w frag)).
Proof.
  intros Hw Hn. unfold audioop.max.
  rewrite check_parameters_ok by assumption. reflexivity.
Qed.

Section Peak.
Context {FR : Rounding} {SM : StandardModel FR}.

(** The float factor [T / m] times [m] is within 1 of [T]. *)
Lemma factor_bounds (T m : Z) :
  1 <= T <= 2 ^ 31 -> 1 <= m <= 2 ^ 31 ->
  let f := fdiv (inject_Z T) (inject_Z m) in
  (inject_Z (T - 1) <= inject_Z m * f)%Q /\
  (inject_Z m * f <= inject_Z (T + 1))%Q.
Proof.
  intros HT Hm f.
  pose proof (inject_Z_pos m ltac:(lia)) as Mpos.
  pose proof (inject_Z_pos T ltac:(lia)) as Tpos.
  set (x := (inject_Z T / inject_Z m)%Q).
  assert (Hx : (inject_Z m * x == inject_Z T)%Q).
  { unfold x. field. intros E. rewrite E in Mpos. now apply Qlt_irrefl in Mpos. }
  assert (Xpos : (0 < x)%Q).
  { unfold x. apply Qlt_shift_div_l; [exact Mpos|]. now rewrite Qmult_0_l. }
  assert (HT31 : (inject_Z T <= inject_Z (2 ^ 31))%Q) by (rewrite <- Zle_Qle; lia).
  assert (Hm31 : (inject_Z m <= inject_Z (2 ^ 31))%Q) by (rewrite <- Zle_Qle; lia).
  assert (HT1 : (1 <= inject_Z T)%Q).
  { change 1%Q with (inject_Z 1). rewrite <- Zle_Qle. lia. }
  assert (Hm1 : (1 <= inject_Z m)%Q).
  { change 1%Q with (inject_Z 1). rewrite <- Zle_Qle. lia. }
  assert (Habs : Qabs x == x) by (apply Qabs_pos; lra).
  assert (Hlo : (tiny <= Qabs x)%Q).
  { rewrite Habs. unfold x. apply Qle_shift_div_l; [exact Mpos|].
    assert (tiny * inject_Z (2 ^ 31) <= 1)%Q by (vm_compute; discriminate).
    assert (0 <= tiny)%Q by (vm_compute; discriminate).
    nra. }
  assert (Hhi : (Qabs x <= huge)%Q).
  { rewrite Habs. unfold x. apply Qle_shift_div_r; [exact Mpos|].
    assert (inject_Z (2 ^ 31) <= huge)%Q by (vm_compute; discriminate).
    assert (0 <= huge)%Q by (vm_compute; discriminate).
    nra. }
  pose proof (rnd_err x Hlo Hhi) as He.
  rewrite Habs in He. apply Qabs_diff_Qle_condition in He.
  destruct He as [He1 He2].
  assert (Heps : (inject_Z (2 ^ 31) * eps <= 1)%Q) by (vm_compute; discriminate).
  assert (Heps0 : (0 <= eps)%Q) by (vm_compute; discriminate).
  assert (Hxe : (inject_Z m * (x * eps) <= 1)%Q).
  { rewrite Qmult_assoc, Hx. nra. }
  assert (A1 : (inject_Z m * (rnd x - x * eps) <= inject_Z m * x)%Q).
  { apply Qmult_le_l; assumption. }
  assert (A2 : (inject_Z m * x <= inject_Z m * (rnd x + x * eps))%Q).
  { apply Qmult_le_l; assumption. }
  rewrite Hx in A1, A2.
  unfold Z.sub. rewrite !inject_Z_plus.
  change (inject_Z (- (1))) with (- (1))%Q. change (inject_Z 1) with 1%Q.
  subst f. unfold fdiv. fold x.
  split; nra.
Qed.

Lemma pow_bounds (w : Z) :
  1 <= w <= 4 -> 2 ^ 7 <= 2 ^ (8 * w - 1) <= 2 ^ 31.
Proof. intros H. split; apply Z.pow_le_mono_r; lia. Qed.

(** One value through [mul] by a factor [f] with [m * f] within 1 of
    [T = maxval - 1]: it stays within [maxval], and a value of magnitude [m]
    lands within 1 of [T]. *)
Lemma scaled_value_bounds (w m v : Z) (f : Q) :
  1 <= w <= 4 -> 1 <= m -> Z.abs v <= m ->
  (inject_Z (audioop.maxval w - 2) <= inject_Z m * f)%Q ->
  (inject_Z m * f <= inject_Z (audioop.maxval w))%Q ->
  let v' := audioop.fbound (fmul (inject_Z v) f)
                           (audioop.minval w) (audioop.maxval w) in
  Z.abs v' <= audioop.maxval w /\
  (Z.abs v = m -> audioop.maxval w - 2 <= Z.abs v').
Proof.
  intros Hw Hm Hv Hlo Hhi v'.
  pose proof (pow_bounds w Hw) as Hp.
  pose proof (range_bounds w ltac:(lia)) as (_ & _ & Hmax & _).
  set (M := audioop.maxval w) in *.
  assert (HM : 2 ^ 7 - 1 <= M <= 2 ^ 31)
    by (unfold M, audioop.maxval; lia).
  assert (HM53 : 2 ^ 31 <= 2 ^ 53) by (apply Z.pow_le_mono_r; lia).
  assert (Emin : audioop.minval w = - M - 1) by lia.
  pose proof (inject_Z_pos m ltac:(lia)) as Mpos.
  assert (HM2 : (0 <= inject_Z (M - 2))%Q) by (apply inject_Z_nonneg; lia).
  assert (Hf0 : (0 <= f)%Q) by nra.
  assert (Hvm : (inject_Z v <= inject_Z m)%Q) by (rewrite <- Zle_Qle; lia).
  assert (Hvm' : (- inject_Z m <= inject_Z v)%Q).
  { rewrite <- inject_Z_opp, <- Zle_Qle. lia. }
  assert (Hup : (inject_Z v * f <= inject_Z M)%Q) by nra.
  assert (Hdn : (inject_Z (- M) <= inject_Z v * f)%Q).
  { rewrite inject_Z_opp. nra. }
  assert (Rup : (fmul (inject_Z v) f <= inject_Z M)%Q).
  { unfold fmul. apply rnd_le_int; [lia|exact Hup]. }
  assert (Rdn : (inject_Z (- M) <= fmul (inject_Z v) f)%Q).
  { unfold fmul. apply rnd_ge_int; [lia|exact Hdn]. }
  assert (Ev : v' = Qfloor (fmul (inject_Z v) f)).
  { unfold v', audioop.fbound, Qltb.
    assert (B1 : Qle_bool (fmul (inject_Z v) f) (inject_Z M) = true)
      by (now apply Qle_bool_iff).
    rewrite B1. cbn [negb].
    assert (B2 : Qle_bool (inject_Z (audioop.minval w) + 1)
                          (fmul (inject_Z v) f) = true).
    { apply Qle_bool_iff. rewrite Emin.
      replace (- M - 1) with (- M + - 1) by lia.
      rewrite inject_Z_plus. change (inject_Z (-1)) with (- (1))%Q. lra. }
    rewrite B2. reflexivity. }
  pose proof (Qfloor_resp_le _ _ Rup) as F1. rewrite Qfloor_Z in F1.
  pose proof (Qfloor_resp_le _ _ Rdn) as F2. rewrite Qfloor_Z in F2.
  rewrite <- Ev in F1, F2.
  split; [lia|].
  intros Habs. destruct (Z.abs_spec v) as [[Hv0 Ea]|[Hv0 Ea]].
  - assert (v = m) by lia. subst v.
    assert (R : (inject_Z (M - 2) <= fmul (inject_Z m) f)%Q).
    { unfold fmul. apply rnd_ge_int; [lia|exact Hlo]. }
    apply Qfloor_resp_le in R. rewrite Qfloor_Z, <- Ev in R. lia.
  - assert (Evm : v = - m) by lia.
    assert (R : (fmul (inject_Z v) f <= inject_Z (- (M - 2)))%Q).
    { unfold fmul. apply rnd_le_int; [lia|].
      rewrite Evm, !inject_Z_opp. nra. }
    apply Qfloor_resp_le in R. rewrite Qfloor_Z, <- Ev in R. lia.
Qed.

Lemma values_abs_bound (w : Z) (frag : list byte) (v : Z) :
  1 <= w <= 4 -> In v (audioop.samples w frag) -> Z.abs v <= 2 ^ (8 * w - 1).
Proof.
  intros Hw Hin.
  pose proof (samples_in_range w frag ltac:(lia)) as Hr.
  rewrite Forall_forall in Hr. specialize (Hr v Hin).
  unfold in_range, audioop.minval, audioop.maxval in Hr. lia.
Qed.

(** C6 ([amplify_max] brings the peak of a sample that is not silent to the
    largest sample value less a small margin, never beyond the sample range,
    and leaves a silent sample as it is): the call goes through; when the
    peak was not 0 the new peak lies between [maxval - 2] and [maxval], the
    largest value of the width (the target is [maxval - 1], and the rounding
    of the factor moves the result by at most 1 either way); when the peak
    was 0 the sample is unchanged. *)
Theorem amplify_max_peak (s : Sample.t) :
  locked s = false -> 1 <= samplewidth s <= 4 ->
  len (frames s) mod samplewidth s = 0 ->
  (0 < peak (values s) ->
   exists s',
     amplify_max s = (s', Ok tt) /\
     same_format s s' /\
     length (values s') = length (values s) /\
     maximum s' = Ok (peak (values s')) /\
     audioop.maxval (samplewidth s) - 2 <= peak (values s')
       <= audioop.maxval (samplewidth s)) /\
  (peak (values s) = 0 -> amplify_max s = (s, Ok tt)).
Proof.
  intros Hl Hw Hn. set (w := samplewidth s) in *.
  pose proof (pow_bounds w Hw) as Hp.
  assert (Emax : audioop.max (frames s) w = Ok (peak (values s))).
  { now apply max_ok. }
  split.
  - intros Hpos.
    set (m := peak (values s)) in *.
    set (f := fdiv (inject_Z (2 ^ (8 * w - 1) - 2)) (inject_Z m)).
    set (g := fun v => audioop.fbound (fmul (inject_Z v) f)
                                      (audioop.minval w) (audioop.maxval w)).
    assert (Hm : m <= 2 ^ 31).
    { unfold m. apply Z.le_trans with (2 ^ (8 * w - 1)); [|lia].
      apply peak_le; [lia|]. intros v Hv. now apply (values_abs_bound w (frames s)). }
    destruct (factor_bounds (2 ^ (8 * w - 1) - 2) m ltac:(lia) ltac:(lia))
      as [Flo Fhi]. fold f in Flo, Fhi.
    assert (EM : audioop.maxval w = 2 ^ (8 * w - 1) - 1) by reflexivity.
    assert (Hg : forall v, In v (values s) ->
                   Z.abs (g v) <= audioop.maxval w /\
                   (Z.abs v = m -> audioop.maxval w - 2 <= Z.abs (g v))).
    { intros v Hv. apply scaled_value_bounds; try lia.
      - now apply peak_ge.
      - rewrite EM. replace (2 ^ (8 * w - 1) - 1 - 2)
          with (2 ^ (8 * w - 1) - 2 - 1) by lia. exact Flo.
      - rewrite EM. replace (2 ^ (8 * w - 1) - 1)
          with (2 ^ (8 * w - 1) - 2 + 1) by lia. exact Fhi. }
    assert (Hrange : Forall (in_range w) (map g (values s))).
    { apply Forall_forall. intros v' Hin.
      apply in_map_iff in Hin as (v & <- & Hv).
      destruct (Hg v Hv) as [B _].
      pose proof (range_bounds w ltac:(lia)). unfold in_range. lia. }
    exists (with_frames (audioop.frombuf w (map g (values s))) s).
    assert (Ev : values (with_frames (audioop.frombuf w (map g (values s))) s)
                 = map g (values s)).
    { unfold values at 1. cbn [with_frames frames samplewidth]. fold w.
      apply samples_frombuf; [lia|exact Hrange]. }
    assert (Elen : len (audioop.frombuf w (map g (values s))) = len (frames s)).
    { rewrite len_frombuf, len_map by lia. unfold values. fold w.
      apply len_samples_mul; lia. }
    split; [|split; [repeat split|split; [|split; [|split]]]].
    + unfold amplify_max, bind, get, lift, modify, assert_unlocked.
      rewrite Hl. fold w. rewrite Emax. fold m.
      destruct (Z.ltb_spec 0 m); [|lia].
      unfold audioop.mul. rewrite check_parameters_ok by assumption.
      reflexivity.
    + rewrite Ev. apply length_map.
    + unfold maximum. cbn [with_frames frames samplewidth]. fold w.
      rewrite max_ok; [|lia|now rewrite Elen].
      f_equal.
    + rewrite Ev.
      destruct (peak_in (values s) Hpos) as (v & Hv & Eabs).
      destruct (Hg v Hv) as [_ B]. specialize (B Eabs).
      apply Z.le_trans with (Z.abs (g v)); [exact B|].
      apply peak_ge. now apply in_map.
    + rewrite Ev. apply peak_le.
      * pose proof (range_bounds w ltac:(lia)). lia.
      * intros v' Hin. apply in_map_iff in Hin as (v & <- & Hv).
        now apply Hg.
  - intros Hz.
    unfold amplify_max, bind, get, lift, modify, assert_unlocked, ret.
    rewrite Hl. fold w. rewrite Emax, Hz. reflexivity.
Qed.

End Peak.

Lemma amplify_max_peak_witness :
  let s := sample_of 2 44100 1 [100; -7; 3] in
  (0 < peak (values s) ->
   exists s',
     amplify_max (FR := exact) s = (s', Ok tt) /\
     same_format s s' /\
     length (values s') = length (values s) /\
     maximum s' = Ok (peak (values s')) /\
     audioop.maxval (samplewidth s) - 2 <= peak (values s')
       <= audioop.maxval (samplewidth s)) /\
  (peak (values s) = 0 -> amplify_max (FR := exact) s = (s, Ok tt)).
Proof.
  cbv zeta.
  apply (amplify_max_peak (FR := exact) (SM := exact_standard)
           (sample_of 2 44100 1 [100; -7; 3])).
  - reflexivity.
  - vm_compute. split; discriminate.
  - reflexivity.
Defined.



End PeakFacts.

(** ** The level meter *)

Module MeterFacts.
Import BytesFacts AudioopFacts CopyFacts LengthFacts RoundingFacts
       RoundingProper FadeFacts PeakFacts.
Import LevelMeter.

Lemma peak_silent (vals : list Z) : Forall (fun v => v = 0) vals -> peak vals = 0.
Proof.
  intros H. pose proof (peak_nonneg vals).
  assert (peak vals <= 0); [|lia].
  apply peak_le; [lia|]. intros v Hv.
  rewrite Forall_forall in H. rewrite (H v Hv). reflexivity.
Qed.


Lemma pymax_r (a b : Q) : (a <= b)%Q -> (pymax a b == b)%Q.
Proof.
  intros H. unfold pymax, Qltb.
  destruct (Qle_bool b a) eqn:E; cbn [negb]; [|reflexivity].
  apply Qle_bool_iff in E. now apply Qle_antisym.
Qed.

Section Meter.
Context {FR : Rounding} {SM : StandardModel FR}.
Variable log10 : Q -> Q.
Hypothesis log10_small :
  forall x, (0 < x)%Q -> (x <= 1 # 10000)%Q -> (log10 x <= -3)%Q.
Variable sqrt : Q -> Q.
Hypothesis sqrt_zero : forall x, (x == 0)%Q -> (sqrt x == 0)%Q.

(** The squares of a silent fragment sum to 0, in floats too. *)
Lemma squares_silent (vals : list Z) (acc : Q) :
  Forall (fun v => v = 0) vals -> (acc == 0)%Q ->
  (fold_left (fun acc v => fadd acc (fmul (inject_Z v) (inject_Z v))) vals acc
   == 0)%Q.
Proof.
  intros H. revert acc.
  induction H as [|v t Hv _ IH]; intros acc Ha; cbn [fold_left]; [exact Ha|].
  apply IH. subst v. unfold fadd, fmul.
  assert (E : (rnd (inject_Z 0 * inject_Z 0) == 0)%Q).
  { transitivity (rnd 0); [|apply rnd_zero]. apply rnd_proper. reflexivity. }
  transitivity (rnd 0); [|apply rnd_zero].
  apply rnd_proper. rewrite Ha, E. reflexivity.
Qed.

Lemma fbound_zero (x : Q) (w : Z) :
  1 <= w -> (x == 0)%Q ->
  audioop.fbound x (audioop.minval w) (audioop.maxval w) = 0.
Proof.
  intros Hw E. pose proof (range_bounds w Hw) as (Hmin & Hmax & _).
  unfold audioop.fbound, Qltb.
  assert (B1 : Qle_bool x (inject_Z (audioop.maxval w)) = true).
  { apply Qle_bool_iff. rewrite E. apply inject_Z_nonneg. lia. }
  rewrite B1. cbn [negb].
  assert (B2 : Qle_bool (inject_Z (audioop.minval w) + 1) x = true).
  { apply Qle_bool_iff. rewrite E.
    change 1%Q with (inject_Z 1). rewrite <- inject_Z_plus.
    change 0%Q with (inject_Z 0). rewrite <- Zle_Qle. lia. }
  rewrite B2. cbn [negb]. rewrite (Qfloor_comp _ _ E). reflexivity.
Qed.

(** The level of silence, in dB, is the cut-off of -60. *)
Lemma cut_silent (w : Z) :
  2 <= w <= 4 ->
  (pymax (fmul 20 (log10 (fdiv (inject_Z (0 + 1)) (inject_Z (2 ^ (8 * w - 1))))))
         (-60) == -60)%Q.
Proof.
  intros Hw. apply pymax_r.
  set (x := (inject_Z (0 + 1) / inject_Z (2 ^ (8 * w - 1)))%Q).
  assert (Hpow : 2 ^ 15 <= 2 ^ (8 * w - 1) <= 2 ^ 31).
  { split; apply Z.pow_le_mono_r; lia. }
  pose proof (inject_Z_pos (2 ^ (8 * w - 1)) ltac:(lia)) as Ppos.
  assert (P15 : (inject_Z (2 ^ 15) <= inject_Z (2 ^ (8 * w - 1)))%Q)
    by (rewrite <- Zle_Qle; lia).
  assert (P31 : (inject_Z (2 ^ (8 * w - 1)) <= inject_Z (2 ^ 31))%Q)
    by (rewrite <- Zle_Qle; lia).
  assert (Xpos : (0 < x)%Q).
  { unfold x. apply Qlt_shift_div_l; [exact Ppos|]. rewrite Qmult_0_l. reflexivity. }
  assert (Xhi : (x <= 1 / inject_Z (2 ^ 15))%Q).
  { unfold x. change (inject_Z (0 + 1)) with 1%Q.
    apply Qle_shift_div_r; [exact Ppos|].
    assert (0 < inject_Z (2 ^ 15))%Q by reflexivity.
    assert (E : (1 / inject_Z (2 ^ 15) * inject_Z (2 ^ 15) == 1)%Q)
      by reflexivity.
    assert (0 <= 1 / inject_Z (2 ^ 15))%Q by (vm_compute; discriminate).
    nra. }
  assert (Xlo : (1 / inject_Z (2 ^ 31) <= x)%Q).
  { unfold x. change (inject_Z (0 + 1)) with 1%Q.
    apply Qle_shift_div_l; [exact Ppos|].
    assert (E : (1 / inject_Z (2 ^ 31) * inject_Z (2 ^ 31) == 1)%Q)
      by reflexivity.
    assert (0 <= 1 / inject_Z (2 ^ 31))%Q by (vm_compute; discriminate).
    nra. }
  assert (Habs : (Qabs x == x)%Q) by (apply Qabs_pos; lra).
  assert (Hlo : (tiny <= Qabs x)%Q).
  { rewrite Habs. apply Qle_trans with (1 / inject_Z (2 ^ 31))%Q; [|exact Xlo].
    vm_compute. discriminate. }
  assert (Hhi : (Qabs x <= huge)%Q).
  { rewrite Habs. apply Qle_trans with (1 / inject_Z (2 ^ 15))%Q; [exact Xhi|].
    vm_compute. discriminate. }
  pose proof (rnd_err x Hlo Hhi) as He. rewrite Habs in He.
  apply Qabs_diff_Qle_condition in He. destruct He as [He1 He2].
  assert (Heps : (0 <= eps)%Q /\ (eps <= 1 # 2)%Q)
    by (split; vm_compute; discriminate).
  assert (H15 : (1 / inject_Z (2 ^ 15) * 2 <= 1 # 10000)%Q)
    by (vm_compute; discriminate).
  assert (Rpos : (0 < rnd x)%Q) by nra.
  assert (Rhi : (rnd x <= 1 # 10000)%Q) by nra.
  pose proof (log10_small (rnd x) Rpos Rhi) as HL.
  unfold fmul, fdiv. fold x.
  apply (rnd_le_int _ (-60)); [vm_compute; discriminate|].
  change (inject_Z (-60)) with (-60)%Q. lra.
Qed.

Lemma silent_pair (l r : Z) (lf rf : Q) (w : Z) :
  1 <= w -> l = 0 -> r = 0 ->
  audioop.fbound (fadd (fmul (inject_Z l) lf) (fmul (inject_Z r) rf))
                 (audioop.minval w) (audioop.maxval w) = 0.
Proof.
  intros Hw -> ->. apply fbound_zero; [exact Hw|].
  assert (E : forall f, (fmul (inject_Z 0) f == 0)%Q).
  { intros f. unfold fmul. transitivity (rnd 0); [|apply rnd_zero].
    apply rnd_proper. change (inject_Z 0) with 0%Q. ring. }
  rewrite !E. unfold fadd. transitivity (rnd 0); [|apply rnd_zero].
  apply rnd_proper. ring.
Qed.

Lemma frames_lr_silent (n : nat) (vals : list Z) :
  (List.length vals <= n)%nat -> Forall (fun v => v = 0) vals ->
  Forall (fun p => fst p = 0 /\ snd p = 0) (audioop.frames_lr vals).
Proof.
  revert vals. induction n as [|n IH]; intros vals Hn H.
  - destruct vals; [constructor | cbn in Hn; lia].
  - destruct vals as [|l [|r t]]; cbn [audioop.frames_lr]; try constructor.
    + inversion H as [|? ? Hl Ht]; subst. inversion Ht; subst. now split.
    + apply IH.
      * cbn in Hn. lia.
      * inversion H as [|? ? Hl Ht]; subst. now inversion Ht.
Qed.

(** Either channel of a silent stereo fragment is silent. *)
Lemma tomono_silent (frag : list byte) (w : Z) (lf rf : Q) :
  1 <= w <= 4 -> len frag mod (w * 2) = 0 ->
  Forall (fun v => v = 0) (audioop.samples w frag) ->
  exists mono,
    audioop.tomono frag w lf rf = Ok mono /\
    len mono mod w = 0 /\
    Forall (fun v => v = 0) (audioop.samples w mono).
Proof.
  intros Hw Hn Hs.
  apply Z.mod_divide in Hn; [|lia]. destruct Hn as [k Hk].
  assert (Hmod : len frag mod w = 0).
  { rewrite Hk. replace (k * (w * 2)) with (k * 2 * w) by lia.
    apply Z_mod_mult. }
  assert (Hdiv : (len frag / w) mod 2 = 0).
  { rewrite Hk. replace (k * (w * 2)) with (k * 2 * w) by lia.
    rewrite Z.div_mul by lia. apply Z_mod_mult. }
  unfold audioop.tomono. rewrite check_parameters_ok by assumption.
  cbn [rbind]. rewrite Hdiv. cbn [Z.eqb].
  set (out := map _ (audioop.frames_lr (audioop.samples w frag))).
  assert (Hout : Forall (fun v => v = 0) out).
  { unfold out. apply Forall_map.
    eapply Forall_impl;
      [|apply (frames_lr_silent _ _ (le_n _) Hs)].
    intros [l r] [Hl Hr]. cbn [fst snd] in *. now apply silent_pair. }
  exists (audioop.frombuf w out). split; [reflexivity|]. split.
  - rewrite len_frombuf by lia. rewrite Z.mul_comm. apply Z_mod_mult.
  - rewrite samples_frombuf; [exact Hout|lia|].
    eapply Forall_impl; [|exact Hout].
    intros v ->. pose proof (range_bounds w ltac:(lia)).
    unfold in_range. lia.
Qed.

(** Both measures of a silent fragment are 0. *)
Lemma measure_silent (rms_mode : bool) (frag : list byte) (w : Z) :
  1 <= w <= 4 -> len frag mod w = 0 ->
  Forall (fun v => v = 0) (audioop.samples w frag) ->
  (if rms_mode then audioop.rms sqrt frag w else audioop.max frag w) = Ok 0.
Proof.
  intros Hw Hn Hs. destruct rms_mode.
  - unfold audioop.rms. rewrite check_parameters_ok by assumption.
    cbn [rbind]. destruct (len frag =? 0); [reflexivity|].
    f_equal. unfold audioop.sum_squares.
    pose proof (squares_silent (audioop.samples w frag) 0 Hs (Qeq_refl 0)) as E.
    set (total := fold_left _ _ _) in *.
    assert (Ed : (fdiv total (inject_Z (len frag / w)) == 0)%Q).
    { unfold fdiv. transitivity (rnd 0); [|apply rnd_zero].
      apply rnd_proper. rewrite E. unfold Qdiv. ring. }
    apply Qtrunc_zero, sqrt_zero, Ed.
  - rewrite max_ok by assumption. now rewrite peak_silent.
Qed.

(** The level of a silent sample is -60 dB on both channels. *)
Lemma db_level_silent (rms_mode : bool) (s : Sample.t) :
  wf s -> silent s ->
  exists l r,
    db_level log10 sqrt rms_mode s = Ok (l, r) /\ (l == -60)%Q /\ (r == -60)%Q.
Proof.
  intros [(Hw & Hc & Hr) Ha] Hs. unfold aligned in Ha. unfold silent, values in Hs.
  set (w := Sample.samplewidth s) in *.
  assert (Hw' : 1 <= w <= 4) by lia.
  unfold db_level. fold w.
  destruct (Sample.nchannels s =? 1) eqn:E.
  - apply Z.eqb_eq in E. rewrite E, Z.mul_1_r in Ha.
    rewrite (measure_silent rms_mode _ _ Hw' Ha Hs). cbn [rbind].
    eexists _, _. split; [reflexivity|]. split; now apply cut_silent.
  - apply Z.eqb_neq in E.
    assert (E2 : Sample.nchannels s = 2) by lia. rewrite E2 in Ha.
    destruct (tomono_silent _ w 1 0 Hw' Ha Hs) as (fl & El & Nl & Sl).
    destruct (tomono_silent _ w 0 1 Hw' Ha Hs) as (fr & Er & Nr & Sr).
    rewrite El. cbn [rbind]. rewrite Er. cbn [rbind].
    rewrite (measure_silent rms_mode _ _ Hw' Nl Sl). cbn [rbind].
    rewrite (measure_silent rms_mode _ _ Hw' Nr Sr). cbn [rbind].
    eexists _, _. split; [reflexivity|]. split; now apply cut_silent.
Qed.

Lemma duration_returns (s : Sample.t) :
  wf s -> exists dur, Sample.duration s = Ok dur.
Proof.
  intros [(Hw & Hc & Hr) _]. unfold Sample.duration.
  replace (Sample.samplerate s =? 0) with false by (symmetry; apply Z.eqb_neq; lia).
  replace (Sample.samplewidth s =? 0) with false by (symmetry; apply Z.eqb_neq; lia).
  replace (Sample.nchannels s =? 0) with false by (symmetry; apply Z.eqb_neq; lia).
  cbn [orb]. eexists. reflexivity.
Qed.

(** One channel's peak update when the level is the floor. *)
Lemma update_peak_floor (level lowest peak hold time dur : Q) :
  (level == lowest)%Q -> (lowest <= peak)%Q ->
  (fst (update_peak level peak hold time dur)
   == held_peak lowest peak hold time dur)%Q /\
  (lowest <= fst (update_peak level peak hold time dur))%Q /\
  snd (update_peak level peak hold time dur)
  = held_since lowest peak hold time dur.
Proof.
  intros El Hp. unfold update_peak, held_peak, held_since, elapsed.
  destruct (Qltb (rnd (4 # 10)) (fsub time hold)).
  - rewrite (Qleb_comp _ _ (Qeq_refl (fsub peak (fmul dur 30))) _ _ El).
    destruct (Qle_bool (fsub peak (fmul dur 30)) lowest) eqn:E; cbn [fst snd].
    + split; [exact El | split; [rewrite El; apply Qle_refl | reflexivity]].
    + split; [reflexivity|]. split; [|reflexivity].
      destruct (Qlt_le_dec lowest (fsub peak (fmul dur 30))) as [H|H].
      * now apply Qlt_le_weak.
      * apply Qle_bool_iff in H. congruence.
  - rewrite (Qleb_comp _ _ (Qeq_refl peak) _ _ El).
    destruct (Qle_bool peak lowest) eqn:E; cbn [fst snd].
    + apply Qle_bool_iff in E.
      split; [rewrite El; now apply Qle_antisym|].
      split; [rewrite El; apply Qle_refl | reflexivity].
    + split; [reflexivity | split; [exact Hp | reflexivity]].
Qed.

(** One call of [process] on a silent fragment. *)
Lemma process_silent (m : LevelMeter.t) (s : Sample.t) :
  wf s -> silent s -> meter_ok m ->
  exists r,
    snd (process log10 sqrt s m) = Ok r /\
    silent_step log10 sqrt m s r /\
    meter_ok (fst (process log10 sqrt s m)).
Proof.
  intros Hwf Hs (Hlow & Hpl & Hpr).
  destruct (db_level_silent (_rms m) s Hwf Hs) as (l & r & El & Hl & Hr).
  destruct (duration_returns s Hwf) as [dur Ed].
  assert (Ll : (pymax l (_lowest m) == _lowest m)%Q)
    by (apply pymax_r; now rewrite Hl).
  assert (Lr : (pymax r (_lowest m) == _lowest m)%Q)
    by (apply pymax_r; now rewrite Hr).
  pose proof (update_peak_floor _ _ _ (_peak_left_hold m)
                (fadd (_time m) dur) dur Ll Hpl) as (Ul & Vl & Sl).
  pose proof (update_peak_floor _ _ _ (_peak_right_hold m)
                (fadd (_time m) dur) dur Lr Hpr) as (Ur & Vr & Sr).
  unfold silent_step, process. rewrite El, Ed. cbn [fst snd].
  destruct (update_peak (pymax l (_lowest m)) (peak_left m)
              (_peak_left_hold m) (fadd (_time m) dur) dur) as [pl hl].
  destruct (update_peak (pymax r (_lowest m)) (peak_right m)
              (_peak_right_hold m) (fadd (_time m) dur) dur) as [pr hr].
  cbn [fst snd] in *.
  eexists. split; [reflexivity|]. split.
  - exists dur.
    cbn [level_left level_right peak_left peak_right _time _lowest _rms
         _peak_left_hold _peak_right_hold].
    repeat split; assumption || reflexivity.
  - unfold meter_ok. cbn [peak_left peak_right _lowest]. repeat split; assumption.
Qed.

(** C5 ([LevelMeter.process] on consecutive silent fragments): every call
    returns, with the tuple (level left, peak left, level right, peak
    right); both levels are the floor [lowest]; a held peak stays as it is
    until more than 0.4 seconds have passed since it was set, then comes down
    by 30 times the fragment's duration at each call, and is set to the floor
    when that would bring it to the floor or below.  The time since which a
    peak is held is the end of the fragment that brought it to the floor, and
    is otherwise the time it was, so that the 0.4 seconds count from the last
    update of the peak.  The logarithm is any function that is at most -3 on
    (0, 1/10000], the square root any function that is 0 at 0. *)
Theorem process_on_silence (samples : list Sample.t) (m : LevelMeter.t) :
  Forall wf samples -> Forall silent samples -> meter_ok m ->
  exists results,
    snd (process_all log10 sqrt samples m) = Ok results /\
    silent_run log10 sqrt m samples results.
Proof.
  revert m. induction samples as [|s rest IH]; intros m Hwf Hs Hm.
  - exists []. split; [reflexivity | exact I].
  - inversion Hwf as [|? ? Hwf1 Hwf2]; subst.
    inversion Hs as [|? ? Hs1 Hs2]; subst.
    destruct (process_silent m s Hwf1 Hs1 Hm) as (r & Er & Hstep & Hm').
    destruct (IH _ Hwf2 Hs2 Hm') as (rs & Ers & Hrun).
    exists (r :: rs). cbn [process_all silent_run].
    split; [|split; assumption].
    destruct (process log10 sqrt s m) as [m1 res]. cbn [fst snd] in *. subst res.
    destruct (process_all log10 sqrt rest m1) as [m2 res2]. cbn [snd] in Ers.
    subst res2. reflexivity.
Qed.

End Meter.

(** Four fragments of a quarter of a second, mono and stereo, on a meter in
    rms mode whose peaks stand at -50 and -10: the left peak is held at
    0.25 s, comes down at 0.5 s and reaches the floor at 0.75 s, where its
    hold time is set anew; the right peak comes down from 0.5 s on with its
    hold time left at 0. *)
Lemma process_on_silence_witness :
  let log10 := fun x : Q => if Qle_bool x (1 # 10000) then (-3)%Q else 0%Q in
  let quarter := sample_of 2 4 1 [0] in
  let samples := [quarter; sample_of 2 4 2 [0; 0]; quarter; quarter] in
  let m := mkMeter true (-60) (-50) (-10) 0 0 0 0 0 in
  exists results,
    snd (process_all (FR := binary64) log10 sqrt64 samples m) = Ok results /\
    silent_run (FR := binary64) log10 sqrt64 m samples results.
Proof.
  cbv zeta.
  apply (process_on_silence (FR := binary64) (SM := Binary64Facts.binary64_standard)
           (fun x : Q => if Qle_bool x (1 # 10000) then (-3)%Q else 0%Q)).
  - intros x _ Hx. apply Qle_bool_iff in Hx. rewrite Hx. apply Qle_refl.
  - intros x Hx. unfold sqrt64.
    replace (Qle_bool x 0) with true; [reflexivity|].
    symmetry. apply Qle_bool_iff. rewrite Hx. apply Qle_refl.
  - repeat constructor; vm_compute; discriminate.
  - repeat constructor.
  - repeat split; vm_compute; discriminate.
Defined.

End MeterFacts.

(** ** Sample values and their bytes *)

Module ValueFacts.
Import Sample BytesFacts AudioopFacts CopyFacts LengthFacts RoundingFacts.
Local Open Scope method_scope.
Local Abbreviation length := List.length.

(** Reduction of the projections of a sample state. *)
Ltac simpl_state :=
  cbn [locked samplewidth samplerate nchannels frames filename
       with_frames with_nchannels with_samplewidth with_samplerate with_locked
       fst snd negb rbind].

(** The same, with the lock flag and the facts [Hs] about the receiver
    rewritten as they come up. *)
Ltac run_unlocked Hl :=
  repeat first [rewrite Hl | progress simpl_state].

Lemma le_bytes_le_unsigned (bs : list byte) :
  le_bytes (length bs) (le_unsigned bs) = bs.
Proof.
  induction bs as [|b t IH]; [reflexivity|].
  cbn [length le_bytes le_unsigned].
  pose proof (byte_to_Z_range b) as Hb.
  f_equal.
  - unfold byte_of_Z.
    replace ((byte_to_Z b + 256 * le_unsigned t) mod 256) with (byte_to_Z b).
    + fold (byte_of_Z (byte_to_Z b)).
      rewrite <- (byte_of_to_Z b) at 2. unfold byte_of_Z.
      now rewrite Z.mod_small by lia.
    + rewrite Z.mul_comm, Z.mod_add by lia. now rewrite Z.mod_small by lia.
  - replace ((byte_to_Z b + 256 * le_unsigned t) / 256) with (le_unsigned t);
      [exact IH|].
    rewrite Z.mul_comm, Z.div_add by lia. rewrite Z.div_small by lia. lia.
Qed.

Lemma byte_of_Z_add (v k : Z) : byte_of_Z (v + k * 256) = byte_of_Z v.
Proof. unfold byte_of_Z. now rewrite Z.mod_add by lia. Qed.

(** Only the low [n] bytes of a value are written. *)
Lemma le_bytes_wrap (n : nat) (v k : Z) :
  le_bytes n (v + k * 256 ^ Z.of_nat n) = le_bytes n v.
Proof.
  revert v k. induction n as [|n IH]; intros v k; [reflexivity|].
  cbn [le_bytes]. rewrite Nat2Z.inj_succ, Z.pow_succ_r by lia.
  f_equal.
  - replace (k * (256 * 256 ^ Z.of_nat n)) with (k * 256 ^ Z.of_nat n * 256) by ring.
    apply byte_of_Z_add.
  - replace (k * (256 * 256 ^ Z.of_nat n)) with (k * 256 ^ Z.of_nat n * 256) by ring.
    rewrite Z.div_add by lia. apply IH.
Qed.

Lemma le_bytes_mod (n : nat) (v : Z) :
  le_bytes n (v mod 256 ^ Z.of_nat n) = le_bytes n v.
Proof.
  assert (0 < 256 ^ Z.of_nat n) by (apply Z.pow_pos_nonneg; lia).
  rewrite (Z.div_mod v (256 ^ Z.of_nat n)) at 2 by lia.
  rewrite Z.add_comm, Z.mul_comm. symmetry. apply le_bytes_wrap.
Qed.

Lemma le_bytes_to_signed (w u : Z) :
  0 <= w -> le_bytes (Z.to_nat w) (to_signed w u) = le_bytes (Z.to_nat w) u.
Proof.
  intros Hw. unfold to_signed. destruct (u <? 2 ^ (8 * w - 1)); [reflexivity|].
  rewrite <- (pow256 w) by lia.
  replace (u - 256 ^ w) with (u + (-1) * 256 ^ Z.of_nat (Z.to_nat w))
    by (rewrite Z2Nat.id by lia; ring).
  apply le_bytes_wrap.
Qed.

(** Decoding a buffer of whole sample values and encoding the values again
    gives the buffer back. *)
Lemma frombuf_samples (w : Z) (frag : list byte) :
  1 <= w -> len frag mod w = 0 ->
  audioop.frombuf w (audioop.samples w frag) = frag.
Proof.
  intros Hw Hn.
  apply Z.mod_divide in Hn; [|lia]. destruct Hn as [k Hk].
  assert (Hk0 : 0 <= k) by (pose proof (len_nonneg frag); nia).
  revert frag Hk. pattern k. apply natlike_ind; [| |exact Hk0].
  - intros frag Hk. destruct frag; [reflexivity|].
    unfold len in Hk. cbn [length] in Hk. lia.
  - intros j Hj IH frag Hk.
    assert (Hsplit : exists hd tl, frag = hd ++ tl /\ length hd = Z.to_nat w).
    { exists (firstn (Z.to_nat w) frag), (skipn (Z.to_nat w) frag). split.
      - symmetry. apply firstn_skipn.
      - rewrite length_firstn. unfold len in Hk. nia. }
    destruct Hsplit as (hd & tl & -> & Hfl).
    assert (Hlen1 : len hd = w) by (unfold len; rewrite Hfl; lia).
    rewrite samples_app by (try lia; rewrite Hlen1; apply Z_mod_same_full).
    unfold audioop.frombuf. rewrite flat_map_app.
    fold (audioop.frombuf w (audioop.samples w tl)).
    rewrite IH by (rewrite len_app in Hk; lia).
    f_equal.
    unfold audioop.samples. rewrite Hlen1, Z.div_same by lia.
    change (Z.to_nat 1) with 1%nat. cbn [seq map flat_map].
    rewrite app_nil_r. unfold audioop.rawsample.
    cbn [Nat.mul skipn].
    replace (firstn (Z.to_nat w) hd) with hd
      by (rewrite <- Hfl; symmetry; apply firstn_all).
    rewrite le_bytes_to_signed by lia.
    rewrite <- Hfl. apply le_bytes_le_unsigned.
Qed.

(** Values that fit the width are what [frombuf] and [samples] exchange. *)
Lemma values_sample_of (w rate nch : Z) (vals : list Z) :
  1 <= w -> Forall (in_range w) vals -> values (sample_of w rate nch vals) = vals.
Proof. intros Hw Hr. unfold values, sample_of. cbn. now apply samples_frombuf. Qed.

Lemma with_frames_same (s : Sample.t) : with_frames (frames s) s = s.
Proof. now destruct s. Qed.

Lemma with_frames_twice (f g : list byte) (s : Sample.t) :
  with_frames f (with_frames g s) = with_frames f s.
Proof. reflexivity. Qed.

Section Floats.
Context {FR : Rounding} {SM : StandardModel FR}.

(** A float that is an integer of the sample range goes through [fbound]
    unchanged. *)
Lemma fbound_int (x : Q) (z w : Z) :
  1 <= w -> (x == inject_Z z)%Q -> in_range w z ->
  audioop.fbound x (audioop.minval w) (audioop.maxval w) = z.
Proof.
  intros Hw E [Hlo Hhi]. unfold audioop.fbound, Qltb.
  assert (B1 : Qle_bool x (inject_Z (audioop.maxval w)) = true).
  { apply Qle_bool_iff. rewrite E. rewrite <- Zle_Qle. lia. }
  rewrite B1. cbn [negb].
  pose proof (range_bounds w Hw) as (Hmin & Hmax & Heq & _).
  destruct (Z.eq_dec z (audioop.minval w)) as [->|Hne].
  - destruct (Qle_bool (inject_Z (audioop.minval w) + 1) x) eqn:B2; cbn [negb].
    + rewrite (Qfloor_comp _ _ E). apply Qfloor_Z.
    + reflexivity.
  - assert (B2 : Qle_bool (inject_Z (audioop.minval w) + 1) x = true).
    { apply Qle_bool_iff. rewrite E.
      change 1%Q with (inject_Z 1). rewrite <- inject_Z_plus, <- Zle_Qle. lia. }
    rewrite B2. cbn [negb]. rewrite (Qfloor_comp _ _ E). apply Qfloor_Z.
Qed.

(** The float product of two integers whose product is below [2^53]. *)
Lemma fmul_int (a b : Z) :
  Z.abs (a * b) <= 2 ^ 53 ->
  (fmul (inject_Z a) (inject_Z b) == inject_Z (a * b))%Q.
Proof.
  intros H. unfold fmul. rewrite <- (rnd_int (a * b) H).
  apply rnd_proper. now rewrite inject_Z_mult.
Qed.

(** At a time of [indexable] the product of rate and time is a float within
    2^53, and so is the integer that [int()] makes of it. *)
Lemma indexable_product (s : Sample.t) (seconds : Q) :
  indexable s seconds ->
  - 2 ^ 53 <= Qtrunc (fmul (inject_Z (samplerate s)) seconds) <= 2 ^ 53.
Proof.
  intros [_ H]. apply Qabs_Qle_condition in H as [H1 H2].
  assert (P : 0 < 2 ^ 53) by reflexivity.
  apply Qtrunc_bounds; [lia| |]; unfold fmul.
  - apply rnd_ge_int; [lia|]. rewrite inject_Z_opp. exact H1.
  - apply rnd_le_int; [lia|exact H2].
Qed.

Lemma in_range_abs (w v : Z) : 1 <= w <= 4 -> in_range w v -> Z.abs v <= 2 ^ 31.
Proof.
  intros Hw [Hlo Hhi]. unfold audioop.minval, audioop.maxval in *.
  assert (2 ^ (8 * w - 1) <= 2 ^ 31) by (apply Z.pow_le_mono_r; lia).
  assert (0 < 2 ^ (8 * w - 1)) by (apply Z.pow_pos_nonneg; lia).
  lia.
Qed.

End Floats.

End ValueFacts.

(** ** Round trips of the conversions *)

Module RoundTripFacts.
Import Sample BytesFacts AudioopFacts CopyFacts LengthFacts RoundingFacts
       ValueFacts.
Local Open Scope method_scope.
Local Abbreviation length := List.length.

Lemma reverse_ok (frag : list byte) (w : Z) :
  1 <= w <= 4 -> len frag mod w = 0 ->
  audioop.reverse frag w = Ok (audioop.frombuf w (rev (audioop.samples w frag))).
Proof.
  intros Hw Hn. unfold audioop.reverse.
  now rewrite check_parameters_ok by assumption.
Qed.

Lemma len_frombuf_mod (w : Z) (vals : list Z) :
  1 <= w -> len (audioop.frombuf w vals) mod w = 0.
Proof.
  intros Hw. rewrite len_frombuf by lia. rewrite Z.mul_comm. apply Z_mod_mult.
Qed.

(** X1 ([reverse] is its own inverse): on an unlocked sample of whole sample
    values the call returns and leaves the values in reverse order, and a
    second call gives back the sample as it was. *)
Theorem reverse_twice (s : Sample.t) :
  locked s = false -> 1 <= samplewidth s <= 4 ->
  len (frames s) mod samplewidth s = 0 ->
  exists s1,
    reverse s = (s1, Ok tt) /\
    values s1 = rev (values s) /\
    reverse s1 = (s, Ok tt).
Proof.
  intros Hl Hw Hn. set (w := samplewidth s) in *.
  assert (Hr : Forall (in_range w) (rev (audioop.samples w (frames s)))).
  { apply Forall_rev. apply samples_in_range. lia. }
  exists (with_frames (audioop.frombuf w (rev (audioop.samples w (frames s)))) s).
  split; [|split].
  - unfold reverse, bind, assert_unlocked, get, lift, modify.
    rewrite Hl. fold w. now rewrite reverse_ok by assumption.
  - unfold values. cbn [samplewidth frames with_frames]. fold w.
    now rewrite samples_frombuf by (assumption || lia).
  - unfold reverse, bind, assert_unlocked, get, lift, modify.
    cbn [locked samplewidth frames with_frames]. rewrite Hl.
    cbn [locked samplewidth frames with_frames]. fold w.
    rewrite reverse_ok; [|assumption|apply len_frombuf_mod; lia].
    rewrite samples_frombuf by (assumption || lia).
    rewrite rev_involutive, frombuf_samples by (assumption || lia).
    rewrite with_frames_twice. now rewrite with_frames_same.
Qed.

Section Split.
Context {FR : Rounding}.

(** X2 ([split] followed by [join] of the part that was cut off): on an
    unlocked sample of a valid format, at every split time that [frame_idx]
    takes (positive, negative or zero, within the sample or beyond it),
    [split] returns an unlocked sample of the same format, the two parts
    together are the frames there were, and joining the returned part gives
    back the sample as it was. *)
Theorem split_then_join (s : Sample.t) (seconds : Q) :
  locked s = false -> format_ok s -> indexable s seconds ->
  exists s1 chopped,
    split seconds s = (s1, Ok chopped) /\
    same_format s chopped /\ locked chopped = false /\
    frames s1 ++ frames chopped = frames s /\
    join chopped s1 = (s, Ok tt).
Proof.
  intros Hl (Hw & Hc & Hr) _.
  unfold split, bind, assert_unlocked, get. rewrite Hl.
  set (e := frame_idx s seconds).
  destruct (e =? len (frames s)) eqn:E; cbn [negb].
  - apply Z.eqb_eq in E.
    exists s, (mkSample [] (samplewidth s) (samplerate s) (nchannels s) false None).
    assert (Ef : from_raw_frames [] (samplewidth s) (samplerate s) (nchannels s)
                 = Ok (mkSample [] (samplewidth s) (samplerate s) (nchannels s)
                                false None)).
    { unfold from_raw_frames.
      replace ((1 <=? nchannels s) && (nchannels s <=? 2)) with true
        by (symmetry; apply andb_true_iff; split; apply Z.leb_le; lia).
      replace ((2 <=? samplewidth s) && (samplewidth s <=? 4)) with true
        by (symmetry; apply andb_true_iff; split; apply Z.leb_le; lia).
      replace (1 <? samplerate s) with true by (symmetry; apply Z.ltb_lt; lia).
      reflexivity. }
    unfold lift. rewrite Ef. repeat split.
    + cbn. apply app_nil_r.
    + unfold join, bind, assert_unlocked, get, assert, modify, ret.
      rewrite Hl. cbn [samplewidth samplerate nchannels frames].
      rewrite !Z.eqb_refl. rewrite app_nil_r. now rewrite with_frames_same.
  - exists (with_frames (slice_to (frames s) e) s),
           (with_frames (slice_from (frames s) e)
              (mkSample (frames s) (samplewidth s) (samplerate s) (nchannels s)
                        false (filename s))).
    unfold lift, modify, ret. rewrite copy_ok. repeat split.
    + cbn. apply slice_to_from.
    + unfold join, bind, assert_unlocked, get, assert, modify, ret.
      cbn [locked samplewidth samplerate nchannels frames with_frames].
      rewrite Hl.
      cbn [locked samplewidth samplerate nchannels frames with_frames].
      rewrite !Z.eqb_refl.
      cbn [locked samplewidth samplerate nchannels frames with_frames].
      rewrite slice_to_from. now destruct s.
Qed.

End Split.

Lemma to_signed_congr (w u : Z) :
  0 <= w -> to_signed w u mod 2 ^ (8 * w) = u mod 2 ^ (8 * w).
Proof.
  intros Hw. unfold to_signed. destruct (u <? 2 ^ (8 * w - 1)); [reflexivity|].
  assert (0 < 2 ^ (8 * w)) by (apply Z.pow_pos_nonneg; lia).
  replace (u - 2 ^ (8 * w)) with (u + (-1) * 2 ^ (8 * w)) by ring.
  now rewrite Z.mod_add by lia.
Qed.

Lemma biased_in_range (w b v : Z) : 1 <= w -> in_range w (biased w b v).
Proof.
  intros Hw. unfold biased, in_range, audioop.minval, audioop.maxval.
  pose proof (to_signed_range w ((v + b) mod 2 ^ (8 * w)) Hw) as H.
  assert (0 < 2 ^ (8 * w)) by (apply Z.pow_pos_nonneg; lia).
  pose proof (Z.mod_pos_bound (v + b) (2 ^ (8 * w))). lia.
Qed.

Lemma biased_back (w b v : Z) :
  1 <= w -> in_range w v -> biased w (- b) (biased w b v) = v.
Proof.
  intros Hw [Hlo Hhi]. unfold biased.
  assert (0 < 2 ^ (8 * w)) by (apply Z.pow_pos_nonneg; lia).
  rewrite <- Zplus_mod_idemp_l, to_signed_congr by lia.
  rewrite Z.mod_mod by lia. rewrite Zplus_mod_idemp_l.
  replace (v + b + - b) with v by ring.
  apply to_signed_mod; [lia|].
  unfold audioop.minval, audioop.maxval in *. lia.
Qed.

Lemma bias_ok (frag : list byte) (w b : Z) :
  1 <= w <= 4 -> len frag mod w = 0 -> - 2 ^ 31 <= b < 2 ^ 31 ->
  audioop.bias frag w b
  = Ok (audioop.frombuf w (map (biased w b) (audioop.samples w frag))).
Proof.
  intros Hw Hn Hb. unfold audioop.bias.
  replace (b <? - 2 ^ 31) with false by (symmetry; apply Z.ltb_ge; lia).
  replace (2 ^ 31 <=? b) with false by (symmetry; apply Z.leb_gt; lia).
  cbn [orb]. now rewrite check_parameters_ok by assumption.
Qed.

(** X3 ([bias] wraps around, so it can be undone): on an unlocked sample of
    whole sample values, a bias [b] that is a C int and whose negation is
    one too leaves every value as the sum wrapped around in the sample width,
    and the bias [-b] after it gives back the sample as it was. *)
Theorem bias_then_negative_bias (s : Sample.t) (b : Z) :
  locked s = false -> 1 <= samplewidth s <= 4 ->
  len (frames s) mod samplewidth s = 0 ->
  - 2 ^ 31 < b < 2 ^ 31 ->
  exists s1,
    bias b s = (s1, Ok tt) /\
    values s1 = map (biased (samplewidth s) b) (values s) /\
    bias (- b) s1 = (s, Ok tt).
Proof.
  intros Hl Hw Hn Hb. set (w := samplewidth s) in *.
  assert (Hr : Forall (in_range w) (map (biased w b) (audioop.samples w (frames s)))).
  { apply Forall_map. apply Forall_forall. intros v _.
    apply biased_in_range. lia. }
  exists (with_frames
            (audioop.frombuf w (map (biased w b) (audioop.samples w (frames s)))) s).
  split; [|split].
  - unfold bias, bind, assert_unlocked, get, lift, modify.
    rewrite Hl. fold w. now rewrite bias_ok by (assumption || lia).
  - unfold values. cbn [samplewidth frames with_frames]. fold w.
    now rewrite samples_frombuf by (assumption || lia).
  - unfold bias, bind, assert_unlocked, get, lift, modify.
    cbn [locked samplewidth frames with_frames]. rewrite Hl.
    cbn [locked samplewidth frames with_frames]. fold w.
    rewrite bias_ok; [|assumption|apply len_frombuf_mod; lia|lia].
    rewrite samples_frombuf by (assumption || lia).
    rewrite map_map.
    rewrite (map_ext_in _ (fun v => v)).
    + rewrite map_id, frombuf_samples by (assumption || lia).
      rewrite with_frames_twice. now rewrite with_frames_same.
    + intros v Hv. apply biased_back; [lia|].
      pose proof (samples_in_range w (frames s) ltac:(lia)) as Hall.
      rewrite Forall_forall in Hall. now apply Hall.
Qed.

Lemma reverse_twice_witness :
  let s := sample_of 2 44100 1 [1; -2; 3] in
  exists s1,
    reverse s = (s1, Ok tt) /\
    values s1 = rev (values s) /\
    reverse s1 = (s, Ok tt).
Proof.
  cbv zeta. apply reverse_twice.
  - reflexivity.
  - vm_compute. split; discriminate.
  - reflexivity.
Defined.

Lemma split_then_join_witness :
  let s := sample_of 2 4 1 [1; -2; 3; 4; 5; 6] in
  exists s1 chopped,
    split (FR := exact) 1 s = (s1, Ok chopped) /\
    same_format s chopped /\ locked chopped = false /\
    frames s1 ++ frames chopped = frames s /\
    join chopped s1 = (s, Ok tt).
Proof.
  cbv zeta. apply (split_then_join (FR := exact)).
  - reflexivity.
  - repeat split; vm_compute; discriminate.
  - split; vm_compute; discriminate.
Defined.

Lemma bias_then_negative_bias_witness :
  let s := sample_of 2 44100 1 [32767; -32768; 5] in
  exists s1,
    bias 70000 s = (s1, Ok tt) /\
    values s1 = map (biased (samplewidth s) 70000) (values s) /\
    bias (- 70000) s1 = (s, Ok tt).
Proof.
  cbv zeta. apply bias_then_negative_bias.
  - reflexivity.
  - vm_compute. split; discriminate.
  - reflexivity.
  - vm_compute. split; reflexivity.
Defined.

End RoundTripFacts.

(** ** Width and channel conversions on values *)

Module ConversionFacts.
Import Sample BytesFacts AudioopFacts CopyFacts LengthFacts RoundingFacts
       RoundingProper ValueFacts RoundTripFacts.
Local Open Scope method_scope.
Local Abbreviation length := List.length.

Lemma lin2lin_ok (frag : list byte) (w w2 : Z) :
  1 <= w <= 4 -> 1 <= w2 <= 4 -> len frag mod w = 0 ->
  audioop.lin2lin frag w w2
  = Ok (audioop.frombuf w2
          (map (fun v => Z.shiftr (Z.shiftl v (32 - 8 * w)) (32 - 8 * w2))
               (audioop.samples w frag))).
Proof.
  intros Hw Hw2 Hn. unfold audioop.lin2lin.
  rewrite check_parameters_ok by assumption. cbn [rbind].
  now rewrite check_size_ok by assumption.
Qed.

Lemma in_range_2 (v : Z) : in_range 2 v <-> - 32768 <= v <= 32767.
Proof. unfold in_range. change (audioop.minval 2) with (-32768).
  change (audioop.maxval 2) with 32767. reflexivity. Qed.

Lemma in_range_4 (v : Z) : in_range 4 v <-> - 2147483648 <= v <= 2147483647.
Proof. unfold in_range. change (audioop.minval 4) with (-2147483648).
  change (audioop.maxval 4) with 2147483647. reflexivity. Qed.

Section Widths.
Context {FR : Rounding}.

(** X4 (16 bit to 32 bit and back): on an unlocked 16-bit sample of whole
    sample values, [make_32bit()] gives a 32-bit sample whose values are the
    old ones times 65536, and [make_16bit(False)] after it gives back the
    sample as it was. *)
Theorem make_32bit_then_16bit (s : Sample.t) :
  locked s = false -> samplewidth s = 2 -> len (frames s) mod 2 = 0 ->
  exists s1,
    make_32bit true s = (s1, Ok tt) /\
    samplewidth s1 = 4 /\
    values s1 = map (fun v => v * 65536) (values s) /\
    make_16bit false s1 = (s, Ok tt).
Proof.
  intros Hl Hw Hn.
  set (vals := audioop.samples 2 (frames s)).
  assert (Hvals : Forall (in_range 2) vals) by (apply samples_in_range; lia).
  assert (Hwide : Forall (in_range 4) (map (fun v => v * 65536) vals)).
  { apply Forall_map. eapply Forall_impl; [|exact Hvals].
    intros v Hv. pose proof (proj1 (in_range_2 v) Hv).
    apply (proj2 (in_range_4 (v * 65536))). lia. }
  assert (E1 : audioop.lin2lin (frames s) 2 4
               = Ok (audioop.frombuf 4 (map (fun v => v * 65536) vals))).
  { rewrite lin2lin_ok by (assumption || lia). do 2 f_equal.
    apply map_ext. intros v. cbn [Z.sub Z.mul Z.add Z.opp Z.pos_sub Pos.mul Pos.add
                                  Pos.succ Pos.pred_double].
    change (32 - 8 * 2) with 16. change (32 - 8 * 4) with 0.
    rewrite Z.shiftr_0_r, Z.shiftl_mul_pow2 by lia. reflexivity. }
  exists (with_samplewidth 4
            (with_frames (audioop.frombuf 4 (map (fun v => v * 65536) vals)) s)).
  split; [|split; [|split]].
  - unfold make_32bit, bind, assert_unlocked, get, lift, modify,
      get_32bit_frames.
    rewrite Hl, Hw. cbn [Z.eqb Pos.eqb negb rbind]. rewrite E1. reflexivity.
  - reflexivity.
  - unfold values. cbn [samplewidth frames with_frames with_samplewidth].
    rewrite Hw. fold vals. now rewrite samples_frombuf by (assumption || lia).
  - unfold make_16bit, bind, assert_unlocked, get, lift, modify, assert, ret.
    cbn [locked samplewidth frames with_frames with_samplewidth].
    rewrite Hl.
    cbn [locked samplewidth frames with_frames with_samplewidth Z.leb Z.ltb
         Z.compare Pos.compare Pos.compare_cont].
    rewrite lin2lin_ok; [|lia|lia|apply len_frombuf_mod; lia].
    rewrite samples_frombuf by (assumption || lia).
    rewrite map_map.
    rewrite (map_ext _ (fun v => v)).
    + rewrite map_id. unfold vals. rewrite frombuf_samples by (lia || assumption).
      destruct s. cbn in *. now subst.
    + intros v. change (32 - 8 * 4) with 0. change (32 - 8 * 2) with 16.
      rewrite Z.shiftl_0_r, Z.shiftr_div_pow2 by lia.
      change (2 ^ 16) with 65536. now rewrite Z.div_mul by lia.
Qed.

End Widths.

Section Channels.
Context {FR : Rounding} {SM : StandardModel FR}.

Lemma fmul_one (v : Z) (x : Q) :
  Z.abs v <= 2 ^ 53 -> (x == 1)%Q -> (fmul (inject_Z v) x == inject_Z v)%Q.
Proof.
  intros Hv E. rewrite E. change 1%Q with (inject_Z 1).
  rewrite fmul_int by (rewrite Z.mul_1_r; exact Hv). now rewrite Z.mul_1_r.
Qed.

Lemma fmul_zero (v : Z) (x : Q) :
  (x == 0)%Q -> (fmul (inject_Z v) x == 0)%Q.
Proof.
  intros E. rewrite E. change 0%Q with (inject_Z 0).
  rewrite fmul_int by (rewrite Z.mul_0_r; cbn; lia). now rewrite Z.mul_0_r.
Qed.

Lemma abs_53 (w v : Z) : 1 <= w <= 4 -> in_range w v -> Z.abs v <= 2 ^ 53.
Proof.
  intros Hw Hv. pose proof (in_range_abs w v Hw Hv).
  assert (2 ^ 31 <= 2 ^ 53) by (apply Z.pow_le_mono_r; lia). lia.
Qed.

Lemma in_range_0 (w : Z) : 1 <= w -> in_range w 0.
Proof. intros Hw. pose proof (range_bounds w Hw). unfold in_range. lia. Qed.

(** A factor that is 1 keeps a value, a factor that is 0 silences it. *)
Lemma scaled_one (w v : Z) (x : Q) :
  1 <= w <= 4 -> in_range w v -> (x == 1)%Q ->
  audioop.fbound (fmul (inject_Z v) x) (audioop.minval w) (audioop.maxval w) = v.
Proof.
  intros Hw Hv E. apply fbound_int; [lia| |exact Hv].
  apply fmul_one; [|exact E]. now apply (abs_53 w).
Qed.

Lemma scaled_zero (w v : Z) (x : Q) :
  1 <= w <= 4 -> (x == 0)%Q ->
  audioop.fbound (fmul (inject_Z v) x) (audioop.minval w) (audioop.maxval w) = 0.
Proof.
  intros Hw E. apply fbound_int; [lia| |apply in_range_0; lia].
  now apply fmul_zero.
Qed.

(** Multiplying by 1.0 gives the buffer back. *)
Lemma mul_one_frames (frag : list byte) (w : Z) :
  1 <= w <= 4 -> len frag mod w = 0 -> audioop.mul frag w 1 = Ok frag.
Proof.
  intros Hw Hn. unfold audioop.mul.
  rewrite check_parameters_ok by assumption. cbn [rbind]. f_equal.
  rewrite (map_ext_in _ (fun v => v)).
  - rewrite map_id. apply frombuf_samples; [lia|exact Hn].
  - intros v Hv. apply scaled_one; [exact Hw| |reflexivity].
    pose proof (samples_in_range w frag ltac:(lia)) as Hall.
    rewrite Forall_forall in Hall. now apply Hall.
Qed.

Lemma tostereo_ok (frag : list byte) (w : Z) (x y : Q) :
  1 <= w <= 4 -> len frag mod w = 0 ->
  audioop.tostereo frag w x y
  = Ok (audioop.frombuf w
          (flat_map (fun v =>
                       [audioop.fbound (fmul (inject_Z v) x)
                                       (audioop.minval w) (audioop.maxval w);
                        audioop.fbound (fmul (inject_Z v) y)
                                       (audioop.minval w) (audioop.maxval w)])
                    (audioop.samples w frag))).
Proof.
  intros Hw Hn. unfold audioop.tostereo.
  now rewrite check_parameters_ok by assumption.
Qed.

Lemma flat_map_ext_in {A B} (f g : A -> list B) (l : list A) :
  (forall a, In a l -> f a = g a) -> flat_map f l = flat_map g l.
Proof.
  induction l as [|a t IH]; intros H; cbn [flat_map]; [reflexivity|].
  rewrite (H a (or_introl eq_refl)). f_equal. apply IH.
  intros b Hb. apply H. now right.
Qed.

Lemma frames_lr_pairs (vals : list Z) (f : Z -> Z) (g : Z -> Z) :
  audioop.frames_lr (flat_map (fun v => [f v; g v]) vals)
  = map (fun v => (f v, g v)) vals.
Proof.
  induction vals as [|v t IH]; [reflexivity|].
  cbn [flat_map app audioop.frames_lr map]. now rewrite IH.
Qed.

Lemma len_pairs (w : Z) (vals : list Z) (f g : Z -> Z) :
  1 <= w ->
  len (audioop.frombuf w (flat_map (fun v => [f v; g v]) vals)) = w * 2 * len vals.
Proof.
  intros Hw. rewrite len_frombuf by lia.
  assert (E : len (flat_map (fun v => [f v; g v]) vals) = 2 * len vals).
  { unfold len. induction vals as [|v t IH]; cbn [flat_map app List.length]; lia. }
  rewrite E. ring.
Qed.

Lemma tomono_ok (frag : list byte) (w : Z) (x y : Q) :
  1 <= w <= 4 -> len frag mod (w * 2) = 0 ->
  audioop.tomono frag w x y
  = Ok (audioop.frombuf w
          (map (fun p => audioop.fbound
                           (fadd (fmul (inject_Z (fst p)) x)
                                 (fmul (inject_Z (snd p)) y))
                           (audioop.minval w) (audioop.maxval w))
               (audioop.frames_lr (audioop.samples w frag)))).
Proof.
  intros Hw Hn. unfold audioop.tomono.
  apply Z.mod_divide in Hn; [|lia]. destruct Hn as [k Hk].
  rewrite check_parameters_ok;
    [|assumption|rewrite Hk; replace (k * (w * 2)) with (k * 2 * w) by ring;
                 apply Z_mod_mult].
  cbn [rbind]. rewrite Hk. replace (k * (w * 2)) with (k * 2 * w) by ring.
  rewrite Z.div_mul by lia. rewrite Z_mod_mult. reflexivity.
Qed.

(** The channel [tomono] keeps when one factor is 1 and the other 0. *)
Lemma picked (w l r : Z) (x y : Q) (a b : Z) :
  1 <= w <= 4 -> in_range w l -> in_range w r ->
  (x == inject_Z a)%Q -> (y == inject_Z b)%Q ->
  (a = 1 /\ b = 0) \/ (a = 0 /\ b = 1) ->
  audioop.fbound (fadd (fmul (inject_Z l) x) (fmul (inject_Z r) y))
                 (audioop.minval w) (audioop.maxval w)
  = l * a + r * b.
Proof.
  intros Hw Hl Hr Ex Ey Hab.
  pose proof (abs_53 w l Hw Hl) as Al. pose proof (abs_53 w r Hw Hr) as Ar.
  assert (Hres : in_range w (l * a + r * b)).
  { destruct Hab as [[-> ->]|[-> ->]];
      [replace (l * 1 + r * 0) with l by ring
      |replace (l * 0 + r * 1) with r by ring]; assumption. }
  apply fbound_int; [lia| |exact Hres].
  assert (Aa : Z.abs (l * a) <= 2 ^ 53) by (destruct Hab as [[-> ->]|[-> ->]]; lia).
  assert (Ab : Z.abs (r * b) <= 2 ^ 53) by (destruct Hab as [[-> ->]|[-> ->]]; lia).
  rewrite Ex, Ey, (fmul_int l a Aa), (fmul_int r b Ab).
  unfold fadd. rewrite <- inject_Z_plus.
  apply rnd_int. pose proof (abs_53 w _ Hw Hres). lia.
Qed.

Lemma stereo_from_mono_values (s : Sample.t) (x y : Q) (a b : Z) :
  locked s = false -> nchannels s = 1 -> 1 <= samplewidth s <= 4 ->
  len (frames s) mod samplewidth s = 0 ->
  (x == inject_Z a)%Q -> (y == inject_Z b)%Q -> 0 <= a <= 1 -> 0 <= b <= 1 ->
  stereo x y s
  = (with_nchannels 2
       (with_frames
          (audioop.frombuf (samplewidth s)
             (flat_map (fun v => [v * a; v * b]) (values s))) s), Ok tt).
Proof.
  intros Hl Hc Hw Hn Ex Ey Ha Hb.
  unfold stereo, stereo_from_mono, bind, assert_unlocked, get, lift, modify.
  rewrite Hl, Hc. cbn [Z.eqb Pos.eqb]. rewrite Hl, Hc. cbn [Z.eqb Pos.eqb].
  rewrite tostereo_ok by assumption.
  do 4 f_equal. apply flat_map_ext_in. intros v Hv.
  assert (Rv : in_range (samplewidth s) v).
  { pose proof (samples_in_range (samplewidth s) (frames s) ltac:(lia)) as Hall.
    rewrite Forall_forall in Hall. now apply Hall. }
  assert (F : forall (q : Q) (c : Z), (q == inject_Z c)%Q -> 0 <= c <= 1 ->
              audioop.fbound (fmul (inject_Z v) q) (audioop.minval (samplewidth s))
                             (audioop.maxval (samplewidth s)) = v * c).
  { intros q c Eq Hc01. assert (c = 0 \/ c = 1) as [->| ->] by lia.
    - rewrite Z.mul_0_r. now apply scaled_zero.
    - rewrite Z.mul_1_r. now apply scaled_one. }
  now rewrite (F x a Ex Ha), (F y b Ey Hb).
Qed.

(** X5 (mono to stereo and back): on an unlocked mono sample of whole sample
    values, [stereo()] with its default factors 1.0 puts every value in both
    channels, and [left()] as well as [right()] of the result gives back the
    sample as it was. *)
Theorem stereo_then_left_or_right (s : Sample.t) :
  locked s = false -> nchannels s = 1 -> 1 <= samplewidth s <= 4 ->
  len (frames s) mod samplewidth s = 0 ->
  exists s2,
    stereo 1 1 s = (s2, Ok tt) /\
    nchannels s2 = 2 /\
    values s2 = flat_map (fun v => [v; v]) (values s) /\
    left s2 = (s, Ok tt) /\
    right s2 = (s, Ok tt).
Proof.
  intros Hl Hc Hw Hn. set (w := samplewidth s) in *.
  assert (Hvals : Forall (in_range w) (values s)) by (apply samples_in_range; lia).
  assert (Hboth : Forall (in_range w) (flat_map (fun v => [v; v]) (values s))).
  { apply Forall_flat_map. eapply Forall_impl; [|exact Hvals].
    intros v Hv. apply Forall_cons; [assumption|].
    apply Forall_cons; [assumption|apply Forall_nil]. }
  exists (with_nchannels 2
            (with_frames
               (audioop.frombuf w (flat_map (fun v => [v; v]) (values s))) s)).
  assert (Es : stereo 1 1 s
               = (with_nchannels 2
                    (with_frames
                       (audioop.frombuf w (flat_map (fun v => [v; v]) (values s)))
                       s), Ok tt)).
  { rewrite (stereo_from_mono_values s 1 1 1 1 Hl Hc Hw Hn);
      try reflexivity; try lia.
    fold w. do 4 f_equal. apply flat_map_ext_in. intros v _.
    now rewrite Z.mul_1_r. }
  assert (Em : forall (x y : Q) (a b : Z),
             (x == inject_Z a)%Q -> (y == inject_Z b)%Q ->
             (a = 1 /\ b = 0) \/ (a = 0 /\ b = 1) ->
             audioop.tomono
               (audioop.frombuf w (flat_map (fun v => [v; v]) (values s))) w x y
             = Ok (frames s)).
  { intros x y a b Ex Ey Hab.
    rewrite tomono_ok;
      [|assumption|rewrite (len_pairs w (values s) (fun v => v) (fun v => v));
                   [rewrite Z.mul_comm; apply Z_mod_mult|lia]].
    rewrite samples_frombuf by (assumption || lia).
    rewrite (frames_lr_pairs (values s) (fun v => v) (fun v => v)), map_map.
    rewrite (map_ext_in _ (fun v => v)).
    - rewrite map_id. unfold values. fold w.
      now rewrite frombuf_samples by (assumption || lia).
    - intros v Hv. cbn [fst snd].
      assert (Rv : in_range w v) by (rewrite Forall_forall in Hvals; now apply Hvals).
      rewrite (picked w v v x y a b Hw Rv Rv Ex Ey Hab).
      destruct Hab as [[-> ->]|[-> ->]]; ring. }
  split; [exact Es|]. split; [reflexivity|]. split.
  { unfold values at 1. cbn [samplewidth frames with_frames with_nchannels].
    fold w. now rewrite samples_frombuf by (assumption || lia). }
  split.
  - unfold left, mono, bind, assert_unlocked, get, lift, modify, assert, ret.
    repeat first [rewrite Hl | progress simpl_state
                 | progress cbn [Z.eqb Pos.eqb]].
    fold w. rewrite (Em 1%Q 0%Q 1 0) by (reflexivity || auto).
    destruct s. cbn in *. now subst.
  - unfold right, mono, bind, assert_unlocked, get, lift, modify, assert, ret.
    repeat first [rewrite Hl | progress simpl_state
                 | progress cbn [Z.eqb Pos.eqb]].
    fold w. rewrite (Em 0%Q 1%Q 0 1) by (reflexivity || auto).
    destruct s. cbn in *. now subst.
Qed.

(** X6 (panning a mono sample fully to one side): on an unlocked mono sample
    of whole sample values, [pan(-1)] gives a stereo sample with the values
    in the left channel and zeros in the right one, and [pan(1)] the
    opposite. *)
Theorem pan_to_one_side (s : Sample.t) :
  locked s = false -> nchannels s = 1 -> 1 <= samplewidth s <= 4 ->
  len (frames s) mod samplewidth s = 0 ->
  exists sl sr,
    pan (-1) s = (sl, Ok tt) /\ nchannels sl = 2 /\
    values sl = flat_map (fun v => [v; 0]) (values s) /\
    pan 1 s = (sr, Ok tt) /\ nchannels sr = 2 /\
    values sr = flat_map (fun v => [0; v]) (values s).
Proof.
  intros Hl Hc Hw Hn. set (w := samplewidth s) in *.
  assert (Hvals : Forall (in_range w) (values s)) by (apply samples_in_range; lia).
  assert (E2 : (rnd 2 == 2)%Q) by (apply (rnd_int 2); cbn; lia).
  assert (F1 : (fdiv (fsub 1 (-1)) 2 == inject_Z 1)%Q).
  { unfold fdiv, fsub. setoid_replace (1 - -1)%Q with 2%Q by ring.
    rewrite E2. setoid_replace (2 / 2)%Q with 1%Q by reflexivity.
    apply rnd_one. }
  assert (F0 : (fdiv (fadd 1 (-1)) 2 == inject_Z 0)%Q).
  { unfold fdiv, fadd. setoid_replace (1 + -1)%Q with 0%Q by ring.
    rewrite rnd_zero. setoid_replace (0 / 2)%Q with 0%Q by reflexivity.
    apply rnd_zero. }
  assert (G1 : (fdiv (fadd 1 1) 2 == inject_Z 1)%Q).
  { unfold fdiv, fadd. setoid_replace (1 + 1)%Q with 2%Q by ring.
    rewrite E2. setoid_replace (2 / 2)%Q with 1%Q by reflexivity.
    apply rnd_one. }
  assert (G0 : (fdiv (fsub 1 1) 2 == inject_Z 0)%Q).
  { unfold fdiv, fsub. setoid_replace (1 - 1)%Q with 0%Q by ring.
    rewrite rnd_zero. setoid_replace (0 / 2)%Q with 0%Q by reflexivity.
    apply rnd_zero. }
  assert (V : forall a b, 0 <= a <= 1 -> 0 <= b <= 1 ->
              values (with_nchannels 2
                        (with_frames
                           (audioop.frombuf w
                              (flat_map (fun v => [v * a; v * b]) (values s))) s))
              = flat_map (fun v => [v * a; v * b]) (values s)).
  { intros a b Ha Hb. unfold values at 1.
    cbn [samplewidth frames with_frames with_nchannels]. fold w.
    apply samples_frombuf; [lia|].
    apply Forall_flat_map. eapply Forall_impl; [|exact Hvals].
    intros v Hv.
    assert (in_range w (v * 0)) by (rewrite Z.mul_0_r; apply in_range_0; lia).
    assert (in_range w (v * 1)) by now rewrite Z.mul_1_r.
    assert (a = 0 \/ a = 1) as [-> | ->] by lia;
      assert (b = 0 \/ b = 1) as [-> | ->] by lia;
      (apply Forall_cons; [assumption|apply Forall_cons; [assumption|apply Forall_nil]]). }
  eexists _, _.
  unfold pan, bind, assert_unlocked. rewrite Hl.
  rewrite (stereo_from_mono_values s _ _ 1 0 Hl Hc Hw Hn F1 F0) by lia.
  rewrite (stereo_from_mono_values s _ _ 0 1 Hl Hc Hw Hn G0 G1) by lia.
  fold w. split; [reflexivity|]. split; [reflexivity|]. split.
  { rewrite V by lia. apply flat_map_ext_in. intros v _.
    now rewrite Z.mul_1_r, Z.mul_0_r. }
  split; [reflexivity|]. split; [reflexivity|].
  rewrite V by lia. apply flat_map_ext_in. intros v _.
  now rewrite Z.mul_1_r, Z.mul_0_r.
Qed.

Lemma fbound_above (x : Q) (w : Z) :
  (inject_Z (audioop.maxval w) < x)%Q ->
  audioop.fbound x (audioop.minval w) (audioop.maxval w) = audioop.maxval w.
Proof.
  intros H. unfold audioop.fbound, Qltb.
  destruct (Qle_bool x (inject_Z (audioop.maxval w))) eqn:E; [|reflexivity].
  apply Qle_bool_iff in E. apply Qlt_not_le in H. contradiction.
Qed.

Lemma negated_in_range (w v : Z) : 1 <= w -> in_range w v -> in_range w (negated w v).
Proof.
  intros Hw [Hlo Hhi]. pose proof (range_bounds w Hw). unfold negated, in_range.
  destruct (Z.eqb_spec v (audioop.minval w)); lia.
Qed.

Lemma invert_values (s : Sample.t) :
  locked s = false -> 1 <= samplewidth s <= 4 ->
  len (frames s) mod samplewidth s = 0 ->
  invert s
  = (with_frames (audioop.frombuf (samplewidth s)
                    (map (negated (samplewidth s)) (values s))) s, Ok tt).
Proof.
  intros Hl Hw Hn. set (w := samplewidth s) in *.
  unfold invert, amplify, bind, assert_unlocked, get, lift, modify.
  run_unlocked Hl. fold w. unfold audioop.mul.
  rewrite check_parameters_ok by assumption. cbn [rbind].
  do 3 f_equal. apply map_ext_in. intros v Hv.
  assert (Rv : in_range w v).
  { pose proof (samples_in_range w (frames s) ltac:(lia)) as Hall.
    rewrite Forall_forall in Hall. now apply Hall. }
  pose proof (abs_53 w v Hw Rv) as Av.
  pose proof (range_bounds w ltac:(lia)) as (Hmin & Hmax & Heq & _).
  assert (E : (fmul (inject_Z v) (-1) == inject_Z (- v))%Q).
  { change (-1)%Q with (inject_Z (-1)).
    rewrite fmul_int by lia. now replace (v * -1) with (- v) by ring. }
  unfold negated. destruct (Z.eqb_spec v (audioop.minval w)) as [->|Hne].
  - apply fbound_above. rewrite E. rewrite <- Zlt_Qlt. lia.
  - apply fbound_int; [lia|exact E|]. destruct Rv. unfold in_range. lia.
Qed.

(** X7 ([invert] negates, and is not quite its own inverse): on an unlocked
    sample of whole sample values, [invert] leaves every value negated,
    except the lowest value of the width, which becomes the highest; a second
    [invert] therefore gives back every value but the lowest one, which ends
    one above where it was. *)
Theorem invert_twice (s : Sample.t) :
  locked s = false -> 1 <= samplewidth s <= 4 ->
  len (frames s) mod samplewidth s = 0 ->
  exists s1 s2,
    invert s = (s1, Ok tt) /\
    values s1 = map (negated (samplewidth s)) (values s) /\
    invert s1 = (s2, Ok tt) /\
    values s2 = map (fun v => if v =? audioop.minval (samplewidth s)
                              then audioop.minval (samplewidth s) + 1 else v)
                    (values s).
Proof.
  intros Hl Hw Hn. set (w := samplewidth s) in *.
  assert (Hvals : Forall (in_range w) (values s)) by (apply samples_in_range; lia).
  assert (H1 : Forall (in_range w) (map (negated w) (values s))).
  { apply Forall_map. eapply Forall_impl; [|exact Hvals].
    intros v. apply negated_in_range. lia. }
  assert (V1 : values (with_frames (audioop.frombuf w (map (negated w) (values s))) s)
               = map (negated w) (values s)).
  { unfold values at 1. cbn [samplewidth frames with_frames]. fold w.
    now rewrite samples_frombuf by (assumption || lia). }
  eexists _, _. split; [now apply invert_values|]. fold w.
  split; [exact V1|]. split.
  - apply invert_values; cbn [locked samplewidth frames with_frames];
      [assumption|assumption|apply len_frombuf_mod; lia].
  - cbn [samplewidth with_frames]. fold w. rewrite V1.
    unfold values at 1. cbn [samplewidth frames with_frames]. fold w.
    rewrite samples_frombuf; [|lia|].
    + rewrite map_map. apply map_ext_in. intros v Hv.
      assert (Rv : in_range w v) by (rewrite Forall_forall in Hvals; now apply Hvals).
      pose proof (range_bounds w ltac:(lia)) as (Hmin & Hmax & Heq & _).
      unfold negated. destruct Rv.
      destruct (Z.eqb_spec v (audioop.minval w)) as [->|Hne].
      * destruct (Z.eqb_spec (audioop.maxval w) (audioop.minval w)); lia.
      * destruct (Z.eqb_spec (- v) (audioop.minval w)); lia.
    + apply Forall_map. eapply Forall_impl; [|exact H1].
      intros v. apply negated_in_range. lia.
Qed.

End Channels.

Lemma make_32bit_then_16bit_witness :
  let s := sample_of 2 44100 1 [32767; -32768; 5] in
  exists s1,
    make_32bit (FR := exact) true s = (s1, Ok tt) /\
    samplewidth s1 = 4 /\
    values s1 = map (fun v => v * 65536) (values s) /\
    make_16bit (FR := exact) false s1 = (s, Ok tt).
Proof.
  cbv zeta. apply (make_32bit_then_16bit (FR := exact)); reflexivity.
Defined.

Lemma stereo_then_left_or_right_witness :
  let s := sample_of 2 44100 1 [32767; -32768; 5] in
  exists s2,
    stereo (FR := exact) 1 1 s = (s2, Ok tt) /\
    nchannels s2 = 2 /\
    values s2 = flat_map (fun v => [v; v]) (values s) /\
    left (FR := exact) s2 = (s, Ok tt) /\
    right (FR := exact) s2 = (s, Ok tt).
Proof.
  cbv zeta.
  apply (stereo_then_left_or_right (FR := exact) (SM := exact_standard)).
  - reflexivity.
  - reflexivity.
  - vm_compute. split; discriminate.
  - reflexivity.
Defined.

Lemma pan_to_one_side_witness :
  let s := sample_of 2 44100 1 [32767; -32768; 5] in
  exists sl sr,
    pan (FR := exact) (-1) s = (sl, Ok tt) /\ nchannels sl = 2 /\
    values sl = flat_map (fun v => [v; 0]) (values s) /\
    pan (FR := exact) 1 s = (sr, Ok tt) /\ nchannels sr = 2 /\
    values sr = flat_map (fun v => [0; v]) (values s).
Proof.
  cbv zeta. apply (pan_to_one_side (FR := exact) (SM := exact_standard)).
  - reflexivity.
  - reflexivity.
  - vm_compute. split; discriminate.
  - reflexivity.
Defined.

Lemma invert_twice_witness :
  let s := sample_of 2 44100 1 [32767; -32768; 5] in
  exists s1 s2,
    invert (FR := exact) s = (s1, Ok tt) /\
    values s1 = map (negated (samplewidth s)) (values s) /\
    invert (FR := exact) s1 = (s2, Ok tt) /\
    values s2 = map (fun v => if v =? audioop.minval (samplewidth s)
                              then audioop.minval (samplewidth s) + 1 else v)
                    (values s).
Proof.
  cbv zeta. apply (invert_twice (FR := exact) (SM := exact_standard)).
  - reflexivity.
  - vm_compute. split; discriminate.
  - reflexivity.
Defined.

End ConversionFacts.

(** ** Delay, mixing, arrays and measures *)

Module BufferFacts.
Import Sample BytesFacts AudioopFacts CopyFacts MixFacts LengthFacts
       RoundingFacts FadeFacts ValueFacts RoundTripFacts PeakFacts.
Local Open Scope method_scope.
Local Abbreviation length := List.length.

Section Delay.
Context {FR : Rounding}.

Lemma add_silence_unlocked (seconds : Q) (at_start : bool) (s : Sample.t) :
  locked s = false ->
  add_silence seconds at_start s
  = (with_frames (if at_start
                  then zeros (frame_idx s seconds) ++ frames s
                  else frames s ++ zeros (frame_idx s seconds)) s, Ok tt).
Proof.
  intros Hl. unfold add_silence, bind, assert_unlocked, get, modify.
  rewrite Hl. now destruct at_start.
Qed.

(** X8 ([delay] with [keep_length]): on an unlocked sample, for every delay
    that [frame_idx] takes (positive, negative or zero, shorter than the
    sample or longer), the call returns and the buffer has the length it had,
    in the same format. *)
Theorem delay_keeps_length (s : Sample.t) (seconds : Q) :
  locked s = false -> indexable s seconds ->
  exists s',
    delay seconds true s = (s', Ok tt) /\
    len (frames s') = len (frames s) /\
    same_format s s' /\ locked s' = false.
Proof.
  intros Hl _. pose proof (len_nonneg (frames s)) as Hn.
  unfold delay, bind, assert_unlocked, get. rewrite Hl.
  destruct (Qltb 0 seconds).
  - rewrite add_silence_unlocked by exact Hl. unfold modify.
    eexists. split; [reflexivity|]. simpl_state.
    split; [|split; [repeat split|exact Hl]].
    rewrite len_slice_to, len_app, len_zeros. unfold norm_idx.
    destruct (Z.ltb_spec (len (frames s)) 0); lia.
  - destruct (Qltb seconds 0).
    + rewrite add_silence_unlocked by exact Hl. unfold modify.
      eexists. split; [reflexivity|]. simpl_state.
      split; [|split; [repeat split|exact Hl]].
      rewrite len_slice_from, len_app, len_zeros. unfold norm_idx.
      destruct (Z.ltb_spec (len (frames s) + Z.max 0 (frame_idx s (- seconds))
                            - len (frames s)) 0); lia.
    + exists s. unfold ret. repeat split. exact Hl.
Qed.

End Delay.

(** *** Mixing *)

Lemma add_eq (f1 f2 : list byte) (w : Z) :
  1 <= w <= 4 -> len f1 mod w = 0 -> len f1 = len f2 ->
  audioop.add f1 f2 w
  = Ok (audioop.frombuf w
          (add_values w (audioop.samples w f1) (audioop.samples w f2))).
Proof.
  intros Hw Hn Hl. unfold audioop.add.
  rewrite check_parameters_ok by assumption. cbn [rbind].
  now rewrite Hl, Z.eqb_refl.
Qed.

Lemma clip_add_comm (w a b : Z) : audioop.clip_add w a b = audioop.clip_add w b a.
Proof. unfold audioop.clip_add. now rewrite Z.add_comm. Qed.

Lemma add_values_comm (w : Z) (l1 l2 : list Z) :
  add_values w l1 l2 = add_values w l2 l1.
Proof.
  unfold add_values. revert l2.
  induction l1 as [|a t IH]; intros [|b u]; cbn [combine map]; try reflexivity.
  cbn [fst snd]. now rewrite clip_add_comm, IH.
Qed.

Lemma clip_add_zero (w v : Z) : in_range w v -> audioop.clip_add w v 0 = v.
Proof. intros [Hlo Hhi]. unfold audioop.clip_add. lia. Qed.

Lemma add_values_zeros (w : Z) (vals : list Z) (n : nat) :
  Forall (in_range w) vals -> n = length vals ->
  add_values w vals (repeat 0 n) = vals.
Proof.
  intros Hr ->. unfold add_values.
  induction Hr as [|v t Hv _ IH]; cbn [length repeat combine map]; [reflexivity|].
  cbn [fst snd]. now rewrite clip_add_zero, IH.
Qed.

Lemma silent_values (vals : list Z) :
  Forall (fun v => v = 0) vals -> vals = repeat 0 (length vals).
Proof.
  induction 1 as [|v t Hv _ IH]; cbn [length repeat]; [reflexivity|].
  now rewrite Hv, <- IH.
Qed.

Section Mixing.
Context {FR : Rounding}.

(** X9 (mixing in silence): for an unlocked sample of whole sample values
    and another sample of the same format that is silent, made of whole
    sample values and not longer, [mix] leaves the sample exactly as it
    was. *)
Theorem mix_with_silence (s other : Sample.t) :
  locked s = false -> 1 <= samplewidth s <= 4 ->
  samplewidth s = samplewidth other ->
  samplerate s = samplerate other ->
  nchannels s = nchannels other ->
  len (frames s) mod samplewidth s = 0 ->
  len (frames other) mod samplewidth s = 0 ->
  len (frames other) <= len (frames s) ->
  silent other ->
  mix other None true s = (s, Ok tt).
Proof.
  intros Hl Hw Ew Er Ec Hn Hno Hle Hs.
  rewrite mix_unfold by assumption. cbv zeta.
  set (w := samplewidth s) in *.
  replace (len (frames s) <? len (frames other)) with false
    by (symmetry; apply Z.ltb_ge; lia).
  set (f2 := if len (frames other) <? len (frames s)
             then (frames s, frames other ++ zeros (len (frames s) - len (frames other)))
             else (frames s, frames other)).
  assert (E1 : fst f2 = frames s) by (unfold f2; now destruct (_ <? _)).
  assert (E2 : len (snd f2) = len (frames s)).
  { unfold f2. destruct (Z.ltb_spec (len (frames other)) (len (frames s)));
      cbn [snd]; [rewrite len_app, len_zeros|]; lia. }
  assert (E3 : Forall (fun v => v = 0) (audioop.samples w (snd f2))).
  { unfold silent, values in Hs. rewrite <- Ew in Hs. fold w in Hs.
    unfold f2. destruct (Z.ltb_spec (len (frames other)) (len (frames s)));
      cbn [snd]; [|exact Hs].
    rewrite samples_app by (assumption || lia).
    apply Forall_app. split; [exact Hs|].
    rewrite samples_zeros by lia. apply Forall_forall.
    intros v Hv. now apply repeat_spec in Hv. }
  rewrite E1, add_eq by (assumption || lia).
  rewrite (silent_values _ E3), add_values_zeros.
  - rewrite frombuf_samples by (assumption || lia). now rewrite with_frames_same.
  - apply samples_in_range. lia.
  - rewrite !samples_count, E2. reflexivity.
Qed.

(** X10 ([mix] gives the same frames either way round): for two unlocked
    samples of the same format, both of whole sample values, mixing the
    second into the first and the first into the second both return, and
    leave the same frames. *)
Theorem mix_commutes (a b : Sample.t) :
  locked a = false -> locked b = false -> 1 <= samplewidth a <= 4 ->
  samplewidth a = samplewidth b ->
  samplerate a = samplerate b ->
  nchannels a = nchannels b ->
  len (frames a) mod samplewidth a = 0 ->
  len (frames b) mod samplewidth a = 0 ->
  exists a' b',
    mix b None true a = (a', Ok tt) /\
    mix a None true b = (b', Ok tt) /\
    frames a' = frames b'.
Proof.
  intros Hla Hlb Hw Ew Er Ec Hna Hnb.
  rewrite (mix_unfold b a true) by assumption.
  rewrite (mix_unfold a b true) by (assumption || (symmetry; assumption)).
  cbv zeta. rewrite <- Ew. set (w := samplewidth a) in *.
  assert (Hz : forall k, 0 <= k -> k mod w = 0 -> len (zeros k) mod w = 0).
  { intros k Hk Hkw. rewrite len_zeros. now rewrite Z.max_r by lia. }
  destruct (Z.ltb_spec (len (frames a)) (len (frames b))) as [Hlt|Hge].
  - replace (len (frames b) <? len (frames a)) with false
      by (symmetry; apply Z.ltb_ge; lia).
    cbn [fst snd].
    assert (Hd : (len (frames b) - len (frames a)) mod w = 0).
    { rewrite Zminus_mod, Hna, Hnb. now rewrite Z.mod_0_l by lia. }
    rewrite !add_eq;
      try assumption; try (rewrite len_app, len_zeros; lia);
      try (rewrite len_app, Z.add_mod, Hna, Hz by lia; now rewrite Z.mod_0_l by lia).
    eexists _, _. split; [reflexivity|]. split; [reflexivity|].
    simpl_state. now rewrite add_values_comm.
  - destruct (Z.ltb_spec (len (frames b)) (len (frames a))) as [Hlt|Hge'].
    + cbn [fst snd].
      assert (Hd : (len (frames a) - len (frames b)) mod w = 0).
      { rewrite Zminus_mod, Hna, Hnb. now rewrite Z.mod_0_l by lia. }
      rewrite !add_eq;
        try assumption; try (rewrite len_app, len_zeros; lia);
        try (rewrite len_app, Z.add_mod, Hnb, Hz by lia; now rewrite Z.mod_0_l by lia).
      eexists _, _. split; [reflexivity|]. split; [reflexivity|].
      simpl_state. now rewrite add_values_comm.
    + cbn [fst snd]. rewrite !add_eq by (assumption || lia).
      eexists _, _. split; [reflexivity|]. split; [reflexivity|].
      simpl_state. now rewrite add_values_comm.
Qed.

End Mixing.

(** *** Arrays of values *)

Lemma checked_item_ok (w v : Z) :
  in_range w v -> array.checked_item w v = Ok v.
Proof.
  intros [Hlo Hhi]. unfold array.checked_item.
  replace (audioop.minval w <=? v) with true by (symmetry; apply Z.leb_le; lia).
  replace (v <=? audioop.maxval w) with true by (symmetry; apply Z.leb_le; lia).
  reflexivity.
Qed.

Lemma checked_item_overflow (w v : Z) :
  ~ in_range w v -> array.checked_item w v = Raise OverflowError.
Proof.
  intros H. unfold array.checked_item.
  destruct (Z.leb_spec (audioop.minval w) v), (Z.leb_spec v (audioop.maxval w));
    try reflexivity.
  exfalso. apply H. split; assumption.
Qed.

Lemma in_range_dec (w v : Z) : {in_range w v} + {~ in_range w v}.
Proof.
  unfold in_range.
  destruct (Z_le_dec (audioop.minval w) v), (Z_le_dec v (audioop.maxval w));
    (left; lia) || (right; lia).
Qed.

Lemma mapM_checked_ok (w : Z) (vals : list Z) :
  Forall (in_range w) vals -> mapM (array.checked_item w) vals = Ok vals.
Proof.
  induction 1 as [|v t Hv _ IH]; cbn [mapM]; [reflexivity|].
  now rewrite checked_item_ok, IH.
Qed.

Lemma mapM_checked_overflow (w : Z) (vals : list Z) :
  ~ Forall (in_range w) vals ->
  mapM (array.checked_item w) vals = Raise OverflowError.
Proof.
  induction vals as [|v t IH]; intros H; cbn [mapM].
  - exfalso. apply H. constructor.
  - destruct (in_range_dec w v) as [Hv|Hv].
    + rewrite checked_item_ok by exact Hv. cbn [rbind].
      rewrite IH; [reflexivity|].
      intros Ht. apply H. now constructor.
    + now rewrite checked_item_overflow.
Qed.

Lemma from_raw_frames_valid (f : list byte) (w rate nch : Z) :
  2 <= w <= 4 -> 1 < rate -> 1 <= nch <= 2 ->
  from_raw_frames f w rate nch = Ok (mkSample f w rate nch false None).
Proof.
  intros Hw Hr Hc. unfold from_raw_frames.
  replace ((1 <=? nch) && (nch <=? 2)) with true
    by (symmetry; apply andb_true_iff; split; apply Z.leb_le; lia).
  replace ((2 <=? w) && (w <=? 4)) with true
    by (symmetry; apply andb_true_iff; split; apply Z.leb_le; lia).
  replace (1 <? rate) with true by (symmetry; apply Z.ltb_lt; lia).
  reflexivity.
Qed.

Lemma get_frame_array_of (w rate nch : Z) (vals : list Z) :
  w = 2 \/ w = 4 -> Forall (in_range w) vals ->
  get_frame_array (mkSample (audioop.frombuf w vals) w rate nch false None)
  = Ok (w, vals).
Proof.
  intros Hw Hr. unfold get_frame_array, get_array. simpl_state.
  assert (E : array.itemsize_of_width w = Ok w) by (destruct Hw as [-> | ->]; reflexivity).
  rewrite E. cbn [rbind]. unfold array.frombytes.
  rewrite len_frombuf_mod by lia. cbn [Z.eqb rbind].
  now rewrite samples_frombuf by (assumption || lia).
Qed.

(** X11 ([from_array] on a list of integers): with valid rate and channel
    count, a list whose values all fit 16 bits gives a 16-bit sample, a list
    with a value that does not fit 16 bits but whose values all fit 32 bits
    gives a 32-bit sample, and in both cases [get_frame_array] of the sample
    gives the list back; a list with a value that does not fit 32 bits is an
    [OverflowError]. *)
Theorem from_array_round_trip (vals : list Z) (rate nch : Z) :
  1 < rate -> 1 <= nch <= 2 ->
  (Forall (in_range 2) vals ->
   exists s, from_array_list vals rate nch = Ok s /\ samplewidth s = 2 /\
             samplerate s = rate /\ nchannels s = nch /\
             values s = vals /\ get_frame_array s = Ok (2, vals)) /\
  (~ Forall (in_range 2) vals -> Forall (in_range 4) vals ->
   exists s, from_array_list vals rate nch = Ok s /\ samplewidth s = 4 /\
             samplerate s = rate /\ nchannels s = nch /\
             values s = vals /\ get_frame_array s = Ok (4, vals)) /\
  (~ Forall (in_range 4) vals ->
   from_array_list vals rate nch = Raise OverflowError).
Proof.
  intros Hr Hc.
  assert (Pre : forall k : result Sample.t,
            (if negb ((1 <=? nch) && (nch <=? 2)) then Raise AssertionError
             else if negb (1 <? rate) then Raise AssertionError else k) = k).
  { intros k.
    replace ((1 <=? nch) && (nch <=? 2)) with true
      by (symmetry; apply andb_true_iff; split; apply Z.leb_le; lia).
    replace (1 <? rate) with true by (symmetry; apply Z.ltb_lt; lia).
    reflexivity. }
  assert (Narrow : forall v, in_range 2 v -> in_range 4 v).
  { intros v [Hlo Hhi]. unfold in_range in *.
    change (audioop.minval 2) with (-32768) in Hlo.
    change (audioop.maxval 2) with 32767 in Hhi.
    change (audioop.minval 4) with (-2147483648).
    change (audioop.maxval 4) with 2147483647. lia. }
  split; [|split].
  - intros H2. unfold from_array_list. rewrite Pre.
    rewrite mapM_checked_ok by exact H2.
    rewrite from_raw_frames_valid by (assumption || lia).
    eexists. split; [reflexivity|]. simpl_state.
    repeat split.
    + unfold values, array.tobytes. simpl_state.
      now rewrite samples_frombuf by (assumption || lia).
    + apply get_frame_array_of; [now left|exact H2].
  - intros H2 H4. unfold from_array_list. rewrite Pre.
    rewrite mapM_checked_overflow by exact H2.
    rewrite mapM_checked_ok by exact H4. cbn [rbind].
    rewrite from_raw_frames_valid by (assumption || lia).
    eexists. split; [reflexivity|]. simpl_state.
    repeat split.
    + unfold values, array.tobytes. simpl_state.
      now rewrite samples_frombuf by (assumption || lia).
    + apply get_frame_array_of; [now right|exact H4].
  - intros H4. unfold from_array_list. rewrite Pre.
    assert (H2 : ~ Forall (in_range 2) vals).
    { intros H2. apply H4. eapply Forall_impl; [|exact H2]. exact Narrow. }
    rewrite mapM_checked_overflow by exact H2.
    now rewrite mapM_checked_overflow by exact H4.
Qed.

(** *** Peak and root mean square *)

Section Loudness.
Context {FR : Rounding} {SM : StandardModel FR}.
Variable sqrt : Q -> Q.
Hypothesis sqrt_nonneg : forall x, (0 <= x)%Q -> (0 <= sqrt x)%Q.
Hypothesis sqrt_below :
  forall (x : Q) (p : Z),
    0 <= p <= 2 ^ 53 -> (0 <= x)%Q -> (x <= inject_Z (p * p))%Q ->
    (sqrt x <= inject_Z p)%Q.

(** While the sum of the squares stays within 2^53 the doubles hold it
    exactly. *)
Lemma sum_squares_exact (vals : list Z) (p a : Z) (acc : Q) :
  (forall v, In v vals -> Z.abs v <= p) ->
  0 <= a -> a + len vals * (p * p) <= 2 ^ 53 -> (acc == inject_Z a)%Q ->
  exists t,
    (fold_left (fun acc v => fadd acc (fmul (inject_Z v) (inject_Z v))) vals acc
     == inject_Z t)%Q /\
    a <= t <= a + len vals * (p * p).
Proof.
  revert a acc. induction vals as [|v rest IH]; intros a acc Hp Ha Hb Hacc.
  - exists a. cbn [fold_left]. split; [exact Hacc|]. unfold len. cbn. lia.
  - cbn [fold_left].
    assert (Hlen : len (v :: rest) = len rest + 1).
    { unfold len. cbn [List.length]. lia. }
    rewrite Hlen in *.
    pose proof (len_nonneg rest) as Hr.
    pose proof (Hp v (or_introl eq_refl)) as Hv.
    assert (Hsq : 0 <= v * v <= p * p) by nia.
    assert (Hpp : 0 <= len rest * (p * p)) by nia.
    destruct (IH (a + v * v)
                 (fadd acc (fmul (inject_Z v) (inject_Z v)))
                 (fun y Hy => Hp y (or_intror Hy))) as (t & Et & Ht).
    + lia.
    + lia.
    + unfold fadd. rewrite <- (rnd_int (a + v * v)) by lia.
      apply rnd_proper. rewrite fmul_int by lia.
      rewrite Hacc, <- inject_Z_plus. reflexivity.
    + exists t. split; [exact Et | lia].
Qed.

(** X12 (the root mean square never exceeds the peak): on a sample of whole
    sample values whose squares sum to at most 2^53, however large each may
    be, so that the doubles of [audioop.rms] hold the sum exactly, the [rms]
    and [maximum] properties both return, and [0 <= rms <= maximum].  The
    square root is any function that is not negative and that, for an
    integer [p] that the doubles hold, is at most [p] on the numbers up to
    [p * p], as a correctly rounded root is. *)
Theorem rms_at_most_maximum (s : Sample.t) :
  1 <= samplewidth s <= 4 -> len (frames s) mod samplewidth s = 0 ->
  len (values s) * (peak (values s) * peak (values s)) <= 2 ^ 53 ->
  exists r m, rms sqrt s = Ok r /\ maximum s = Ok m /\ 0 <= r <= m.
Proof.
  intros Hw Hn Hb. unfold values in Hb. set (w := samplewidth s) in *.
  set (vals := audioop.samples w (frames s)) in *.
  set (p := peak vals) in *.
  pose proof (peak_nonneg vals) as Hp. fold p in Hp.
  unfold rms, audioop.rms, maximum. fold w.
  rewrite check_parameters_ok, max_ok by assumption. cbn [rbind]. fold vals p.
  destruct (Z.eqb_spec (len (frames s)) 0) as [E|E].
  - exists 0, p. repeat split; [lia | exact Hp].
  - eexists _, p. split; [reflexivity|]. split; [reflexivity|].
    assert (Hlen : len vals = len (frames s) / w)
      by (unfold vals; apply len_samples; lia).
    rewrite <- Hlen.
    assert (Hpos : 0 < len vals).
    { pose proof (len_samples_mul w (frames s) ltac:(lia) Hn) as Hm.
      fold vals in Hm. pose proof (len_nonneg (frames s)). nia. }
    destruct (sum_squares_exact vals p 0 0 (fun v Hv => peak_ge vals v Hv)
                ltac:(lia) ltac:(lia) (Qeq_refl _)) as (t & Et & Ht).
    unfold audioop.sum_squares.
    set (total := fold_left _ vals 0%Q) in *.
    pose proof (inject_Z_pos _ Hpos) as Npos.
    assert (Hlo : (0 <= total / inject_Z (len vals))%Q).
    { rewrite Et. apply Qle_shift_div_l; [exact Npos|]. rewrite Qmult_0_l.
      apply inject_Z_nonneg. lia. }
    assert (Hhi : (total / inject_Z (len vals) <= inject_Z (p * p))%Q).
    { rewrite Et. apply Qle_shift_div_r; [exact Npos|].
      rewrite <- inject_Z_mult, <- Zle_Qle. lia. }
    assert (Hpp : Z.abs (p * p) <= 2 ^ 53) by nia.
    apply Qtrunc_bounds; [lia| |].
    + apply sqrt_nonneg. unfold fdiv. now apply rnd_nonneg.
    + apply sqrt_below; [nia| |].
      * unfold fdiv. now apply rnd_nonneg.
      * unfold fdiv. now apply rnd_le_int.
Qed.

End Loudness.

(** With the rounding of binary64 and its square root, [audioop.rms] gives
    what the library gives also where the doubles round: the square of
    318281039 is beyond 2^53, and the root of the rounded mean comes out as
    225058681, one more than the integer part of the exact root mean
    square. *)
Example rms_of_rounded_squares :
  audioop.rms (FR := binary64) sqrt64 (audioop.frombuf 4 [0; 318281039]) 4
  = Ok 225058681 /\
  Z.sqrt ((0 * 0 + 318281039 * 318281039) / 2) = 225058680 /\
  audioop.rms (FR := binary64) sqrt64
              (audioop.frombuf 4 [2147483647; -2147483648; 5]) 4
  = Ok 1753413055 /\
  audioop.rms (FR := binary64) sqrt64 (audioop.frombuf 2 [30000; -32768; 123]) 2
  = Ok 25649.
Proof. repeat split; vm_compute; reflexivity. Qed.

Lemma delay_keeps_length_witness :
  let s := sample_of 2 4 1 [1; -2; 3; 4; 5; 6] in
  exists s',
    delay (FR := exact) (1 # 2) true s = (s', Ok tt) /\
    len (frames s') = len (frames s) /\
    same_format s s' /\ locked s' = false.
Proof.
  cbv zeta. apply (delay_keeps_length (FR := exact)).
  - reflexivity.
  - split; vm_compute; discriminate.
Defined.

Lemma mix_with_silence_witness :
  let s := sample_of 2 44100 1 [1; -2; 3] in
  let other := sample_of 2 44100 1 [0; 0] in
  mix (FR := exact) other None true s = (s, Ok tt).
Proof.
  cbv zeta. apply (mix_with_silence (FR := exact)).
  - reflexivity.
  - vm_compute. split; discriminate.
  - reflexivity.
  - reflexivity.
  - reflexivity.
  - reflexivity.
  - reflexivity.
  - vm_compute. discriminate.
  - repeat constructor.
Defined.

Lemma mix_commutes_witness :
  let a := sample_of 2 44100 1 [32767; -2; 3] in
  let b := sample_of 2 44100 1 [1; -32768] in
  exists a' b',
    mix (FR := exact) b None true a = (a', Ok tt) /\
    mix (FR := exact) a None true b = (b', Ok tt) /\
    frames a' = frames b'.
Proof.
  cbv zeta. apply (mix_commutes (FR := exact)).
  - reflexivity.
  - reflexivity.
  - vm_compute. split; discriminate.
  - reflexivity.
  - reflexivity.
  - reflexivity.
  - reflexivity.
  - reflexivity.
Defined.

Lemma from_array_round_trip_witness :
  let vals := [1; 40000; -3] in
  (Forall (in_range 2) vals ->
   exists s, from_array_list vals 44100 2 = Ok s /\ samplewidth s = 2 /\
             samplerate s = 44100 /\ nchannels s = 2 /\
             values s = vals /\ get_frame_array s = Ok (2, vals)) /\
  (~ Forall (in_range 2) vals -> Forall (in_range 4) vals ->
   exists s, from_array_list vals 44100 2 = Ok s /\ samplewidth s = 4 /\
             samplerate s = 44100 /\ nchannels s = 2 /\
             values s = vals /\ get_frame_array s = Ok (4, vals)) /\
  (~ Forall (in_range 4) vals ->
   from_array_list vals 44100 2 = Raise OverflowError).
Proof.
  cbv zeta. apply from_array_round_trip.
  - reflexivity.
  - vm_compute. split; discriminate.
Defined.

Lemma rms_at_most_maximum_witness :
  let s := sample_of 2 44100 1 [3; 4; -5] in
  exists r m,
    rms (FR := binary64) sqrt64 s = Ok r /\ maximum s = Ok m /\ 0 <= r <= m.
Proof.
  cbv zeta.
  apply (rms_at_most_maximum (FR := binary64)
           (SM := Binary64Facts.binary64_standard)).
  - intros x _. apply Binary64Facts.sqrt64_nonneg.
  - exact Binary64Facts.sqrt64_below.
  - vm_compute. split; discriminate.
  - reflexivity.
  - vm_compute. discriminate.
Defined.

End BufferFacts.

(** ** Playback, streaming and the level meter *)

Module StreamFacts.
Import Sample BytesFacts AudioopFacts CopyFacts LengthFacts RoundingFacts
       RoundingProper ValueFacts RoundTripFacts ConversionFacts.
Local Open Scope method_scope.
Local Abbreviation length := List.length.

(** X13 (the worker plays what is queued, in order): when every queued
    sample has at least one frame, the worker writes the frames of all of
    them in queue order; it then waits when the queue is used up, and when a
    [None] follows (what [close] puts) it exits there and leaves the items
    behind it in the queue. *)
Theorem worker_plays_in_order (samples : list Sample.t)
        (rest : list Output.item) (written : list (list byte)) :
  Forall nonempty samples ->
  Output.run (Output.mkOutputter written (map Some samples))
  = (Output.mkOutputter (written ++ map frames samples) [], Output.Waiting) /\
  Output.run (Output.mkOutputter written (map Some samples ++ None :: rest))
  = (Output.mkOutputter (written ++ map frames samples) rest, Output.Exited).
Proof.
  intros H. unfold Output.run. cbn [Output.queue Output.stream].
  revert written. induction H as [|s t (n & Hn & Hn0) _ IH]; intros written.
  - cbn [map app]. rewrite app_nil_r. split; reflexivity.
  - cbn [map app].
    rewrite !(WorkerFacts.run_items_sample s _ written n Hn Hn0).
    destruct (IH (written ++ [frames s])) as [IH1 IH2].
    rewrite IH1, IH2, <- !app_assoc. split; reflexivity.
Qed.

Section Streaming.
Context {FR : Rounding}.

Lemma asserts_pass (b1 b2 b3 : bool) (s s' : Sample.t) (u : unit) :
  (assert b1 ;; assert b2 ;; assert b3) s = (s', Ok u) ->
  s' = s /\ b1 = true /\ b2 = true /\ b3 = true.
Proof.
  unfold bind, assert, ret, raise.
  destruct b1, b2, b3; cbn; intros H; try discriminate.
  inversion H. repeat split.
Qed.

Lemma bind_ok_inv {A B} (m : M A) (k : A -> M B) (s s' : Sample.t) (b : B) :
  bind m k s = (s', Ok b) ->
  exists s1 a, m s = (s1, Ok a) /\ k a s1 = (s', Ok b).
Proof.
  unfold bind. destruct (m s) as [s1 [a|e]]; intros H; [|discriminate].
  now exists s1, a.
Qed.

(** What [normalized_samples] yields has passed its three assertions. *)
Lemma normalized_sample_pcm16 (g : Q) (s s' : Sample.t) (u : unit) :
  Output.normalized_sample g s = (s', Ok u) -> pcm16 s'.
Proof.
  unfold Output.normalized_sample. intros H.
  apply bind_ok_inv in H as (s0 & a0 & _ & H).
  apply bind_ok_inv in H as (s1 & u1 & _ & H).
  apply bind_ok_inv in H as (s1' & a1 & E1 & H).
  apply bind_ok_inv in H as (s2 & u2 & _ & H).
  apply bind_ok_inv in H as (s2' & a2 & E2 & H).
  unfold get in E2. injection E2 as <- <-.
  apply asserts_pass in H as (-> & Hc & Hr & Hw).
  apply Z.eqb_eq in Hc, Hr, Hw. repeat split; assumption.
Qed.

Lemma normalized_samples_pcm16 (samples : list Sample.t) (g : Q) :
  Forall pcm16 (fst (Output.normalized_samples samples g)) /\
  (snd (Output.normalized_samples samples g) = Ok tt ->
   length (fst (Output.normalized_samples samples g)) = length samples).
Proof.
  induction samples as [|s t [IH1 IH2]]; cbn [Output.normalized_samples].
  - split; [constructor|reflexivity].
  - destruct (Output.normalized_sample g s) as [s' [u|e]] eqn:E.
    + destruct (Output.normalized_samples t g) as [ys r]. cbn [fst snd] in *.
      split.
      * constructor; [|exact IH1]. now apply (normalized_sample_pcm16 g s s' u).
      * intros Hr. cbn [length]. now rewrite IH2.
    + cbn [fst snd]. split; [constructor|discriminate].
Qed.

Lemma fold_add_to_queue (ys : list Sample.t) (o : Output.SoundOutputter) :
  fold_left (fun o s => Output.add_to_queue (Some s) o) ys o
  = Output.mkOutputter (Output.stream o) (Output.queue o ++ map Some ys).
Proof.
  revert o. induction ys as [|y t IH]; intros o; cbn [fold_left map].
  - rewrite app_nil_r. now destruct o.
  - rewrite IH. unfold Output.add_to_queue. cbn [Output.stream Output.queue].
    now rewrite <- app_assoc.
Qed.

(** X14 (streaming never queues another format): whatever samples
    [play_samples] is given in asynchronous mode, and whether or not the
    generator ends in an exception, every item it adds to the queue is a
    sample of 16 bits, two channels and 44100 Hz; nothing is written to the
    device by the call itself, and when it returns normally there is one
    queued sample for each given one. *)
Theorem play_samples_queues_pcm16 (samples : list Sample.t)
        (o : Output.SoundOutputter) :
  exists ys,
    Output.queue (fst (Output.play_samples_async samples o))
    = Output.queue o ++ map Some ys /\
    Forall pcm16 ys /\
    Output.stream (fst (Output.play_samples_async samples o)) = Output.stream o /\
    (snd (Output.play_samples_async samples o) = Ok tt ->
     length ys = length samples).
Proof.
  unfold Output.play_samples_async.
  pose proof (normalized_samples_pcm16 samples 26000) as [H1 H2].
  destruct (Output.normalized_samples samples 26000) as [ys r].
  cbn [fst snd] in *. exists ys. rewrite fold_add_to_queue.
  cbn [Output.queue Output.stream]. repeat split; assumption.
Qed.

Lemma narrowed (g : Q) (s : Sample.t) :
  wf s -> locked s = false ->
  exists s1,
    (if negb (samplewidth s =? 2)
     then amplify g ;; make_16bit false else ret tt) s = (s1, Ok tt) /\
    samplewidth s1 = 2 /\ nchannels s1 = nchannels s /\
    samplerate s1 = samplerate s /\ locked s1 = false /\
    len (frames s1) = 2 * (len (frames s) / samplewidth s).
Proof.
  intros [(Hw & Hc & Hr) Ha] Hl. unfold aligned in Ha.
  assert (Hn : len (frames s) mod samplewidth s = 0).
  { apply Z.mod_divide in Ha; [|lia]. destruct Ha as [k Hk]. rewrite Hk.
    replace (k * (samplewidth s * nchannels s))
      with (k * nchannels s * samplewidth s) by ring.
    apply Z_mod_mult. }
  destruct (Z.eqb_spec (samplewidth s) 2) as [E|E]; cbn [negb].
  - exists s. unfold ret. repeat split; try assumption.
    rewrite E. apply Z.mod_divide in Hn; [|lia]. destruct Hn as [k Hk].
    rewrite E in Hk. rewrite Hk, Z.div_mul by lia. ring.
  - destruct (mul_ok (frames s) (samplewidth s) g ltac:(lia) Hn) as (f & Ef & Lf).
    exists (with_samplewidth 2
              (with_frames
                 (audioop.frombuf 2
                    (map (fun v => Z.shiftr (Z.shiftl v (32 - 8 * samplewidth s))
                                            (32 - 8 * 2))
                         (audioop.samples (samplewidth s) f)))
                 (with_frames f s))).
    split.
    + unfold bind at 1. rewrite (amplify_unlocked g s f Hl Ef).
      unfold make_16bit, bind, assert_unlocked, get, assert, ret, lift, modify.
      assert (B1 : (2 <=? samplewidth s) = true) by (apply Z.leb_le; lia).
      assert (B2 : (2 <? samplewidth s) = true) by (apply Z.ltb_lt; lia).
      repeat first [rewrite Hl | rewrite B1 | rewrite B2 | progress simpl_state].
      rewrite lin2lin_ok by (try lia; rewrite Lf; exact Hn).
      repeat first [rewrite Hl | rewrite B1 | rewrite B2 | progress simpl_state].
      reflexivity.
    + simpl_state. repeat split; try assumption.
      rewrite len_frombuf by lia. unfold len at 1. rewrite length_map.
      fold (len (audioop.samples (samplewidth s) f)).
      rewrite len_samples by lia. now rewrite Lf.
Qed.

Lemma widened (s1 : Sample.t) :
  samplewidth s1 = 2 -> 1 <= nchannels s1 <= 2 -> locked s1 = false ->
  len (frames s1) mod 2 = 0 ->
  exists s2,
    (if nchannels s1 =? 1 then stereo 1 1 else ret tt) s1 = (s2, Ok tt) /\
    samplewidth s2 = 2 /\ nchannels s2 = 2 /\
    samplerate s2 = samplerate s1 /\ locked s2 = false /\
    len (frames s2) * nchannels s1 = 2 * len (frames s1).
Proof.
  intros Hw Hc Hl Hn.
  destruct (Z.eqb_spec (nchannels s1) 1) as [E|E].
  - eexists. split.
    + unfold stereo, stereo_from_mono, bind, assert_unlocked, get, lift, modify.
      rewrite Hl, E. cbn [Z.eqb Pos.eqb]. rewrite Hl, E. cbn [Z.eqb Pos.eqb].
      rewrite tostereo_ok by (rewrite Hw; lia || assumption). reflexivity.
    + simpl_state. repeat split; try assumption.
      rewrite E, Hw, Z.mul_1_r.
      rewrite (len_pairs 2 _ (fun v => _) (fun v => _)) by lia.
      rewrite len_samples by lia.
      apply Z.mod_divide in Hn; [|lia]. destruct Hn as [k ->].
      rewrite Z.div_mul by lia. ring.
  - exists s1. unfold ret. repeat split; try assumption; try lia.
    replace (nchannels s1) with 2 by lia. ring.
Qed.

(** X15 (what the streaming generator accepts): for an unlocked sample of a
    valid format and whole frames, one turn of [normalized_samples] converts
    the sample in place to 16 bit and two channels and keeps its number of
    frames; the sample is then yielded when its rate is 44100, and refused
    with an assertion error, after the conversion, when it is not. *)
Theorem normalized_sample_accepts (g : Q) (s : Sample.t) :
  wf s -> locked s = false ->
  exists s',
    samplewidth s' = 2 /\ nchannels s' = 2 /\ samplerate s' = samplerate s /\
    Sample.length s' = Sample.length s /\
    (samplerate s = 44100 -> Output.normalized_sample g s = (s', Ok tt)) /\
    (samplerate s <> 44100 ->
     Output.normalized_sample g s = (s', Raise AssertionError)).
Proof.
  intros Hs Hl. pose proof Hs as [(Hw & Hc & Hr) Ha]. unfold aligned in Ha.
  destruct (narrowed g s Hs Hl) as (s1 & E1 & W1 & C1 & R1 & L1 & N1).
  assert (M1 : len (frames s1) mod 2 = 0)
    by (rewrite N1, Z.mul_comm; apply Z_mod_mult).
  destruct (widened s1 W1 ltac:(lia) L1 M1) as (s2 & E2 & W2 & C2 & R2 & L2 & N2).
  exists s2. split; [exact W2|]. split; [exact C2|].
  split; [congruence|]. split.
  - unfold Sample.length. rewrite W2, C2.
    replace (samplewidth s =? 0) with false by (symmetry; apply Z.eqb_neq; lia).
    replace (nchannels s =? 0) with false by (symmetry; apply Z.eqb_neq; lia).
    cbn [Z.eqb orb]. f_equal.
    apply Z.mod_divide in Ha; [|lia]. destruct Ha as [k Hk].
    assert (Hdiv : len (frames s) / samplewidth s = k * nchannels s).
    { rewrite Hk. replace (k * (samplewidth s * nchannels s))
        with (k * nchannels s * samplewidth s) by ring.
      now rewrite Z.div_mul by lia. }
    rewrite Hdiv in *. rewrite Z.div_mul by lia.
    rewrite C1 in N2.
    assert (Hf : len (frames s2) = 4 * k) by nia.
    rewrite Hf. replace (4 * k) with (k * 2 * 2) by ring.
    now rewrite !Z.div_mul by lia.
  - assert (Run : forall b,
              (samplerate s =? 44100) = b ->
              Output.normalized_sample g s
              = (s2, if b then Ok tt else Raise AssertionError)).
    { intros b Hb. unfold Output.normalized_sample.
      unfold bind at 1. unfold get at 1.
      unfold bind at 1. rewrite E1.
      unfold bind at 1. unfold get at 1.
      unfold bind at 1. rewrite E2.
      unfold bind, get, assert, ret, raise.
      rewrite C2, W2, R2, R1, Hb. cbn [Z.eqb Pos.eqb]. now destruct b. }
    split; intros Hrate.
    + apply (Run true). now apply Z.eqb_eq.
    + apply (Run false). now apply Z.eqb_neq.
Qed.

End Streaming.

Lemma worker_plays_in_order_witness :
  let a := sample_of 2 44100 2 [1; 2] in
  let b := sample_of 2 44100 2 [3; 4; 5; 6] in
  Output.run (Output.mkOutputter [] (map Some [a; b]))
  = (Output.mkOutputter ([] ++ map frames [a; b]) [], Output.Waiting) /\
  Output.run (Output.mkOutputter [] (map Some [a; b] ++ None :: [Some a]))
  = (Output.mkOutputter ([] ++ map frames [a; b]) [Some a], Output.Exited).
Proof.
  cbv zeta. apply worker_plays_in_order.
  repeat constructor.
  - exists 1. split; [reflexivity|discriminate].
  - exists 2. split; [reflexivity|discriminate].
Defined.

Lemma normalized_sample_accepts_witness :
  let s := sample_of 4 44100 1 [1; -2; 70000] in
  exists s',
    samplewidth s' = 2 /\ nchannels s' = 2 /\ samplerate s' = samplerate s /\
    Sample.length s' = Sample.length s /\
    (samplerate s = 44100 ->
     Output.normalized_sample (FR := exact) 26000 s = (s', Ok tt)) /\
    (samplerate s <> 44100 ->
     Output.normalized_sample (FR := exact) 26000 s = (s', Raise AssertionError)).
Proof.
  cbv zeta. apply (normalized_sample_accepts (FR := exact)).
  - repeat split; vm_compute; discriminate || reflexivity.
  - reflexivity.
Defined.

End StreamFacts.

Module MeterOrderFacts.
Import RoundingFacts LevelMeter.
Local Abbreviation length := List.length.

Lemma pymax_ge_r (a b : Q) : (b <= pymax a b)%Q.
Proof.
  unfold pymax, Qltb. destruct (Qle_bool b a) eqn:E; cbn [negb].
  - now apply Qle_bool_iff.
  - apply Qle_refl.
Qed.

Section Order.
Context {FR : Rounding}.
Variable log10 : Q -> Q.
Variable sqrt : Q -> Q.

Lemma update_peak_ge (level peak hold time dur : Q) :
  (level <= fst (update_peak level peak hold time dur))%Q.
Proof.
  unfold update_peak.
  set (p := if Qltb (rnd (4 # 10)) (fsub time hold)
            then fsub peak (fmul dur 30) else peak).
  destruct (Qle_bool p level) eqn:E; cbn [fst].
  - apply Qle_refl.
  - destruct (Qlt_le_dec level p) as [H|H]; [now apply Qlt_le_weak|].
    apply Qle_bool_iff in H. congruence.
Qed.

Lemma process_ordered (m : LevelMeter.t) (s : Sample.t) (r : Q * Q * Q * Q) :
  snd (process log10 sqrt s m) = Ok r ->
  ordered (_lowest m) r /\
  r = (level_left (fst (process log10 sqrt s m)), peak_left (fst (process log10 sqrt s m)),
       level_right (fst (process log10 sqrt s m)), peak_right (fst (process log10 sqrt s m))) /\
  _lowest (fst (process log10 sqrt s m)) = _lowest m /\
  _rms (fst (process log10 sqrt s m)) = _rms m.
Proof.
  unfold process.
  destruct (db_level log10 sqrt (_rms m) s) as [levels|e]; [|discriminate].
  destruct (Sample.duration s) as [dur|e]; [|discriminate].
  pose proof (update_peak_ge (pymax (fst levels) (_lowest m)) (peak_left m)
                (_peak_left_hold m) (fadd (_time m) dur) dur) as Hl.
  pose proof (update_peak_ge (pymax (snd levels) (_lowest m)) (peak_right m)
                (_peak_right_hold m) (fadd (_time m) dur) dur) as Hr.
  destruct (update_peak (pymax (fst levels) (_lowest m)) (peak_left m)
              (_peak_left_hold m) (fadd (_time m) dur) dur) as [pl hl].
  destruct (update_peak (pymax (snd levels) (_lowest m)) (peak_right m)
              (_peak_right_hold m) (fadd (_time m) dur) dur) as [pr hr].
  cbn [fst snd] in *. intros H. injection H as <-.
  repeat split; try assumption; apply pymax_ge_r.
Qed.

(** X16 (levels, floor and held peaks stay in order): whatever the samples
    and the state of the meter, when a sequence of [process] calls returns,
    there is one tuple (level left, peak left, level right, peak right) for
    each sample, and in each of them neither level is below the floor
    [lowest] and neither held peak is below the level of its channel; the
    floor and the mode of the meter are what they were. *)
Theorem meter_levels_ordered (samples : list Sample.t) (m : LevelMeter.t)
        (results : list (Q * Q * Q * Q)) :
  snd (process_all log10 sqrt samples m) = Ok results ->
  Forall (ordered (_lowest m)) results /\
  length results = length samples /\
  _lowest (fst (process_all log10 sqrt samples m)) = _lowest m /\
  _rms (fst (process_all log10 sqrt samples m)) = _rms m.
Proof.
  revert m results. induction samples as [|s rest IH]; intros m results.
  - cbn [process_all fst snd]. intros H. injection H as <-.
    repeat split. constructor.
  - cbn [process_all].
    pose proof (process_ordered m s) as Hp.
    destruct (process log10 sqrt s m) as [m1 [r|e]]; cbn [fst snd] in *;
      [|discriminate].
    destruct (Hp r eq_refl) as (Ho & _ & Elow & Erms).
    specialize (IH m1).
    destruct (process_all log10 sqrt rest m1) as [m2 [rs|e]]; cbn [fst snd] in *;
      [|discriminate].
    intros H. injection H as <-.
    destruct (IH rs eq_refl) as (Hall & Hlen & Elow2 & Erms2).
    rewrite Elow in Hall. repeat split.
    + constructor; assumption.
    + cbn [length]. now rewrite Hlen.
    + congruence.
    + congruence.
Qed.

End Order.

Lemma meter_levels_ordered_witness :
  let log10 := fun x : Q => if Qle_bool x (1 # 10000) then (-3)%Q else 0%Q in
  let sqrt := fun x : Q => inject_Z (Z.sqrt (Qfloor x)) in
  let samples := [sample_of 2 2 1 [0; 0]; sample_of 2 2 2 [30000; 0; 0; 0]] in
  let m := mkMeter false (-60) (-10) (-20) 0 0 0 0 0 in
  let results :=
    match snd (process_all (FR := exact) log10 sqrt samples m) with
    | Ok rs => rs
    | Raise _ => []
    end in
  Forall (ordered (_lowest m)) results /\
  length results = length samples /\
  _lowest (fst (process_all (FR := exact) log10 sqrt samples m)) = _lowest m /\
  _rms (fst (process_all (FR := exact) log10 sqrt samples m)) = _rms m.
Proof.
  cbv zeta. apply (meter_levels_ordered (FR := exact)).
  vm_compute. reflexivity.
Defined.

End MeterOrderFacts.

(** ** Joining, mixing at an offset and remixing *)

Module ComposeFacts.
Import Sample BytesFacts AudioopFacts CopyFacts MixFacts LengthFacts
       RoundingFacts RoundingProper ValueFacts RoundTripFacts ConversionFacts
       BufferFacts StreamFacts.
Local Open Scope method_scope.
Local Abbreviation length := List.length.

Section Cutting.
Context {FR : Rounding}.

(** X17 ([join] adds up the numbers of frames): for an unlocked sample and
    another one of the same format, both of a valid format and whole frames,
    [join] returns, the result is the frames of the first followed by those
    of the second, and its number of frames is the sum of the two; when the
    formats differ the call ends in an assertion error and the sample is
    left as it was. *)
Theorem join_adds_lengths (s other : Sample.t) :
  locked s = false -> wf s -> wf other ->
  (same_format s other ->
   exists s' n m,
     join other s = (s', Ok tt) /\
     frames s' = frames s ++ frames other /\
     Sample.length s = Ok n /\ Sample.length other = Ok m /\
     Sample.length s' = Ok (n + m)) /\
  (~ same_format s other -> join other s = (s, Raise AssertionError)).
Proof.
  intros Hl [(Hw & Hc & Hr) Ha] [(Hw' & Hc' & Hr') Ha'].
  unfold aligned in *. split.
  - intros (Ew & Er & Ec).
    exists (with_frames (frames s ++ frames other) s),
           (len (frames s) / samplewidth s / nchannels s),
           (len (frames other) / samplewidth s / nchannels s).
    assert (Z0 : (samplewidth s =? 0) = false) by (apply Z.eqb_neq; lia).
    assert (Z1 : (nchannels s =? 0) = false) by (apply Z.eqb_neq; lia).
    split; [|split; [reflexivity|split; [|split]]].
    + unfold join, bind, assert_unlocked, assert, get, modify, ret.
      rewrite Hl, Ew, Er, Ec, !Z.eqb_refl. reflexivity.
    + unfold Sample.length. now rewrite Z0, Z1.
    + unfold Sample.length. rewrite Ew, Ec, Z0, Z1. reflexivity.
    + unfold Sample.length. simpl_state. rewrite Z0, Z1. cbn [orb]. f_equal.
      rewrite Ew, Ec in Ha'.
      apply Z.mod_divide in Ha; [|lia]. destruct Ha as [a Ea].
      apply Z.mod_divide in Ha'; [|lia]. destruct Ha' as [b Eb].
      rewrite len_app, Ea, Eb.
      replace (a * (samplewidth s * nchannels s)
               + b * (samplewidth s * nchannels s))
        with ((a + b) * nchannels s * samplewidth s) by ring.
      replace (a * (samplewidth s * nchannels s))
        with (a * nchannels s * samplewidth s) by ring.
      replace (b * (samplewidth s * nchannels s))
        with (b * nchannels s * samplewidth s) by ring.
      now rewrite !Z.div_mul by lia.
  - intros Hne.
    unfold join, bind, assert_unlocked, assert, get, raise, ret.
    rewrite Hl.
    destruct (Z.eqb_spec (samplewidth s) (samplewidth other)) as [Ew|]; [|reflexivity].
    destruct (Z.eqb_spec (samplerate s) (samplerate other)) as [Er|]; [|reflexivity].
    destruct (Z.eqb_spec (nchannels s) (nchannels other)) as [Ec|]; [|reflexivity].
    exfalso. apply Hne. repeat split; symmetry; assumption.
Qed.

(** [mix_at] at an offset: the buffer is grown when the other sample ends
    beyond it, and the mixed part replaces what was there. *)
Lemma mix_at_grows (s other : Sample.t) (seconds : Q) :
  locked s = false -> 1 <= samplewidth s <= 4 ->
  samplewidth s = samplewidth other ->
  samplerate s = samplerate other ->
  nchannels s = nchannels other ->
  len (frames other) mod samplewidth s = 0 ->
  ~ (seconds == 0)%Q -> 0 <= frame_idx s seconds ->
  exists s',
    mix_at seconds other None s = (s', Ok tt) /\
    same_format s s' /\ locked s' = false /\
    len (frames s')
    = Z.max (len (frames s)) (frame_idx s seconds + len (frames other)).
Proof.
  intros Hl Hw Ew Er Ec Hn Hs Hi.
  set (start := frame_idx s seconds) in *.
  set (olen := len (frames other)).
  pose proof (len_nonneg (frames other)) as Ho. fold olen in Ho, Hn.
  pose proof (len_nonneg (frames s)) as Hls.
  set (grown := if len (frames s) <? start + olen
                then frames s ++ zeros (start + olen - len (frames s))
                else frames s).
  assert (Lg : len grown = Z.max (len (frames s)) (start + olen)).
  { unfold grown. destruct (Z.ltb_spec (len (frames s)) (start + olen)).
    - rewrite len_app, len_zeros. lia.
    - lia. }
  assert (Lmix : len (slice grown start (start + olen)) = olen).
  { rewrite len_slice, Lg. unfold norm_idx.
    destruct (Z.ltb_spec (start + olen) 0), (Z.ltb_spec start 0); lia. }
  destruct (add_ok (slice grown start (start + olen)) (frames other)
                   (samplewidth s) Hw) as (mixed & Emix & _ & Lmixed).
  { now rewrite Lmix. }
  { exact Lmix. }
  exists (with_frames
            (slice_to grown start ++ mixed ++ slice_from grown (start + olen)) s).
  split; [|split; [repeat split|split; [exact Hl|]]].
  - unfold mix_at.
    replace (Qeq_bool seconds 0) with false
      by (symmetry; apply not_true_is_false; intros B;
          apply Qeq_bool_iff in B; contradiction).
    unfold bind, assert_unlocked, assert, get, lift, modify, ret,
      _mix_split_frames, _mix_grow_if_needed, _mix_join_frames, bind, get,
      modify, ret.
    rewrite Hl, Ew, Er, Ec, !Z.eqb_refl. rewrite <- Ew.
    cbn [limited_frames]. fold start. fold olen.
    unfold grown in *.
    destruct (len (frames s) <? start + olen); simpl_state;
      rewrite Emix; simpl_state; reflexivity.
  - simpl_state. rewrite !len_app, len_slice_to, len_slice_from, Lmixed, Lmix, Lg.
    unfold norm_idx.
    destruct (Z.ltb_spec (start + olen) 0), (Z.ltb_spec start 0); lia.
Qed.

(** X18 ([mix_at] extends the sample when needed and never shortens it): for
    an unlocked sample and another sample of the same format whose buffer is
    whole sample values, at an offset that [frame_idx] takes, that is not 0
    and whose frame index is not negative, [mix_at] returns, keeps the
    format, and the buffer length becomes the larger of the old length and
    the end of the mixed-in sample. *)
Theorem mix_at_extends (s other : Sample.t) (seconds : Q) :
  locked s = false -> 1 <= samplewidth s <= 4 ->
  samplewidth s = samplewidth other ->
  samplerate s = samplerate other ->
  nchannels s = nchannels other ->
  len (frames other) mod samplewidth s = 0 ->
  indexable s seconds ->
  ~ (seconds == 0)%Q -> 0 <= frame_idx s seconds ->
  exists s',
    mix_at seconds other None s = (s', Ok tt) /\
    same_format s s' /\
    len (frames s')
    = Z.max (len (frames s)) (frame_idx s seconds + len (frames other)).
Proof.
  intros Hl Hw Ew Er Ec Hn _ Hs Hi.
  destruct (mix_at_grows s other seconds Hl Hw Ew Er Ec Hn Hs Hi)
    as (s' & E & F & _ & L).
  exists s'. split; [exact E|]. split; [exact F|exact L].
Qed.

End Cutting.

Lemma frames_lr_flat (vals : list Z) (n : nat) :
  length vals = (2 * n)%nat ->
  flat_map (fun p => [fst p; snd p]) (audioop.frames_lr vals) = vals.
Proof.
  revert vals. induction n as [|n IH]; intros vals H.
  - destruct vals; [reflexivity|cbn in H; lia].
  - destruct vals as [|l [|r t]]; cbn in H; try lia.
    cbn [audioop.frames_lr flat_map fst snd app]. rewrite IH by lia. reflexivity.
Qed.

Lemma frames_lr_in_range (w : Z) (vals : list Z) (n : nat) :
  (length vals <= n)%nat -> Forall (in_range w) vals ->
  Forall (fun p => in_range w (fst p) /\ in_range w (snd p))
         (audioop.frames_lr vals).
Proof.
  revert vals. induction n as [|n IH]; intros vals Hn H.
  - destruct vals; [constructor|cbn in Hn; lia].
  - destruct vals as [|l [|r t]]; cbn [audioop.frames_lr]; try constructor.
    + inversion H as [|? ? Hl Ht]; subst. inversion Ht; subst. now split.
    + apply IH; [cbn in Hn; lia|].
      inversion H as [|? ? Hl Ht]; subst. now inversion Ht.
Qed.

Lemma clip_add_zero_l (w v : Z) : in_range w v -> audioop.clip_add w 0 v = v.
Proof. intros [Hlo Hhi]. unfold audioop.clip_add. lia. Qed.

Lemma add_values_channels (w : Z) (pairs : list (Z * Z)) :
  Forall (fun p => in_range w (fst p) /\ in_range w (snd p)) pairs ->
  add_values w (flat_map (fun v => [v * 1; v * 0]) (map fst pairs))
               (flat_map (fun v => [v * 0; v * 1]) (map snd pairs))
  = flat_map (fun p => [fst p; snd p]) pairs.
Proof.
  unfold add_values.
  induction 1 as [|[l r] t [Hl Hr] _ IH]; [reflexivity|].
  cbn [map flat_map app combine fst snd] in *.
  rewrite IH, !Z.mul_1_r, !Z.mul_0_r.
  now rewrite clip_add_zero, clip_add_zero_l.
Qed.

Section Remix.
Context {FR : Rounding} {SM : StandardModel FR}.

Lemma tomono_pick (frag : list byte) (w : Z) (x y : Q) (a b : Z) :
  1 <= w <= 4 -> len frag mod (w * 2) = 0 ->
  (x == inject_Z a)%Q -> (y == inject_Z b)%Q ->
  (a = 1 /\ b = 0) \/ (a = 0 /\ b = 1) ->
  audioop.tomono frag w x y
  = Ok (audioop.frombuf w
          (map (fun p => fst p * a + snd p * b)
               (audioop.frames_lr (audioop.samples w frag)))).
Proof.
  intros Hw Hn Ex Ey Hab. rewrite tomono_ok by assumption.
  do 2 f_equal. apply map_ext_in. intros [l r] Hp. cbn [fst snd].
  pose proof (frames_lr_in_range w (audioop.samples w frag) _ (le_n _)
                (samples_in_range w frag ltac:(lia))) as Hall.
  rewrite Forall_forall in Hall. destruct (Hall _ Hp) as [Hl Hr].
  now apply picked.
Qed.

Lemma stereo_from_mono_unit (s : Sample.t) (x y : Q) (a b : Z) :
  locked s = false -> nchannels s = 1 -> 1 <= samplewidth s <= 4 ->
  len (frames s) mod samplewidth s = 0 ->
  (x == inject_Z a)%Q -> (y == inject_Z b)%Q -> 0 <= a <= 1 -> 0 <= b <= 1 ->
  stereo_from_mono x y s
  = (with_nchannels 2
       (with_frames
          (audioop.frombuf (samplewidth s)
             (flat_map (fun v => [v * a; v * b]) (values s))) s), Ok tt).
Proof.
  intros Hl Hc Hw Hn Ex Ey Ha Hb.
  rewrite <- (stereo_from_mono_values s x y a b Hl Hc Hw Hn Ex Ey Ha Hb).
  unfold stereo, bind, assert_unlocked, get. rewrite Hl, Hc. reflexivity.
Qed.

(** X19 ([stereo()] on a stereo sample loses nothing): on an unlocked
    stereo sample of whole frames, [stereo] with its default factors 1.0,
    which separates the two channels and mixes them together again, returns
    and leaves the sample exactly as it was. *)
Theorem stereo_on_stereo_is_identity (s : Sample.t) :
  locked s = false -> nchannels s = 2 -> 1 <= samplewidth s <= 4 ->
  len (frames s) mod (samplewidth s * 2) = 0 ->
  stereo 1 1 s = (s, Ok tt).
Proof.
  intros Hl Hc Hw Ha. set (w := samplewidth s) in *.
  assert (Hn : len (frames s) mod w = 0).
  { apply Z.mod_divide in Ha; [|lia]. destruct Ha as [k Hk]. rewrite Hk.
    replace (k * (w * 2)) with (k * 2 * w) by ring. apply Z_mod_mult. }
  set (vals := audioop.samples w (frames s)).
  set (pairs := audioop.frames_lr vals).
  assert (Hvals : Forall (in_range w) vals) by (apply samples_in_range; lia).
  assert (Hpairs : Forall (fun p => in_range w (fst p) /\ in_range w (snd p)) pairs).
  { apply (frames_lr_in_range w vals _ (le_n _) Hvals). }
  assert (Heven : exists n, length vals = (2 * n)%nat).
  { apply Z.mod_divide in Ha; [|lia]. destruct Ha as [k Hk].
    exists (Z.to_nat k). unfold vals. rewrite samples_count, Hk.
    replace (k * (w * 2)) with (k * 2 * w) by ring.
    rewrite Z.div_mul by lia.
    pose proof (len_nonneg (frames s)). assert (0 <= k) by nia. lia. }
  destruct Heven as [n Heven].
  set (Ls := map fst pairs). set (Rs := map snd pairs).
  assert (HLs : Forall (in_range w) Ls).
  { apply Forall_map. eapply Forall_impl; [|exact Hpairs]. now intros p [H _]. }
  assert (HRs : Forall (in_range w) Rs).
  { apply Forall_map. eapply Forall_impl; [|exact Hpairs]. now intros p [_ H]. }
  assert (EL : audioop.tomono (frames s) w 1 0 = Ok (audioop.frombuf w Ls)).
  { rewrite (tomono_pick (frames s) w 1 0 1 0) by (reflexivity || auto).
    do 2 f_equal. apply map_ext. intros p. ring. }
  assert (ER : audioop.tomono (frames s) w 0 1 = Ok (audioop.frombuf w Rs)).
  { rewrite (tomono_pick (frames s) w 0 1 0 1) by (reflexivity || auto).
    do 2 f_equal. apply map_ext. intros p. ring. }
  set (sL := with_nchannels 1 (with_frames (audioop.frombuf w Ls) s)).
  set (cR := with_nchannels 1
               (with_frames (audioop.frombuf w Rs)
                  (mkSample (frames s) w (samplerate s) (nchannels s) false
                            (filename s)))).
  assert (Eright : right (mkSample (frames s) w (samplerate s) (nchannels s) false
                                   (filename s)) = (cR, Ok tt)).
  { unfold right, mono, bind, assert_unlocked, get, lift, modify, assert, ret.
    repeat first [rewrite Hc | progress simpl_state
                 | progress cbn [Z.eqb Pos.eqb]].
    rewrite ER. reflexivity. }
  assert (Eleft : left s = (sL, Ok tt)).
  { unfold left, mono, bind, assert_unlocked, get, lift, modify, assert, ret.
    repeat first [rewrite Hl | rewrite Hc | progress simpl_state
                 | progress cbn [Z.eqb Pos.eqb]].
    fold w. rewrite EL. reflexivity. }
  assert (Eamp : amplify 1 sL = (sL, Ok tt)).
  { erewrite amplify_unlocked; [|exact Hl|].
    - unfold sL. simpl_state. reflexivity.
    - unfold sL. simpl_state. fold w.
      apply mul_one_frames; [exact Hw|apply len_frombuf_mod; lia]. }
  set (s2 := with_nchannels 2
               (with_frames (audioop.frombuf w (flat_map (fun v => [v * 1; v * 0]) Ls))
                            sL)).
  assert (VL : values sL = Ls).
  { unfold values, sL. simpl_state. fold w.
    now rewrite samples_frombuf by (assumption || lia). }
  assert (VR : values cR = Rs).
  { unfold values, cR. simpl_state.
    now rewrite samples_frombuf by (assumption || lia). }
  assert (E1 : stereo_from_mono 1 0 sL = (s2, Ok tt)).
  { rewrite (stereo_from_mono_unit sL 1 0 1 0);
      try reflexivity; try lia; try exact Hl; try exact Hw.
    - rewrite VL. reflexivity.
    - unfold sL. simpl_state. fold w. apply len_frombuf_mod. lia. }
  set (o2 := with_nchannels 2
               (with_frames (audioop.frombuf w (flat_map (fun v => [v * 0; v * 1]) Rs))
                            cR)).
  assert (E2 : stereo_from_mono 0 1 cR = (o2, Ok tt)).
  { rewrite (stereo_from_mono_unit cR 0 1 0 1);
      try reflexivity; try lia; try exact Hw.
    - rewrite VR. reflexivity.
    - unfold cR. simpl_state. apply len_frombuf_mod. lia. }
  assert (Lpairs : forall (f g : Z -> Z) (l : list Z),
             len (flat_map (fun v => [f v; g v]) l) = 2 * len l).
  { intros f g l. unfold len.
    induction l as [|v t IH]; cbn [flat_map app List.length]; lia. }
  assert (Emix : mix o2 None true s2 = (s, Ok tt)).
  { rewrite mix_unfold; try reflexivity; [|exact Hl].
    cbv zeta. unfold s2, o2, sL, cR. simpl_state. fold w.
    assert (Leq : len (audioop.frombuf w (flat_map (fun v => [v * 1; v * 0]) Ls))
                  = len (audioop.frombuf w (flat_map (fun v => [v * 0; v * 1]) Rs))).
    { rewrite !len_frombuf, !Lpairs by lia. unfold Ls, Rs, len.
      now rewrite !length_map. }
    rewrite Leq, Z.ltb_irrefl. cbn [fst snd].
    rewrite add_eq; [|exact Hw|apply len_frombuf_mod; lia|exact Leq].
    assert (R1 : Forall (in_range w) (flat_map (fun v => [v * 1; v * 0]) Ls)).
    { apply Forall_flat_map. eapply Forall_impl; [|exact HLs].
      intros v Hv. rewrite Z.mul_1_r, Z.mul_0_r.
      apply Forall_cons; [assumption|].
      apply Forall_cons; [apply in_range_0; lia|apply Forall_nil]. }
    assert (R2 : Forall (in_range w) (flat_map (fun v => [v * 0; v * 1]) Rs)).
    { apply Forall_flat_map. eapply Forall_impl; [|exact HRs].
      intros v Hv. rewrite Z.mul_1_r, Z.mul_0_r.
      apply Forall_cons; [apply in_range_0; lia|].
      apply Forall_cons; [assumption|apply Forall_nil]. }
    rewrite !samples_frombuf by (assumption || lia).
    unfold Ls, Rs. rewrite add_values_channels by exact Hpairs.
    unfold pairs. rewrite (frames_lr_flat vals n Heven).
    unfold vals. rewrite frombuf_samples by (assumption || lia).
    destruct s. cbn in *. now subst. }
  unfold stereo. unfold bind at 1. unfold assert_unlocked at 1. rewrite Hl.
  unfold bind at 1. unfold get at 1. rewrite Hc. cbn [Z.eqb Pos.eqb].
  unfold bind at 1. unfold lift at 1. rewrite copy_ok. fold w.
  unfold bind at 1. unfold on at 1. rewrite Eright.
  unfold bind at 1. rewrite Eleft.
  unfold bind at 1. rewrite Eamp.
  cbn [fst].
  unfold stereo_mix.
  unfold bind at 1. unfold assert_unlocked at 1.
  replace (locked sL) with false by (symmetry; exact Hl).
  unfold bind at 1. unfold get at 1.
  replace (nchannels cR) with 1 by reflexivity.
  replace (samplerate cR) with (samplerate sL) by reflexivity.
  replace (samplewidth cR) with (samplewidth sL) by reflexivity.
  replace (nchannels sL) with 1 by reflexivity.
  rewrite !Z.eqb_refl. unfold assert at 1 2 3. unfold bind at 1 2 3, ret at 1 2 3.
  unfold bind at 1. rewrite E1.
  unfold bind at 1. unfold lift at 1. rewrite copy_ok.
  replace (mkSample (frames cR) (samplewidth cR) (samplerate cR) (nchannels cR)
                    false (filename cR)) with cR by reflexivity.
  unfold bind at 1. unfold on at 1. rewrite E2. cbn [fst].
  unfold mix_at. change (Qeq_bool 0 0) with true. cbv iota.
  exact Emix.
Qed.

End Remix.

Section Normalize.
Context {FR : Rounding}.
Variable ratecv : list byte -> Z -> Z -> Z -> Z -> result (list byte).

(** A sample that is in the streaming format already goes through the
    generator untouched, locked or not. *)
Lemma pcm16_passes (g : Q) (s : Sample.t) :
  pcm16 s -> Output.normalized_sample g s = (s, Ok tt).
Proof.
  intros (Hw & Hc & Hr). unfold Output.normalized_sample, bind, get, ret, assert.
  repeat first [rewrite Hw | rewrite Hc | rewrite Hr
               | progress cbn [Z.eqb Pos.eqb negb]].
  reflexivity.
Qed.

Lemma resampled (s : Sample.t) :
  locked s = false ->
  (samplerate s = 44100 \/
   exists f, ratecv (frames s) (samplewidth s) (nchannels s) (samplerate s) 44100
             = Ok f /\
             len f mod (samplewidth s * nchannels s) = 0) ->
  len (frames s) mod (samplewidth s * nchannels s) = 0 ->
  exists f,
    resample ratecv norm_samplerate s = (with_samplerate 44100 (with_frames f s), Ok tt) /\
    len f mod (samplewidth s * nchannels s) = 0.
Proof.
  intros Hl H Ha. unfold resample, bind, assert_unlocked, get, lift, modify, ret.
  rewrite Hl. unfold norm_samplerate.
  destruct (Z.eqb_spec 44100 (samplerate s)) as [E|E].
  - exists (frames s). split; [|exact Ha]. destruct s. cbn in *. now subst.
  - destruct H as [H|(f & Ef & Hf)]; [congruence|].
    exists f. rewrite Ef. split; [reflexivity|exact Hf].
Qed.

(** X20 ([normalize] gives what the streaming generator asks for): for an
    unlocked sample of a valid format and whole frames, whose rate is 44100
    already or for which the rate conversion returns whole frames,
    [normalize] returns a sample of 16 bits, two channels and 44100 Hz, of
    whole frames; [normalized_samples] then yields that sample as it is. *)
Theorem normalize_fits_streaming (g : Q) (s : Sample.t) :
  wf s -> locked s = false ->
  (samplerate s = 44100 \/
   exists f, ratecv (frames s) (samplewidth s) (nchannels s) (samplerate s) 44100
             = Ok f /\
             len f mod (samplewidth s * nchannels s) = 0) ->
  exists s',
    normalize ratecv s = (s', Ok tt) /\ pcm16 s' /\ wf s' /\
    Output.normalized_sample g s' = (s', Ok tt).
Proof.
  intros [(Hw & Hc & Hr) Ha] Hl Hrate. unfold aligned in Ha.
  destruct (resampled s Hl Hrate Ha) as (f0 & E0 & A0).
  set (w := samplewidth s) in *. set (c := nchannels s) in *.
  apply Z.mod_divide in A0; [|lia]. destruct A0 as [k Hk].
  assert (Hk0 : 0 <= k) by (pose proof (len_nonneg f0); nia).
  assert (N0 : len f0 mod w = 0).
  { rewrite Hk. replace (k * (w * c)) with (k * c * w) by ring. apply Z_mod_mult. }
  set (s0 := with_samplerate 44100 (with_frames f0 s)) in *.
  (* the width *)
  assert (S1 : exists f1,
             (if negb (samplewidth s0 =? norm_samplewidth)
              then f <- lift (audioop.lin2lin (frames s0) (samplewidth s0)
                                              norm_samplewidth) ;;
                   modify (fun s => with_samplewidth norm_samplewidth
                                      (with_frames f s))
              else ret tt) s0
             = (with_samplewidth 2 (with_frames f1 s0), Ok tt) /\
             len f1 = 2 * (k * c)).
  { unfold s0, norm_samplewidth. simpl_state. fold w.
    destruct (Z.eqb_spec w 2) as [E|E]; cbn [negb].
    - exists f0. unfold ret. split.
      + f_equal. destruct s. cbn in *. unfold w in E. cbn in E. now subst.
      + rewrite Hk, E. ring.
    - eexists. unfold bind, lift, modify.
      rewrite lin2lin_ok by (assumption || lia). split; [reflexivity|].
      rewrite len_frombuf by lia. unfold len at 1. rewrite length_map.
      fold (len (audioop.samples w f0)). rewrite len_samples by lia.
      rewrite Hk. replace (k * (w * c)) with (k * c * w) by ring.
      now rewrite Z.div_mul by lia. }
  destruct S1 as (f1 & E1 & L1).
  set (s1 := with_samplewidth 2 (with_frames f1 s0)) in *.
  assert (S2 : exists f2,
             (if nchannels s1 =? 1
              then f <- lift (audioop.tostereo (frames s1) (samplewidth s1) 1 1) ;;
                   modify (fun s => with_nchannels 2 (with_frames f s))
              else ret tt) s1
             = (with_nchannels 2 (with_frames f2 s1), Ok tt) /\
             len f2 = 4 * k).
  { unfold s1, s0. simpl_state. fold c.
    destruct (Z.eqb_spec c 1) as [E|E].
    - eexists. unfold bind, lift, modify.
      rewrite tostereo_ok;
        [|lia|rewrite L1; rewrite Z.mul_comm; apply Z_mod_mult].
      split; [reflexivity|].
      rewrite (len_pairs 2 _ (fun v => _) (fun v => _)) by lia.
      rewrite len_samples by lia. rewrite L1, E.
      replace (2 * (k * 1)) with (k * 2) by ring.
      rewrite Z.div_mul by lia. ring.
    - exists f1. unfold ret. split.
      + f_equal. destruct s. cbn in *. unfold c in *. cbn in *.
        assert (nchannels0 = 2) by lia. now subst.
      + rewrite L1. replace c with 2 by lia. ring. }
  destruct S2 as (f2 & E2 & L2).
  set (s2 := with_nchannels 2 (with_frames f2 s1)) in *.
  assert (P2 : pcm16 s2) by (repeat split).
  exists s2. split; [|split; [exact P2|split]].
  - unfold normalize. unfold bind at 1. unfold assert_unlocked at 1. rewrite Hl.
    unfold bind at 1. rewrite E0. fold s0.
    unfold bind at 1. unfold get at 1.
    unfold bind at 1. rewrite E1. fold s1.
    unfold bind at 1. unfold get at 1.
    exact E2.
  - split.
    + unfold format_ok, s2, s1, s0. simpl_state. lia.
    + unfold aligned, s2, s1, s0. simpl_state. rewrite L2.
      replace (4 * k) with (k * (2 * 2)) by ring. apply Z_mod_mult.
  - now apply pcm16_passes.
Qed.

End Normalize.

Lemma join_adds_lengths_witness :
  let s := sample_of 2 44100 2 [1; -2; 3; 4] in
  let other := sample_of 2 44100 2 [5; 6] in
  (same_format s other ->
   exists s' n m,
     join other s = (s', Ok tt) /\
     frames s' = frames s ++ frames other /\
     Sample.length s = Ok n /\ Sample.length other = Ok m /\
     Sample.length s' = Ok (n + m)) /\
  (~ same_format s other -> join other s = (s, Raise AssertionError)).
Proof.
  cbv zeta. apply join_adds_lengths.
  - reflexivity.
  - repeat split; vm_compute; discriminate || reflexivity.
  - repeat split; vm_compute; discriminate || reflexivity.
Defined.

Lemma mix_at_extends_witness :
  let s := sample_of 2 4 1 [1; 2; 3; 4] in
  let other := sample_of 2 4 1 [10; 20; 30] in
  exists s',
    mix_at (FR := exact) (3 # 4) other None s = (s', Ok tt) /\
    same_format s s' /\
    len (frames s')
    = Z.max (len (frames s))
            (frame_idx (FR := exact) s (3 # 4) + len (frames other)).
Proof.
  cbv zeta. apply (mix_at_extends (FR := exact)).
  - reflexivity.
  - vm_compute. split; discriminate.
  - reflexivity.
  - reflexivity.
  - reflexivity.
  - reflexivity.
  - split; vm_compute; discriminate.
  - vm_compute. discriminate.
  - vm_compute. discriminate.
Defined.

Lemma stereo_on_stereo_is_identity_witness :
  let s := sample_of 2 44100 2 [1; 2; -32768; 32767] in
  stereo (FR := exact) 1 1 s = (s, Ok tt).
Proof.
  cbv zeta.
  apply (stereo_on_stereo_is_identity (FR := exact) (SM := exact_standard)).
  - reflexivity.
  - reflexivity.
  - vm_compute. split; discriminate.
  - reflexivity.
Defined.

Lemma normalize_fits_streaming_witness :
  let ratecv := fun (frag : list byte) (_ _ _ _ : Z) => Ok frag in
  let s := sample_of 3 22050 1 [1; -2; 70000] in
  exists s',
    normalize (FR := exact) ratecv s = (s', Ok tt) /\ pcm16 s' /\ wf s' /\
    Output.normalized_sample (FR := exact) 26000 s' = (s', Ok tt).
Proof.
  cbv zeta. apply (normalize_fits_streaming (FR := exact)).
  - repeat split; vm_compute; discriminate || reflexivity.
  - reflexivity.
  - right. eexists. split; reflexivity.
Defined.

End ComposeFacts.

(** ** Amplitude modulation and comparison *)

Module ModulationFacts.
Import Sample BytesFacts AudioopFacts CopyFacts LengthFacts RoundingFacts
       RoundingProper ValueFacts RoundTripFacts ConversionFacts BufferFacts
       FadeFacts.
Local Open Scope method_scope.
Local Abbreviation length := List.length.

Lemma get_frame_array_ok (s : Sample.t) :
  samplewidth s = 2 \/ samplewidth s = 4 ->
  len (frames s) mod samplewidth s = 0 ->
  get_frame_array s = Ok (samplewidth s, values s).
Proof.
  intros Hw Hn. unfold get_frame_array, get_array.
  rewrite itemsize_ok by exact Hw. cbn [rbind]. unfold array.frombytes.
  rewrite Hn. reflexivity.
Qed.

Lemma fold_max_mem (l : list Z) (a : Z) :
  a <= fold_left Z.max l a /\
  (forall x, In x l -> x <= fold_left Z.max l a) /\
  (fold_left Z.max l a = a \/ In (fold_left Z.max l a) l).
Proof.
  revert a. induction l as [|y t IH]; intros a; cbn [fold_left].
  - split; [lia|]. split; [intros x []|now left].
  - destruct (IH (Z.max a y)) as (H1 & H2 & H3). split; [lia|]. split.
    + intros x [<-|Hx]; [lia|now apply H2].
    + destruct H3 as [E|Hin]; [|right; now right].
      rewrite E. destruct (Z.max_spec a y) as [[_ ->]|[_ ->]];
        [right; now left|now left].
Qed.

Lemma fold_min_mem (l : list Z) (a : Z) :
  fold_left Z.min l a <= a /\
  (forall x, In x l -> fold_left Z.min l a <= x) /\
  (fold_left Z.min l a = a \/ In (fold_left Z.min l a) l).
Proof.
  revert a. induction l as [|y t IH]; intros a; cbn [fold_left].
  - split; [lia|]. split; [intros x []|now left].
  - destruct (IH (Z.min a y)) as (H1 & H2 & H3). split; [lia|]. split.
    + intros x [<-|Hx]; [lia|now apply H2].
    + destruct H3 as [E|Hin]; [|right; now right].
      rewrite E. destruct (Z.min_spec a y) as [[_ ->]|[_ ->]];
        [now left|right; now left].
Qed.

(** The extremes of a waveform that is not empty. *)
Lemma wave_extremes (wave : list Z) :
  wave <> [] ->
  exists hi lo,
    seq_max wave = Ok hi /\ seq_min wave = Ok lo /\
    In hi wave /\ In lo wave /\
    forall m, In m wave -> lo <= m <= hi.
Proof.
  destruct wave as [|x rest]; [congruence|]. intros _.
  destruct (fold_max_mem rest x) as (A1 & A2 & A3).
  destruct (fold_min_mem rest x) as (B1 & B2 & B3).
  exists (fold_left Z.max rest x), (fold_left Z.min rest x).
  split; [reflexivity|]. split; [reflexivity|]. split; [|split].
  - destruct A3 as [-> | H]; [now left|now right].
  - destruct B3 as [-> | H]; [now left|now right].
  - intros m [<-|Hm]; [lia|]. split; [now apply B2|now apply A2].
Qed.

Lemma wave_index (wave : list Z) (i : Z) :
  wave <> [] -> In (nth (Z.to_nat (i mod len wave)) wave 0) wave.
Proof.
  intros H. apply nth_In.
  assert (0 < len wave) by (destruct wave; [congruence|unfold len; cbn; lia]).
  pose proof (Z.mod_pos_bound i (len wave) ltac:(lia)). unfold len in *. lia.
Qed.

Lemma mapM_first_raise {A B} (f : A -> result B) (a : A) (t : list A) (e : exn) :
  f a = Raise e -> mapM f (a :: t) = Raise e.
Proof. intros H. cbn [mapM]. now rewrite H. Qed.

Lemma mapM_some_raise {A B} (f : A -> result B) (l : list A) (e : exn) :
  (forall a, In a l -> (exists b, f a = Ok b) \/ f a = Raise e) ->
  (exists a, In a l /\ f a = Raise e) ->
  mapM f l = Raise e.
Proof.
  induction l as [|a t IH]; intros Hall (x & Hx & Ex); [destruct Hx|].
  cbn [mapM].
  destruct (Hall a (or_introl eq_refl)) as [[b Eb]|Ea]; [|now rewrite Ea].
  rewrite Eb. cbn [rbind].
  destruct Hx as [<-|Hx]; [congruence|].
  rewrite IH; [reflexivity| |now exists x].
  intros y Hy. apply Hall. now right.
Qed.

Lemma range_cons (n : Z) : 0 < n -> exists t, range n = 0 :: t.
Proof.
  intros H. unfold range.
  destruct (Z.to_nat n) as [|k] eqn:E; [lia|].
  cbn [seq map]. now eexists.
Qed.

Lemma in_range_iff (n i : Z) : In i (range n) <-> 0 <= i < n.
Proof.
  unfold range. rewrite in_map_iff. split.
  - intros (j & <- & Hj). apply in_seq in Hj. lia.
  - intros H. exists (Z.to_nat i). split; [lia|]. apply in_seq. lia.
Qed.

Lemma nth_map_range (g : Z -> Z) (n : Z) (j : nat) :
  (j < Z.to_nat n)%nat -> nth j (map g (range n)) 0 = g (Z.of_nat j).
Proof.
  intros Hj. unfold range. rewrite map_map.
  rewrite (nth_indep _ 0 (g (Z.of_nat 0)))
    by (rewrite length_map, length_seq; exact Hj).
  rewrite (map_nth (fun x => g (Z.of_nat x))), seq_nth by exact Hj.
  reflexivity.
Qed.

Lemma bytes_eqb_refl (a : list byte) : bytes_eqb a a = true.
Proof.
  induction a as [|x t IH]; [reflexivity|]. cbn [bytes_eqb].
  rewrite IH, andb_true_r. now apply Byte.byte_dec_lb.
Qed.

Section Modulation.
Context {FR : Rounding} {SM : StandardModel FR}.

(** The value of the waveform that the loop uses at index [i], scaled. *)
Lemma ratio_bounds (m biggest : Z) :
  0 < biggest -> - biggest <= m <= biggest ->
  (-1 <= fdiv (inject_Z m) (inject_Z biggest))%Q /\
  (fdiv (inject_Z m) (inject_Z biggest) <= 1)%Q.
Proof.
  intros Hb Hm. unfold fdiv.
  pose proof (inject_Z_pos biggest Hb) as Pb.
  assert (H1 : (inject_Z m <= inject_Z biggest)%Q) by (rewrite <- Zle_Qle; lia).
  assert (H2 : (inject_Z (- biggest) <= inject_Z m)%Q) by (rewrite <- Zle_Qle; lia).
  rewrite inject_Z_opp in H2.
  split.
  - apply (rnd_ge_int _ (-1)); [cbn; lia|].
    change (inject_Z (-1)) with (-1)%Q.
    apply Qle_shift_div_l; [exact Pb|]. lra.
  - apply (rnd_le_int _ 1); [cbn; lia|].
    change (inject_Z 1) with 1%Q.
    apply Qle_shift_div_r; [exact Pb|]. lra.
Qed.

Lemma modulated_bounds (v : Z) (q : Q) :
  Z.abs v <= 2 ^ 53 -> (-1 <= q)%Q -> (q <= 1)%Q ->
  - Z.abs v <= Qtrunc (fmul (inject_Z v) q) <= Z.abs v.
Proof.
  intros Hv Hlo Hhi.
  assert (Ha : (Qabs (inject_Z v) == inject_Z (Z.abs v))%Q).
  { unfold Qabs, inject_Z. reflexivity. }
  assert (Hn : (0 <= inject_Z (Z.abs v))%Q) by (apply inject_Z_nonneg; lia).
  assert (Hx : (inject_Z v <= inject_Z (Z.abs v))%Q) by (rewrite <- Zle_Qle; lia).
  assert (Hy : (inject_Z (- Z.abs v) <= inject_Z v)%Q) by (rewrite <- Zle_Qle; lia).
  rewrite inject_Z_opp in Hy.
  apply Qtrunc_bounds; [lia| |]; unfold fmul.
  - apply rnd_ge_int; [lia|]. rewrite inject_Z_opp.
    destruct (Qlt_le_dec (inject_Z v) 0); nra.
  - apply rnd_le_int; [lia|].
    destruct (Qlt_le_dec (inject_Z v) 0); nra.
Qed.

(** X21 (amplitude modulation by a waveform never makes a value larger): for
    an unlocked 16- or 32-bit sample of whole sample values, none of them the
    lowest value of the width, and a list of integers that holds a value other
    than 0, [modulate_amp] returns, keeps the format and the number of
    values, and leaves at every index a value whose magnitude is at most the
    one that was there. *)
Theorem modulate_amp_never_louder (s : Sample.t) (wave : list Z) :
  locked s = false ->
  samplewidth s = 2 \/ samplewidth s = 4 ->
  len (frames s) mod samplewidth s = 0 ->
  Forall (fun v => v <> audioop.minval (samplewidth s)) (values s) ->
  Forall (fun m => Z.abs m <= 2 ^ 53) wave ->
  (exists m, In m wave /\ m <> 0) ->
  exists s',
    modulate_amp (ModList wave) s = (s', Ok tt) /\
    same_format s s' /\
    length (values s') = length (values s) /\
    forall i, Z.abs (nth i (values s') 0) <= Z.abs (nth i (values s) 0).
Proof.
  intros Hl Hw Hn Hmin Hwave (m0 & Hm0 & Hm0nz).
  set (w := samplewidth s) in *.
  assert (Hw' : 1 <= w <= 4) by (destruct Hw as [E|E]; rewrite E; lia).
  assert (Hne : wave <> []) by (intros E; rewrite E in Hm0; destruct Hm0).
  destruct (wave_extremes wave Hne) as (hi & lo & Ehi & Elo & Ihi & Ilo & Hext).
  set (biggest := Z.max hi (Z.abs lo)).
  assert (Hbig : 0 < biggest).
  { pose proof (Hext m0 Hm0). unfold biggest. lia. }
  assert (Hall : forall m, In m wave -> - biggest <= m <= biggest).
  { intros m Hm. pose proof (Hext m Hm). unfold biggest. lia. }
  set (g := fun i : Z =>
              Qtrunc (fmul (inject_Z (nth (Z.to_nat i) (values s) 0))
                           (fdiv (inject_Z (nth (Z.to_nat (i mod len wave)) wave 0))
                                 (inject_Z biggest)))).
  assert (Hvals : Forall (in_range w) (values s)) by (apply samples_in_range; lia).
  assert (Hval : forall j, in_range w (nth j (values s) 0) /\
                           nth j (values s) 0 <> audioop.minval w).
  { intros j. destruct (Nat.lt_ge_cases j (length (values s))) as [Hj|Hj].
    - pose proof (nth_In (values s) 0 Hj) as Hin.
      rewrite Forall_forall in Hvals, Hmin. split; [now apply Hvals|now apply Hmin].
    - rewrite nth_overflow by exact Hj.
      pose proof (range_bounds w ltac:(lia)). split; [apply in_range_0; lia|lia]. }
  assert (Hg : forall i, - Z.abs (nth (Z.to_nat i) (values s) 0) <= g i
                         <= Z.abs (nth (Z.to_nat i) (values s) 0)).
  { intros i. unfold g.
    destruct (Hval (Z.to_nat i)) as [Hr _].
    pose proof (in_range_53 w _ Hw' Hr) as H53.
    destruct (ratio_bounds (nth (Z.to_nat (i mod len wave)) wave 0) biggest Hbig
                (Hall _ (wave_index wave i Hne))) as [Q1 Q2].
    now apply modulated_bounds. }
  assert (Hgr : forall i, in_range w (g i)).
  { intros i. specialize (Hg i). destruct (Hval (Z.to_nat i)) as [[Hlo Hhi] Hnm].
    pose proof (range_bounds w ltac:(lia)). unfold in_range. lia. }
  assert (Eout : mapM (fun i =>
                         if biggest =? 0 then Raise ZeroDivisionError
                         else array.checked_item w
                                (Qtrunc (fmul (inject_Z (nth (Z.to_nat i) (values s) 0))
                                              (fdiv (inject_Z
                                                       (nth (Z.to_nat (i mod len wave))
                                                            wave 0))
                                                    (inject_Z biggest)))))
                      (range (len (values s)))
                 = Ok (map g (range (len (values s))))).
  { apply mapM_ok. intros i _.
    replace (biggest =? 0) with false by (symmetry; apply Z.eqb_neq; lia).
    apply checked_item_ok. apply Hgr. }
  assert (Hout : Forall (in_range w) (map g (range (len (values s))))).
  { apply Forall_map. apply Forall_forall. intros i _. apply Hgr. }
  exists (with_frames (audioop.frombuf w (map g (range (len (values s))))) s).
  split; [|split; [|split]].
  - unfold modulate_amp, bind, assert_unlocked, get, lift, modify.
    rewrite Hl. rewrite get_frame_array_ok by assumption. fold w.
    rewrite Ehi, Elo. fold biggest. rewrite Eout. reflexivity.
  - repeat split.
  - unfold values at 1. simpl_state. fold w.
    rewrite samples_frombuf by (assumption || lia).
    rewrite length_map. unfold range. rewrite length_map, length_seq.
    unfold len. now rewrite Nat2Z.id.
  - intros i. unfold values at 1. simpl_state. fold w.
    rewrite samples_frombuf by (assumption || lia).
    destruct (Nat.lt_ge_cases i (length (values s))) as [Hi|Hi].
    + rewrite nth_map_range by (unfold len; lia).
      specialize (Hg (Z.of_nat i)). rewrite Nat2Z.id in Hg. lia.
    + rewrite nth_overflow.
      * cbn. lia.
      * rewrite length_map. unfold range. rewrite length_map, length_seq.
        unfold len. lia.
Qed.

(** X22 (a negative modulator and the lowest value): for an unlocked 16- or
    32-bit sample of whole sample values that holds the lowest value of its
    width, [modulate_amp] with a one-element list holding a negative number
    scales by -1, the negated lowest value does not fit the array, and the
    call ends in an [OverflowError] with the sample left as it was. *)
Theorem modulate_amp_overflows (s : Sample.t) (m : Z) :
  locked s = false ->
  samplewidth s = 2 \/ samplewidth s = 4 ->
  len (frames s) mod samplewidth s = 0 ->
  m < 0 -> Z.abs m <= 2 ^ 53 ->
  In (audioop.minval (samplewidth s)) (values s) ->
  modulate_amp (ModList [m]) s = (s, Raise OverflowError).
Proof.
  intros Hl Hw Hn Hm Hm53 Hin.
  set (w := samplewidth s) in *.
  assert (Hw' : 1 <= w <= 4) by (destruct Hw as [E|E]; rewrite E; lia).
  assert (Hvals : Forall (in_range w) (values s)) by (apply samples_in_range; lia).
  pose proof (range_bounds w ltac:(lia)) as (Hmin & Hmax & Heq & _).
  unfold modulate_amp, bind, assert_unlocked, get, lift, modify.
  rewrite Hl. rewrite get_frame_array_ok by assumption. fold w.
  cbn [seq_max seq_min fold_left].
  replace (Z.max m (Z.abs m)) with (- m) by lia.
  assert (Eq : (fdiv (inject_Z m) (inject_Z (- m)) == inject_Z (-1))%Q).
  { apply fdiv_exact; [lia|ring|cbn; lia]. }
  assert (Estep : forall i,
            (if - m =? 0 then Raise ZeroDivisionError
             else array.checked_item w
                    (Qtrunc (fmul (inject_Z (nth (Z.to_nat i) (values s) 0))
                                  (fdiv (inject_Z (nth (Z.to_nat (i mod len [m])) [m] 0))
                                        (inject_Z (- m))))))
            = array.checked_item w (- nth (Z.to_nat i) (values s) 0)).
  { intros i.
    replace (- m =? 0) with false by (symmetry; apply Z.eqb_neq; lia).
    change (len [m]) with 1. rewrite Z.mod_1_r. cbn [Z.to_nat nth].
    f_equal.
    assert (Hv : in_range w (nth (Z.to_nat i) (values s) 0)).
    { destruct (Nat.lt_ge_cases (Z.to_nat i) (length (values s))) as [Hj|Hj].
      - rewrite Forall_forall in Hvals. apply Hvals. now apply nth_In.
      - rewrite nth_overflow by exact Hj. apply in_range_0; lia. }
    pose proof (in_range_53 w _ Hw' Hv) as H53.
    rewrite <- (Qtrunc_inject_Z (- nth (Z.to_nat i) (values s) 0)).
    apply Qtrunc_comp. rewrite Eq.
    rewrite fmul_int by lia.
    now replace (nth (Z.to_nat i) (values s) 0 * -1)
      with (- nth (Z.to_nat i) (values s) 0) by ring. }
  rewrite (mapM_some_raise _ _ OverflowError); [reflexivity| |].
  - intros i _. rewrite Estep.
    destruct (in_range_dec w (- nth (Z.to_nat i) (values s) 0)) as [H|H].
    + left. eexists. now apply checked_item_ok.
    + right. now apply checked_item_overflow.
  - apply In_nth with (d := 0) in Hin as (j & Hj & Ej).
    exists (Z.of_nat j). split.
    + apply in_range_iff. unfold len. lia.
    + rewrite Estep, Nat2Z.id, Ej. apply checked_item_overflow.
      unfold in_range. lia.
Qed.

(** X23 (a copy at full volume equals the sample): for a sample of whole
    sample values, locked or not, [at_volume(1.0)] returns an unlocked sample
    that compares equal to the receiver under [==], in both directions. *)
Theorem at_volume_one_equals (s : Sample.t) :
  1 <= samplewidth s <= 4 -> len (frames s) mod samplewidth s = 0 ->
  exists cpy,
    at_volume 1 s = (s, Ok cpy) /\
    locked cpy = false /\
    eqb cpy s = true /\ eqb s cpy = true.
Proof.
  intros Hw Hn.
  exists (mkSample (frames s) (samplewidth s) (samplerate s) (nchannels s) false
                   (filename s)).
  split; [|split; [reflexivity|]].
  - unfold at_volume, bind, get, lift, on, ret. rewrite copy_ok.
    erewrite amplify_unlocked; [reflexivity|reflexivity|].
    simpl_state. now apply mul_one_frames.
  - unfold eqb. simpl_state. now rewrite !Z.eqb_refl, bytes_eqb_refl.
Qed.

End Modulation.

(** X24 (how [modulate_amp] fails): on an unlocked sample, a 24-bit sample
    is a [KeyError] whatever the modulator; for a 16- or 32-bit sample of
    whole sample values, an empty list is a [ValueError], and a list of zeros
    is a [ZeroDivisionError] when the sample has values, but goes through
    when it has none.  In every case the sample is left as it was. *)
Theorem modulate_amp_errors {FR : Rounding} (s : Sample.t) :
  locked s = false ->
  (samplewidth s = 3 ->
   forall md, modulate_amp md s = (s, Raise KeyError)) /\
  (samplewidth s = 2 \/ samplewidth s = 4 ->
   len (frames s) mod samplewidth s = 0 ->
   modulate_amp (ModList []) s = (s, Raise ValueError) /\
   forall wave, wave <> [] -> Forall (fun m => m = 0) wave ->
     (frames s <> [] ->
      modulate_amp (ModList wave) s = (s, Raise ZeroDivisionError)) /\
     (frames s = [] -> modulate_amp (ModList wave) s = (s, Ok tt))).
Proof.
  intros Hl. split.
  - intros Hw md. unfold modulate_amp, bind, assert_unlocked, get, lift.
    rewrite Hl. unfold get_frame_array, get_array. rewrite Hw. reflexivity.
  - intros Hw Hn. split.
    + unfold modulate_amp, bind, assert_unlocked, get, lift.
      rewrite Hl. rewrite get_frame_array_ok by assumption. reflexivity.
    + intros wave Hne Hz.
      assert (Hw' : 1 <= samplewidth s <= 4) by (destruct Hw as [E|E]; rewrite E; lia).
      destruct (wave_extremes wave Hne) as (hi & lo & Ehi & Elo & Ihi & Ilo & _).
      rewrite Forall_forall in Hz.
      pose proof (Hz hi Ihi) as Zhi. pose proof (Hz lo Ilo) as Zlo. subst hi lo.
      split.
      * intros Hf.
        assert (Hpos : 0 < len (values s)).
        { unfold values. rewrite len_samples by lia.
          apply Z.mod_divide in Hn; [|lia]. destruct Hn as [k Hk].
          rewrite Hk, Z.div_mul by lia.
          assert (0 < len (frames s))
            by (destruct (frames s); [congruence|unfold len; cbn; lia]).
          nia. }
        destruct (range_cons (len (values s)) Hpos) as [t Et].
        unfold modulate_amp, bind, assert_unlocked, get, lift.
        rewrite Hl. rewrite get_frame_array_ok by assumption.
        rewrite Ehi, Elo, Et. reflexivity.
      * intros Hf.
        unfold modulate_amp, bind, assert_unlocked, get, lift, modify.
        rewrite Hl. rewrite get_frame_array_ok by assumption.
        rewrite Ehi, Elo. unfold values. rewrite Hf.
        destruct Hw as [E|E]; rewrite E; cbn; destruct s; cbn in *; now subst.
Qed.

Lemma modulate_amp_never_louder_witness :
  let s := sample_of 2 44100 1 [100; -200; 32767] in
  let wave := [1; -2; 0] in
  exists s',
    modulate_amp (FR := exact) (ModList wave) s = (s', Ok tt) /\
    same_format s s' /\
    length (values s') = length (values s) /\
    forall i, Z.abs (nth i (values s') 0) <= Z.abs (nth i (values s) 0).
Proof.
  cbv zeta.
  apply (modulate_amp_never_louder (FR := exact) (SM := exact_standard)).
  - reflexivity.
  - now left.
  - reflexivity.
  - repeat constructor; vm_compute; discriminate.
  - repeat constructor; vm_compute; discriminate.
  - exists 1. split; [now left|discriminate].
Defined.

Lemma modulate_amp_overflows_witness :
  let s := sample_of 2 44100 1 [100; -32768] in
  modulate_amp (FR := exact) (ModList [-7]) s = (s, Raise OverflowError).
Proof.
  cbv zeta.
  apply (modulate_amp_overflows (FR := exact) (SM := exact_standard)).
  - reflexivity.
  - now left.
  - reflexivity.
  - reflexivity.
  - vm_compute. discriminate.
  - vm_compute. right. now left.
Defined.

Lemma at_volume_one_equals_witness :
  let s := fst (lock (sample_of 2 44100 1 [100; -32768])) in
  exists cpy,
    at_volume (FR := exact) 1 s = (s, Ok cpy) /\
    locked cpy = false /\
    eqb cpy s = true /\ eqb s cpy = true.
Proof.
  cbv zeta. apply (at_volume_one_equals (FR := exact) (SM := exact_standard)).
  - vm_compute. split; discriminate.
  - reflexivity.
Defined.

Lemma modulate_amp_errors_witness :
  let s := sample_of 3 44100 1 [100; -200] in
  (samplewidth s = 3 ->
   forall md, modulate_amp (FR := exact) md s = (s, Raise KeyError)) /\
  (samplewidth s = 2 \/ samplewidth s = 4 ->
   len (frames s) mod samplewidth s = 0 ->
   modulate_amp (FR := exact) (ModList []) s = (s, Raise ValueError) /\
   forall wave, wave <> [] -> Forall (fun m => m = 0) wave ->
     (frames s <> [] ->
      modulate_amp (FR := exact) (ModList wave) s = (s, Raise ZeroDivisionError)) /\
     (frames s = [] -> modulate_amp (FR := exact) (ModList wave) s = (s, Ok tt))).
Proof.
  cbv zeta. apply (modulate_amp_errors (FR := exact)). reflexivity.
Defined.

End ModulationFacts.

(** ** The fades never amplify *)

Module FadeBoundFacts.
Import Sample BytesFacts AudioopFacts CopyFacts LengthFacts RoundingFacts
       RoundingProper InvariantFacts FadeFacts EnvelopeFacts ValueFacts
       ModulationFacts.
Local Open Scope method_scope.
Local Abbreviation length := List.length.

Section Bounds.
Context {FR : Rounding} {SM : StandardModel FR}.




End Bounds.


End FadeBoundFacts.

(** ** Echo *)

Module EchoFacts.
Import Sample BytesFacts AudioopFacts CopyFacts MixFacts LengthFacts
       RoundingFacts RoundingProper Hoare InvariantFacts FadeFacts
       EnvelopeFacts ValueFacts BufferFacts ComposeFacts.
Local Open Scope method_scope.
Local Abbreviation length := List.length.

Section Echo.
Context {FR : Rounding} {SM : StandardModel FR}.

Lemma frame_idx_nonneg (s : Sample.t) (seconds : Q) :
  wf s -> (0 <= seconds)%Q -> 0 <= frame_idx s seconds.
Proof.
  intros [(Hw & Hc & Hr) _] H. unfold frame_idx.
  assert (0 <= Qtrunc (fmul (inject_Z (samplerate s)) seconds)).
  { apply Qtrunc_ge; [lia|]. change (inject_Z 0) with 0%Q.
    unfold fmul. apply rnd_nonneg.
    apply Qmult_le_0_compat; [apply inject_Z_nonneg; lia|exact H]. }
  nia.
Qed.

Lemma mix_padded_returns (other s : Sample.t) :
  wf s -> wf other -> same_format s other -> locked s = false ->
  returns (mix other None true) s
          (fun _ s' => locked s' = false /\ len (frames s) <= len (frames s')).
Proof.
  intros Hs Ho (Ew & Er & Ec) Hl.
  pose proof (wf_pos s Hs) as Hp.
  assert (Hw : 1 <= samplewidth s <= 4) by (destruct Hs as [(H & _) _]; lia).
  assert (Hn : len (frames s) mod samplewidth s = 0)
    by (apply multiple_of_width; [exact Hs|apply Hs]).
  assert (Hno : len (frames other) mod samplewidth s = 0).
  { rewrite <- Ew. apply multiple_of_width; [exact Ho|apply Ho]. }
  unfold returns. rewrite mix_unfold by (assumption || (symmetry; assumption)).
  cbv zeta.
  assert (Hz : forall k, 0 <= k -> k mod samplewidth s = 0 ->
                         len (zeros k) mod samplewidth s = 0).
  { intros k Hk Hkw. rewrite len_zeros. now rewrite Z.max_r by lia. }
  destruct (Z.ltb_spec (len (frames s)) (len (frames other))) as [Hlt|Hge].
  - cbn [fst snd].
    assert (Hd : (len (frames other) - len (frames s)) mod samplewidth s = 0).
    { rewrite Zminus_mod, Hn, Hno. now rewrite Z.mod_0_l by lia. }
    destruct (add_ok (frames s ++ zeros (len (frames other) - len (frames s)))
                     (frames other) (samplewidth s) Hw) as (f & Ef & _ & Lf).
    + rewrite len_app, Z.add_mod, Hn, Hz by lia. now rewrite Z.mod_0_l by lia.
    + rewrite len_app, len_zeros. lia.
    + rewrite Ef. eexists _, _. split; [reflexivity|]. simpl_state.
      split; [exact Hl|]. rewrite Lf, len_app, len_zeros. lia.
  - destruct (Z.ltb_spec (len (frames other)) (len (frames s))) as [Hlt|Hge'].
    + cbn [fst snd].
      assert (Hd : (len (frames s) - len (frames other)) mod samplewidth s = 0).
      { rewrite Zminus_mod, Hn, Hno. now rewrite Z.mod_0_l by lia. }
      destruct (add_ok (frames s)
                       (frames other ++ zeros (len (frames s) - len (frames other)))
                       (samplewidth s) Hw Hn) as (f & Ef & _ & Lf).
      * rewrite len_app, len_zeros. lia.
      * rewrite Ef. eexists _, _. split; [reflexivity|]. simpl_state.
        split; [exact Hl|]. lia.
    + cbn [fst snd].
      destruct (add_ok (frames s) (frames other) (samplewidth s) Hw Hn)
        as (f & Ef & _ & Lf); [lia|].
      rewrite Ef. eexists _, _. split; [reflexivity|]. simpl_state.
      split; [exact Hl|]. lia.
Qed.

Lemma mix_at_returns (seconds : Q) (other s : Sample.t) :
  wf s -> wf other -> same_format s other -> locked s = false ->
  0 <= frame_idx s seconds ->
  returns (mix_at seconds other None) s
          (fun _ s' => locked s' = false /\ len (frames s) <= len (frames s')).
Proof.
  intros Hs Ho Hf Hl Hi.
  destruct (Qeq_bool seconds 0) eqn:E.
  - unfold mix_at. rewrite E. now apply mix_padded_returns.
  - pose proof Hf as (Ew & Er & Ec).
    assert (Hw : 1 <= samplewidth s <= 4) by (destruct Hs as [(H & _) _]; lia).
    assert (Hno : len (frames other) mod samplewidth s = 0).
    { rewrite <- Ew. apply multiple_of_width; [exact Ho|apply Ho]. }
    destruct (mix_at_grows s other seconds) as (s' & E' & _ & L' & N');
      try assumption; try (symmetry; assumption).
    + intros H. apply Qeq_bool_iff in H. congruence.
    + exists s', tt. split; [exact E'|]. split; [exact L'|]. lia.
Qed.

Lemma echo_loop_returns (amount : nat) :
  forall (length echo_amp delay decay : Q) (echo s : Sample.t),
    wf s -> wf echo -> same_format s echo -> locked s = false ->
    (0 <= length)%Q -> (0 <= delay)%Q ->
    returns (echo_loop amount length echo_amp delay decay echo) s
            (fun _ s' => locked s' = false /\ len (frames s) <= len (frames s')).
Proof.
  induction amount as [|n IH];
    intros length echo_amp delay decay echo s Hs He Hf Hl H0 Hd; cbn [echo_loop].
  - apply r_ret. split; [exact Hl|lia].
  - apply r_get.
    destruct (Qltb echo_amp _); [apply r_ret; split; [exact Hl|lia]|].
    eapply r_lift; [apply copy_ok|].
    set (cpy := mkSample (frames echo) (samplewidth echo) (samplerate echo)
                         (nchannels echo) false (filename echo)).
    assert (Wc : wf cpy) by exact He.
    eapply r_on.
    { apply (r_with _ _ _ _ (amplify_returns echo_amp cpy Wc eq_refl)
                    (amplify_wf echo_amp cpy Wc)). }
    intros [] echo' (Le & We & Fe & _). cbn [fst].
    assert (Hfe : same_format s echo').
    { destruct Hf as (A & B & C). destruct Fe as (A' & B' & C').
      unfold cpy in *. cbn in A', B', C'. repeat split; congruence. }
    assert (Hlen : (0 <= fadd length delay)%Q).
    { unfold fadd. apply rnd_nonneg.
      apply Qle_trans with (0 + 0)%Q; [apply Qle_refl|].
      now apply Qplus_le_compat. }
    eapply r_bind.
    { apply (r_with _ _ _ _
               (mix_at_returns (fadd length delay) echo' s Hs We Hfe Hl
                  (frame_idx_nonneg s _ Hs Hlen))
               (mix_at_wf (fadd length delay) echo' None s Hs We)). }
    intros [] s1 ((L1 & N1) & W1 & F1).
    eapply r_post.
    + apply IH; try assumption.
      destruct F1 as (A & B & C). destruct Hfe as (A' & B' & C').
      repeat split; congruence.
    + intros [] s' (L' & N'). split; [exact L'|lia].
Qed.

(** X26 ([echo] goes through and never shortens the sample): for an unlocked
    sample of a valid format and whole frames, a length and a delay that are
    not negative, a decay between 0 and 1 and a number of echos the last of
    which starts within 2^52 frames, [echo] returns; the result has the same
    format, is made of whole frames, and its buffer is at least as long as it
    was. *)
Theorem echo_never_shortens (s : Sample.t) (length : Q) (amount : Z)
        (delay decay : Q) :
  wf s -> locked s = false -> echo_fits s length amount delay decay ->
  exists s',
    echo length amount delay decay s = (s', Ok tt) /\
    wf s' /\ same_format s s' /\
    len (frames s) <= len (frames s').
Proof.
  intros Hs Hl (_ & _ & Hd & _).
  assert (R : returns (echo length amount delay decay) s
                      (fun _ s' => locked s' = false /\
                                   len (frames s) <= len (frames s'))).
  { unfold echo. apply r_assert_unlocked; [exact Hl|].
    destruct (0 <? amount); [|apply r_ret; split; [exact Hl|lia]].
    apply r_get. destruct (duration_ok s Hs) as [dur Edur].
    eapply r_lift; [exact Edur|].
    eapply r_lift; [apply copy_ok|].
    pose proof (wf_pos s Hs) as Hp.
    apply echo_loop_returns; try assumption.
    - apply (wf_same_format s); [exact Hs|repeat split|].
      cbn [with_frames frames].
      apply aligned_slice_from; auto; [apply Hs|apply frame_idx_multiple].
    - repeat split.
    - unfold pymax, Qltb.
      destruct (Qle_bool (fsub dur length) 0) eqn:B; cbn [negb]; [apply Qle_refl|].
      destruct (Qlt_le_dec 0 (fsub dur length)) as [H|H];
        [now apply Qlt_le_weak|].
      apply Qle_bool_iff in H. congruence. }
  destruct (r_with _ _ _ _ R (echo_wf length amount delay decay s Hs))
    as (s' & [] & E & (_ & N) & W & F).
  exists s'. split; [exact E|]. split; [exact W|]. split; [exact F|exact N].
Qed.

End Echo.

Lemma echo_never_shortens_witness :
  let s := sample_of 2 4 1 [1000; -2000; 3000; 4000] in
  exists s',
    echo (FR := exact) (1 # 2) 2 (1 # 4) (1 # 2) s = (s', Ok tt) /\
    wf s' /\ same_format s s' /\
    len (frames s) <= len (frames s').
Proof.
  cbv zeta. apply (echo_never_shortens (FR := exact) (SM := exact_standard)).
  - repeat split; vm_compute; discriminate || reflexivity.
  - reflexivity.
  - repeat split; vm_compute; discriminate.
Defined.

End EchoFacts.

(** ** The command line *)

Module ScriptFacts.
Import String trackmixer.

(** X27 (when the script reaches [main]): the script calls [main] in exactly
    two cases: with one argument that is not [-i], the track file, and then
    with the output file named after it with the extension [.wav] and not
    interactive; and with [-i] followed by the track file, and then
    interactive and without an output file.  Every other argument list ends
    in [usage()]. *)
Theorem script_reaches_main
        (splitext : String.string -> String.string * String.string)
        (argv : list String.string) (track : String.string)
        (out : option String.string) (interactive : bool) :
  script splitext argv = Main track out interactive <->
  (exists prog, argv = [prog; track] /\ track <> "-i"%string /\
                out = Some (String.append (fst (splitext track)) ".wav"%string) /\
                interactive = false) \/
  (exists prog, argv = [prog; "-i"%string; track] /\
                out = None /\ interactive = true).
Proof.
  split.
  - destruct argv as [|p [|a1 [|a2 [|a3 rest]]]]; try (cbn; discriminate).
    + unfold script. cbn [len List.length Z.of_nat Pos.of_succ_nat Pos.succ
                          Z.eqb Pos.eqb orb negb nth].
      destruct (String.eqb_spec a1 "-i"); [discriminate|].
      intros H. injection H as <- <- <-. left. exists p. auto.
    + unfold script. cbn [len List.length Z.of_nat Pos.of_succ_nat Pos.succ
                          Z.eqb Pos.eqb orb negb nth].
      destruct (String.eqb_spec a1 "-i"); cbn [negb]; [|discriminate].
      intros H. injection H as <- <- <-. right. exists p. subst a1. auto.
    + unfold script.
      replace (len (p :: a1 :: a2 :: a3 :: rest) =? 2) with false
        by (symmetry; apply Z.eqb_neq; unfold len; cbn [List.length]; lia).
      replace (len (p :: a1 :: a2 :: a3 :: rest) =? 3) with false
        by (symmetry; apply Z.eqb_neq; unfold len; cbn [List.length]; lia).
      discriminate.
  - intros [(prog & -> & Hne & -> & ->)|(prog & -> & -> & ->)].
    + unfold script. cbn [len List.length Z.of_nat Pos.of_succ_nat Pos.succ
                          Z.eqb Pos.eqb orb negb nth].
      destruct (String.eqb_spec track "-i"); [contradiction|reflexivity].
    + reflexivity.
Qed.

End ScriptFacts.
